(** * PokeMCP battle engine: a shallow embedding and its properties

    The development follows the enhanced server (the English-language
    [index.ts] with status conditions, weather, items and a battle log) and
    its [types.ts].  The older Turkish-language [src/index.ts] is embedded
    in [Module Legacy]; where a property is about code both copies have, it
    is stated for both.

    Numbers.  TypeScript's [number] is an IEEE double.  The model keeps its
    special values ([NaN], [Infinity], [-Infinity]) and their arithmetic,
    because the engine can reach them (a zero defense stat), and holds a
    finite value as a rational.  [calculateDamage], [isMoveHit] and
    [getRandomItem], whose results depend on it, compute as the doubles
    do: every sum, product and quotient is rounded to the nearest double,
    ties to even, and overflows to an infinity ([JS.double], written [+~],
    [*~] and [/~]).  The rest of the engine's arithmetic (hit points,
    counters, the upkeep damage, the index of the opponent's move) is
    taken exactly ([+], [-], [*]); on integers below 2^53 the two agree,
    and the index is in range either way ([SelectionFacts]).  The sign of
    zero is not modelled.

    Type tags.  The type chart is an object literal indexed by the tags the
    catalog supplies, so a lookup also finds what the literal inherits from
    [Object.prototype]; [Engine.chartLookup] follows the inheritance, up to
    the two properties of a built-in function that throw when read, which
    make [calculateTypeEffectiveness] and [calculateDamage] throw.

    Effects.  A call is a function from the state it works on to how it
    completes (a value, or what it threw) and the state it leaves: a
    [throw] keeps the assignments made before it.  [Math.random()] reads
    the next value of a stream held in the state, and the catalog service
    is the list of answers it will give to the requests to come.

    Layout.  [JS]: numbers, array subscripts, strings.  The data model.
    [Engine]: type chart, upkeep, damage, turn resolution.  [Catalog] and
    [Server]: hydration and the three battle tools.  [Legacy]: the older
    copy.  [Formula]: the damage formula in the words of the design.
    [Props]: predicates, Hoare triples, reachable worlds.  [Fixtures]:
    concrete combatants and worlds.  [Pokedex]: the two Pokédex helpers
    that stand alone.  [Views]: what a turn leaves alone, what the tools
    keep true, the older engine's view of a battle, dependable catalogs.
    [Samples]: further examples.  Then the lemmas and the theorems: first
    those about the claims of the design, then, from [SelectionFacts] on,
    further properties of the code. *)

From Stdlib Require Import ZArith QArith Qround Qreduction Qpower Qabs.
From Stdlib Require Qcanon.
From Stdlib Require Import List Permutation String Ascii Bool Lia Lqa DecimalString.
Import ListNotations.

(* ================================================================== *)
(** ** JavaScript numbers *)
(* ================================================================== *)

Module JS.

Inductive number : Type :=
| Fin (q : Q)
| Inf (negative : bool)
| NaN.

Definition ofZ (z : Z) : number := Fin (inject_Z z).

(** The integer a number is, for reading integer literals back. *)
Definition toZ (a : number) : option Z :=
  match a with
  | Fin (Qmake z xH) => Some z
  | _ => None
  end.

Definition Infinity : number := Inf false.

(** Sign of a finite value: [Lt], [Eq] or [Gt] against 0. *)
Definition Qsign (q : Q) : comparison := (Qnum q ?= 0)%Z.

Definition neg (a : number) : number :=
  match a with
  | Fin q => Fin (Qred (- q))
  | Inf s => Inf (negb s)
  | NaN => NaN
  end.

Definition add (a b : number) : number :=
  match a, b with
  | NaN, _ | _, NaN => NaN
  | Fin x, Fin y => Fin (Qred (x + y))
  | Fin _, Inf s | Inf s, Fin _ => Inf s
  | Inf s, Inf t => if Bool.eqb s t then Inf s else NaN
  end.

Definition sub (a b : number) : number := add a (neg b).

Definition mul (a b : number) : number :=
  match a, b with
  | NaN, _ | _, NaN => NaN
  | Fin x, Fin y => Fin (Qred (x * y))
  | Fin x, Inf s | Inf s, Fin x =>
      match Qsign x with
      | Eq => NaN
      | Gt => Inf s
      | Lt => Inf (negb s)
      end
  | Inf s, Inf t => Inf (xorb s t)
  end.

(** Division: a finite value over zero is an infinity of the dividend's
    sign, and [0 / 0] is [NaN]. *)
Definition div (a b : number) : number :=
  match a, b with
  | NaN, _ | _, NaN => NaN
  | Fin x, Fin y =>
      match Qsign y with
      | Eq =>
          match Qsign x with
          | Eq => NaN
          | Gt => Inf false
          | Lt => Inf true
          end
      | _ => Fin (Qred (x / y))
      end
  | Fin _, Inf _ => Fin 0
  | Inf s, Fin y =>
      match Qsign y with
      | Lt => Inf (negb s)
      | _ => Inf s
      end
  | Inf _, Inf _ => NaN
  end.

(** *** Doubles

    [double q] is the double nearest to the rational [q]: 53 significant
    bits, exponents from -1022 to 1023 with the subnormals below, ties to
    the even significand, and an infinity from 2^1024 - 2^970 on. *)

Definition pow2 (k : Z) : Q := Qpower 2 k.

(** [floor(log2 q)], for [q > 0]. *)
Definition ilog2 (q : Q) : Z :=
  let e := (Z.log2 (Qnum q) - Z.log2 (Zpos (Qden q)))%Z in
  if Qle_bool (pow2 e) q then e else (e - 1)%Z.

(** The integer nearest to [x], the even one of two that are equally near. *)
Definition nearestEven (x : Q) : Z :=
  let f := Qfloor x in
  match (x - inject_Z f ?= 1 # 2)%Q with
  | Lt => f
  | Gt => (f + 1)%Z
  | Eq => if Z.even f then f else (f + 1)%Z
  end.

(** The exponent of the last place of the doubles around [q > 0]: 52 below
    the exponent of [q], and that of the subnormals at least. *)
Definition quantum (q : Q) : Z := (Z.max (ilog2 q) (-1022) - 52)%Z.

(** [q > 0] rounded to a multiple of its quantum. *)
Definition roundPos (q : Q) : Q :=
  let k := quantum q in
  (inject_Z (nearestEven (q / pow2 k)) * pow2 k)%Q.

Definition doublePos (q : Q) : number :=
  let r := roundPos q in
  if Qle_bool (pow2 1024) r then Inf false else Fin (Qred r).

Definition double (q : Q) : number :=
  match Qsign q with
  | Eq => Fin 0
  | Gt => doublePos q
  | Lt => neg (doublePos (- q))
  end.

(** The double an exact result is stored as. *)
Definition rounded (a : number) : number :=
  match a with
  | Fin q => double q
  | other => other
  end.

(** [a + b], [a * b] and [a / b] as the language computes them. *)
Definition fadd (a b : number) : number := rounded (add a b).
Definition fmul (a b : number) : number := rounded (mul a b).
Definition fdiv (a b : number) : number := rounded (div a b).

(** [Math.floor]. *)
Definition floor (a : number) : number :=
  match a with
  | Fin q => ofZ (Qfloor q)
  | other => other
  end.

(** [a <= b]; every comparison with [NaN] is false. *)
Definition leb (a b : number) : bool :=
  match a, b with
  | NaN, _ | _, NaN => false
  | Fin x, Fin y => Qle_bool x y
  | Fin _, Inf s => negb s
  | Inf s, Fin _ => s
  | Inf s, Inf t => s || negb t
  end.

(** [a < b]. *)
Definition ltb (a b : number) : bool :=
  match a, b with
  | NaN, _ | _, NaN => false
  | Fin x, Fin y => negb (Qle_bool y x)
  | Fin _, Inf s => negb s
  | Inf s, Fin _ => s
  | Inf s, Inf t => s && negb t
  end.

(** [a > b] is [b < a]. *)
Definition gtb (a b : number) : bool := ltb b a.

Definition isNaN (a : number) : bool :=
  match a with NaN => true | _ => false end.

(** [Math.max(a, b)] and [Math.min(a, b)]: [NaN] when an argument is. *)
Definition max (a b : number) : number :=
  if isNaN a || isNaN b then NaN else if ltb a b then b else a.

Definition min (a b : number) : number :=
  if isNaN a || isNaN b then NaN else if ltb b a then b else a.

(** Truthiness of a number: false for [0] and [NaN]. *)
Definition truthy (a : number) : bool :=
  match a with
  | Fin q => match Qsign q with Eq => false | _ => true end
  | Inf _ => true
  | NaN => false
  end.

(** [x || d] for a property that may be absent. *)
Definition orDefault (x : option number) (d : number) : number :=
  match x with
  | Some v => if truthy v then v else d
  | None => d
  end.

(** The index a number denotes as an array subscript: a non-negative
    integer, or none (a fraction, a negative, [NaN], an infinity name no
    element). *)
Definition arrayIndex (a : number) : option nat :=
  match a with
  | Fin q =>
      if Qeq_bool q (inject_Z (Qfloor q)) && (0 <=? Qfloor q)%Z
      then Some (Z.to_nat (Qfloor q)) else None
  | _ => None
  end.

(** [arr[i]]: [None] stands for [undefined]. *)
Definition subscript {A : Type} (arr : list A) (i : number) : option A :=
  match arrayIndex i with
  | Some n => nth_error arr n
  | None => None
  end.

(** [arr.length]. *)
Definition length {A : Type} (arr : list A) : number :=
  ofZ (Z.of_nat (List.length arr)).

(** [arr.splice(i, 1)] on an index already known to hold an element. *)
Fixpoint removeAt {A : Type} (n : nat) (arr : list A) : list A :=
  match n, arr with
  | _, [] => []
  | O, _ :: rest => rest
  | S k, x :: rest => x :: removeAt k rest
  end.

Definition newline : string := String (ascii_of_nat 10) EmptyString.

(** [String(n)] as template literals apply it.  Integers (below 10^21,
    where JavaScript turns to exponents), [NaN] and the infinities print as
    in JavaScript; a fraction, which JavaScript prints as the shortest
    decimal that reads back as the same double, is written here as
    numerator, slash, denominator. *)
Definition toString (a : number) : string :=
  match a with
  | NaN => "NaN"
  | Inf false => "Infinity"
  | Inf true => "-Infinity"
  | Fin q =>
      let r := Qred q in
      match Qden r with
      | xH => NilZero.string_of_int (Z.to_int (Qnum r))
      | d => NilZero.string_of_int (Z.to_int (Qnum r)) ++ "/"
             ++ NilZero.string_of_int (Z.to_int (Zpos d))
      end
  end.

(** [lines.join(sep)]. *)
Fixpoint join (sep : string) (lines : list string) : string :=
  match lines with
  | [] => ""
  | [l] => l
  | l :: rest => l ++ sep ++ join sep rest
  end.

(** What a [throw] carries. *)
Inductive exn : Type :=
| TypeError (message : string)
| Error (message : string).

(** [error.message]. *)
Definition message (e : exn) : string :=
  match e with
  | TypeError m => m
  | Error m => m
  end.

End JS.

Abbreviation number := JS.number.
Abbreviation NaN := JS.NaN.

Declare Scope js_scope.
Delimit Scope js_scope with js.
Bind Scope js_scope with JS.number.
Infix "+" := JS.add : js_scope.
Infix "-" := JS.sub : js_scope.
Infix "*" := JS.mul : js_scope.
Infix "/" := JS.div : js_scope.
Infix "+~" := JS.fadd (at level 50, left associativity) : js_scope.
Infix "*~" := JS.fmul (at level 40, left associativity) : js_scope.
Infix "/~" := JS.fdiv (at level 40, left associativity) : js_scope.
Infix "<=?" := JS.leb : js_scope.
Infix "<?" := JS.ltb : js_scope.
Infix ">?" := JS.gtb : js_scope.

(** Integer literals of the source. *)
Number Notation JS.number JS.ofZ JS.toZ : js_scope.

(* ================================================================== *)
(** ** Data model ([types.ts]) *)
(* ================================================================== *)

(** [PokemonType]: [{ type: { name } }]. *)
Module PokemonType.
Record t : Type := { type_name : string }.
End PokemonType.

Module BattleStats.
Record t : Type := {
  hp : number;
  attack : number;
  defense : number;
  specialAttack : number;
  specialDefense : number;
  speed : number }.
End BattleStats.

(** [BattleMove]: the single [type] field holds what the catalog calls the
    move's type; [calculateDamage] reads it both as the category (compared
    with "physical") and as the key into the type chart. *)
Module BattleMove.
Record t : Type := {
  name : string;
  power : number;
  accuracy : number;
  type : string;
  pp : number }.
End BattleMove.

Inductive StatusType : Type := StNone | Burn | Poison | Paralyze | Sleep.

Module PokemonStatus.
Record t : Type := { type : StatusType; turnsLeft : number }.
End PokemonStatus.

Inductive StatName : Type :=
| StatAttack | StatDefense | StatSpecialAttack | StatSpecialDefense | StatSpeed.

Module ItemEffect.
Record t : Type := {
  heal : option number;
  status : option StatusType;
  statBoost : option (StatName * number) }.
End ItemEffect.

Module BattleItem.
Record t : Type := { name : string; effect : ItemEffect.t }.
End BattleItem.

Inductive WeatherType : Type := WNone | Sunny | Rainy | Sandstorm | Hail.

Module BattleWeather.
Record t : Type := { type : WeatherType; turnsLeft : number }.
End BattleWeather.

Module StatModifiers.
Record t : Type := {
  attack : number;
  defense : number;
  specialAttack : number;
  specialDefense : number;
  speed : number }.
End StatModifiers.

Module BattlePokemon.
Record t : Type := {
  id : number;
  name : string;
  level : number;
  types : list PokemonType.t;
  stats : BattleStats.t;
  moves : list BattleMove.t;
  currentHp : number;
  status : PokemonStatus.t;
  statModifiers : StatModifiers.t;
  experience : number;
  items : list BattleItem.t }.

(** Assignments to one field of the object. *)
Definition setCurrentHp (v : number) (p : t) : t :=
  {| id := id p; name := name p; level := level p; types := types p;
     stats := stats p; moves := moves p; currentHp := v;
     status := status p; statModifiers := statModifiers p;
     experience := experience p; items := items p |}.

Definition setStatus (v : PokemonStatus.t) (p : t) : t :=
  {| id := id p; name := name p; level := level p; types := types p;
     stats := stats p; moves := moves p; currentHp := currentHp p;
     status := v; statModifiers := statModifiers p;
     experience := experience p; items := items p |}.

Definition setItems (v : list BattleItem.t) (p : t) : t :=
  {| id := id p; name := name p; level := level p; types := types p;
     stats := stats p; moves := moves p; currentHp := currentHp p;
     status := status p; statModifiers := statModifiers p;
     experience := experience p; items := v |}.
End BattlePokemon.

Module BattleState.
Record t : Type := {
  playerPokemon : BattlePokemon.t;
  opponentPokemon : BattlePokemon.t;
  turn : number;
  weather : BattleWeather.t;
  status : string;
  battleLog : list string }.

Definition setPlayerPokemon (v : BattlePokemon.t) (s : t) : t :=
  {| playerPokemon := v; opponentPokemon := opponentPokemon s;
     turn := turn s; weather := weather s; status := status s;
     battleLog := battleLog s |}.

Definition setOpponentPokemon (v : BattlePokemon.t) (s : t) : t :=
  {| playerPokemon := playerPokemon s; opponentPokemon := v;
     turn := turn s; weather := weather s; status := status s;
     battleLog := battleLog s |}.

Definition setTurn (v : number) (s : t) : t :=
  {| playerPokemon := playerPokemon s; opponentPokemon := opponentPokemon s;
     turn := v; weather := weather s; status := status s;
     battleLog := battleLog s |}.

Definition setBattleLog (v : list string) (s : t) : t :=
  {| playerPokemon := playerPokemon s; opponentPokemon := opponentPokemon s;
     turn := turn s; weather := weather s; status := status s;
     battleLog := v |}.

(** [state.battleLog.push(line)]. *)
Definition push (line : string) (s : t) : t :=
  setBattleLog (List.app (battleLog s) [line]) s.
End BattleState.

(** What the catalog answers for [/pokemon/{id}], as far as the engine
    reads it.  The move and stat entries are read through [any], so a
    property may be absent. *)
Module Api.
Record move : Type := {
  move_name : string;
  move_power : option number;
  move_accuracy : option number;
  move_type : option string;
  move_pp : option number }.

Record pokemon : Type := {
  id : number;
  name : string;
  types : list PokemonType.t;
  moves : list move;
  base_stats : list number }.
End Api.

(* ================================================================== *)
(** ** Computations that mutate state and may throw *)
(* ================================================================== *)

(** How a call completes.  A [throw] does not undo the assignments made
    before it, so the state is returned in both cases. *)
Inductive completion (A : Type) : Type :=
| Normal (a : A)
| Throw (e : JS.exn).
Arguments Normal {A} a.
Arguments Throw {A} e.

Definition Run (S A : Type) : Type := S -> completion A * S.

Definition ret {S A : Type} (a : A) : Run S A := fun s => (Normal a, s).

Definition throw {S A : Type} (e : JS.exn) : Run S A := fun s => (Throw e, s).

Definition bind {S A B : Type} (c : Run S A) (k : A -> Run S B) : Run S B :=
  fun s =>
    match c s with
    | (Normal a, s1) => k a s1
    | (Throw e, s1) => (Throw e, s1)
    end.

Definition modify {S : Type} (f : S -> S) : Run S unit :=
  fun s => (Normal tt, f s).

Definition gets {S A : Type} (f : S -> A) : Run S A :=
  fun s => (Normal (f s), s).

(** [try { c } catch (error) { h }]. *)
Definition tryCatch {S A : Type} (c : Run S A) (h : JS.exn -> Run S A) : Run S A :=
  fun s =>
    match c s with
    | (Normal a, s1) => (Normal a, s1)
    | (Throw e, s1) => h e s1
    end.

Declare Scope run_scope.
Delimit Scope run_scope with run.
Notation "x <- c ;; k" := (bind c (fun x => k))
  (at level 61, c at next level, right associativity) : run_scope.
Notation "c ;;; k" := (bind c (fun _ => k))
  (at level 61, right associativity) : run_scope.

Local Open Scope string_scope.
Local Open Scope js_scope.
Local Open Scope run_scope.

(* ================================================================== *)
(** ** The battle engine (enhanced [index.ts]) *)
(* ================================================================== *)

Module Engine.

(** The type chart literal of [calculateTypeEffectiveness], in source
    order. *)
Definition typeChart : list (string * list (string * number)) :=
  [ ("fire",  [("water", JS.Fin (1 # 2)); ("grass", 2); ("ice", 2)]);
    ("water", [("fire", 2); ("grass", JS.Fin (1 # 2)); ("ground", 2)]);
    ("grass", [("fire", JS.Fin (1 # 2)); ("water", 2); ("bug", JS.Fin (1 # 2))]) ].

(** The own property [key] of an object literal. *)
Fixpoint property {A : Type} (obj : list (string * A)) (key : string) : option A :=
  match obj with
  | [] => None
  | (k, v) :: rest => if String.eqb k key then Some v else property rest key
  end.

(** The entry the chart itself has for a pair of tags. *)
Definition chartEntry (attackerType defenderType : string) : option number :=
  match property typeChart attackerType with
  | Some row => property row defenderType
  | None => None
  end.

(** The string keys every object inherits from [Object.prototype]. *)
Definition objectPrototypeKeys : list string :=
  [ "constructor"; "__defineGetter__"; "__defineSetter__"; "hasOwnProperty";
    "__lookupGetter__"; "__lookupSetter__"; "isPrototypeOf";
    "propertyIsEnumerable"; "toString"; "valueOf"; "__proto__";
    "toLocaleString" ].

Definition inherited (key : string) : bool :=
  existsb (String.eqb key) objectPrototypeKeys.

(** The [length] of the functions among them: [Object] for "constructor",
    and the methods.  "__proto__" is [Object.prototype] itself. *)
Definition builtinLength : list (string * number) :=
  [ ("constructor", 1); ("__defineGetter__", 2); ("__defineSetter__", 2);
    ("hasOwnProperty", 1); ("__lookupGetter__", 1); ("__lookupSetter__", 1);
    ("isPrototypeOf", 1); ("propertyIsEnumerable", 1); ("toString", 0);
    ("valueOf", 0); ("toLocaleString", 0) ].

(** The further string keys of a built-in function that hold a string or a
    function, and those of [Object]. *)
Definition functionKeys : list string := [ "name"; "apply"; "bind"; "call" ].

Definition objectKeys : list string :=
  [ "prototype"; "assign"; "create"; "defineProperties"; "defineProperty";
    "entries"; "freeze"; "fromEntries"; "getOwnPropertyDescriptor";
    "getOwnPropertyDescriptors"; "getOwnPropertyNames";
    "getOwnPropertySymbols"; "getPrototypeOf"; "groupBy"; "hasOwn"; "is";
    "isExtensible"; "isFrozen"; "isSealed"; "keys"; "preventExtensions";
    "seal"; "setPrototypeOf"; "values" ].

(** The keys every function inherits from [Function.prototype] as
    accessors that throw when read. *)
Definition restrictedKeys : list string := [ "caller"; "arguments" ].

Definition restrictedProperty : JS.exn :=
  JS.TypeError
    ("'caller', 'callee', and 'arguments' properties may not be accessed on "
     ++ "strict mode functions or the arguments objects for calls to them").

(** What a lookup in the chart finds: a number; a function, an object or a
    string, which is truthy and [NaN] as a factor; [undefined] (for [null]
    as well); or nothing, because reading the property throws. *)
Inductive chartValue : Type :=
| Multiplier (entry : number)
| NotANumber
| Undefined
| Restricted.

(** [typeChart[attackerType]?.[defenderType]].  A tag that is no key of the
    literal but one of [Object.prototype] finds the inherited member: in a
    row a function; for the attacking type a built-in function, or
    [Object.prototype] itself, whose property is then read. *)
Definition chartLookup (attackerType defenderType : string) : chartValue :=
  match property typeChart attackerType with
  | Some row =>
      match property row defenderType with
      | Some entry => Multiplier entry
      | None => if inherited defenderType then NotANumber else Undefined
      end
  | None =>
      if String.eqb attackerType "__proto__" then
        if String.eqb defenderType "__proto__" then Undefined
        else if inherited defenderType then NotANumber
        else Undefined
      else
        match property builtinLength attackerType with
        | Some length =>
            if existsb (String.eqb defenderType) restrictedKeys then Restricted
            else if inherited defenderType
                    || existsb (String.eqb defenderType) functionKeys
            then NotANumber
            else if String.eqb defenderType "length" then Multiplier length
            else if String.eqb attackerType "constructor"
                    && existsb (String.eqb defenderType) objectKeys
            then NotANumber
            else Undefined
        | None => Undefined
        end
  end.

(** The loop of [calculateTypeEffectiveness], from a running product. *)
Fixpoint effectivenessLoop (attackerType : string) (defenderTypes : list string)
    (effectiveness : number) : completion number :=
  match defenderTypes with
  | [] => Normal effectiveness
  | defenderType :: rest =>
      match chartLookup attackerType defenderType with
      | Multiplier entry =>
          effectivenessLoop attackerType rest
            (if JS.truthy entry then effectiveness *~ entry else effectiveness)
      | NotANumber => effectivenessLoop attackerType rest (effectiveness *~ NaN)
      | Undefined => effectivenessLoop attackerType rest effectiveness
      | Restricted => Throw restrictedProperty
      end
  end.

Definition calculateTypeEffectiveness (attackerType : string)
    (defenderTypes : list string) : completion number :=
  effectivenessLoop attackerType defenderTypes 1.

Definition applyWeatherEffects (battleState : BattleState.t) : BattleState.t :=
  match BattleWeather.type (BattleState.weather battleState) with
  | Sunny => BattleState.push "Sunny weather boosts Fire-type moves!" battleState
  | Rainy => BattleState.push "Rainy weather boosts Water-type moves!" battleState
  | _ => battleState
  end.

(** The block [applyStatusEffects] writes once for the player and once for
    the opponent: the combatant after upkeep and the lines pushed. *)
Definition statusUpkeep (p : BattlePokemon.t) : BattlePokemon.t * list string :=
  let status := BattlePokemon.status p in
  match PokemonStatus.type status with
  | StNone => (p, [])
  | ty =>
      let '(p1, log1) :=
        match ty with
        | Burn =>
            let burnDamage :=
              JS.floor (BattleStats.hp (BattlePokemon.stats p) * JS.Fin (1 # 10)) in
            (BattlePokemon.setCurrentHp
               (JS.max 0 (BattlePokemon.currentHp p - burnDamage)) p,
             [BattlePokemon.name p ++ " took burn damage!"])
        | Poison =>
            let poisonDamage :=
              JS.floor (BattleStats.hp (BattlePokemon.stats p) * JS.Fin (2 # 25)) in
            (BattlePokemon.setCurrentHp
               (JS.max 0 (BattlePokemon.currentHp p - poisonDamage)) p,
             [BattlePokemon.name p ++ " took poison damage!"])
        | _ => (p, [])
        end in
      let turnsLeft := PokemonStatus.turnsLeft status - 1 in
      if turnsLeft <=? 0 then
        (BattlePokemon.setStatus
           {| PokemonStatus.type := StNone; PokemonStatus.turnsLeft := 0 |} p1,
         List.app log1 [BattlePokemon.name p ++ "'s status returned to normal!"])
      else
        (BattlePokemon.setStatus
           {| PokemonStatus.type := ty; PokemonStatus.turnsLeft := turnsLeft |} p1,
         log1)
  end.

Definition pushAll (lines : list string) (s : BattleState.t) : BattleState.t :=
  BattleState.setBattleLog (List.app (BattleState.battleLog s) lines) s.

Definition applyStatusEffects (battleState : BattleState.t) : BattleState.t :=
  let '(player, log1) := statusUpkeep (BattleState.playerPokemon battleState) in
  let s1 := pushAll log1 (BattleState.setPlayerPokemon player battleState) in
  let '(opponent, log2) := statusUpkeep (BattleState.opponentPokemon s1) in
  pushAll log2 (BattleState.setOpponentPokemon opponent s1).

(** [move.type === "physical"]. *)
Definition isPhysical (move : BattleMove.t) : bool :=
  String.eqb (BattleMove.type move) "physical".

(** The two [const] selections at the head of [calculateDamage]. *)
Definition attackStat (attacker : BattlePokemon.t) (move : BattleMove.t) : number :=
  if isPhysical move
  then BattleStats.attack (BattlePokemon.stats attacker)
  else BattleStats.specialAttack (BattlePokemon.stats attacker).

Definition defenseStat (defender : BattlePokemon.t) (move : BattleMove.t) : number :=
  if isPhysical move
  then BattleStats.defense (BattlePokemon.stats defender)
  else BattleStats.specialDefense (BattlePokemon.stats defender).

(** [0.85 + Math.random() * 0.15], for the draw [u] of [Math.random()]. *)
Definition randomFactor (u : Q) : number :=
  JS.double (17 # 20) +~ JS.Fin u *~ JS.double (3 # 20).

(** The body of [calculateDamage] below its two stat selections. *)
Definition damageWith (attack defense : number)
    (attacker defender : BattlePokemon.t) (move : BattleMove.t) (u : Q)
  : completion number :=
  let level := BattlePokemon.level attacker in
  let power := BattleMove.power move in
  (* Temel hasar formulu *)
  let damage :=
    JS.floor (((2 *~ level /~ 5 +~ 2) *~ power *~ attack /~ defense) /~ 50 +~ 2) in
  (* Tip etkilesimi *)
  match calculateTypeEffectiveness (BattleMove.type move)
          (map PokemonType.type_name (BattlePokemon.types defender)) with
  | Throw e => Throw e
  | Normal typeEffectiveness =>
      let damage := damage *~ typeEffectiveness in
      (* Durum efektleri *)
      let damage :=
        if match PokemonStatus.type (BattlePokemon.status attacker) with
           | Burn => true
           | _ => false
           end && isPhysical move
        then damage *~ JS.Fin (1 # 2)
        else damage in
      (* Rastgele faktor (0.85 to 1.00) *)
      let damage := damage *~ randomFactor u in
      Normal (JS.floor damage)
  end.

(** [calculateDamage(attacker, defender, move)], with the value [u] its
    call of [Math.random()] returns when it gets to it. *)
Definition calculateDamage (attacker defender : BattlePokemon.t)
    (move : BattleMove.t) (u : Q) : completion number :=
  let attack := attackStat attacker move in
  let defense := defenseStat defender move in
  damageWith attack defense attacker defender move u.

(** *** Turn resolution

    [executeBattleTurn] runs on the [BattleState] object it is given and on
    the stream of values [Math.random()] will return. *)

Definition TurnCtx : Type := BattleState.t * list Q.

(** [Math.random()]: the next value of the stream (0 once it is used up). *)
Definition mathRandom {S : Type} (getR : S -> list Q) (setR : list Q -> S -> S)
  : Run S Q :=
  fun s =>
    match getR s with
    | [] => (Normal 0%Q, s)
    | u :: rest => (Normal u, setR rest s)
    end.

Definition turnRandom : Run TurnCtx Q :=
  mathRandom (fun c => snd c) (fun r c => (fst c, r)).

Definition update (f : BattleState.t -> BattleState.t) : Run TurnCtx unit :=
  modify (fun c => (f (fst c), snd c)).

Definition read {A : Type} (f : BattleState.t -> A) : Run TurnCtx A :=
  gets (fun c => f (fst c)).

Definition undefinedProperty (prop : string) : JS.exn :=
  JS.TypeError ("Cannot read properties of undefined (reading '" ++ prop ++ "')").

(** [isMoveHit(move)]; [None] is the [undefined] an out-of-range subscript
    gave.  The draw is made before [move.accuracy] is read. *)
Definition isMoveHit (move : option BattleMove.t) : Run TurnCtx bool :=
  u <- turnRandom ;;
  match move with
  | None => throw (undefinedProperty "accuracy")
  | Some m => ret (JS.Fin u *~ 100 <=? BattleMove.accuracy m)
  end.

(** [calculateDamage] as called from the turn: reading [move.type] of
    [undefined] throws; the random factor is the next value of the stream,
    which is drawn only if the type lookups before it have not thrown. *)
Definition callCalculateDamage (attacker defender : BattlePokemon.t)
    (move : option BattleMove.t) : Run TurnCtx number :=
  match move with
  | None => throw (undefinedProperty "type")
  | Some m =>
      fun ctx =>
        match calculateDamage attacker defender m (hd 0%Q (snd ctx)) with
        | Normal damage => (Normal damage, (fst ctx, tl (snd ctx)))
        | Throw e => (Throw e, ctx)
        end
  end.

Definition moveName (move : option BattleMove.t) : Run TurnCtx string :=
  match move with
  | None => throw (undefinedProperty "name")
  | Some m => ret (BattleMove.name m)
  end.

(** [target.currentHp = Math.max(0, target.currentHp - damage)]. *)
Definition takeDamage (damage : number) (target : BattlePokemon.t) : BattlePokemon.t :=
  BattlePokemon.setCurrentHp
    (JS.max 0 (BattlePokemon.currentHp target - damage)) target.

(** The block under [// Player's turn]. *)
Definition playerTurn (playerMove : option BattleMove.t) : Run TurnCtx unit :=
  hit <- isMoveHit playerMove ;;
  if hit then
    state <- read (fun state => state) ;;
    damage <- callCalculateDamage (BattleState.playerPokemon state)
                (BattleState.opponentPokemon state) playerMove ;;
    update (fun state =>
      BattleState.setOpponentPokemon
        (takeDamage damage (BattleState.opponentPokemon state)) state) ;;;
    name <- moveName playerMove ;;
    update (fun state => BattleState.push
      (BattlePokemon.name (BattleState.playerPokemon state)
         ++ " used " ++ name ++ "!") state) ;;;
    update (fun state => BattleState.push
      (BattlePokemon.name (BattleState.opponentPokemon state)
         ++ " took " ++ JS.toString damage ++ " damage!") state)
  else
    update (fun state => BattleState.push
      (BattlePokemon.name (BattleState.playerPokemon state)
         ++ "'s move missed!") state).

(** [state.opponentPokemon.currentHp > 0]. *)
Definition opponentAlive : Run TurnCtx bool :=
  read (fun state =>
    BattlePokemon.currentHp (BattleState.opponentPokemon state) >? 0).

(** The block under [// Opponent's turn (if still alive)]:
    [if (alive && isMoveHit(opponentMove)) { ... } else if (alive) { ... }]. *)
Definition opponentTurn (opponentMove : option BattleMove.t) : Run TurnCtx unit :=
  alive <- opponentAlive ;;
  hit <- (if alive then isMoveHit opponentMove else ret false) ;;
  if hit then
    state <- read (fun state => state) ;;
    damage <- callCalculateDamage (BattleState.opponentPokemon state)
                (BattleState.playerPokemon state) opponentMove ;;
    update (fun state =>
      BattleState.setPlayerPokemon
        (takeDamage damage (BattleState.playerPokemon state)) state) ;;;
    name <- moveName opponentMove ;;
    update (fun state => BattleState.push
      (BattlePokemon.name (BattleState.opponentPokemon state)
         ++ " used " ++ name ++ "!") state) ;;;
    update (fun state => BattleState.push
      (BattlePokemon.name (BattleState.playerPokemon state)
         ++ " took " ++ JS.toString damage ++ " damage!") state)
  else
    alive <- opponentAlive ;;
    if alive then
      update (fun state => BattleState.push
        (BattlePokemon.name (BattleState.opponentPokemon state)
           ++ "'s move missed!") state)
    else ret tt.

(** [moves[Math.floor(Math.random() * moves.length)]], with the product
    taken exactly.  The rounded product of a double draw selects a move as
    well, at a draw next to a multiple of [1 / moves.length] the following
    one ([Pokedex.getRandomItem] is the same expression, rounded). *)
Definition randomMove (u : Q) (moves : list BattleMove.t) : option BattleMove.t :=
  JS.subscript moves (JS.floor (JS.Fin u * JS.length moves)).

Definition executeBattleTurn (playerMoveIndex : number)
  : Run TurnCtx BattleState.t :=
  update (BattleState.setBattleLog []) ;;;  (* Clear log for new turn *)
  update applyWeatherEffects ;;;
  update applyStatusEffects ;;;
  playerMove <- read (fun state =>
    JS.subscript (BattlePokemon.moves (BattleState.playerPokemon state))
      playerMoveIndex) ;;
  u <- turnRandom ;;
  opponentMove <- read (fun state =>
    randomMove u (BattlePokemon.moves (BattleState.opponentPokemon state))) ;;
  playerTurn playerMove ;;;
  opponentTurn opponentMove ;;;
  update (fun state => BattleState.setTurn (BattleState.turn state + 1) state) ;;;
  read (fun state => state).

End Engine.

(* ================================================================== *)
(** ** Catalog access *)
(* ================================================================== *)

Module Catalog.
Import Engine.

(** What the catalog service will answer to the requests still to come, in
    order ([None]: the request fails, by the network, a non-success status
    or a malformed body).  Once the list is used up every request fails. *)
Definition Service : Type := list (option Api.pokemon).

(** [fetchFromPokeAPI(endpoint)]: the parsed body, or [null]; it catches
    every failure itself. *)
Definition fetchFromPokeAPI (endpoint : string) : Run Service (option Api.pokemon) :=
  fun service =>
    match service with
    | [] => (Normal None, [])
    | answer :: rest => (Normal answer, rest)
    end.

Definition pokemonEndpoint (pokemonId : number) : string :=
  "/pokemon/" ++ JS.toString pokemonId.

(** The callback [getPokemonMoves] maps over the first four entries;
    [move.move.type.name] throws when the entry carries no type. *)
Definition toBattleMove (move : Api.move) : completion BattleMove.t :=
  match Api.move_type move with
  | None => Throw (undefinedProperty "name")
  | Some ty =>
      Normal {| BattleMove.name := Api.move_name move;
                BattleMove.power := JS.orDefault (Api.move_power move) 0;
                BattleMove.accuracy := JS.orDefault (Api.move_accuracy move) 100;
                BattleMove.type := ty;
                BattleMove.pp := JS.orDefault (Api.move_pp move) 20 |}
  end.

(** [arr.map(f)] for a callback that may throw. *)
Fixpoint mapThrowing {A B : Type} (f : A -> completion B) (arr : list A)
  : completion (list B) :=
  match arr with
  | [] => Normal []
  | x :: rest =>
      match f x with
      | Throw e => Throw e
      | Normal y =>
          match mapThrowing f rest with
          | Throw e => Throw e
          | Normal ys => Normal (y :: ys)
          end
      end
  end.

Definition lift {S A : Type} (c : completion A) : Run S A := fun s => (c, s).

Definition getPokemonMoves (pokemonId : number) : Run Service (list BattleMove.t) :=
  moves <- fetchFromPokeAPI (pokemonEndpoint pokemonId) ;;
  match moves with
  | None => ret []
  | Some body => lift (mapThrowing toBattleMove (firstn 4 (Api.moves body)))
  end.

(** [stats.stats[i].base_stat]. *)
Definition baseStat (body : Api.pokemon) (i : nat) : completion number :=
  match nth_error (Api.base_stats body) i with
  | Some v => Normal v
  | None => Throw (undefinedProperty "base_stat")
  end.

Definition zeroStats : BattleStats.t :=
  {| BattleStats.hp := 0; BattleStats.attack := 0;
     BattleStats.defense := 0; BattleStats.specialAttack := 0;
     BattleStats.specialDefense := 0; BattleStats.speed := 0 |}.

Definition getPokemonStats (pokemonId : number) : Run Service BattleStats.t :=
  stats <- fetchFromPokeAPI (pokemonEndpoint pokemonId) ;;
  match stats with
  | None => ret zeroStats
  | Some body =>
      hp <- lift (baseStat body 0) ;;
      attack <- lift (baseStat body 1) ;;
      defense <- lift (baseStat body 2) ;;
      specialAttack <- lift (baseStat body 3) ;;
      specialDefense <- lift (baseStat body 4) ;;
      speed <- lift (baseStat body 5) ;;
      ret {| BattleStats.hp := hp; BattleStats.attack := attack;
             BattleStats.defense := defense;
             BattleStats.specialAttack := specialAttack;
             BattleStats.specialDefense := specialDefense;
             BattleStats.speed := speed |}
  end.

End Catalog.

(* ================================================================== *)
(** ** The server: the battle tools *)
(* ================================================================== *)

Module Server.
Import Engine Catalog.

(** The process state the tools share: the module-level [currentBattle],
    the values [Math.random()] is still to return, and the catalog
    service. *)
Record World : Type := {
  currentBattle : option BattleState.t;
  random : list Q;
  catalog : Service }.

Definition setCurrentBattle (v : option BattleState.t) (w : World) : World :=
  {| currentBattle := v; random := random w; catalog := catalog w |}.

Definition setRandom (v : list Q) (w : World) : World :=
  {| currentBattle := currentBattle w; random := v; catalog := catalog w |}.

Definition setCatalog (v : Service) (w : World) : World :=
  {| currentBattle := currentBattle w; random := random w; catalog := v |}.

(** A catalog call made by the server. *)
Definition onCatalog {A : Type} (c : Run Service A) : Run World A :=
  fun w =>
    let '(result, service) := c (catalog w) in
    (result, setCatalog service w).

(** [createBattlePokemon(pokemonId, level)]; [None] is [null]. *)
Definition createBattlePokemon (pokemonId : number) (level : number)
  : Run World (option BattlePokemon.t) :=
  tryCatch
    (pokemon <- onCatalog (fetchFromPokeAPI (pokemonEndpoint pokemonId)) ;;
     match pokemon with
     | None => ret None
     | Some body =>
         moves <- onCatalog (getPokemonMoves pokemonId) ;;
         stats <- onCatalog (getPokemonStats pokemonId) ;;
         ret (Some
           {| BattlePokemon.id := Api.id body;
              BattlePokemon.name := Api.name body;
              BattlePokemon.level := level;
              BattlePokemon.types := Api.types body;
              BattlePokemon.stats := stats;
              BattlePokemon.moves := moves;
              BattlePokemon.currentHp := BattleStats.hp stats;
              BattlePokemon.status :=
                {| PokemonStatus.type := StNone; PokemonStatus.turnsLeft := 0 |};
              BattlePokemon.statModifiers :=
                {| StatModifiers.attack := 0; StatModifiers.defense := 0;
                   StatModifiers.specialAttack := 0;
                   StatModifiers.specialDefense := 0;
                   StatModifiers.speed := 0 |};
              BattlePokemon.experience := 0;
              BattlePokemon.items := [] |})
     end)
    (fun error => ret None).

(** The default of the [level] parameter. *)
Definition defaultLevel : number := 50.

Definition hydrationFailure : string := "Failed to create battle Pokémon".

Definition startBattle (playerPokemonId opponentPokemonId : number)
  : Run World BattleState.t :=
  playerPokemon <- createBattlePokemon playerPokemonId defaultLevel ;;
  opponentPokemon <- createBattlePokemon opponentPokemonId defaultLevel ;;
  match playerPokemon, opponentPokemon with
  | Some player, Some opponent =>
      ret {| BattleState.playerPokemon := player;
             BattleState.opponentPokemon := opponent;
             BattleState.turn := 1;
             BattleState.weather :=
               {| BattleWeather.type := WNone; BattleWeather.turnsLeft := 0 |};
             BattleState.status := "active";
             BattleState.battleLog := [] |}
  | _, _ => throw (JS.Error hydrationFailure)
  end.

(** [`${p.name} HP: ${p.currentHp}/${p.stats.hp}\n`]. *)
Definition hpLine (p : BattlePokemon.t) : string :=
  BattlePokemon.name p ++ " HP: " ++ JS.toString (BattlePokemon.currentHp p)
    ++ "/" ++ JS.toString (BattleStats.hp (BattlePokemon.stats p)) ++ JS.newline.

(** [moves.map((move, index) => `${index}: ${move.name}`)]. *)
Fixpoint numberedMoves (index : nat) (moves : list BattleMove.t) : list string :=
  match moves with
  | [] => []
  | move :: rest =>
      (JS.toString (JS.ofZ (Z.of_nat index)) ++ ": " ++ BattleMove.name move)
        :: numberedMoves (S index) rest
  end.

Definition battleStartedText (battleState : BattleState.t) : string :=
  let player := BattleState.playerPokemon battleState in
  let opponent := BattleState.opponentPokemon battleState in
  "Battle started!" ++ JS.newline
    ++ BattlePokemon.name player ++ " vs " ++ BattlePokemon.name opponent
    ++ JS.newline ++ JS.newline
    ++ hpLine player ++ hpLine opponent ++ JS.newline
    ++ "Available moves:" ++ JS.newline
    ++ JS.join JS.newline (numberedMoves 0 (BattlePokemon.moves player)).

(** [error.message || 'Unknown error occurred']. *)
Definition messageOr (error : JS.exn) (fallback : string) : string :=
  match JS.message error with
  | EmptyString => fallback
  | m => m
  end.

(** The [start_battle] handler; the result is the text of the response. *)
Definition start_battle (playerPokemonId opponentPokemonId : number)
  : Run World string :=
  tryCatch
    (battleState <- startBattle playerPokemonId opponentPokemonId ;;
     modify (setCurrentBattle (Some battleState)) ;;;
     ret (battleStartedText battleState))
    (fun error =>
       ret ("Failed to start battle: " ++ messageOr error "Unknown error occurred")).

Definition noActiveBattle : string :=
  "No active battle! Start a battle first using the start_battle command.".

Definition worldRandom : Run World Q := mathRandom random setRandom.

(** A call that works on the object [currentBattle] refers to: what it
    assigns is seen through [currentBattle] whether it returns or throws. *)
Definition onCurrentBattle {A : Type} (battle : BattleState.t)
    (c : Run TurnCtx A) : Run World A :=
  fun w =>
    let '(result, (battle1, random1)) := c (battle, random w) in
    (result,
     {| currentBattle := Some battle1; random := random1; catalog := catalog w |}).

(** The zod schema of [make_move]: [z.number().min(0).max(3)].  A call that
    fails it never reaches the handler. *)
Definition make_move_schema (moveIndex : number) : bool :=
  (0 <=? moveIndex) && (moveIndex <=? 3).

Definition victoryLine (winner : string) : string :=
  JS.newline ++ "Battle ended! " ++ winner ++ " won!".

(** [playerPokemon.currentHp <= 0 || opponentPokemon.currentHp <= 0]. *)
Definition battleOver (battleState : BattleState.t) : bool :=
  (BattlePokemon.currentHp (BattleState.playerPokemon battleState) <=? 0)
  || (BattlePokemon.currentHp (BattleState.opponentPokemon battleState) <=? 0).

Definition winnerName (battleState : BattleState.t) : string :=
  if BattlePokemon.currentHp (BattleState.playerPokemon battleState) <=? 0
  then BattlePokemon.name (BattleState.opponentPokemon battleState)
  else BattlePokemon.name (BattleState.playerPokemon battleState).

Definition propertyOfUndefined {S A : Type} (prop : string) (x : option A)
  : Run S A :=
  match x with
  | Some v => ret v
  | None => throw (undefinedProperty prop)
  end.

(** The [make_move] handler. *)
Definition make_move (moveIndex : number) : Run World string :=
  current <- gets currentBattle ;;
  match current with
  | None => ret noActiveBattle
  | Some battle =>
      battleState <- onCurrentBattle battle (executeBattleTurn moveIndex) ;;
      modify (setCurrentBattle (Some battleState)) ;;;
      let player := BattleState.playerPokemon battleState in
      let opponent := BattleState.opponentPokemon battleState in
      let playerMove := JS.subscript (BattlePokemon.moves player) moveIndex in
      u <- worldRandom ;;
      let opponentMove := randomMove u (BattlePokemon.moves opponent) in
      let battleLog := "Turn " ++ JS.toString (BattleState.turn battleState)
                         ++ ":" ++ JS.newline in
      playerMove <- propertyOfUndefined "name" playerMove ;;
      let battleLog := battleLog ++ BattlePokemon.name player ++ " used "
                         ++ BattleMove.name playerMove ++ "!" ++ JS.newline in
      opponentMove <- propertyOfUndefined "name" opponentMove ;;
      let battleLog := battleLog ++ BattlePokemon.name opponent ++ " used "
                         ++ BattleMove.name opponentMove ++ "!"
                         ++ JS.newline ++ JS.newline in
      let battleLog := battleLog ++ hpLine player in
      let battleLog := battleLog ++ hpLine opponent in
      (* Check for battle end *)
      if battleOver battleState then
        modify (setCurrentBattle None) ;;;
        ret (battleLog ++ victoryLine (winnerName battleState))
      else ret battleLog
  end.

(** The zod schema of [use_item]: [z.number().min(0)]. *)
Definition use_item_schema (itemIndex : number) : bool := 0 <=? itemIndex.

Definition invalidItemIndex : string := "Invalid item index!".

(** [item.effect.heal], when it is there and truthy. *)
Definition healAmount (item : BattleItem.t) : option number :=
  match ItemEffect.heal (BattleItem.effect item) with
  | Some h => if JS.truthy h then Some h else None
  | None => None
  end.

(** What the body of the [use_item] handler assigns to the battle, for an
    item found at position [n]. *)
Definition applyItem (n : nat) (item : BattleItem.t) (battle : BattleState.t)
  : BattleState.t :=
  let healed :=
    match healAmount item with
    | Some h =>
        let player := BattleState.playerPokemon battle in
        BattleState.push
          (BattlePokemon.name player ++ " recovered " ++ JS.toString h ++ " HP!")
          (BattleState.setPlayerPokemon
             (BattlePokemon.setCurrentHp
                (JS.min (BattleStats.hp (BattlePokemon.stats player))
                        (BattlePokemon.currentHp player + h))
                player)
             battle)
    | None => battle
    end in
  (* Mark item as used *)
  let player := BattleState.playerPokemon healed in
  BattleState.setPlayerPokemon
    (BattlePokemon.setItems (JS.removeAt n (BattlePokemon.items player)) player)
    healed.

(** The [use_item] handler. *)
Definition use_item (itemIndex : number) : Run World string :=
  current <- gets currentBattle ;;
  match current with
  | None => ret noActiveBattle
  | Some battle =>
      let items := BattlePokemon.items (BattleState.playerPokemon battle) in
      match JS.arrayIndex itemIndex with
      | None => ret invalidItemIndex
      | Some n =>
          match nth_error items n with
          | None => ret invalidItemIndex
          | Some item =>
              let battle1 := applyItem n item battle in
              modify (setCurrentBattle (Some battle1)) ;;;
              ret (JS.join JS.newline (BattleState.battleLog battle1))
          end
      end
  end.

End Server.

(* ================================================================== *)
(** ** The older server ([src/index.ts] with its [types.ts]) *)
(* ================================================================== *)

Module Legacy.
Import Catalog.

Module BattlePokemon.
Record t : Type := {
  id : number;
  name : string;
  level : number;
  types : list PokemonType.t;
  stats : BattleStats.t;
  moves : list BattleMove.t;
  currentHp : number }.

Definition setCurrentHp (v : number) (p : t) : t :=
  {| id := id p; name := name p; level := level p; types := types p;
     stats := stats p; moves := moves p; currentHp := v |}.
End BattlePokemon.

Module BattleState.
Record t : Type := {
  playerPokemon : BattlePokemon.t;
  opponentPokemon : BattlePokemon.t;
  turn : number;
  weather : string;
  status : string }.

Definition setPlayerPokemon (v : BattlePokemon.t) (s : t) : t :=
  {| playerPokemon := v; opponentPokemon := opponentPokemon s;
     turn := turn s; weather := weather s; status := status s |}.

Definition setOpponentPokemon (v : BattlePokemon.t) (s : t) : t :=
  {| playerPokemon := playerPokemon s; opponentPokemon := v;
     turn := turn s; weather := weather s; status := status s |}.

Definition setTurn (v : number) (s : t) : t :=
  {| playerPokemon := playerPokemon s; opponentPokemon := opponentPokemon s;
     turn := v; weather := weather s; status := status s |}.
End BattleState.

Definition calculateDamage (attacker defender : BattlePokemon.t)
    (move : BattleMove.t) (u : Q) : number :=
  let attack :=
    if Engine.isPhysical move
    then BattleStats.attack (BattlePokemon.stats attacker)
    else BattleStats.specialAttack (BattlePokemon.stats attacker) in
  let defense :=
    if Engine.isPhysical move
    then BattleStats.defense (BattlePokemon.stats defender)
    else BattleStats.specialDefense (BattlePokemon.stats defender) in
  let level := BattlePokemon.level attacker in
  let power := BattleMove.power move in
  (* Basic damage formula *)
  let damage :=
    JS.floor (((2 *~ level /~ 5 +~ 2) *~ power *~ attack /~ defense) /~ 50 +~ 2) in
  (* Random factor (0.85 to 1.00) *)
  let randomFactor := Engine.randomFactor u in
  JS.floor (damage *~ randomFactor).

Definition TurnCtx : Type := BattleState.t * list Q.

Definition turnRandom : Run TurnCtx Q :=
  Engine.mathRandom (fun c => snd c) (fun r c => (fst c, r)).

Definition update (f : BattleState.t -> BattleState.t) : Run TurnCtx unit :=
  modify (fun c => (f (fst c), snd c)).

Definition read {A : Type} (f : BattleState.t -> A) : Run TurnCtx A :=
  gets (fun c => f (fst c)).

Definition isMoveHit (move : option BattleMove.t) : Run TurnCtx bool :=
  u <- turnRandom ;;
  match move with
  | None => throw (Engine.undefinedProperty "accuracy")
  | Some m => ret (JS.Fin u *~ 100 <=? BattleMove.accuracy m)
  end.

Definition callCalculateDamage (attacker defender : BattlePokemon.t)
    (move : option BattleMove.t) : Run TurnCtx number :=
  match move with
  | None => throw (Engine.undefinedProperty "type")
  | Some m =>
      u <- turnRandom ;;
      ret (calculateDamage attacker defender m u)
  end.

Definition takeDamage (damage : number) (target : BattlePokemon.t) : BattlePokemon.t :=
  BattlePokemon.setCurrentHp
    (JS.max 0 (BattlePokemon.currentHp target - damage)) target.

(** The block under [// Player's turn]. *)
Definition playerTurn (playerMove : option BattleMove.t) : Run TurnCtx unit :=
  hit <- isMoveHit playerMove ;;
  if hit then
    state <- read (fun state => state) ;;
    damage <- callCalculateDamage (BattleState.playerPokemon state)
                (BattleState.opponentPokemon state) playerMove ;;
    update (fun state =>
      BattleState.setOpponentPokemon
        (takeDamage damage (BattleState.opponentPokemon state)) state)
  else ret tt.

(** The block under [// Opponent's turn (if still alive)]. *)
Definition opponentTurn (opponentMove : option BattleMove.t) : Run TurnCtx unit :=
  alive <- read (fun state =>
    BattlePokemon.currentHp (BattleState.opponentPokemon state) >? 0) ;;
  hit <- (if alive then isMoveHit opponentMove else ret false) ;;
  if hit then
    state <- read (fun state => state) ;;
    damage <- callCalculateDamage (BattleState.opponentPokemon state)
                (BattleState.playerPokemon state) opponentMove ;;
    update (fun state =>
      BattleState.setPlayerPokemon
        (takeDamage damage (BattleState.playerPokemon state)) state)
  else ret tt.

Definition executeBattleTurn (playerMoveIndex : number)
  : Run TurnCtx BattleState.t :=
  playerMove <- read (fun state =>
    JS.subscript (BattlePokemon.moves (BattleState.playerPokemon state))
      playerMoveIndex) ;;
  u <- turnRandom ;;
  opponentMove <- read (fun state =>
    Engine.randomMove u (BattlePokemon.moves (BattleState.opponentPokemon state))) ;;
  playerTurn playerMove ;;;
  opponentTurn opponentMove ;;;
  update (fun state => BattleState.setTurn (BattleState.turn state + 1) state) ;;;
  read (fun state => state).

Record World : Type := {
  currentBattle : option BattleState.t;
  random : list Q;
  catalog : Service }.

Definition setCurrentBattle (v : option BattleState.t) (w : World) : World :=
  {| currentBattle := v; random := random w; catalog := catalog w |}.

Definition setRandom (v : list Q) (w : World) : World :=
  {| currentBattle := currentBattle w; random := v; catalog := catalog w |}.

Definition onCatalog {A : Type} (c : Run Service A) : Run World A :=
  fun w =>
    let '(result, service) := c (catalog w) in
    (result,
     {| currentBattle := currentBattle w; random := random w;
        catalog := service |}).

(** Here a failed lookup throws, nothing catches what the two helpers
    throw, and the stats are fetched before the moves. *)
Definition createBattlePokemon (pokemonId : number) (level : number)
  : Run World BattlePokemon.t :=
  pokemon <- onCatalog (fetchFromPokeAPI (pokemonEndpoint pokemonId)) ;;
  match pokemon with
  | None => throw (JS.Error "Pokemon not found")
  | Some body =>
      stats <- onCatalog (getPokemonStats pokemonId) ;;
      moves <- onCatalog (getPokemonMoves pokemonId) ;;
      ret {| BattlePokemon.id := Api.id body;
             BattlePokemon.name := Api.name body;
             BattlePokemon.level := level;
             BattlePokemon.types := Api.types body;
             BattlePokemon.stats := stats;
             BattlePokemon.moves := moves;
             BattlePokemon.currentHp := BattleStats.hp stats |}
  end.

Definition startBattle (playerPokemonId opponentPokemonId : number)
  : Run World BattleState.t :=
  playerPokemon <- createBattlePokemon playerPokemonId 50 ;;
  opponentPokemon <- createBattlePokemon opponentPokemonId 50 ;;
  ret {| BattleState.playerPokemon := playerPokemon;
         BattleState.opponentPokemon := opponentPokemon;
         BattleState.turn := 0;
         BattleState.weather := "normal";
         BattleState.status := "active" |}.

Definition hpLine (p : BattlePokemon.t) : string :=
  BattlePokemon.name p ++ " Can: " ++ JS.toString (BattlePokemon.currentHp p)
    ++ "/" ++ JS.toString (BattleStats.hp (BattlePokemon.stats p)) ++ JS.newline.

Fixpoint numberedMoves (index : nat) (moves : list BattleMove.t) : list string :=
  match moves with
  | [] => []
  | move :: rest =>
      (JS.toString (JS.ofZ (Z.of_nat index)) ++ ": " ++ BattleMove.name move)
        :: numberedMoves (S index) rest
  end.

(** The [start_battle] handler: no [try] around [startBattle]. *)
Definition start_battle (playerPokemonId opponentPokemonId : number)
  : Run World string :=
  battleState <- startBattle playerPokemonId opponentPokemonId ;;
  modify (setCurrentBattle (Some battleState)) ;;;
  let player := BattleState.playerPokemon battleState in
  let opponent := BattleState.opponentPokemon battleState in
  ret ("Savaş başladı!" ++ JS.newline
         ++ BattlePokemon.name player ++ " vs " ++ BattlePokemon.name opponent
         ++ JS.newline ++ JS.newline
         ++ hpLine player ++ hpLine opponent ++ JS.newline
         ++ "Kullanılabilir hareketler:" ++ JS.newline
         ++ JS.join JS.newline (numberedMoves 0 (BattlePokemon.moves player))).

Definition noActiveBattle : string :=
  "Aktif bir savaş yok! Önce start_battle komutu ile bir savaş başlatın.".

Definition onCurrentBattle {A : Type} (battle : BattleState.t)
    (c : Run TurnCtx A) : Run World A :=
  fun w =>
    let '(result, (battle1, random1)) := c (battle, random w) in
    (result,
     {| currentBattle := Some battle1; random := random1; catalog := catalog w |}).

Definition battleOver (battleState : BattleState.t) : bool :=
  (BattlePokemon.currentHp (BattleState.playerPokemon battleState) <=? 0)
  || (BattlePokemon.currentHp (BattleState.opponentPokemon battleState) <=? 0).

Definition winnerName (battleState : BattleState.t) : string :=
  if BattlePokemon.currentHp (BattleState.playerPokemon battleState) <=? 0
  then BattlePokemon.name (BattleState.opponentPokemon battleState)
  else BattlePokemon.name (BattleState.playerPokemon battleState).

Definition propertyOfUndefined {S A : Type} (prop : string) (x : option A)
  : Run S A :=
  match x with
  | Some v => ret v
  | None => throw (Engine.undefinedProperty prop)
  end.

(** The [make_move] handler. *)
Definition make_move (moveIndex : number) : Run World string :=
  current <- gets currentBattle ;;
  match current with
  | None => ret noActiveBattle
  | Some battle =>
      battleState <- onCurrentBattle battle (executeBattleTurn moveIndex) ;;
      modify (setCurrentBattle (Some battleState)) ;;;
      let player := BattleState.playerPokemon battleState in
      let opponent := BattleState.opponentPokemon battleState in
      let playerMove := JS.subscript (BattlePokemon.moves player) moveIndex in
      u <- Engine.mathRandom random setRandom ;;
      let opponentMove := Engine.randomMove u (BattlePokemon.moves opponent) in
      let battleLog := "Tur " ++ JS.toString (BattleState.turn battleState)
                         ++ ":" ++ JS.newline in
      playerMove <- propertyOfUndefined "name" playerMove ;;
      let battleLog := battleLog ++ BattlePokemon.name player ++ " "
                         ++ BattleMove.name playerMove
                         ++ " hareketini kullandı!" ++ JS.newline in
      opponentMove <- propertyOfUndefined "name" opponentMove ;;
      let battleLog := battleLog ++ BattlePokemon.name opponent ++ " "
                         ++ BattleMove.name opponentMove
                         ++ " hareketini kullandı!" ++ JS.newline ++ JS.newline in
      let battleLog := battleLog ++ hpLine player in
      let battleLog := battleLog ++ hpLine opponent in
      (* Check for battle end *)
      if battleOver battleState then
        modify (setCurrentBattle None) ;;;
        ret (battleLog ++ JS.newline ++ "Savaş bitti! "
               ++ winnerName battleState ++ " kazandı!")
      else ret battleLog
  end.

End Legacy.

(* ================================================================== *)
(** ** The damage formula of the design (section 4.3), in its words *)
(* ================================================================== *)

Module Formula.

(** A move's category. *)
Inductive Category : Type := Physical | Special.

(** The tag that stands for a category in a move's [type] field. *)
Definition categoryTag (c : Category) : string :=
  match c with
  | Physical => "physical"
  | Special => "special"
  end.

(** [attackStat = physical? attacker.attack : attacker.specialAttack],
    on the attacker's stats. *)
Definition attackStat (c : Category) (attacker : BattleStats.t) : number :=
  match c with
  | Physical => BattleStats.attack attacker
  | Special => BattleStats.specialAttack attacker
  end.

(** [defenseStat = physical? defender.defense : defender.specialDefense],
    on the defender's stats. *)
Definition defenseStat (c : Category) (defender : BattleStats.t) : number :=
  match c with
  | Physical => BattleStats.defense defender
  | Special => BattleStats.specialDefense defender
  end.

(** [chart[moveAffinity][tag]], 1 when the chart has no such entry. *)
Definition chartOrNeutral (moveAffinity tag : string) : number :=
  match Engine.chartEntry moveAffinity tag with
  | Some multiplier => multiplier
  | None => 1
  end.

(** The product over the defender's tags. *)
Definition effectiveness (moveAffinity : string) (tags : list string) : number :=
  fold_left (fun product tag => product *~ chartOrNeutral moveAffinity tag) tags 1.

(** 0.5 when the attacker is burned and the move is physical, else 1. *)
Definition burnFactor (attacker : BattlePokemon.t) (move : BattleMove.t) : number :=
  match PokemonStatus.type (BattlePokemon.status attacker) with
  | Burn => if Engine.isPhysical move then JS.Fin (1 # 2) else 1
  | _ => 1
  end.

(** [(2*level/5 + 2) * movePower * attackStat / defenseStat]. *)
Definition quotient (level movePower attackStat defenseStat : number) : number :=
  (2 *~ level /~ 5 +~ 2) *~ movePower *~ attackStat /~ defenseStat.

(** [floor(floor(((2*level/5 + 2) * movePower * attackStat / defenseStat)
    / 50 + 2) * effectiveness * burnFactor * r)]. *)
Definition damage (level movePower attackStat defenseStat
    effectiveness burnFactor r : number) : number :=
  JS.floor
    (JS.floor (quotient level movePower attackStat defenseStat /~ 50 +~ 2)
     *~ effectiveness *~ burnFactor *~ r).

End Formula.

(* ================================================================== *)
(** ** Properties of states, and the states a process can reach *)
(* ================================================================== *)

Module Props.
Import Engine Server.

(** [Number.isFinite]. *)
Definition isFinite (a : number) : bool :=
  match a with
  | JS.Fin _ => true
  | _ => false
  end.

(** A finite number that is [>= 0], and one that is [> 0]. *)
Definition isNonNegative (a : number) : bool := isFinite a && (0 <=? a).
Definition isPositive (a : number) : bool := isFinite a && (0 <? a).

(** The same as propositions on the rational a finite number holds. *)
Definition NN (a : number) : Prop := exists q, a = JS.Fin q /\ (0 <= q)%Q.
Definition PP (a : number) : Prop := exists q, a = JS.Fin q /\ (0 < q)%Q.

(** [Infinity], or finite and [>= 0]. *)
Definition NNI (a : number) : Prop := a = JS.Inf false \/ NN a.

(** A rational that is a double: a significand below 2^53 at an exponent
    of the format, below the overflow threshold. *)
Definition representable (q : Q) : Prop :=
  exists m k, (q == inject_Z m * JS.pow2 k)%Q /\ (Z.abs m < 2 ^ 53)%Z
              /\ (-1074 <= k)%Z /\ (Qabs q < JS.pow2 1024)%Q.

(** A number that rounding leaves as it is: a double, an infinity or
    [NaN]. *)
Definition isDouble (a : number) : Prop := JS.rounded a = a.

(** A tag that names no member of [Object.prototype]. *)
Definition plainTag (tag : string) : bool := negb (inherited tag).

(** Finite, not below 0 and not above [2^k]. *)
Definition within (k : Z) (a : number) : Prop :=
  exists x, a = JS.Fin x /\ (0 <= x <= JS.pow2 k)%Q.

(** [NaN], or not below 0. *)
Definition notNegative (a : number) : Prop := a = NaN \/ NNI a.

(** A finite value in lowest terms; what arithmetic returns always is. *)
Definition canonical (a : number) : Prop :=
  match a with
  | JS.Fin q => Qred q = q
  | _ => True
  end.

(** [0 <= currentHp <= stats.hp], with the comparisons of the language. *)
Definition hpInRange (p : BattlePokemon.t) : bool :=
  (0 <=? BattlePokemon.currentHp p)
  && (BattlePokemon.currentHp p <=? BattleStats.hp (BattlePokemon.stats p)).

Definition hpInvariant (b : BattleState.t) : bool :=
  hpInRange (BattleState.playerPokemon b)
  && hpInRange (BattleState.opponentPokemon b).

(** The data model's ranges, as far as the hit points depend on them:
    stats finite and non-negative with both defense stats positive, level
    and move powers finite and non-negative, heal amounts of the items
    finite and non-negative. *)
Definition wellFormedStats (s : BattleStats.t) : bool :=
  isNonNegative (BattleStats.hp s)
  && isNonNegative (BattleStats.attack s)
  && isPositive (BattleStats.defense s)
  && isNonNegative (BattleStats.specialAttack s)
  && isPositive (BattleStats.specialDefense s).

Definition healsUp (item : BattleItem.t) : bool :=
  match ItemEffect.heal (BattleItem.effect item) with
  | Some h => isNonNegative h
  | None => true
  end.

Definition wellFormed (p : BattlePokemon.t) : bool :=
  wellFormedStats (BattlePokemon.stats p)
  && isNonNegative (BattlePokemon.level p)
  && forallb (fun m => isNonNegative (BattleMove.power m)) (BattlePokemon.moves p)
  && forallb healsUp (BattlePokemon.items p).

(** Both combatants well formed and with hit points in range. *)
Definition sound (b : BattleState.t) : Prop :=
  wellFormed (BattleState.playerPokemon b) = true
  /\ wellFormed (BattleState.opponentPokemon b) = true
  /\ hpInRange (BattleState.playerPokemon b) = true
  /\ hpInRange (BattleState.opponentPokemon b) = true.

(** The moves of [attacker] against [defender]: tags that name no member
    of [Object.prototype], and a finite quotient in the damage formula
    (no zero divisor, no overflow). *)
Definition tameAgainst (attacker defender : BattlePokemon.t) : bool :=
  forallb
    (fun move =>
       plainTag (BattleMove.type move)
       && isFinite
            (Formula.quotient (BattlePokemon.level attacker) (BattleMove.power move)
               (attackStat attacker move) (defenseStat defender move)))
    (BattlePokemon.moves attacker)
  && forallb plainTag (map PokemonType.type_name (BattlePokemon.types defender)).

Definition tame (b : BattleState.t) : Prop :=
  tameAgainst (BattleState.playerPokemon b) (BattleState.opponentPokemon b) = true
  /\ tameAgainst (BattleState.opponentPokemon b) (BattleState.playerPokemon b) = true.

(** No combatant has a status condition. *)
Definition noStatus (b : BattleState.t) : Prop :=
  PokemonStatus.type (BattlePokemon.status (BattleState.playerPokemon b)) = StNone
  /\ PokemonStatus.type (BattlePokemon.status (BattleState.opponentPokemon b)) = StNone.

(** The tests the code makes on hit points. *)
Definition alive (p : BattlePokemon.t) : bool := BattlePokemon.currentHp p >? 0.

(** The state on which the attacks of a turn start: log cleared, weather
    and status upkeep applied. *)
Definition afterUpkeep (b : BattleState.t) : BattleState.t :=
  applyStatusEffects (applyWeatherEffects (BattleState.setBattleLog [] b)).

(** [text.includes(part)]. *)
Fixpoint includes (text part : string) : bool :=
  String.prefix part text
  || match text with
     | EmptyString => false
     | String _ rest => includes rest part
     end.

(** [triple P c Q E]: from a state satisfying [P], the call [c] either
    returns [a] in a state satisfying [Q a], or throws in a state
    satisfying [E]. *)
Definition triple {S A : Type} (P : S -> Prop) (c : Run S A)
    (Q : A -> S -> Prop) (E : S -> Prop) : Prop :=
  forall s, P s ->
    match c s with
    | (Normal a, s1) => Q a s1
    | (Throw _, s1) => E s1
    end.

(** A property [I] of the battle together with a property [U] of every
    value [Math.random()] is still to return. *)
Definition onTurn (I : BattleState.t -> Prop) (U : Q -> Prop) : TurnCtx -> Prop :=
  fun ctx => I (fst ctx) /\ Forall U (snd ctx).

(** What [Math.random()] promises: a value in [0, 1). *)
Definition unitInterval (u : Q) : Prop := (0 <= u < 1)%Q.

(** The text [make_move] builds before the check for the battle's end,
    for the moves [playerMove] and [opponentMove] it names. *)
Definition turnReport (battleState : BattleState.t)
    (playerMove opponentMove : BattleMove.t) : string :=
  let player := BattleState.playerPokemon battleState in
  let opponent := BattleState.opponentPokemon battleState in
  (((("Turn " ++ JS.toString (BattleState.turn battleState) ++ ":" ++ JS.newline)
       ++ BattlePokemon.name player ++ " used " ++ BattleMove.name playerMove
       ++ "!" ++ JS.newline)
      ++ BattlePokemon.name opponent ++ " used " ++ BattleMove.name opponentMove
      ++ "!" ++ JS.newline ++ JS.newline)
     ++ hpLine player)
    ++ hpLine opponent.

(** The next catalog request will fail. *)
Definition lookupUnavailable (w : World) : bool :=
  match catalog w with
  | [] => true
  | None :: _ => true
  | Some _ :: _ => false
  end.

(** Hydration of a combatant fails: [createBattlePokemon] returns [null],
    for the player, or for the opponent after the player was hydrated. *)
Definition hydrationFails (playerPokemonId opponentPokemonId : number)
    (w : World) : Prop :=
  fst (createBattlePokemon playerPokemonId defaultLevel w) = Normal None
  \/ fst (createBattlePokemon opponentPokemonId defaultLevel
            (snd (createBattlePokemon playerPokemonId defaultLevel w)))
     = Normal None.

(** The moves the catalog answer yields, when reading them does not throw. *)
Definition movesReadable (answer : option Api.pokemon) : bool :=
  match answer with
  | None => true
  | Some body =>
      match Catalog.mapThrowing Catalog.toBattleMove (firstn 4 (Api.moves body)) with
      | Normal _ => true
      | Throw _ => false
      end
  end.

(** The tool calls of the battle, with the arguments the client sends. *)
Inductive toolCall : Type :=
| StartBattle (playerPokemonId opponentPokemonId : number)
| MakeMove (moveIndex : number)
| UseItem (itemIndex : number).

(** The zod schema decides whether the handler runs; [z.number()] refuses
    [NaN]. *)
Definition accepted (call : toolCall) : bool :=
  match call with
  | StartBattle p o => negb (JS.isNaN p) && negb (JS.isNaN o)
  | MakeMove i => make_move_schema i
  | UseItem i => use_item_schema i
  end.

Definition handler (call : toolCall) : Run World string :=
  match call with
  | StartBattle p o => start_battle p o
  | MakeMove i => make_move i
  | UseItem i => use_item i
  end.

(** The worlds a process gets to: it starts without a battle and runs the
    handlers of accepted calls, returning or throwing. *)
Inductive reachable : World -> Prop :=
| reach_start (random : list Q) (catalog : Catalog.Service) :
    reachable {| currentBattle := None; random := random; catalog := catalog |}
| reach_call (w : World) (call : toolCall) :
    reachable w -> accepted call = true -> reachable (snd (handler call w)).

End Props.

(* ================================================================== *)
(** ** Concrete catalog answers and worlds used in the examples *)
(* ================================================================== *)

Module Fixtures.
Import Server.

Definition apiMove (name : string) (power accuracy : option number)
    (type : string) : Api.move :=
  {| Api.move_name := name; Api.move_power := power;
     Api.move_accuracy := accuracy; Api.move_type := Some type;
     Api.move_pp := None |}.

Definition bulbasaur : Api.pokemon :=
  {| Api.id := 1; Api.name := "bulbasaur";
     Api.types := [ {| PokemonType.type_name := "grass" |};
                    {| PokemonType.type_name := "poison" |} ];
     Api.moves := [ apiMove "vine-whip" (Some 45) (Some 100) "grass";
                    apiMove "growl" None (Some 100) "normal" ];
     Api.base_stats := [45; 49; 49; 65; 65; 45] |}.

Definition charmander : Api.pokemon :=
  {| Api.id := 4; Api.name := "charmander";
     Api.types := [ {| PokemonType.type_name := "fire" |} ];
     Api.moves := [ apiMove "ember" (Some 40) (Some 100) "fire";
                    apiMove "scratch" (Some 40) (Some 100) "physical" ];
     Api.base_stats := [39; 52; 43; 60; 50; 65] |}.

(** A process with no battle, given draws and catalog answers. *)
Definition fresh (random : list Q) (catalog : Catalog.Service) : World :=
  {| currentBattle := None; random := random; catalog := catalog |}.

(** The world a tool call leaves behind, and what it answers. *)
Definition after {A : Type} (c : Run World A) (w : World) : World := snd (c w).
Definition answer {A : Type} (c : Run World A) (w : World) : completion A := fst (c w).

Definition vineWhip : BattleMove.t :=
  {| BattleMove.name := "vine-whip"; BattleMove.power := 45;
     BattleMove.accuracy := 100; BattleMove.type := "grass"; BattleMove.pp := 20 |}.

Definition growl : BattleMove.t :=
  {| BattleMove.name := "growl"; BattleMove.power := 0;
     BattleMove.accuracy := 100; BattleMove.type := "normal"; BattleMove.pp := 20 |}.

Definition ember : BattleMove.t :=
  {| BattleMove.name := "ember"; BattleMove.power := 40;
     BattleMove.accuracy := 100; BattleMove.type := "fire"; BattleMove.pp := 20 |}.

Definition scratch : BattleMove.t :=
  {| BattleMove.name := "scratch"; BattleMove.power := 40;
     BattleMove.accuracy := 100; BattleMove.type := "physical"; BattleMove.pp := 20 |}.

Definition statsOf (hp attack defense specialAttack specialDefense speed : number)
  : BattleStats.t :=
  {| BattleStats.hp := hp; BattleStats.attack := attack;
     BattleStats.defense := defense; BattleStats.specialAttack := specialAttack;
     BattleStats.specialDefense := specialDefense; BattleStats.speed := speed |}.

(** A combatant as [createBattlePokemon] builds it at level 50. *)
Definition combatant (body : Api.pokemon) (stats : BattleStats.t)
    (moves : list BattleMove.t) : BattlePokemon.t :=
  {| BattlePokemon.id := Api.id body; BattlePokemon.name := Api.name body;
     BattlePokemon.level := 50; BattlePokemon.types := Api.types body;
     BattlePokemon.stats := stats; BattlePokemon.moves := moves;
     BattlePokemon.currentHp := BattleStats.hp stats;
     BattlePokemon.status :=
       {| PokemonStatus.type := StNone; PokemonStatus.turnsLeft := 0 |};
     BattlePokemon.statModifiers :=
       {| StatModifiers.attack := 0; StatModifiers.defense := 0;
          StatModifiers.specialAttack := 0; StatModifiers.specialDefense := 0;
          StatModifiers.speed := 0 |};
     BattlePokemon.experience := 0; BattlePokemon.items := [] |}.

Definition bulbasaur50 : BattlePokemon.t :=
  combatant bulbasaur (statsOf 45 49 49 65 65 45) [vineWhip; growl].

Definition charmander50 : BattlePokemon.t :=
  combatant charmander (statsOf 39 52 43 60 50 65) [ember; scratch].

(** Charmander when the stats request failed: every stat is 0. *)
Definition hollowCharmander : BattlePokemon.t :=
  combatant charmander Catalog.zeroStats [ember; scratch].


(** A creature whose type tag is a key that a function refuses to read,
    and a move whose type tag names the built-in [Object]. *)
Definition callerCharmander : BattlePokemon.t :=
  combatant
    {| Api.id := 4; Api.name := "charmander";
       Api.types := [ {| PokemonType.type_name := "caller" |} ];
       Api.moves := Api.moves charmander;
       Api.base_stats := Api.base_stats charmander |}
    (statsOf 39 52 43 60 50 65) [ember; scratch].

Definition oddPound : BattleMove.t :=
  {| BattleMove.name := "pound"; BattleMove.power := 40;
     BattleMove.accuracy := 100; BattleMove.type := "constructor";
     BattleMove.pp := 35 |}.

Definition oddBulbasaur : BattlePokemon.t :=
  combatant bulbasaur (statsOf 45 49 49 65 65 45) [oddPound].


(** An encounter as [startBattle] builds it. *)
Definition encounter (player opponent : BattlePokemon.t) : BattleState.t :=
  {| BattleState.playerPokemon := player;
     BattleState.opponentPokemon := opponent;
     BattleState.turn := 1;
     BattleState.weather :=
       {| BattleWeather.type := WNone; BattleWeather.turnsLeft := 0 |};
     BattleState.status := "active";
     BattleState.battleLog := [] |}.

(** The catalog answers every request. *)
Definition healthyCatalog : Catalog.Service :=
  [Some bulbasaur; Some bulbasaur; Some bulbasaur;
   Some charmander; Some charmander; Some charmander].

(** The catalog fails the last request, the opponent's stats. *)
Definition failingStatsCatalog : Catalog.Service :=
  [Some bulbasaur; Some bulbasaur; Some bulbasaur;
   Some charmander; Some charmander; None].

(** A process in which [start_battle(1, 4)] has just succeeded. *)
Definition duel (random : list Q) : World :=
  {| currentBattle := Some (encounter bulbasaur50 charmander50);
     random := random; catalog := [] |}.

Definition hollowDuel (random : list Q) : World :=
  {| currentBattle := Some (encounter bulbasaur50 hollowCharmander);
     random := random; catalog := [] |}.

(** A combatant with a status condition and some hit points left. *)
Definition afflicted (status : StatusType) (turnsLeft currentHp : number)
    (p : BattlePokemon.t) : BattlePokemon.t :=
  BattlePokemon.setCurrentHp currentHp
    (BattlePokemon.setStatus
       {| PokemonStatus.type := status; PokemonStatus.turnsLeft := turnsLeft |} p).

(** The duel one turn in: vine-whip hit for 12, ember hit back for 30. *)
Definition secondTurn : World :=
  after (make_move 0) (duel [0; 0; 1 # 2; 1 # 2; 0; 1 # 2]%Q).

(** Both combatants burned, with 3 hit points left each. *)
Definition scorchedEncounter : BattleState.t :=
  encounter (afflicted Burn 2 3 bulbasaur50) (afflicted Burn 2 3 charmander50).

End Fixtures.

(* ================================================================== *)
(** ** The Pokédex helpers that stand alone *)
(* ================================================================== *)

Module Pokedex.

(** [getRandomItem(array)], with the value [u] that its call of
    [Math.random()] returns; [None] is [undefined]. *)
Definition getRandomItem {A : Type} (array : list A) (u : Q) : option A :=
  JS.subscript array (JS.floor (JS.Fin u *~ JS.length array)).

(** [FlavorTextEntry]: [{ flavor_text, language: { name } }]. *)
Module FlavorTextEntry.
Record t : Type := { flavor_text : string; language_name : string }.
End FlavorTextEntry.

Module PokemonSpeciesDetails.
Record t : Type := { flavor_text_entries : list FlavorTextEntry.t }.
End PokemonSpeciesDetails.

Definition lineFeed : ascii := ascii_of_nat 10.
Definition formFeed : ascii := ascii_of_nat 12.

(** [text.replace(/c/g, " ")] for the one-character pattern [c]. *)
Fixpoint replaceWithSpace (c : ascii) (text : string) : string :=
  match text with
  | EmptyString => EmptyString
  | String a rest =>
      String (if Ascii.eqb a c then " "%char else a) (replaceWithSpace c rest)
  end.

Definition noDescription : string := "No description available.".

(** [getEnglishFlavorText(species)]: [find] gives the first entry whose
    language is "en"; [||] replaces an empty text as well as a missing
    entry. *)
Definition getEnglishFlavorText (species : PokemonSpeciesDetails.t) : string :=
  match List.find
          (fun entry => String.eqb (FlavorTextEntry.language_name entry) "en")
          (PokemonSpeciesDetails.flavor_text_entries species) with
  | Some entry =>
      match replaceWithSpace formFeed
              (replaceWithSpace lineFeed (FlavorTextEntry.flavor_text entry)) with
      | EmptyString => noDescription
      | text => text
      end
  | None => noDescription
  end.

End Pokedex.

(* ================================================================== *)
(** ** What a turn leaves alone, what the tools keep true, and the older
       engine's view of a battle *)
(* ================================================================== *)

Module Views.
Import Engine Server Props.

(** Everything of a combatant except its hit points and its status. *)
Definition sameCard (p q : BattlePokemon.t) : Prop :=
  BattlePokemon.id q = BattlePokemon.id p
  /\ BattlePokemon.name q = BattlePokemon.name p
  /\ BattlePokemon.level q = BattlePokemon.level p
  /\ BattlePokemon.types q = BattlePokemon.types p
  /\ BattlePokemon.stats q = BattlePokemon.stats p
  /\ BattlePokemon.moves q = BattlePokemon.moves p
  /\ BattlePokemon.statModifiers q = BattlePokemon.statModifiers p
  /\ BattlePokemon.experience q = BattlePokemon.experience p
  /\ BattlePokemon.items q = BattlePokemon.items p.

(** Everything of a battle except hit points, statuses, the turn counter
    and the log. *)
Definition sameSetting (b b1 : BattleState.t) : Prop :=
  sameCard (BattleState.playerPokemon b) (BattleState.playerPokemon b1)
  /\ sameCard (BattleState.opponentPokemon b) (BattleState.opponentPokemon b1)
  /\ BattleState.weather b1 = BattleState.weather b
  /\ BattleState.status b1 = BattleState.status b.

(** [Math.random()] called [k] times: what is left of the stream. *)
Definition drawn (k : nat) (random : list Q) : list Q :=
  Nat.iter k (@tl Q) random.


(** A combatant as [createBattlePokemon] makes it, apart from its hit
    points: no status, no items, at most four moves. *)
Definition bare (p : BattlePokemon.t) : Prop :=
  PokemonStatus.type (BattlePokemon.status p) = StNone
  /\ BattlePokemon.items p = []
  /\ (List.length (BattlePokemon.moves p) <= 4)%nat
  /\ BattlePokemon.level p = defaultLevel.

(** An Encounter as the tools keep it: two bare combatants, no weather,
    the status tag "active", a turn counter that is an integer from 1. *)
Definition plain (b : BattleState.t) : Prop :=
  bare (BattleState.playerPokemon b)
  /\ bare (BattleState.opponentPokemon b)
  /\ BattleWeather.type (BattleState.weather b) = WNone
  /\ BattleState.status b = "active"
  /\ exists n : Z, (1 <= n)%Z /\ BattleState.turn b = JS.ofZ n.

(** The types of the combatant's moves name no member of
    [Object.prototype]. *)
Definition plainMoves (p : BattlePokemon.t) : bool :=
  forallb (fun move => plainTag (BattleMove.type move)) (BattlePokemon.moves p).

(** A draw that selects the element at index [n] of an array: the least
    multiple of 2^-53 whose product with the length is [n] at least. *)
Definition drawFor (n length : Z) : Q :=
  (inject_Z ((n * 2 ^ 53 + length - 1) / length) * JS.pow2 (-53))%Q.

(** The move's type is no row of the type chart and names no member of
    [Object.prototype]: the move is neutral against every defender. *)
Definition rowless (move : BattleMove.t) : bool :=
  match property typeChart (BattleMove.type move) with
  | Some _ => false
  | None => plainTag (BattleMove.type move)
  end.

(** The chart's entry for a pair of tags as a power of two: 1 for the
    entry 2, -1 for the entry 0.5, 0 where the chart has no entry. *)
Definition chartShift (attackerType tag : string) : Z :=
  match chartEntry attackerType tag with
  | Some (JS.Fin q) => if Qle_bool 1 q then 1%Z else (-1)%Z
  | _ => 0%Z
  end.

Definition shiftSum (attackerType : string) (tags : list string) : Z :=
  fold_right Z.add 0%Z (map (chartShift attackerType) tags).

(** The number [2^k]. *)
Definition power2 (k : Z) : number := JS.Fin (Qred (JS.pow2 k)).

(** The combatant and the battle as the older server holds them: without
    status, modifiers, experience and items, without the log. *)
Definition older (p : BattlePokemon.t) : Legacy.BattlePokemon.t :=
  {| Legacy.BattlePokemon.id := BattlePokemon.id p;
     Legacy.BattlePokemon.name := BattlePokemon.name p;
     Legacy.BattlePokemon.level := BattlePokemon.level p;
     Legacy.BattlePokemon.types := BattlePokemon.types p;
     Legacy.BattlePokemon.stats := BattlePokemon.stats p;
     Legacy.BattlePokemon.moves := BattlePokemon.moves p;
     Legacy.BattlePokemon.currentHp := BattlePokemon.currentHp p |}.

Definition olderState (b : BattleState.t) : Legacy.BattleState.t :=
  {| Legacy.BattleState.playerPokemon := older (BattleState.playerPokemon b);
     Legacy.BattleState.opponentPokemon := older (BattleState.opponentPokemon b);
     Legacy.BattleState.turn := BattleState.turn b;
     Legacy.BattleState.weather := "normal";
     Legacy.BattleState.status := BattleState.status b |}.

Definition olderCtx (ctx : TurnCtx) : Legacy.TurnCtx :=
  (olderState (fst ctx), snd ctx).

(** A number from 0 to 2^20, and a defense stat that is finite and 1 at
    least. *)
Definition moderateNumber (x : number) : bool :=
  isNonNegative x && (x <=? 1048576).

Definition solidNumber (x : number) : bool := isFinite x && (1 <=? x).

Definition plainMove (move : BattleMove.t) : bool :=
  plainTag (BattleMove.type move) && moderateNumber (BattleMove.power move).

(** A combatant of ordinary size: level, attack stats and move powers up
    to 2^20, defense stats from 1, tags that name no member of
    [Object.prototype]. *)
Definition moderate (p : BattlePokemon.t) : bool :=
  moderateNumber (BattlePokemon.level p)
  && moderateNumber (BattleStats.attack (BattlePokemon.stats p))
  && moderateNumber (BattleStats.specialAttack (BattlePokemon.stats p))
  && solidNumber (BattleStats.defense (BattlePokemon.stats p))
  && solidNumber (BattleStats.specialDefense (BattlePokemon.stats p))
  && forallb plainMove (BattlePokemon.moves p)
  && forallb plainTag (map PokemonType.type_name (BattlePokemon.types p)).

(** A catalog answer the battle can be built on: the creature's type tags
    and the types of the first four move entries name no member of
    [Object.prototype], each of these entries carries a type and a power
    that is missing, 0 or finite, positive and at most 2^20, and it has six
    stat entries that are finite and non-negative, the attack stats at most
    2^20, the two defense stats 1 at least. *)
Definition usableMove (entry : Api.move) : bool :=
  match Api.move_type entry with
  | Some type => plainTag type && moderateNumber (JS.orDefault (Api.move_power entry) 0)
  | None => false
  end.

Definition usableBody (body : Api.pokemon) : bool :=
  forallb usableMove (firstn 4 (Api.moves body))
  && forallb plainTag (map PokemonType.type_name (Api.types body))
  && match Api.base_stats body with
     | hp :: attack :: defense :: specialAttack :: specialDefense :: speed :: _ =>
         wellFormedStats
           {| BattleStats.hp := hp; BattleStats.attack := attack;
              BattleStats.defense := defense;
              BattleStats.specialAttack := specialAttack;
              BattleStats.specialDefense := specialDefense;
              BattleStats.speed := speed |}
         && moderateNumber attack && moderateNumber specialAttack
         && solidNumber defense && solidNumber specialDefense
     | _ => false
     end.

Definition usableAnswer (answer : option Api.pokemon) : bool :=
  match answer with
  | Some body => usableBody body
  | None => false
  end.

(** A catalog service that answers every request with a usable answer
    for as long as it answers, and stops answering, if ever, between two
    creatures (each hydration makes three requests). *)
Definition dependable (service : Catalog.Service) : Prop :=
  forallb usableAnswer service = true
  /\ exists n : nat, List.length service = (3 * n)%nat.

(** A process whose catalog is dependable, whose random values are in
    [0, 1) and whose stored Encounter, if any, has well-formed combatants
    of ordinary size with hit points in range. *)
Definition steady (w : World) : Prop :=
  dependable (catalog w)
  /\ Forall unitInterval (random w)
  /\ match currentBattle w with
     | Some b =>
         sound b
         /\ moderate (BattleState.playerPokemon b) = true
         /\ moderate (BattleState.opponentPokemon b) = true
     | None => True
     end.

(** The process after a sequence of tool calls, each returning or
    throwing. *)
Fixpoint play (calls : list toolCall) (w : World) : World :=
  match calls with
  | [] => w
  | call :: rest => play rest (snd (handler call w))
  end.

End Views.

(* ================================================================== *)
(** ** Further catalog answers, items and battles used in the examples *)
(* ================================================================== *)

Module Samples.
Import Server Fixtures.

(** A moves answer whose only entry carries no type. *)
Definition typelessMoves : Api.pokemon :=
  {| Api.id := 1; Api.name := "bulbasaur"; Api.types := [];
     Api.moves :=
       [ {| Api.move_name := "tackle"; Api.move_power := Some 40;
            Api.move_accuracy := Some 100; Api.move_type := None;
            Api.move_pp := None |} ];
     Api.base_stats := [] |}.

(** A process whose catalog answers the creature request and then sends
    the unreadable moves. *)
Definition typelessWorld : World :=
  fresh [] [Some bulbasaur; Some typelessMoves; Some bulbasaur].

(** A process whose catalog answers the creature and the moves request
    and then sends an answer without stat entries. *)
Definition scantStatsWorld : World :=
  fresh [] [Some bulbasaur; Some bulbasaur; Some typelessMoves].

(** A process in which a duel the other way round is stored. *)
Definition rematch (random : list Q) (catalog : Catalog.Service) : World :=
  {| currentBattle := Some (encounter charmander50 bulbasaur50);
     random := random; catalog := catalog |}.

Definition potion : BattleItem.t :=
  {| BattleItem.name := "potion";
     BattleItem.effect :=
       {| ItemEffect.heal := Some 20; ItemEffect.status := None;
          ItemEffect.statBoost := None |} |}.

(** An item with no effect the handler knows. *)
Definition xAttack : BattleItem.t :=
  {| BattleItem.name := "x-attack";
     BattleItem.effect :=
       {| ItemEffect.heal := None; ItemEffect.status := None;
          ItemEffect.statBoost := Some (StatAttack, 1) |} |}.

(** Bulbasaur at 30 of 45 hit points, carrying two items. *)
Definition woundedBulbasaur : BattlePokemon.t :=
  BattlePokemon.setItems [xAttack; potion]
    (BattlePokemon.setCurrentHp 30 bulbasaur50).

Definition suppliedDuel (random : list Q) : World :=
  {| currentBattle := Some (encounter woundedBulbasaur charmander50);
     random := random; catalog := [] |}.

(** Draws in [0, 1) for one turn and the handler's own draw. *)
Definition sixDraws : list Q := [0; 0; 1 # 2; 1 # 2; 0; 1 # 2]%Q.

(** The duel with Charmander down to its last hit point, and the process
    after the [make_move(0)] that ends it. *)
Definition lastStand : BattleState.t :=
  encounter bulbasaur50 (BattlePokemon.setCurrentHp 1 charmander50).

Definition lastStandWorld : World :=
  {| currentBattle := Some lastStand; random := sixDraws; catalog := [] |}.

Definition afterVictory : World :=
  {| currentBattle := None; random := [0; 1 # 2]%Q; catalog := [] |}.

(** A duel fought with moves whose types are no rows of the type chart:
    growl against scratch. *)
Definition scuffle : BattleState.t :=
  encounter (combatant bulbasaur (statsOf 45 49 49 65 65 45) [growl; growl])
            (combatant charmander (statsOf 39 52 43 60 50 65) [scratch]).

(** Charmander hydrated while its moves request failed, as the player. *)
Definition unarmedCharmander : BattlePokemon.t :=
  combatant charmander (statsOf 39 52 43 60 50 65) [].

(** The duel against a Charmander without moves. *)
Definition walkover : BattleState.t := encounter bulbasaur50 unarmedCharmander.

Definition unarmedDuel (random : list Q) : World :=
  {| currentBattle := Some (encounter unarmedCharmander bulbasaur50);
     random := random; catalog := [] |}.

(** A species with a French entry before its two English ones; the first
    English text holds a line feed and a form feed. *)
Definition bulbasaurSpecies : Pokedex.PokemonSpeciesDetails.t :=
  {| Pokedex.PokemonSpeciesDetails.flavor_text_entries :=
       [ {| Pokedex.FlavorTextEntry.flavor_text := "Une graine";
            Pokedex.FlavorTextEntry.language_name := "fr" |};
         {| Pokedex.FlavorTextEntry.flavor_text :=
              "A strange seed was" ++ String Pokedex.lineFeed "planted on its"
                ++ String Pokedex.formFeed "back at birth.";
            Pokedex.FlavorTextEntry.language_name := "en" |};
         {| Pokedex.FlavorTextEntry.flavor_text := "It can go for days";
            Pokedex.FlavorTextEntry.language_name := "en" |} ] |}.

Definition victoryText : string :=
  JS.join JS.newline
    ["Turn 2:"; "bulbasaur used vine-whip!"; "charmander used scratch!"; "";
     "bulbasaur HP: 45/45"; "charmander HP: 0/39"; "";
     "Battle ended! bulbasaur won!"].

End Samples.

(* ================================================================== *)
(** ** Facts about numbers *)
(* ================================================================== *)

Module JSFacts.
Import Props.

Lemma canonical_ofZ (z : Z) : canonical (JS.ofZ z).
Proof.
  unfold canonical, JS.ofZ. apply Qcanon.Qred_identity. simpl. apply Z.gcd_1_r.
Qed.

Lemma canonical_mul (a b : number) : canonical (a * b).
Proof.
  destruct a as [x|s|], b as [y|t|]; unfold JS.mul, canonical; trivial;
    try apply Qcanon.Qred_involutive;
    match goal with |- context [JS.Qsign ?q] => destruct (JS.Qsign q) end;
    exact I.
Qed.

Lemma canonical_floor (a : number) : canonical a -> canonical (JS.floor a).
Proof.
  destruct a; trivial. intros _. apply (canonical_ofZ (Qfloor q)).
Qed.

Lemma mul_1_r (a : number) : canonical a -> a * 1 = a.
Proof.
  destruct a as [x|s|]; [ | reflexivity | reflexivity ].
  intros Hx. unfold canonical in Hx. unfold JS.mul. f_equal.
  transitivity (Qred x); [ apply Qred_complete; ring | exact Hx ].
Qed.

Lemma nonNegative_NN (a : number) : isNonNegative a = true <-> NN a.
Proof.
  unfold isNonNegative, NN. destruct a as [q|s|]; simpl.
  - rewrite Qle_bool_iff. split; [ intros H; exists q; auto | ].
    intros [q' [E H]]. inversion E. subst. exact H.
  - split; [ discriminate | intros [q' [E _]]; discriminate ].
  - split; [ discriminate | intros [q' [E _]]; discriminate ].
Qed.

Lemma positive_PP (a : number) : isPositive a = true <-> PP a.
Proof.
  unfold isPositive, PP. destruct a as [q|s|]; simpl.
  - rewrite negb_true_iff, <- not_true_iff_false, Qle_bool_iff.
    split; [ intros H; exists q; split; [ reflexivity | lra ] | ].
    intros [q' [E H]]. inversion E. subst. lra.
  - split; [ discriminate | intros [q' [E _]]; discriminate ].
  - split; [ discriminate | intros [q' [E _]]; discriminate ].
Qed.


Lemma PP_NN (a : number) : PP a -> NN a.
Proof. intros [q [-> H]]. exists q. split; [ reflexivity | lra ]. Qed.

Lemma NN_ofZ (z : Z) : (0 <= z)%Z -> NN (JS.ofZ z).
Proof.
  intros H. exists (inject_Z z). split; [ reflexivity | ].
  change 0%Q with (inject_Z 0). rewrite <- Zle_Qle. exact H.
Qed.

Lemma Qsign_pos (q : Q) : (0 < q)%Q -> JS.Qsign q = Gt.
Proof.
  unfold JS.Qsign, Qlt. simpl. rewrite Z.mul_1_r. intros H.
  apply Z.compare_gt_iff. exact H.
Qed.

Lemma NN_add (a b : number) : NN a -> NN b -> NN (a + b).
Proof.
  intros [x [-> Hx]] [y [-> Hy]]. exists (Qred (x + y)).
  split; [ reflexivity | rewrite Qred_correct; lra ].
Qed.

Lemma NN_mul (a b : number) : NN a -> NN b -> NN (a * b).
Proof.
  intros [x [-> Hx]] [y [-> Hy]]. exists (Qred (x * y)).
  split; [ reflexivity | rewrite Qred_correct; apply Qmult_le_0_compat; assumption ].
Qed.

Lemma PP_mul (a b : number) : PP a -> PP b -> PP (a * b).
Proof.
  intros [x [-> Hx]] [y [-> Hy]]. exists (Qred (x * y)).
  split; [ reflexivity | rewrite Qred_correct; apply Qmult_lt_0_compat; assumption ].
Qed.

Lemma NN_div (a b : number) : NN a -> PP b -> NN (a / b).
Proof.
  intros [x [-> Hx]] [y [-> Hy]]. exists (Qred (x / y)). split.
  - unfold JS.div. rewrite (Qsign_pos y Hy). reflexivity.
  - rewrite Qred_correct. apply Qle_shift_div_l; [ exact Hy | lra ].
Qed.

Lemma NN_floor (a : number) : NN a -> NN (JS.floor a).
Proof.
  intros [x [-> Hx]]. apply NN_ofZ.
  rewrite <- (Qfloor_Z 0). apply Qfloor_resp_le. exact Hx.
Qed.



End JSFacts.

(* ================================================================== *)
(** ** Rounding to the nearest double *)
(* ================================================================== *)

Module DoubleFacts.
Import JS Props JSFacts.
Local Open Scope Q_scope.

Lemma pow2_pos (k : Z) : 0 < pow2 k.
Proof. apply Qpower_0_lt. reflexivity. Qed.

Lemma pow2_add (a b : Z) : pow2 (a + b) == pow2 a * pow2 b.
Proof. apply Qpower_plus. discriminate. Qed.

Lemma pow2_le (a b : Z) : (a <= b)%Z -> pow2 a <= pow2 b.
Proof. intros H. apply Qpower_le_compat_l; [ exact H | discriminate ]. Qed.

Lemma pow2_lt (a b : Z) : (a < b)%Z -> pow2 a < pow2 b.
Proof. intros H. apply Qpower_lt_compat_l; [ exact H | reflexivity ]. Qed.

Lemma pow2_lt_inv (a b : Z) : pow2 a < pow2 b -> (a < b)%Z.
Proof. intros H. apply (Qpower_lt_compat_l_inv 2); [ exact H | reflexivity ]. Qed.

Lemma pow2_Z (k : Z) : (0 <= k)%Z -> pow2 k == inject_Z (2 ^ k).
Proof. intros H. unfold pow2. rewrite Zpower_Qpower by exact H. reflexivity. Qed.

Lemma pow2_sub (a b : Z) : pow2 (a - b) * pow2 b == pow2 a.
Proof. rewrite <- pow2_add. replace (a - b + b)%Z with a by ring. reflexivity. Qed.

Lemma Qnum_pos (q : Q) : 0 < q -> (0 < Qnum q)%Z.
Proof. unfold Qlt. simpl. lia. Qed.

Lemma ilog2_spec (q : Q) : 0 < q -> pow2 (ilog2 q) <= q /\ q < pow2 (ilog2 q + 1).
Proof.
  intros Hq. pose proof (Qnum_pos q Hq) as Hn.
  set (n := Qnum q) in *. set (d := Zpos (Qden q)).
  assert (Hd : (0 < d)%Z) by reflexivity.
  destruct (Z.log2_spec n Hn) as [Hn1 Hn2].
  destruct (Z.log2_spec d Hd) as [Hd1 Hd2].
  assert (Eq : q * inject_Z d == inject_Z n).
  { unfold n, d. destruct q as [qn qd]. unfold Qeq, Qmult, inject_Z. simpl. rewrite Pos.mul_1_r. ring. }
  set (a := Z.log2 n) in *. set (b := Z.log2 d) in *.
  assert (Ha : (0 <= a)%Z) by apply Z.log2_nonneg.
  assert (Hb : (0 <= b)%Z) by apply Z.log2_nonneg.
  assert (Qn1 : pow2 a <= inject_Z n).
  { rewrite pow2_Z by exact Ha. rewrite <- Zle_Qle. exact Hn1. }
  assert (Qn2 : inject_Z n < pow2 (a + 1)).
  { rewrite pow2_Z by lia. rewrite <- Zlt_Qlt. replace (a + 1)%Z with (Z.succ a) by lia. exact Hn2. }
  assert (Qd1 : pow2 b <= inject_Z d).
  { rewrite pow2_Z by exact Hb. rewrite <- Zle_Qle. exact Hd1. }
  assert (Qd2 : inject_Z d < pow2 (b + 1)).
  { rewrite pow2_Z by lia. rewrite <- Zlt_Qlt. replace (b + 1)%Z with (Z.succ b) by lia. exact Hd2. }
  assert (Up : q < pow2 (a - b + 1)).
  { apply (Qmult_lt_r _ _ (pow2 b) (pow2_pos b)).
    replace (a - b + 1)%Z with (a + 1 - b)%Z by ring. rewrite pow2_sub.
    apply Qle_lt_trans with (q * inject_Z d); [ | rewrite Eq; exact Qn2 ].
    apply Qmult_le_l; [ exact Hq | exact Qd1 ]. }
  assert (Lo : pow2 (a - b - 1) < q).
  { assert (Dpos : 0 < inject_Z d) by (rewrite <- (Zlt_Qlt 0); exact Hd).
    apply (Qmult_lt_r _ _ (inject_Z d) Dpos).
    apply Qlt_le_trans with (pow2 (a - b - 1) * pow2 (b + 1)).
    - apply Qmult_lt_l; [ apply pow2_pos | exact Qd2 ].
    - replace (a - b - 1)%Z with (a - (b + 1))%Z by ring. rewrite pow2_sub.
      rewrite Eq. exact Qn1. }
  unfold ilog2. fold n. fold d. fold a. fold b.
  destruct (Qle_bool (pow2 (a - b)) q) eqn:T.
  - apply Qle_bool_iff in T. split; [ exact T | exact Up ].
  - assert (T' : q < pow2 (a - b)).
    { apply Qnot_le_lt. intros H. apply Qle_bool_iff in H. congruence. }
    split; [ apply Qlt_le_weak, Lo | ].
    replace (a - b - 1 + 1)%Z with (a - b)%Z by ring. exact T'.
Qed.

Lemma ilog2_unique (q : Q) (e : Z) :
  pow2 e <= q -> q < pow2 (e + 1) -> 0 < q -> ilog2 q = e.
Proof.
  intros H1 H2 Hq. destruct (ilog2_spec q Hq) as [G1 G2].
  assert (A : (e < ilog2 q + 1)%Z) by (apply pow2_lt_inv; lra).
  assert (B : (ilog2 q < e + 1)%Z) by (apply pow2_lt_inv; lra).
  lia.
Qed.

Lemma ilog2_comp (q q' : Q) : 0 < q -> q == q' -> ilog2 q = ilog2 q'.
Proof.
  intros Hq E. assert (Hq' : 0 < q') by (rewrite <- E; exact Hq).
  destruct (ilog2_spec q' Hq') as [G1 G2].
  apply ilog2_unique; [ rewrite E; exact G1 | rewrite E; exact G2 | exact Hq ].
Qed.

Lemma ilog2_mono (q1 q2 : Q) : 0 < q1 -> q1 <= q2 -> (ilog2 q1 <= ilog2 q2)%Z.
Proof.
  intros H1 H12. assert (H2 : 0 < q2) by lra.
  destruct (ilog2_spec q1 H1) as [A1 A2]. destruct (ilog2_spec q2 H2) as [B1 B2].
  assert (C : (ilog2 q1 < ilog2 q2 + 1)%Z) by (apply pow2_lt_inv; lra).
  lia.
Qed.

(** *** nearestEven *)

Lemma nearestEven_bounds (x : Q) :
  (Qfloor x <= nearestEven x <= Qfloor x + 1)%Z.
Proof.
  unfold nearestEven.
  destruct (x - inject_Z (Qfloor x) ?= 1 # 2); try lia.
  destruct (Z.even (Qfloor x)); lia.
Qed.

Lemma nearestEven_Z (z : Z) : nearestEven (inject_Z z) = z.
Proof.
  unfold nearestEven. rewrite Qfloor_Z.
  assert (E : (inject_Z z - inject_Z z ?= 1 # 2) = Lt).
  { rewrite <- Qlt_alt. lra. }
  rewrite E. reflexivity.
Qed.

Lemma nearestEven_comp (x y : Q) : x == y -> nearestEven x = nearestEven y.
Proof.
  intros E. unfold nearestEven.
  assert (F : Qfloor x = Qfloor y) by (apply Qfloor_comp; exact E).
  rewrite F.
  assert (C : (x - inject_Z (Qfloor y) ?= 1 # 2) = (y - inject_Z (Qfloor y) ?= 1 # 2)).
  { apply Qcompare_comp; [ rewrite E; reflexivity | reflexivity ]. }
  rewrite C. reflexivity.
Qed.

Lemma nearestEven_mono (x y : Q) : x <= y -> (nearestEven x <= nearestEven y)%Z.
Proof.
  intros H. pose proof (Qfloor_resp_le x y H) as F.
  pose proof (nearestEven_bounds x) as Bx. pose proof (nearestEven_bounds y) as By.
  destruct (Z.eq_dec (Qfloor x) (Qfloor y)) as [E|N]; [ | lia ].
  unfold nearestEven. rewrite <- E.
  destruct (x - inject_Z (Qfloor x) ?= 1 # 2) eqn:Cx;
    destruct (y - inject_Z (Qfloor x) ?= 1 # 2) eqn:Cy;
    try (destruct (Z.even (Qfloor x))); try lia;
    try rewrite <- Qeq_alt in *; try rewrite <- Qlt_alt in *; try rewrite <- Qgt_alt in *;
    exfalso; lra.
Qed.

Lemma nearestEven_le_Z (x : Q) (z : Z) : x <= inject_Z z -> (nearestEven x <= z)%Z.
Proof. intros H. rewrite <- (nearestEven_Z z). apply nearestEven_mono, H. Qed.

Lemma nearestEven_ge_Z (x : Q) (z : Z) : inject_Z z <= x -> (z <= nearestEven x)%Z.
Proof. intros H. rewrite <- (nearestEven_Z z). apply nearestEven_mono, H. Qed.

(** *** Rounding a positive rational *)

Lemma quantum_ge (q : Q) : (-1074 <= quantum q)%Z.
Proof. unfold quantum. lia. Qed.

Lemma quantum_mono (q1 q2 : Q) : 0 < q1 -> q1 <= q2 -> (quantum q1 <= quantum q2)%Z.
Proof. intros H1 H2. pose proof (ilog2_mono q1 q2 H1 H2). unfold quantum. lia. Qed.

Lemma quantum_comp (q q' : Q) : 0 < q -> q == q' -> quantum q = quantum q'.
Proof. intros H E. unfold quantum. rewrite (ilog2_comp q q' H E). reflexivity. Qed.

Lemma div_pow2 (q : Q) (k : Z) : q / pow2 k * pow2 k == q.
Proof. field. pose proof (pow2_pos k). lra. Qed.

Lemma div_pow2_le (q : Q) (a k : Z) : q <= pow2 a -> q / pow2 k <= pow2 (a - k).
Proof.
  intros H. apply (Qmult_le_r _ _ (pow2 k) (pow2_pos k)).
  rewrite div_pow2, pow2_sub. exact H.
Qed.

Lemma div_pow2_lt (q : Q) (a k : Z) : q < pow2 a -> q / pow2 k < pow2 (a - k).
Proof.
  intros H. apply (Qmult_lt_r _ _ (pow2 k) (pow2_pos k)).
  rewrite div_pow2, pow2_sub. exact H.
Qed.

Lemma div_pow2_ge (q : Q) (a k : Z) : pow2 a <= q -> pow2 (a - k) <= q / pow2 k.
Proof.
  intros H. apply (Qmult_le_r _ _ (pow2 k) (pow2_pos k)).
  rewrite div_pow2, pow2_sub. exact H.
Qed.

Lemma div_pow2_pos (q : Q) (k : Z) : 0 < q -> 0 < q / pow2 k.
Proof.
  intros H. apply (Qmult_lt_r _ _ (pow2 k) (pow2_pos k)).
  rewrite div_pow2. lra.
Qed.

Lemma roundPos_nonneg (q : Q) : 0 < q -> 0 <= roundPos q.
Proof.
  intros H. unfold roundPos.
  apply Qmult_le_0_compat; [ | apply Qlt_le_weak, pow2_pos ].
  rewrite <- (Zle_Qle 0). apply nearestEven_ge_Z.
  apply Qlt_le_weak, div_pow2_pos, H.
Qed.

Lemma roundPos_comp (q q' : Q) : 0 < q -> q == q' -> roundPos q = roundPos q'.
Proof.
  intros H E. unfold roundPos. rewrite (quantum_comp q q' H E).
  rewrite (nearestEven_comp (q / pow2 (quantum q')) (q' / pow2 (quantum q'))).
  - reflexivity.
  - rewrite E. reflexivity.
Qed.

(** A multiple of the quantum above [q] is above what [q] rounds to, and
    one below is below. *)
Lemma roundPos_le_multiple (q : Q) (a : Z) :
  (quantum q <= a)%Z -> q <= pow2 a -> roundPos q <= pow2 a.
Proof.
  intros Hk H. unfold roundPos. set (k := quantum q) in *.
  assert (E : pow2 a == inject_Z (2 ^ (a - k)) * pow2 k).
  { rewrite <- pow2_Z by lia. rewrite pow2_sub. reflexivity. }
  rewrite E. apply Qmult_le_compat_r; [ | apply Qlt_le_weak, pow2_pos ].
  rewrite <- Zle_Qle. apply nearestEven_le_Z.
  rewrite <- pow2_Z by lia. apply div_pow2_le, H.
Qed.

Lemma roundPos_ge_multiple (q : Q) (a : Z) :
  (quantum q <= a)%Z -> pow2 a <= q -> pow2 a <= roundPos q.
Proof.
  intros Hk H. unfold roundPos. set (k := quantum q) in *.
  assert (E : pow2 a == inject_Z (2 ^ (a - k)) * pow2 k).
  { rewrite <- pow2_Z by lia. rewrite pow2_sub. reflexivity. }
  rewrite E. apply Qmult_le_compat_r; [ | apply Qlt_le_weak, pow2_pos ].
  rewrite <- Zle_Qle. apply nearestEven_ge_Z.
  rewrite <- pow2_Z by lia. apply div_pow2_ge, H.
Qed.

Lemma roundPos_mono (q1 q2 : Q) : 0 < q1 -> q1 <= q2 -> roundPos q1 <= roundPos q2.
Proof.
  intros H1 H12. assert (H2 : 0 < q2) by lra.
  pose proof (quantum_mono q1 q2 H1 H12) as Hk.
  destruct (Z.eq_dec (quantum q1) (quantum q2)) as [E|N].
  - unfold roundPos. rewrite E.
    apply Qmult_le_compat_r; [ | apply Qlt_le_weak, pow2_pos ].
    rewrite <- Zle_Qle. apply nearestEven_mono.
    apply (Qmult_le_r _ _ (pow2 (quantum q2)) (pow2_pos _)).
    rewrite !div_pow2. exact H12.
  - destruct (ilog2_spec q1 H1) as [A1 A2]. destruct (ilog2_spec q2 H2) as [B1 B2].
    pose proof (ilog2_mono q1 q2 H1 H12) as He.
    assert (Hlt : (ilog2 q1 < ilog2 q2)%Z) by (unfold quantum in *; lia).
    assert (Hq2 : quantum q2 = (ilog2 q2 - 52)%Z) by (unfold quantum in *; lia).
    apply Qle_trans with (pow2 (ilog2 q2)).
    + apply roundPos_le_multiple; [ unfold quantum in *; lia | ].
      apply Qle_trans with (pow2 (ilog2 q1 + 1)); [ lra | apply pow2_le; lia ].
    + apply roundPos_ge_multiple; [ lia | exact B1 ].
Qed.

(** Values with a 53-bit significand at an exponent the format has are
    kept as they are. *)
Lemma roundPos_exact (q : Q) (m k : Z) :
  q == inject_Z m * pow2 k -> (0 < m < 2 ^ 53)%Z -> (-1074 <= k)%Z ->
  roundPos q == q.
Proof.
  intros E Hm Hk.
  assert (Hq : 0 < q).
  { rewrite E. apply Qmult_lt_0_compat; [ rewrite <- (Zlt_Qlt 0); lia | apply pow2_pos ]. }
  destruct (ilog2_spec q Hq) as [A1 A2].
  assert (Hup : q < pow2 (53 + k)).
  { rewrite E, pow2_add. apply Qmult_lt_r; [ apply pow2_pos | ].
    rewrite pow2_Z by lia. rewrite <- Zlt_Qlt. lia. }
  assert (He : (ilog2 q < 53 + k)%Z) by (apply pow2_lt_inv; lra).
  assert (Hkq : (quantum q <= k)%Z) by (unfold quantum; lia).
  unfold roundPos. set (kq := quantum q) in *.
  assert (Es : q / pow2 kq == inject_Z (m * 2 ^ (k - kq))).
  { rewrite inject_Z_mult, <- pow2_Z by lia.
    apply (Qmult_inj_r _ _ (pow2 kq)); [ pose proof (pow2_pos kq); lra | ].
    rewrite div_pow2, <- Qmult_assoc, pow2_sub. exact E. }
  rewrite (nearestEven_comp _ _ Es), nearestEven_Z.
  rewrite inject_Z_mult, <- pow2_Z by lia.
  rewrite <- Qmult_assoc, pow2_sub. symmetry. exact E.
Qed.

(** What rounding returns has a 53-bit significand. *)
Lemma roundPos_form (q : Q) :
  0 < q ->
  exists m k, roundPos q == inject_Z m * pow2 k /\ (0 <= m < 2 ^ 53)%Z /\ (-1074 <= k)%Z.
Proof.
  intros Hq. destruct (ilog2_spec q Hq) as [A1 A2].
  pose proof (quantum_ge q) as Hk.
  set (k := quantum q) in *. set (m := nearestEven (q / pow2 k)).
  assert (Hm0 : (0 <= m)%Z).
  { apply nearestEven_ge_Z. apply Qlt_le_weak, div_pow2_pos, Hq. }
  assert (Hm1 : (m <= 2 ^ 53)%Z).
  { apply nearestEven_le_Z. rewrite <- pow2_Z by lia.
    apply Qle_trans with (pow2 (ilog2 q + 1 - k)).
    - apply Qlt_le_weak, div_pow2_lt, A2.
    - apply pow2_le. unfold k, quantum. lia. }
  destruct (Z.eq_dec m (2 ^ 53)) as [E|N].
  - exists (2 ^ 52)%Z, (k + 1)%Z. split; [ | split; lia ].
    unfold roundPos. fold k. fold m. rewrite E.
    rewrite <- !pow2_Z by lia. rewrite <- !pow2_add.
    replace (52 + (k + 1))%Z with (53 + k)%Z by ring. reflexivity.
  - exists m, k. split; [ reflexivity | split; lia ].
Qed.

Lemma roundPos_idem (q : Q) : 0 < q -> 0 < roundPos q -> roundPos (roundPos q) == roundPos q.
Proof.
  intros Hq Hr. destruct (roundPos_form q Hq) as [m [k [E [Hm Hk]]]].
  apply (roundPos_exact _ m k); [ exact E | | exact Hk ].
  split; [ | lia ].
  destruct (Z.eq_dec m 0) as [Z|N]; [ | lia ].
  subst m. assert (X : inject_Z 0 * pow2 k == 0) by ring.
  rewrite E, X in Hr. apply Qlt_irrefl in Hr. contradiction.
Qed.

(** *** Doubles *)

Lemma Qsign_neg (q : Q) : (q < 0)%Q -> Qsign q = Lt.
Proof.
  unfold Qsign, Qlt. simpl. rewrite Z.mul_1_r. intros H.
  apply Z.compare_lt_iff. exact H.
Qed.

Lemma Qsign_zero (q : Q) : q == 0 -> Qsign q = Eq.
Proof.
  unfold Qsign, Qeq. simpl. rewrite Z.mul_1_r. intros H.
  apply Z.compare_eq_iff. exact H.
Qed.

Lemma Qsign_spec (q : Q) :
  match Qsign q with Eq => q == 0 | Lt => q < 0 | Gt => 0 < q end.
Proof.
  unfold Qsign. destruct (Z.compare_spec (Qnum q) 0) as [H|H|H];
    unfold Qeq, Qlt; simpl; lia.
Qed.

Lemma doublePos_comp (q q' : Q) : 0 < q -> q == q' -> doublePos q = doublePos q'.
Proof.
  intros H E. unfold doublePos. rewrite (roundPos_comp q q' H E). reflexivity.
Qed.

Lemma double_comp (q q' : Q) : q == q' -> double q = double q'.
Proof.
  intros E. unfold double.
  pose proof (Qsign_spec q) as S. destruct (Qsign q) eqn:Sq.
  - rewrite Qsign_zero by (rewrite <- E; exact S). reflexivity.
  - rewrite Qsign_neg by (rewrite <- E; exact S).
    f_equal. apply doublePos_comp; [ lra | rewrite E; reflexivity ].
  - rewrite Qsign_pos by (rewrite <- E; exact S).
    apply doublePos_comp; assumption.
Qed.

Lemma doublePos_NNI (q : Q) : 0 < q -> NNI (doublePos q).
Proof.
  intros H. unfold doublePos.
  destruct (Qle_bool (pow2 1024) (roundPos q)); [ left; reflexivity | right ].
  exists (Qred (roundPos q)). split; [ reflexivity | ].
  rewrite Qred_correct. apply roundPos_nonneg, H.
Qed.

Lemma double_NNI (q : Q) : 0 <= q -> NNI (double q).
Proof.
  intros H. unfold double. pose proof (Qsign_spec q) as S.
  destruct (Qsign q).
  - right. exists 0. split; [ reflexivity | lra ].
  - lra.
  - apply doublePos_NNI, S.
Qed.

Lemma doublePos_exact (q : Q) :
  0 < q -> representable q -> doublePos q = Fin (Qred q).
Proof.
  intros Hq [m [k [E [Hm [Hk Hb]]]]].
  assert (Hm0 : (0 < m)%Z).
  { destruct (Z.lt_trichotomy m 0) as [N|[Z|P]]; [ | | exact P ]; exfalso.
    - assert (X : inject_Z m * pow2 k < 0).
      { setoid_replace (inject_Z m * pow2 k) with (- (inject_Z (- m) * pow2 k))
          by (rewrite inject_Z_opp; ring).
        assert (0 < inject_Z (- m) * pow2 k).
        { apply Qmult_lt_0_compat; [ rewrite <- (Zlt_Qlt 0); lia | apply pow2_pos ]. }
        lra. }
      lra.
    - subst m. assert (X : inject_Z 0 * pow2 k == 0) by ring. lra. }
  assert (R : roundPos q == q) by (apply (roundPos_exact q m k); [ exact E | lia | exact Hk ]).
  unfold doublePos.
  assert (T : Qle_bool (pow2 1024) (roundPos q) = false).
  { apply not_true_iff_false. intros T. apply Qle_bool_iff in T.
    rewrite R in T. rewrite Qabs_pos in Hb by lra. lra. }
  rewrite T. f_equal. apply Qred_complete, R.
Qed.

Lemma representable_opp (q : Q) : representable q -> representable (- q).
Proof.
  intros [m [k [E [Hm [Hk Hb]]]]]. exists (- m)%Z, k.
  split; [ rewrite inject_Z_opp, E; ring | ].
  split; [ lia | ]. split; [ exact Hk | rewrite Qabs_opp; exact Hb ].
Qed.

Lemma double_exact (q : Q) : representable q -> double q = Fin (Qred q).
Proof.
  intros H. unfold double. pose proof (Qsign_spec q) as S.
  destruct (Qsign q).
  - f_equal. symmetry. apply (Qred_complete q 0), S.
  - rewrite doublePos_exact by (try lra; apply representable_opp, H).
    cbn [neg]. f_equal. apply Qred_complete. rewrite Qred_correct. ring.
  - apply doublePos_exact; assumption.
Qed.

Lemma representable_comp (q q' : Q) : q == q' -> representable q -> representable q'.
Proof.
  intros E [m [k [Em [Hm [Hk Hb]]]]]. exists m, k.
  split; [ rewrite <- E; exact Em | ]. split; [ exact Hm | ].
  split; [ exact Hk | rewrite <- E; exact Hb ].
Qed.

Lemma representable_0 : representable 0.
Proof.
  exists 0%Z, 0%Z. split; [ reflexivity | ]. split; [ reflexivity | ].
  split; [ discriminate | apply pow2_pos ].
Qed.

Lemma doublePos_representable (q q' : Q) :
  0 < q -> doublePos q = Fin q' -> representable q' /\ Qred q' = q' /\ 0 <= q'.
Proof.
  intros Hq. unfold doublePos.
  destruct (Qle_bool (pow2 1024) (roundPos q)) eqn:T; [ discriminate | ].
  intros H. assert (Hq' : Qred (roundPos q) = q') by congruence. clear H. subst q'.
  assert (T' : roundPos q < pow2 1024).
  { apply Qnot_le_lt. intros X. apply Qle_bool_iff in X. congruence. }
  pose proof (roundPos_nonneg q Hq) as Hnn.
  split; [ | split; [ apply Qcanon.Qred_involutive | rewrite Qred_correct; exact Hnn ] ].
  apply (representable_comp (roundPos q)); [ symmetry; apply Qred_correct | ].
  destruct (roundPos_form q Hq) as [m [k [E [Hm Hk]]]].
  exists m, k. split; [ exact E | ]. split; [ lia | ]. split; [ exact Hk | ].
  rewrite Qabs_pos by exact Hnn. exact T'.
Qed.

Lemma double_representable (q q' : Q) :
  double q = Fin q' -> representable q' /\ Qred q' = q'.
Proof.
  unfold double. pose proof (Qsign_spec q) as S. destruct (Qsign q).
  - intros H. assert (Hq' : 0 = q') by congruence. subst q'.
    split; [ apply representable_0 | reflexivity ].
  - destruct (doublePos (- q)) as [p|s|] eqn:D; cbn [neg]; try discriminate.
    intros H. assert (Hq' : Qred (- p) = q') by congruence. clear H. subst q'.
    assert (Hp : 0 < - q) by lra.
    destruct (doublePos_representable (- q) p Hp D) as [R [C _]].
    split; [ | apply Qcanon.Qred_involutive ].
    apply (representable_comp (- p)); [ symmetry; apply Qred_correct | ].
    apply representable_opp, R.
  - intros H. destruct (doublePos_representable q q' S H) as [R [C _]]. auto.
Qed.

(** Rounding what rounding returned changes nothing. *)
Lemma double_idem (q q' : Q) : double q = Fin q' -> double q' = Fin q'.
Proof.
  intros H. destruct (double_representable q q' H) as [R C].
  rewrite (double_exact q' R). f_equal. exact C.
Qed.

Lemma doublePos_mono (q1 q2 : Q) :
  0 < q1 -> q1 <= q2 -> leb (doublePos q1) (doublePos q2) = true.
Proof.
  intros H1 H12. pose proof (roundPos_mono q1 q2 H1 H12) as M.
  unfold doublePos.
  destruct (Qle_bool (pow2 1024) (roundPos q1)) eqn:T1;
    destruct (Qle_bool (pow2 1024) (roundPos q2)) eqn:T2; cbn [leb negb orb]; auto.
  - apply Qle_bool_iff in T1.
    assert (X : Qle_bool (pow2 1024) (roundPos q2) = true) by (apply Qle_bool_iff; lra).
    congruence.
  - apply Qle_bool_iff. rewrite !Qred_correct. exact M.
Qed.

Lemma double_mono (q1 q2 : Q) :
  0 <= q1 -> q1 <= q2 -> leb (double q1) (double q2) = true.
Proof.
  intros H1 H12. unfold double.
  pose proof (Qsign_spec q1) as S1. pose proof (Qsign_spec q2) as S2.
  destruct (Qsign q1); [ | lra | ]; (destruct (Qsign q2); [ | lra | ]).
  - reflexivity.
  - destruct (doublePos_NNI q2 S2) as [-> | [p [-> Hp]]]; [ reflexivity | ].
    apply Qle_bool_iff. exact Hp.
  - lra.
  - apply doublePos_mono; assumption.
Qed.

(** A value between two doubles rounds to a double between them. *)
Lemma double_sandwich (a q b : Q) :
  0 <= a -> a <= q -> q <= b -> representable a -> representable b ->
  exists q', double q = Fin q' /\ a <= q' /\ q' <= b.
Proof.
  intros Ha Haq Hqb Ra Rb.
  pose proof (double_mono a q Ha Haq) as M1.
  assert (Hq : 0 <= q) by lra.
  pose proof (double_mono q b Hq Hqb) as M2.
  rewrite (double_exact a Ra) in M1. rewrite (double_exact b Rb) in M2.
  destruct (double q) as [q'|s|]; cbn [leb] in *; try discriminate.
  - exists q'. split; [ reflexivity | ].
    apply Qle_bool_iff in M1. apply Qle_bool_iff in M2.
    rewrite Qred_correct in M1, M2. auto.
  - destruct s; discriminate.
Qed.

Lemma representable_pow2 (k : Z) : (-1074 <= k < 1024)%Z -> representable (pow2 k).
Proof.
  intros H. exists 1%Z, k. split; [ ring | ]. split; [ reflexivity | ].
  split; [ lia | ]. rewrite Qabs_pos by apply Qlt_le_weak, pow2_pos.
  apply pow2_lt. lia.
Qed.

Lemma representable_Z (z : Z) : (Z.abs z < 2 ^ 53)%Z -> representable (inject_Z z).
Proof.
  intros H. exists z, 0%Z. split; [ unfold pow2; simpl; ring | ].
  split; [ exact H | ]. split; [ lia | ].
  apply Qlt_trans with (inject_Z (2 ^ 53)).
  - change (Qabs (inject_Z z)) with (inject_Z (Z.abs z)). rewrite <- Zlt_Qlt. exact H.
  - rewrite <- pow2_Z by lia. apply pow2_lt. lia.
Qed.

(** *** The arithmetic of the language *)

Lemma isDouble_rounded (a : number) : isDouble (rounded a).
Proof.
  unfold isDouble. destruct a as [q|s|]; cbn [rounded]; try reflexivity.
  destruct (double q) as [q'|s|] eqn:D; cbn [rounded]; try reflexivity.
  apply (double_idem q q' D).
Qed.

Lemma isDouble_fadd (a b : number) : isDouble (fadd a b).
Proof. apply isDouble_rounded. Qed.

Lemma isDouble_fmul (a b : number) : isDouble (fmul a b).
Proof. apply isDouble_rounded. Qed.

Lemma isDouble_fdiv (a b : number) : isDouble (fdiv a b).
Proof. apply isDouble_rounded. Qed.

Lemma isDouble_ofZ (z : Z) : (Z.abs z < 2 ^ 53)%Z -> isDouble (ofZ z).
Proof.
  intros H. unfold isDouble, ofZ. cbn [rounded].
  rewrite (double_exact _ (representable_Z z H)). f_equal.
  apply Qcanon.Qred_identity. simpl. apply Z.gcd_1_r.
Qed.

Lemma isDouble_representable (q : Q) : isDouble (Fin q) -> representable q /\ Qred q = q.
Proof. unfold isDouble. cbn [rounded]. apply double_representable. Qed.

Lemma representable_isDouble (q : Q) : representable q -> Qred q = q -> isDouble (Fin q).
Proof.
  intros R C. unfold isDouble. cbn [rounded]. rewrite (double_exact q R), C. reflexivity.
Qed.

Lemma fmul_1_r (a : number) : isDouble a -> fmul a (ofZ 1) = a.
Proof.
  unfold isDouble, fmul. destruct a as [x|s|]; [ | reflexivity | reflexivity ].
  cbn [mul rounded ofZ]. intros H. rewrite <- H.
  apply double_comp. rewrite Qred_correct. ring.
Qed.

(** The floor of a double is a double. *)
Lemma representable_floor (q : Q) :
  representable q -> representable (inject_Z (Qfloor q)).
Proof.
  intros [m [k [E [Hm [Hk Hb]]]]].
  destruct (Z.le_gt_cases 0 k) as [Hk0|Hk0].
  - assert (Ez : q == inject_Z (m * 2 ^ k)).
    { rewrite inject_Z_mult, <- pow2_Z by exact Hk0. exact E. }
    rewrite (Qfloor_comp _ _ Ez), Qfloor_Z.
    apply (representable_comp q); [ exact Ez | ].
    exists m, k. auto.
  - apply representable_Z.
    assert (Hp : pow2 k <= 1 # 2).
    { change (1 # 2) with (pow2 (-1)). apply pow2_le. lia. }
    pose proof (pow2_pos k) as Hp0.
    assert (M1 : inject_Z m < inject_Z (2 ^ 53)) by (rewrite <- Zlt_Qlt; lia).
    assert (M2 : inject_Z (- 2 ^ 53) < inject_Z m) by (rewrite <- Zlt_Qlt; lia).
    assert (U : q < inject_Z (2 ^ 52)).
    { rewrite E. apply Qlt_le_trans with (inject_Z (2 ^ 53) * pow2 k).
      - apply Qmult_lt_r; assumption.
      - apply Qle_trans with (inject_Z (2 ^ 53) * (1 # 2)).
        + apply Qmult_le_l; [ reflexivity | exact Hp ].
        + apply Qle_lteq. right. reflexivity. }
    assert (L : inject_Z (- 2 ^ 52) <= q).
    { rewrite E. apply Qle_trans with (inject_Z (- 2 ^ 53) * pow2 k).
      - apply Qle_trans with (inject_Z (- 2 ^ 53) * (1 # 2)).
        + apply Qle_lteq. right. reflexivity.
        + setoid_replace (inject_Z (- 2 ^ 53) * (1 # 2))
            with (- (inject_Z (2 ^ 53) * (1 # 2))) by reflexivity.
          setoid_replace (inject_Z (- 2 ^ 53) * pow2 k)
            with (- (inject_Z (2 ^ 53) * pow2 k)) by (rewrite inject_Z_opp; ring).
          apply Qopp_le_compat. apply Qmult_le_l; [ reflexivity | exact Hp ].
      - apply Qmult_le_compat_r; [ apply Qlt_le_weak, M2 | apply Qlt_le_weak, Hp0 ]. }
    assert (F1 : (Qfloor q < 2 ^ 52)%Z).
    { rewrite Zlt_Qlt. apply Qle_lt_trans with q; [ apply Qfloor_le | exact U ]. }
    assert (F2 : (- 2 ^ 52 <= Qfloor q)%Z).
    { rewrite <- (Qfloor_Z (- 2 ^ 52)). apply Qfloor_resp_le, L. }
    lia.
Qed.

Lemma isDouble_floor (a : number) : isDouble a -> isDouble (floor a).
Proof.
  destruct a as [q|s|]; [ | auto | auto ]. intros H.
  destruct (isDouble_representable q H) as [R _].
  apply representable_isDouble; [ apply representable_floor, R | ].
  apply Qcanon.Qred_identity. simpl. apply Z.gcd_1_r.
Qed.

(** *** Signs *)

Lemma NNI_rounded (a : number) : NNI a -> NNI (rounded a).
Proof.
  intros [-> | [q [-> Hq]]]; [ left; reflexivity | ].
  cbn [rounded]. apply double_NNI, Hq.
Qed.


Lemma NN_NNI (a : number) : NN a -> NNI a.
Proof. intros H. right. exact H. Qed.

Lemma NNI_fadd (a b : number) : NNI a -> NNI b -> NNI (fadd a b).
Proof.
  intros Ha Hb. unfold fadd. apply NNI_rounded.
  destruct Ha as [-> | [x [-> Hx]]], Hb as [-> | [y [-> Hy]]];
    try (left; reflexivity).
  right. exists (Qred (x + y)). split; [ reflexivity | rewrite Qred_correct; lra ].
Qed.

Lemma NNI_fmul_PP (a b : number) : NNI a -> PP b -> NNI (fmul a b).
Proof.
  intros Ha [y [-> Hy]]. unfold fmul. apply NNI_rounded.
  destruct Ha as [-> | [x [-> Hx]]].
  - left. cbn [mul]. rewrite (Qsign_pos y Hy). reflexivity.
  - right. exists (Qred (x * y)). split; [ reflexivity | ].
    rewrite Qred_correct. apply Qmult_le_0_compat; lra.
Qed.

Lemma NNI_PP_fmul (a b : number) : PP a -> NNI b -> NNI (fmul a b).
Proof.
  intros [x [-> Hx]] Hb. unfold fmul. apply NNI_rounded.
  destruct Hb as [-> | [y [-> Hy]]].
  - left. cbn [mul]. rewrite (Qsign_pos x Hx). reflexivity.
  - right. exists (Qred (x * y)). split; [ reflexivity | ].
    rewrite Qred_correct. apply Qmult_le_0_compat; lra.
Qed.

Lemma NNI_floor (a : number) : NNI a -> NNI (floor a).
Proof.
  intros [-> | H]; [ left; reflexivity | right; apply JSFacts.NN_floor, H ].
Qed.

Lemma notNegative_rounded (a : number) : notNegative a -> notNegative (rounded a).
Proof.
  intros [-> | H]; [ left; reflexivity | right; apply NNI_rounded, H ].
Qed.

Lemma Qsign_nonneg (q : Q) : 0 <= q -> Qsign q = Eq \/ Qsign q = Gt.
Proof.
  intros H. pose proof (Qsign_spec q) as S. destruct (Qsign q); auto. lra.
Qed.

Lemma notNegative_fadd (a b : number) :
  notNegative a -> notNegative b -> notNegative (fadd a b).
Proof.
  intros [-> | Ha] [-> | Hb]; try (left; destruct a; reflexivity);
    try (left; reflexivity).
  right. apply NNI_fadd; assumption.
Qed.

Lemma notNegative_fmul (a b : number) :
  notNegative a -> notNegative b -> notNegative (fmul a b).
Proof.
  intros [-> | Ha] [-> | Hb]; try (left; destruct a; reflexivity);
    try (left; reflexivity).
  unfold fmul. apply notNegative_rounded.
  destruct Ha as [-> | [x [-> Hx]]], Hb as [-> | [y [-> Hy]]]; cbn [mul].
  - right. left. reflexivity.
  - destruct (Qsign_nonneg y Hy) as [-> | ->];
      [ left; reflexivity | right; left; reflexivity ].
  - destruct (Qsign_nonneg x Hx) as [-> | ->];
      [ left; reflexivity | right; left; reflexivity ].
  - right. right. exists (Qred (x * y)). split; [ reflexivity | ].
    rewrite Qred_correct. apply Qmult_le_0_compat; assumption.
Qed.

Lemma notNegative_fdiv (a b : number) :
  notNegative a -> notNegative b -> notNegative (fdiv a b).
Proof.
  intros [-> | Ha] [-> | Hb]; try (left; destruct a; reflexivity);
    try (left; reflexivity).
  unfold fdiv. apply notNegative_rounded.
  destruct Ha as [-> | [x [-> Hx]]], Hb as [-> | [y [-> Hy]]]; cbn [div].
  - left. reflexivity.
  - destruct (Qsign_nonneg y Hy) as [-> | ->]; right; left; reflexivity.
  - right. right. exists 0. split; [ reflexivity | lra ].
  - pose proof (Qsign_spec y) as Sy.
    destruct (Qsign_nonneg y Hy) as [E | E]; rewrite E in *.
    + destruct (Qsign_nonneg x Hx) as [-> | ->];
        [ left; reflexivity | right; left; reflexivity ].
    + right. right. exists (Qred (x / y)). split; [ reflexivity | ].
      rewrite Qred_correct. apply Qle_shift_div_l; [ exact Sy | lra ].
Qed.



Lemma leb_notNegative (a : number) : (0 <=? a)%js = true -> notNegative a.
Proof.
  destruct a as [q|s|]; cbn [leb]; try discriminate.
  - intros H. right. right. exists q. split; [ reflexivity | apply Qle_bool_iff, H ].
  - destruct s; [ discriminate | intros _; right; left; reflexivity ].
Qed.

(** *** Bounds by powers of two *)

Lemma within_weaken (i j : Z) (a : number) : (i <= j)%Z -> within i a -> within j a.
Proof.
  intros H [x [-> [H0 H1]]]. exists x. split; [ reflexivity | ].
  split; [ exact H0 | ]. apply Qle_trans with (pow2 i); [ exact H1 | apply pow2_le, H ].
Qed.

Lemma within_rounded (k : Z) (x : Q) :
  (-1074 <= k < 1024)%Z -> 0 <= x <= pow2 k -> within k (double x).
Proof.
  intros Hk [H0 H1].
  destruct (double_sandwich 0 x (pow2 k)) as [y [E [Hy0 Hy1]]];
    [ lra | exact H0 | exact H1 | apply representable_0
    | apply representable_pow2, Hk | ].
  exists y. auto.
Qed.

Lemma within_fmul (i j : Z) (a b : number) :
  (-1074 <= i + j < 1024)%Z -> within i a -> within j b -> within (i + j) (fmul a b).
Proof.
  intros H [x [-> [Hx0 Hx1]]] [y [-> [Hy0 Hy1]]].
  unfold fmul. cbn [mul rounded]. apply within_rounded; [ exact H | ].
  rewrite Qred_correct, pow2_add. split.
  - apply Qmult_le_0_compat; assumption.
  - apply Qmult_le_compat_nonneg; split; assumption.
Qed.

Lemma within_fadd (i : Z) (a b : number) :
  (-1074 <= i + 1 < 1024)%Z -> within i a -> within i b -> within (i + 1) (fadd a b).
Proof.
  intros H [x [-> [Hx0 Hx1]]] [y [-> [Hy0 Hy1]]].
  unfold fadd. cbn [add rounded]. apply within_rounded; [ exact H | ].
  rewrite Qred_correct, pow2_add. change (pow2 1) with 2. lra.
Qed.

Lemma within_fdiv (i : Z) (a : number) (y : Q) :
  (-1074 <= i < 1024)%Z -> within i a -> 1 <= y -> within i (fdiv a (Fin y)).
Proof.
  intros H [x [-> [Hx0 Hx1]]] Hy.
  unfold fdiv. cbn [div]. rewrite (Qsign_pos y) by lra. cbn [rounded].
  apply within_rounded; [ exact H | ].
  rewrite Qred_correct. split.
  - apply Qle_shift_div_l; lra.
  - apply Qle_shift_div_r; [ lra | ].
    apply Qle_trans with (pow2 i * 1); [ lra | ].
    apply Qmult_le_l; [ apply pow2_pos | exact Hy ].
Qed.

Lemma within_isFinite (k : Z) (a : number) : within k a -> isFinite a = true.
Proof. intros [x [-> _]]. reflexivity. Qed.

Lemma nearestEven_half (x : Q) : inject_Z (nearestEven x) <= x + (1 # 2).
Proof.
  unfold nearestEven.
  pose proof (Qfloor_le x) as Hf.
  destruct (x - inject_Z (Qfloor x) ?= 1 # 2) eqn:E.
  - apply Qeq_alt in E. destruct (Z.even _).
    + lra.
    + rewrite inject_Z_plus. change (inject_Z 1) with 1. lra.
  - lra.
  - apply Qgt_alt in E. rewrite inject_Z_plus. change (inject_Z 1) with 1. lra.
Qed.

Lemma pow2_half (k : Z) : pow2 (k - 1) == (1 # 2) * pow2 k.
Proof.
  pose proof (pow2_sub k 1) as H. change (pow2 1) with 2 in H. lra.
Qed.

(** Rounding moves a number by half a quantum at most. *)
Lemma roundPos_half (q : Q) : roundPos q <= q + pow2 (quantum q - 1).
Proof.
  unfold roundPos. set (k := quantum q).
  pose proof (nearestEven_half (q / pow2 k)) as H.
  pose proof (pow2_pos k) as Hk.
  rewrite pow2_half.
  apply Qle_trans with ((q / pow2 k + (1 # 2)) * pow2 k).
  - apply Qmult_le_compat_r; [ exact H | lra ].
  - rewrite Qmult_plus_distr_l, div_pow2. lra.
Qed.

Lemma pow2_inverse (k : Z) : pow2 k * pow2 (- k) == 1.
Proof.
  rewrite <- pow2_add. replace (k + - k)%Z with 0%Z by lia. reflexivity.
Qed.

(** A double below 1 is at most 1 - 2^-53. *)
Lemma below_one (u : Q) : representable u -> u < 1 -> u <= 1 - pow2 (-53).
Proof.
  intros [m [k [E [Hm [Hk _]]]]] Hu.
  pose proof (pow2_inverse 53) as I53. cbn [Z.opp] in I53.
  pose proof (pow2_pos (-53)) as P53.
  destruct (Z_le_gt_dec (-53) k) as [Hge | Hlt].
  - assert (Ek : pow2 k == inject_Z (2 ^ (k + 53)) * pow2 (-53)).
    { rewrite <- pow2_Z by lia. rewrite <- pow2_add. 
      replace (k + 53 + -53)%Z with k by lia. reflexivity. }
    assert (Eu : u == inject_Z (m * 2 ^ (k + 53)) * pow2 (-53)).
    { rewrite E, Ek, inject_Z_mult. ring. }
    set (M := (m * 2 ^ (k + 53))%Z) in *.
    assert (HM : (M < 2 ^ 53)%Z).
    { rewrite Zlt_Qlt. rewrite <- pow2_Z by lia.
      apply Qmult_lt_r with (pow2 (-53)); [ exact P53 | ].
      rewrite I53, <- Eu. exact Hu. }
    assert (HM' : inject_Z M <= pow2 53 - 1).
    { rewrite pow2_Z by lia. change 1 with (inject_Z 1).
      unfold Qminus. rewrite <- inject_Z_opp, <- inject_Z_plus, <- Zle_Qle. lia. }
    rewrite Eu.
    apply Qle_trans with ((pow2 53 - 1) * pow2 (-53)).
    + apply Qmult_le_compat_r; [ exact HM' | lra ].
    + lra.
  - assert (Pk : pow2 k <= pow2 (-54)) by (apply pow2_le; lia).
    pose proof (pow2_pos k) as Pk0.
    rewrite E.
    destruct (Z_le_gt_dec m 0) as [Hm0 | Hm0].
    + assert (inject_Z m <= 0) by (change 0 with (inject_Z 0); rewrite <- Zle_Qle; exact Hm0).
      assert (inject_Z m * pow2 k <= 0 * pow2 k).
      { apply Qmult_le_compat_r; lra. }
      assert (pow2 (-53) < 1) by reflexivity.
      lra.
    + assert (Hm1 : 0 <= inject_Z m).
      { change 0 with (inject_Z 0). rewrite <- Zle_Qle. lia. }
      assert (Hm2 : inject_Z m <= pow2 53).
      { rewrite pow2_Z by lia. rewrite <- Zle_Qle. lia. }
      apply Qle_trans with (pow2 53 * pow2 (-54)).
      * apply Qmult_le_compat_nonneg; split; lra.
      * apply Qle_bool_iff. reflexivity.
Qed.

(** The rounded product of a draw and an array length is below the
    length. *)
Lemma double_draw_below (u : Q) (n : Z) :
  representable u -> 0 <= u < 1 -> (0 < n < 2 ^ 53)%Z ->
  exists q, double (u * inject_Z n) = Fin q /\ 0 <= q /\ q < inject_Z n.
Proof.
  intros Ru [Hu0 Hu1] [Hn0 Hn1].
  pose proof (below_one u Ru Hu1) as Hu.
  pose proof (pow2_pos (-53)) as P53.
  set (e := Z.log2 n).
  destruct (Z.log2_spec n Hn0) as [He1 He2]. fold e in He1, He2.
  assert (He0 : (0 <= e)%Z) by apply Z.log2_nonneg.
  assert (He53 : (e < 53)%Z) by (apply Z.log2_lt_pow2; lia).
  assert (Hn : 0 < inject_Z n) by (change 0 with (inject_Z 0); rewrite <- Zlt_Qlt; exact Hn0).
  assert (Pe : pow2 e == inject_Z (2 ^ e)) by (apply pow2_Z; exact He0).
  assert (Pe1 : pow2 (e + 1) == inject_Z (2 ^ (e + 1))) by (apply pow2_Z; lia).
  assert (Hle : pow2 e <= inject_Z n) by (rewrite Pe, <- Zle_Qle; exact He1).
  assert (Hlt : inject_Z n < pow2 (e + 1)).
  { rewrite Pe1, <- Zlt_Qlt. replace (e + 1)%Z with (Z.succ e) by lia. exact He2. }
  set (x := u * inject_Z n).
  assert (Hx0 : 0 <= x) by (unfold x; apply Qmult_le_0_compat; lra).
  assert (Hx1 : x <= inject_Z n - inject_Z n * pow2 (-53)).
  { unfold x.
    apply Qle_trans with ((1 - pow2 (-53)) * inject_Z n); [ | lra ].
    apply Qmult_le_compat_r; lra. }
  assert (E53 : pow2 (e - 53) == pow2 e * pow2 (-53)).
  { rewrite <- pow2_add. replace (e + -53)%Z with (e - 53)%Z by lia. reflexivity. }
  pose proof (pow2_pos e) as Pe0.
  destruct (Z.eq_dec n (2 ^ e)) as [Heq | Hne].
  - (* the length is a power of two *)
    assert (En : inject_Z n == pow2 e) by (rewrite Pe, Heq; reflexivity).
    set (p := inject_Z (2 ^ 53 - 1) * pow2 (e - 53)).
    assert (Ep : p == pow2 e - pow2 e * pow2 (-53)).
    { unfold p. rewrite E53.
      assert (X : inject_Z (2 ^ 53 - 1) == pow2 53 - 1).
      { rewrite pow2_Z by lia. change 1 with (inject_Z 1).
        unfold Qminus. rewrite <- inject_Z_opp, <- inject_Z_plus. reflexivity. }
      rewrite X. pose proof (pow2_inverse 53) as I53. cbn [Z.opp] in I53.
      setoid_replace ((pow2 53 - 1) * (pow2 e * pow2 (-53)))
        with (pow2 e * (pow2 53 * pow2 (-53)) - pow2 e * pow2 (-53)) by ring.
      rewrite I53. ring. }
    assert (Hp0 : 0 < pow2 e * pow2 (-53)) by (apply Qmult_lt_0_compat; assumption).
    assert (Hp1 : pow2 e * pow2 (-53) < pow2 e).
    { rewrite <- E53. apply pow2_lt. lia. }
    assert (Rp : representable p).
    { exists (2 ^ 53 - 1)%Z, (e - 53)%Z. split; [ reflexivity | ].
      split; [ rewrite Z.abs_eq by lia; lia | ]. split; [ lia | ].
      assert (A : Qabs p == p) by (apply Qabs_pos; lra).
      fold p. rewrite A.
      apply Qlt_trans with (pow2 e); [ lra | apply pow2_lt; lia ]. }
    destruct (double_sandwich 0 x p (Qle_refl 0) Hx0) as [q [Eq [Hq0 Hq1]]];
      [ rewrite Ep, <- En; exact Hx1 | apply representable_0 | exact Rp | ].
    exists q. split; [ exact Eq | ]. split; [ exact Hq0 | ]. lra.
  - assert (Hgt : pow2 e < inject_Z n).
    { rewrite Pe, <- Zlt_Qlt. lia. }
    destruct (Qlt_le_dec x (pow2 e)) as [Hsmall | Hbig].
    + destruct (double_sandwich 0 x (pow2 e) (Qle_refl 0) Hx0) as [q [Eq [Hq0 Hq1]]];
        [ lra | apply representable_0 | apply representable_pow2; lia | ].
      exists q. split; [ exact Eq | ]. split; [ exact Hq0 | ]. lra.
    + assert (Hxn : x < inject_Z n).
      { assert (0 < inject_Z n * pow2 (-53)) by (apply Qmult_lt_0_compat; assumption).
        lra. }
      destruct (double_sandwich (pow2 e) x (inject_Z n)) as [q [Eq [Hq0 Hq1]]];
        [ lra | exact Hbig | lra | apply representable_pow2; lia
        | apply representable_Z; rewrite Z.abs_eq by lia; exact Hn1 | ].
      exists q. split; [ exact Eq | ]. split; [ lra | ].
      assert (Hxpos : 0 < x) by lra.
      assert (Hq : q == roundPos x).
      { unfold double in Eq. rewrite (Qsign_pos x Hxpos) in Eq. unfold doublePos in Eq.
        destruct (Qle_bool (pow2 1024) (roundPos x)); [ discriminate | ].
        assert (Eq' : Qred (roundPos x) = q) by congruence.
        rewrite <- Eq'. apply Qred_correct. }
      assert (Hlog : ilog2 x = e).
      { apply ilog2_unique; [ exact Hbig | lra | exact Hxpos ]. }
      pose proof (roundPos_half x) as Hhalf.
      unfold quantum in Hhalf. rewrite Hlog in Hhalf.
      replace (Z.max e (-1022) - 52 - 1)%Z with (e - 53)%Z in Hhalf by lia.
      rewrite E53 in Hhalf.
      assert (pow2 e * pow2 (-53) < inject_Z n * pow2 (-53)).
      { apply Qmult_lt_compat_r; assumption. }
      lra.
Qed.

End DoubleFacts.

(* ================================================================== *)
(** ** The older server *)
(* ================================================================== *)

Module LegacyFacts.
Import Props JSFacts.

Ltac run_legacy :=
  unfold Legacy.executeBattleTurn, Legacy.playerTurn, Legacy.opponentTurn,
    Legacy.isMoveHit, Legacy.callCalculateDamage, Legacy.turnRandom,
    Engine.mathRandom, Legacy.update, Legacy.read, modify, gets, ret, throw, bind;
  cbn [fst snd].

Ltac legacy_cases :=
  repeat match goal with
         | |- context [if ?c then _ else _] => destruct c eqn:?; cbn [fst snd]
         | |- context [match ?l with [] => _ | _ :: _ => _ end] =>
             destruct l; cbn [fst snd]
         | |- context [match ?o with Some _ => _ | None => _ end] =>
             destruct o; cbn [fst snd]
         end.

(** The older server creates the Encounter with turn counter 0. *)
Lemma legacy_startBattle_turn (playerPokemonId opponentPokemonId : number)
    (w w1 : Legacy.World) (b : Legacy.BattleState.t) :
  Legacy.startBattle playerPokemonId opponentPokemonId w = (Normal b, w1) ->
  Legacy.BattleState.turn b = 0.
Proof.
  unfold Legacy.startBattle, bind, ret.
  destruct (Legacy.createBattlePokemon playerPokemonId 50 w) as [[player|e] w2];
    [ | discriminate ].
  destruct (Legacy.createBattlePokemon opponentPokemonId 50 w2)
    as [[opponent|e] w3]; [ | discriminate ].
  intros H. inversion H. reflexivity.
Qed.

Lemma legacy_executeBattleTurn_turn (playerMoveIndex : number) (b0 : Legacy.BattleState.t)
    (random : list Q) :
  match Legacy.executeBattleTurn playerMoveIndex (b0, random) with
  | (Normal state, (after, _)) =>
      Legacy.BattleState.turn after = Legacy.BattleState.turn b0 + 1
      /\ state = after
  | (Throw _, (after, _)) =>
      Legacy.BattleState.turn after = Legacy.BattleState.turn b0
  end.
Proof.
  run_legacy. legacy_cases; auto.
Qed.


(** The stat pair is selected as in the newer server. *)
Lemma legacy_calculateDamage_inputs (attacker defender : Legacy.BattlePokemon.t)
    (move : BattleMove.t) (u : Q) :
  Legacy.calculateDamage attacker defender move u
  = JS.floor
      (JS.floor
         (((2 *~ Legacy.BattlePokemon.level attacker /~ 5 +~ 2) *~ BattleMove.power move
           *~ (if Engine.isPhysical move
               then BattleStats.attack (Legacy.BattlePokemon.stats attacker)
               else BattleStats.specialAttack (Legacy.BattlePokemon.stats attacker))
           /~ (if Engine.isPhysical move
               then BattleStats.defense (Legacy.BattlePokemon.stats defender)
               else BattleStats.specialDefense (Legacy.BattlePokemon.stats defender)))
          /~ 50 +~ 2)
       *~ Engine.randomFactor u).
Proof. reflexivity. Qed.

Lemma legacy_make_move_without_battle (moveIndex : number) (w : Legacy.World) :
  Legacy.currentBattle w = None ->
  Legacy.make_move moveIndex w = (Normal Legacy.noActiveBattle, w).
Proof.
  intros H. unfold Legacy.make_move, bind, gets. rewrite H. reflexivity.
Qed.

(** In the older server a failed creature lookup for the player is thrown
    out of the [start_battle] handler, which has no [try]; the stored
    Encounter is untouched. *)
Lemma legacy_start_battle_unavailable (playerPokemonId opponentPokemonId : number)
    (w : Legacy.World) (rest : Catalog.Service) :
  Legacy.catalog w = None :: rest ->
  Legacy.start_battle playerPokemonId opponentPokemonId w
  = (Throw (JS.Error "Pokemon not found"),
     {| Legacy.currentBattle := Legacy.currentBattle w;
        Legacy.random := Legacy.random w;
        Legacy.catalog := rest |}).
Proof.
  intros H.
  unfold Legacy.start_battle, Legacy.startBattle, Legacy.createBattlePokemon, bind,
    Legacy.onCatalog, Catalog.fetchFromPokeAPI, throw.
  rewrite H. reflexivity.
Qed.

End LegacyFacts.

(* ================================================================== *)
(** ** The damage computation *)
(* ================================================================== *)

Module DamageFacts.
Import Engine Props JSFacts DoubleFacts.

(** Every entry of the type chart is 2 or 0.5. *)
Lemma chartEntry_values (attackerType defenderType : string) (entry : number) :
  chartEntry attackerType defenderType = Some entry ->
  entry = 2 \/ entry = JS.Fin (1 # 2).
Proof.
  unfold chartEntry, typeChart. cbn [property].
  repeat match goal with
         | |- context [String.eqb ?k ?x] => destruct (String.eqb k x); cbn [property]
         end;
    intros H; inversion H; auto.
Qed.

Lemma chartEntry_truthy (attackerType defenderType : string) (entry : number) :
  chartEntry attackerType defenderType = Some entry -> JS.truthy entry = true.
Proof.
  intros H. destruct (chartEntry_values _ _ _ H); subst; reflexivity.
Qed.

(** A plain tag differs from every key of [Object.prototype]. *)
Lemma plainTag_differs (tag key : string) :
  plainTag tag = true -> In key objectPrototypeKeys -> String.eqb key tag = false.
Proof.
  intros H Hin. apply negb_true_iff in H.
  destruct (String.eqb key tag) eqn:E; [ exfalso | reflexivity ].
  assert (X : inherited tag = true).
  { apply existsb_exists. exists key. split; [ exact Hin | ].
    rewrite String.eqb_sym. exact E. }
  congruence.
Qed.

(** On plain tags a lookup finds what the chart itself has. *)
Lemma chartLookup_plain (attackerType defenderType : string) :
  plainTag attackerType = true -> plainTag defenderType = true ->
  chartLookup attackerType defenderType
  = match chartEntry attackerType defenderType with
    | Some entry => Multiplier entry
    | None => Undefined
    end.
Proof.
  intros Ha Hd. unfold chartLookup, chartEntry.
  assert (Id : inherited defenderType = false) by (apply negb_true_iff, Hd).
  destruct (property typeChart attackerType) as [row|].
  - destruct (property row defenderType); [ reflexivity | rewrite Id; reflexivity ].
  - rewrite (String.eqb_sym attackerType "__proto__").
    rewrite (plainTag_differs attackerType "__proto__" Ha) by (simpl; auto 20).
    unfold builtinLength. cbn [property].
    repeat match goal with
           | |- context [String.eqb ?k attackerType] =>
               rewrite (plainTag_differs attackerType k Ha) by (simpl; auto 20)
           end.
    reflexivity.
Qed.

(** A plain attacking type finds no built-in function, so no lookup
    throws. *)
Lemma chartLookup_reads (attackerType defenderType : string) :
  plainTag attackerType = true ->
  chartLookup attackerType defenderType <> Restricted.
Proof.
  intros Ha. unfold chartLookup.
  destruct (property typeChart attackerType) as [row|].
  - destruct (property row defenderType); [ discriminate | ].
    destruct (inherited defenderType); discriminate.
  - rewrite (String.eqb_sym attackerType "__proto__").
    rewrite (plainTag_differs attackerType "__proto__" Ha) by (simpl; auto 20).
    unfold builtinLength. cbn [property].
    repeat match goal with
           | |- context [String.eqb ?k attackerType] =>
               rewrite (plainTag_differs attackerType k Ha) by (simpl; auto 20)
           end.
    discriminate.
Qed.

(** One round of the loop is one factor of the product. *)
Lemma loop_step (attackerType defenderType : string) (rest : list string)
    (effectiveness : number) :
  plainTag attackerType = true -> plainTag defenderType = true ->
  isDouble effectiveness ->
  effectivenessLoop attackerType (defenderType :: rest) effectiveness
  = effectivenessLoop attackerType rest
      (effectiveness *~ Formula.chartOrNeutral attackerType defenderType).
Proof.
  intros Ha Hd Hc. cbn [effectivenessLoop].
  rewrite (chartLookup_plain _ _ Ha Hd). unfold Formula.chartOrNeutral.
  destruct (chartEntry attackerType defenderType) as [entry|] eqn:E.
  - rewrite (chartEntry_truthy _ _ _ E). reflexivity.
  - change (effectiveness *~ 1) with (JS.fmul effectiveness (JS.ofZ 1)).
    rewrite (fmul_1_r _ Hc). reflexivity.
Qed.

Lemma effectivenessLoop_product (attackerType : string) (defenderTypes : list string) :
  plainTag attackerType = true -> forallb plainTag defenderTypes = true ->
  forall effectiveness, isDouble effectiveness ->
    effectivenessLoop attackerType defenderTypes effectiveness
    = Normal
        (fold_left (fun product tag => product *~ Formula.chartOrNeutral attackerType tag)
           defenderTypes effectiveness).
Proof.
  intros Ha. induction defenderTypes as [|tag rest IH]; intros Hd effectiveness Hc.
  - reflexivity.
  - cbn [forallb] in Hd. apply andb_true_iff in Hd. destruct Hd as [Ht Hrest].
    rewrite (loop_step _ _ _ _ Ha Ht Hc). cbn [fold_left].
    apply (IH Hrest), isDouble_fmul.
Qed.

Lemma isDouble_1 : isDouble 1.
Proof. apply (isDouble_ofZ 1). reflexivity. Qed.

Lemma calculateTypeEffectiveness_product (attackerType : string)
    (defenderTypes : list string) :
  plainTag attackerType = true -> forallb plainTag defenderTypes = true ->
  calculateTypeEffectiveness attackerType defenderTypes
  = Normal (Formula.effectiveness attackerType defenderTypes).
Proof.
  intros Ha Hd. apply (effectivenessLoop_product _ _ Ha Hd). apply isDouble_1.
Qed.

(** With a plain attacking type the loop returns, whatever the defender's
    tags. *)
Lemma effectivenessLoop_returns (attackerType : string) (defenderTypes : list string) :
  plainTag attackerType = true ->
  forall effectiveness,
    exists result,
      effectivenessLoop attackerType defenderTypes effectiveness = Normal result.
Proof.
  intros Ha. induction defenderTypes as [|tag rest IH]; intros effectiveness.
  - eexists. reflexivity.
  - cbn [effectivenessLoop]. pose proof (chartLookup_reads _ tag Ha) as Hr.
    destruct (chartLookup attackerType tag); [ apply IH | apply IH | apply IH | ].
    contradiction.
Qed.

(** The code is the formula on the effectiveness the code computes,
    whatever the inputs, and it throws what the type lookups throw. *)
Lemma calculateDamage_shape (attacker defender : BattlePokemon.t)
    (move : BattleMove.t) (u : Q) :
  calculateDamage attacker defender move u
  = match calculateTypeEffectiveness (BattleMove.type move)
            (map PokemonType.type_name (BattlePokemon.types defender)) with
    | Normal effectiveness =>
        Normal
          (Formula.damage (BattlePokemon.level attacker) (BattleMove.power move)
             (attackStat attacker move) (defenseStat defender move)
             effectiveness (Formula.burnFactor attacker move) (randomFactor u))
    | Throw e => Throw e
    end.
Proof.
  unfold calculateDamage, damageWith, Formula.damage, Formula.burnFactor,
    Formula.quotient.
  destruct (calculateTypeEffectiveness _ _) as [effectiveness|e]; [ | reflexivity ].
  f_equal.
  destruct (PokemonStatus.type (BattlePokemon.status attacker));
    cbn [andb]; try (rewrite fmul_1_r by apply isDouble_fmul; reflexivity).
  destruct (isPhysical move);
    [ reflexivity | rewrite fmul_1_r by apply isDouble_fmul; reflexivity ].
Qed.

(** On plain tags the code equals the formula. *)
Lemma calculateDamage_formula (attacker defender : BattlePokemon.t)
    (move : BattleMove.t) (u : Q) :
  plainTag (BattleMove.type move) = true ->
  forallb plainTag (map PokemonType.type_name (BattlePokemon.types defender)) = true ->
  calculateDamage attacker defender move u
  = Normal
      (Formula.damage (BattlePokemon.level attacker) (BattleMove.power move)
         (attackStat attacker move) (defenseStat defender move)
         (Formula.effectiveness (BattleMove.type move)
            (map PokemonType.type_name (BattlePokemon.types defender)))
         (Formula.burnFactor attacker move)
         (randomFactor u)).
Proof.
  intros Ha Hd. rewrite calculateDamage_shape.
  rewrite (calculateTypeEffectiveness_product _ _ Ha Hd). reflexivity.
Qed.

(** With a plain move type [calculateDamage] returns. *)
Lemma calculateDamage_returns (attacker defender : BattlePokemon.t)
    (move : BattleMove.t) (u : Q) :
  plainTag (BattleMove.type move) = true ->
  exists damage, calculateDamage attacker defender move u = Normal damage.
Proof.
  intros Ha. rewrite calculateDamage_shape. unfold calculateTypeEffectiveness.
  destruct (effectivenessLoop_returns (BattleMove.type move)
              (map PokemonType.type_name (BattlePokemon.types defender)) Ha 1)
    as [e ->].
  eexists. reflexivity.
Qed.

End DamageFacts.

Module DamageSign.
Import Engine Props JSFacts DoubleFacts DamageFacts.

Lemma PP_chartOrNeutral (attackerType tag : string) :
  PP (Formula.chartOrNeutral attackerType tag).
Proof.
  unfold Formula.chartOrNeutral.
  destruct (chartEntry attackerType tag) as [entry|] eqn:E.
  - destruct (chartEntry_values _ _ _ E) as [-> | ->].
    + exists 2%Q. split; [ reflexivity | lra ].
    + exists (1 # 2). split; [ reflexivity | lra ].
  - exists 1%Q. split; [ reflexivity | lra ].
Qed.

(** The product of the chart's entries is not below 0 and not [NaN]; it
    can underflow to 0 and overflow to [Infinity]. *)
Lemma NNI_effectiveness (attackerType : string) (tags : list string) :
  NNI (Formula.effectiveness attackerType tags).
Proof.
  unfold Formula.effectiveness.
  assert (H : NNI 1) by (right; exists 1%Q; split; [ reflexivity | lra ]).
  revert H. generalize (1 : number).
  induction tags as [|tag rest IH]; intros acc Hacc.
  - exact Hacc.
  - cbn [fold_left]. apply IH. apply NNI_fmul_PP; [ exact Hacc | apply PP_chartOrNeutral ].
Qed.




Lemma PP_burnFactor (attacker : BattlePokemon.t) (move : BattleMove.t) :
  PP (Formula.burnFactor attacker move).
Proof.
  unfold Formula.burnFactor.
  destruct (PokemonStatus.type (BattlePokemon.status attacker));
    try (exists 1%Q; split; [ reflexivity | lra ]).
  destruct (isPhysical move);
    [ exists (1 # 2) | exists 1%Q ]; (split; [ reflexivity | lra ]).
Qed.

(** The doubles the two literals of [randomFactor] denote. *)
Lemma literal_085 :
  JS.double (17 # 20) = JS.Fin (7656119366529843 # 9007199254740992).
Proof. vm_compute. reflexivity. Qed.

Lemma literal_015 :
  JS.double (3 # 20) = JS.Fin (5404319552844595 # 36028797018963968).
Proof. vm_compute. reflexivity. Qed.

(** The random factor lies between the doubles 0.85 and 1, both included,
    for a draw in [0, 1). *)
Lemma randomFactor_range (u : Q) :
  (0 <= u < 1)%Q ->
  exists r, randomFactor u = JS.Fin r
            /\ (7656119366529843 # 9007199254740992 <= r <= 1)%Q.
Proof.
  intros [H0 H1]. unfold randomFactor. rewrite literal_085, literal_015.
  set (lo := (7656119366529843 # 9007199254740992)%Q).
  set (c := (5404319552844595 # 36028797018963968)%Q).
  assert (Rlo : representable lo).
  { apply (double_representable (17 # 20)). exact literal_085. }
  assert (Rc : representable c).
  { apply (double_representable (3 # 20)). exact literal_015. }
  assert (Hlo : (0 <= lo)%Q) by (unfold lo; discriminate).
  assert (Hc : (0 <= c)%Q) by (unfold c; discriminate).
  destruct (double_sandwich 0 (Qred (u * c)) c) as [y [Ey [Hy0 Hy1]]];
    [ lra | rewrite Qred_correct; apply Qmult_le_0_compat; lra
    | rewrite Qred_correct; rewrite <- (Qmult_1_l c) at 2;
      apply Qmult_le_compat_r; lra
    | apply representable_0 | exact Rc | ].
  unfold JS.fmul, JS.fadd. cbn [JS.mul JS.rounded]. rewrite Ey. cbn [JS.add JS.rounded].
  assert (Hsum : (lo + c <= 1)%Q) by (unfold lo, c; discriminate).
  destruct (double_sandwich lo (Qred (lo + y)) 1) as [r [Er [Hr0 Hr1]]];
    [ exact Hlo | rewrite Qred_correct; lra | rewrite Qred_correct; lra
    | exact Rlo | apply (representable_Z 1); reflexivity | ].
  exists r. split; [ exact Er | split; assumption ].
Qed.

Lemma PP_randomFactor (u : Q) : (0 <= u < 1)%Q -> PP (randomFactor u).
Proof.
  intros Hu. destruct (randomFactor_range u Hu) as [r [E [H0 H1]]].
  exists r. split; [ exact E | ].
  apply Qlt_le_trans with (7656119366529843 # 9007199254740992)%Q;
    [ reflexivity | exact H0 ].
Qed.

(** The base damage on a finite quotient that is not below 0: a finite
    integer, 2 at least. *)
Lemma base_damage_PP (q : Q) :
  isDouble (JS.Fin q) -> (0 <= q)%Q ->
  exists n : Z, JS.floor (JS.Fin q /~ 50 +~ 2) = JS.ofZ n /\ (2 <= n)%Z.
Proof.
  intros Hd Hq. destruct (isDouble_representable q Hd) as [[m [k [E [Hm [Hk Hb]]]]] _].
  rewrite Qabs_pos in Hb by exact Hq.
  assert (P5 : (JS.pow2 1024 == 32 * JS.pow2 1019)%Q).
  { change 1024%Z with (5 + 1019)%Z. rewrite pow2_add. reflexivity. }
  assert (P1 : (JS.pow2 1020 == 2 * JS.pow2 1019)%Q).
  { change 1020%Z with (1 + 1019)%Z. rewrite pow2_add. reflexivity. }
  assert (P0 : (2 <= JS.pow2 1019)%Q).
  { change 2%Q with (JS.pow2 1). apply pow2_le. lia. }
  unfold JS.fdiv, JS.fadd.
  change (JS.div (JS.Fin q) 50) with (JS.Fin (Qred (q / 50))). cbn [JS.rounded].
  destruct (double_sandwich 0 (Qred (q / 50)) (JS.pow2 1019)) as [c [Ec [Hc0 Hc1]]];
    [ lra | rewrite Qred_correct; apply Qle_shift_div_l; lra
    | rewrite Qred_correct; apply Qle_shift_div_r; lra
    | apply representable_0 | apply representable_pow2; lia | ].
  rewrite Ec. cbn [JS.add JS.rounded].
  destruct (double_sandwich 2 (Qred (c + 2)) (JS.pow2 1020)) as [b [Eb [Hb0 Hb1]]];
    [ lra | rewrite Qred_correct; lra | rewrite Qred_correct; lra
    | apply (representable_Z 2); reflexivity | apply representable_pow2; lia | ].
  rewrite Eb. cbn [JS.floor]. exists (Qfloor b). split; [ reflexivity | ].
  rewrite <- (Qfloor_Z 2). apply Qfloor_resp_le. exact Hb0.
Qed.

(** The quotient of the formula on inputs that are not below 0. *)
Lemma notNegative_quotient (level power attack defense : number) :
  notNegative level -> notNegative power -> notNegative attack ->
  notNegative defense ->
  notNegative (Formula.quotient level power attack defense).
Proof.
  intros Hl Hp Ha Hd. unfold Formula.quotient.
  assert (N2 : notNegative 2) by (apply leb_notNegative; reflexivity).
  assert (N5 : notNegative 5) by (apply leb_notNegative; reflexivity).
  apply notNegative_fdiv; [ | exact Hd ].
  apply notNegative_fmul; [ | exact Ha ].
  apply notNegative_fmul; [ | exact Hp ].
  apply notNegative_fadd; [ | exact N2 ].
  apply notNegative_fdiv; [ | exact N5 ].
  apply notNegative_fmul; assumption.
Qed.


(** With a finite quotient the formula gives a result that is not below 0
    and not [NaN], on an effectiveness that is neither. *)
Lemma NNI_damage (level power attack defense effectiveness burnFactor r : number) :
  notNegative level -> notNegative power -> notNegative attack ->
  notNegative defense ->
  isFinite (Formula.quotient level power attack defense) = true ->
  NNI effectiveness -> PP burnFactor -> PP r ->
  NNI (Formula.damage level power attack defense effectiveness burnFactor r).
Proof.
  intros Hl Hp Ha Hd Hf He Hb Hr. unfold Formula.damage.
  pose proof (notNegative_quotient level power attack defense Hl Hp Ha Hd) as Hq.
  assert (Dq : isDouble (Formula.quotient level power attack defense))
    by apply isDouble_fdiv.
  destruct (Formula.quotient level power attack defense) as [q|s|];
    [ | discriminate | discriminate ].
  assert (Hq0 : (0 <= q)%Q).
  { destruct Hq as [X | [X | [q' [E H]]]]; try discriminate.
    inversion E. subst. exact H. }
  destruct (base_damage_PP q Dq Hq0) as [n [En Hn]]. rewrite En.
  apply NNI_floor. apply NNI_fmul_PP; [ | exact Hr ].
  apply NNI_fmul_PP; [ | exact Hb ].
  apply NNI_PP_fmul; [ | exact He ].
  exists (inject_Z n). split; [ reflexivity | ].
  change 0%Q with (inject_Z 0). rewrite <- Zlt_Qlt. lia.
Qed.

End DamageSign.

(* ================================================================== *)
(** ** Claims about the damage computation *)
(* ================================================================== *)

Module DamageClaims.
Import Engine Props JSFacts DoubleFacts DamageFacts DamageSign Fixtures.




(** C2.  When the move's [type] field carries the category tag,
    [calculateDamage] computes with [attacker.attack] and
    [defender.defense] for a physical move, and with
    [attacker.specialAttack] and [defender.specialDefense] for a special
    one; so does the [calculateDamage] of the older server. *)
Theorem calculateDamage_stat_pair :
  forall (c : Formula.Category) (move : BattleMove.t) (u : Q),
    BattleMove.type move = Formula.categoryTag c ->
    (forall attacker defender : BattlePokemon.t,
        attackStat attacker move
        = Formula.attackStat c (BattlePokemon.stats attacker)
        /\ defenseStat defender move
           = Formula.defenseStat c (BattlePokemon.stats defender)
        /\ calculateDamage attacker defender move u
           = damageWith (Formula.attackStat c (BattlePokemon.stats attacker))
               (Formula.defenseStat c (BattlePokemon.stats defender))
               attacker defender move u)
    /\ (forall attacker defender : Legacy.BattlePokemon.t,
          Legacy.calculateDamage attacker defender move u
          = JS.floor
              (JS.floor
                 (((2 *~ Legacy.BattlePokemon.level attacker /~ 5 +~ 2)
                   *~ BattleMove.power move
                   *~ Formula.attackStat c (Legacy.BattlePokemon.stats attacker)
                   /~ Formula.defenseStat c (Legacy.BattlePokemon.stats defender))
                  /~ 50 +~ 2)
               *~ randomFactor u)).
Proof.
  intros c move u Hc. split.
  - intros attacker defender.
    unfold calculateDamage, attackStat, defenseStat, isPhysical. rewrite Hc.
    destruct c; cbn; auto.
  - intros attacker defender. rewrite LegacyFacts.legacy_calculateDamage_inputs.
    unfold isPhysical. rewrite Hc. destruct c; reflexivity.
Qed.

(** Scratch is physical: charmander's attack 52 against bulbasaur's
    defense 49. *)
Lemma calculateDamage_stat_pair_witness :
  attackStat charmander50 scratch = 52
  /\ defenseStat bulbasaur50 scratch = 49
  /\ calculateDamage charmander50 bulbasaur50 scratch 0
     = damageWith 52 49 charmander50 bulbasaur50 scratch 0.
Proof.
  exact (proj1 (calculateDamage_stat_pair Formula.Physical scratch 0 eq_refl)
           charmander50 bulbasaur50).
Defined.

(** Every move whose [type] is not "physical" is computed as special. *)
Lemma calculateDamage_not_physical :
  forall (attacker defender : BattlePokemon.t) (move : BattleMove.t) (u : Q),
    BattleMove.type move <> "physical" ->
    calculateDamage attacker defender move u
    = damageWith (BattleStats.specialAttack (BattlePokemon.stats attacker))
        (BattleStats.specialDefense (BattlePokemon.stats defender))
        attacker defender move u.
Proof.
  intros attacker defender move u Hn.
  unfold calculateDamage, attackStat, defenseStat, isPhysical.
  destruct (String.eqb_spec (BattleMove.type move) "physical") as [E|_];
    [ contradiction | reflexivity ].
Qed.

End DamageClaims.

(* ================================================================== *)
(** ** Reasoning about calls that mutate and throw *)
(* ================================================================== *)

Module Hoare.
Import Engine Props.

Section Rules.
Context {S : Type}.

Lemma triple_ret {A : Type} (P : S -> Prop) (a : A) (Q : A -> S -> Prop)
    (E : S -> Prop) :
  (forall s, P s -> Q a s) -> triple P (ret a) Q E.
Proof. intros H s Hs. apply H, Hs. Qed.

Lemma triple_throw {A : Type} (P : S -> Prop) (e : JS.exn) (Q : A -> S -> Prop)
    (E : S -> Prop) :
  (forall s, P s -> E s) -> triple P (throw e) Q E.
Proof. intros H s Hs. apply H, Hs. Qed.

Lemma triple_bind {A B : Type} (P : S -> Prop) (c : Run S A) (k : A -> Run S B)
    (Q : A -> S -> Prop) (R : B -> S -> Prop) (E : S -> Prop) :
  triple P c Q E -> (forall a, triple (Q a) (k a) R E) ->
  triple P (bind c k) R E.
Proof.
  intros Hc Hk s Hs. unfold bind. specialize (Hc s Hs).
  destruct (c s) as [[a|e] s1]; [ apply (Hk a s1 Hc) | exact Hc ].
Qed.

Lemma triple_modify (P : S -> Prop) (f : S -> S) (Q : unit -> S -> Prop)
    (E : S -> Prop) :
  (forall s, P s -> Q tt (f s)) -> triple P (modify f) Q E.
Proof. intros H s Hs. apply H, Hs. Qed.

Lemma triple_gets {A : Type} (P : S -> Prop) (f : S -> A) (Q : A -> S -> Prop)
    (E : S -> Prop) :
  (forall s, P s -> Q (f s) s) -> triple P (gets f) Q E.
Proof. intros H s Hs. apply H, Hs. Qed.

Lemma triple_weaken {A : Type} (P P' : S -> Prop) (c : Run S A)
    (Q Q' : A -> S -> Prop) (E E' : S -> Prop) :
  triple P' c Q' E' ->
  (forall s, P s -> P' s) -> (forall a s, Q' a s -> Q a s) ->
  (forall s, E' s -> E s) ->
  triple P c Q E.
Proof.
  intros Hc HP HQ HE s Hs. specialize (Hc s (HP s Hs)).
  destruct (c s) as [[a|e] s1]; auto.
Qed.
End Rules.

(** [Math.random()] leaves the battle alone and returns a value with the
    property the stream has. *)
Lemma triple_turnRandom (I : BattleState.t -> Prop) (U : Q -> Prop) :
  U 0%Q ->
  triple (onTurn I U) turnRandom (fun u ctx => onTurn I U ctx /\ U u) (onTurn I U).
Proof.
  intros H0 [b r] [Hb Hr]. unfold turnRandom, mathRandom, onTurn in *.
  cbn [fst snd] in *.
  destruct r as [|u r]; cbn [fst snd].
  - repeat split; auto.
  - inversion Hr; subst. repeat split; auto.
Qed.

End Hoare.

Module TurnFacts.
Import Engine Props Hoare.

Ltac run_turn :=
  unfold playerTurn, opponentTurn, opponentAlive, isMoveHit, callCalculateDamage,
    moveName, turnRandom, mathRandom, update, read, modify, gets, ret, throw, bind,
    onTurn, triple;
  cbn [fst snd].

Ltac run_cases :=
  repeat match goal with
         | |- context [if ?c then _ else _] => destruct c; cbn [fst snd hd tl]
         | |- context [match ?l with [] => _ | _ :: _ => _ end] =>
             destruct l; cbn [fst snd hd tl]
         | |- context [match calculateDamage ?a ?d ?m ?u with
                       | Normal _ => _
                       | Throw _ => _
                       end] =>
             let E := fresh "Edamage" in
             destruct (calculateDamage a d m u) eqn:E; cbn [fst snd hd tl]
         | H : Forall _ (_ :: _) |- _ => inversion H; clear H; subst
         end.

Lemma hd_draw (U : Q -> Prop) (r : list Q) : U 0%Q -> Forall U r -> U (hd 0%Q r).
Proof. intros H0 Hr. destruct r; [ exact H0 | inversion Hr; assumption ]. Qed.

Lemma tl_draws (U : Q -> Prop) (r : list Q) : Forall U r -> Forall U (tl r).
Proof. intros Hr. destruct r; [ exact Hr | inversion Hr; assumption ]. Qed.

(** The player's block keeps every property of the battle that pushing a
    log line and the damage dealt to the opponent keep. *)
Lemma playerTurn_inv (I : BattleState.t -> Prop) (U : Q -> Prop)
    (move : option BattleMove.t) :
  U 0%Q ->
  (forall b line, I b -> I (BattleState.push line b)) ->
  (forall b m u damage, move = Some m -> U u -> I b ->
     calculateDamage (BattleState.playerPokemon b)
       (BattleState.opponentPokemon b) m u = Normal damage ->
     I (BattleState.setOpponentPokemon
          (takeDamage damage (BattleState.opponentPokemon b)) b)) ->
  triple (onTurn I U) (playerTurn move) (fun _ => onTurn I U) (onTurn I U).
Proof.
  intros H0 Hpush Hdmg [b r]. run_turn. intros [Hb Hr].
  destruct move as [m|]; run_cases; split; auto using tl_draws;
    repeat apply Hpush; try exact Hb;
    match goal with
    | E : calculateDamage _ _ _ _ = Normal _ |- _ =>
        refine (Hdmg _ _ _ _ eq_refl _ Hb E);
        first [ assumption | apply hd_draw; assumption ]
    end.
Qed.

(** The opponent's block keeps every property of the battle that pushing a
    log line and the damage dealt to the player by a living opponent
    keep. *)
Lemma opponentTurn_inv (I : BattleState.t -> Prop) (U : Q -> Prop)
    (move : option BattleMove.t) :
  U 0%Q ->
  (forall b line, I b -> I (BattleState.push line b)) ->
  (forall b m u damage, move = Some m -> U u ->
     alive (BattleState.opponentPokemon b) = true ->
     I b ->
     calculateDamage (BattleState.opponentPokemon b)
       (BattleState.playerPokemon b) m u = Normal damage ->
     I (BattleState.setPlayerPokemon
          (takeDamage damage (BattleState.playerPokemon b)) b)) ->
  triple (onTurn I U) (opponentTurn move) (fun _ => onTurn I U) (onTurn I U).
Proof.
  intros H0 Hpush Hdmg [b r]. run_turn. intros [Hb Hr].
  destruct (BattlePokemon.currentHp (BattleState.opponentPokemon b) >? 0) eqn:Halive;
    cbn [fst snd]; [ | rewrite Halive; split; assumption ].
  destruct move as [m|]; run_cases; try rewrite Halive; cbn [fst snd];
    split; auto using tl_draws; repeat apply Hpush; try exact Hb;
    match goal with
    | E : calculateDamage _ _ _ _ = Normal _ |- _ =>
        refine (Hdmg _ _ _ _ eq_refl _ Halive Hb E);
        first [ assumption | apply hd_draw; assumption ]
    end.
Qed.

(** A dead opponent's block does nothing at all. *)
Lemma opponentTurn_skipped (move : option BattleMove.t) (ctx : TurnCtx) :
  alive (BattleState.opponentPokemon (fst ctx)) = false ->
  opponentTurn move ctx = (Normal tt, ctx).
Proof.
  destruct ctx as [b r]. unfold alive. run_turn. intros Halive.
  rewrite Halive. cbn [fst snd]. rewrite Halive. reflexivity.
Qed.

Lemma subscript_In {A : Type} (arr : list A) (i : number) (x : A) :
  JS.subscript arr i = Some x -> In x arr.
Proof.
  unfold JS.subscript. destruct (JS.arrayIndex i) as [n|]; [ | discriminate ].
  apply nth_error_In.
Qed.

(** The whole turn, for a property [I1] kept during the player's block and
    a property [I2] it implies, kept during the opponent's block, and a
    property [U] of the random draws: a turn that returns has incremented
    the counter of a battle satisfying [I2], and a turn that throws has
    left a battle satisfying [I2]. *)
Lemma executeBattleTurn_inv (I1 I2 : BattleState.t -> Prop) (U : Q -> Prop)
    (playerMoveIndex : number) (b0 : BattleState.t) :
  U 0%Q ->
  I1 (afterUpkeep b0) ->
  (forall b line, I1 b -> I1 (BattleState.push line b)) ->
  (forall b m u damage,
     JS.subscript (BattlePokemon.moves (BattleState.playerPokemon (afterUpkeep b0)))
       playerMoveIndex = Some m ->
     U u -> I1 b ->
     calculateDamage (BattleState.playerPokemon b)
       (BattleState.opponentPokemon b) m u = Normal damage ->
     I1 (BattleState.setOpponentPokemon
           (takeDamage damage (BattleState.opponentPokemon b)) b)) ->
  (forall b, I1 b -> I2 b) ->
  (forall b line, I2 b -> I2 (BattleState.push line b)) ->
  (forall b m u damage,
     In m (BattlePokemon.moves (BattleState.opponentPokemon (afterUpkeep b0))) ->
     U u ->
     alive (BattleState.opponentPokemon b) = true ->
     I2 b ->
     calculateDamage (BattleState.opponentPokemon b)
       (BattleState.playerPokemon b) m u = Normal damage ->
     I2 (BattleState.setPlayerPokemon
           (takeDamage damage (BattleState.playerPokemon b)) b)) ->
  triple (fun ctx => fst ctx = b0 /\ Forall U (snd ctx))
    (executeBattleTurn playerMoveIndex)
    (fun result ctx =>
       exists b1, I2 b1
         /\ fst ctx = BattleState.setTurn (BattleState.turn b1 + 1) b1
         /\ result = fst ctx)
    (fun ctx => I2 (fst ctx)).
Proof.
  intros H0 Hstart Hpush1 Hdmg1 Himp Hpush2 Hdmg2.
  unfold executeBattleTurn.
  eapply triple_bind with
    (Q := fun _ ctx => fst ctx = BattleState.setBattleLog [] b0 /\ Forall U (snd ctx)).
  { apply triple_modify. intros [b r] [E HU]. cbn in *. subst. auto. }
  intros _.
  eapply triple_bind with
    (Q := fun _ ctx =>
            fst ctx = applyWeatherEffects (BattleState.setBattleLog [] b0)
            /\ Forall U (snd ctx)).
  { apply triple_modify. intros [b r] [E HU]. cbn in *. subst. auto. }
  intros _.
  eapply triple_bind with (Q := fun _ ctx => onTurn (fun b => b = afterUpkeep b0) U ctx).
  { apply triple_modify. intros [b r] [E HU]. unfold onTurn. cbn in *. subst. auto. }
  intros _.
  eapply triple_bind with
    (Q := fun playerMove ctx =>
            onTurn (fun b => b = afterUpkeep b0) U ctx
            /\ playerMove
               = JS.subscript
                   (BattlePokemon.moves (BattleState.playerPokemon (afterUpkeep b0)))
                   playerMoveIndex).
  { apply triple_gets. intros [b r] [E HU]. cbn in *. subst. split; [ split | ]; auto. }
  intros playerMove.
  eapply triple_bind with
    (Q := fun _ ctx =>
            onTurn (fun b => b = afterUpkeep b0) U ctx
            /\ playerMove
               = JS.subscript
                   (BattlePokemon.moves (BattleState.playerPokemon (afterUpkeep b0)))
                   playerMoveIndex).
  { intros s [Hs Hm].
    pose proof (triple_turnRandom (fun b => b = afterUpkeep b0) U H0 s Hs) as T.
    destruct (turnRandom s) as [[u|e] s1].
    - destruct T as [T _]. split; [ exact T | exact Hm ].
    - destruct T as [Tb _]. rewrite Tb. apply Himp, Hstart. }
  intros u.
  eapply triple_bind with
    (Q := fun opponentMove ctx =>
            onTurn I1 U ctx
            /\ playerMove
               = JS.subscript
                   (BattlePokemon.moves (BattleState.playerPokemon (afterUpkeep b0)))
                   playerMoveIndex
            /\ forall m, opponentMove = Some m ->
                 In m (BattlePokemon.moves
                         (BattleState.opponentPokemon (afterUpkeep b0)))).
  { apply triple_gets. intros [b r] [[E HU] Hm]. cbn in *. subst b.
    split; [ split; auto | split; auto ].
    intros m Hsome. eapply subscript_In. exact Hsome. }
  intros opponentMove.
  eapply triple_bind with
    (Q := fun _ ctx =>
            onTurn I2 U ctx
            /\ forall m, opponentMove = Some m ->
                 In m (BattlePokemon.moves
                         (BattleState.opponentPokemon (afterUpkeep b0)))).
  { intros s [Hs [Hpm Hom]].
    pose proof (playerTurn_inv I1 U playerMove H0 Hpush1) as T.
    assert (Hd : forall b m v damage, playerMove = Some m -> U v -> I1 b ->
              calculateDamage (BattleState.playerPokemon b)
                (BattleState.opponentPokemon b) m v = Normal damage ->
              I1 (BattleState.setOpponentPokemon
                    (takeDamage damage (BattleState.opponentPokemon b)) b)).
    { intros b m v damage E Hv Hb Hcalc.
      apply (Hdmg1 b m v damage); [ rewrite <- Hpm; exact E | exact Hv | exact Hb | exact Hcalc ]. }
    specialize (T Hd s Hs).
    destruct (playerTurn playerMove s) as [[a|e] s1]; destruct T as [Tb Tr].
    - split; [ split; [ apply Himp, Tb | exact Tr ] | exact Hom ].
    - apply Himp, Tb. }
  intros _.
  eapply triple_bind with (Q := fun _ ctx => onTurn I2 U ctx).
  { intros s [Hs Hom].
    pose proof (opponentTurn_inv I2 U opponentMove H0 Hpush2) as T.
    assert (Hd : forall b m v damage, opponentMove = Some m -> U v ->
              alive (BattleState.opponentPokemon b) = true -> I2 b ->
              calculateDamage (BattleState.opponentPokemon b)
                (BattleState.playerPokemon b) m v = Normal damage ->
              I2 (BattleState.setPlayerPokemon
                    (takeDamage damage (BattleState.playerPokemon b)) b)).
    { intros b m v damage Hsome Hv Halive Hb Hcalc. apply (Hdmg2 b m v damage); auto. }
    specialize (T Hd s Hs).
    destruct (opponentTurn opponentMove s) as [[a|e] s1]; destruct T as [Tb Tr];
      [ split; assumption | exact Tb ]. }
  intros _.
  eapply triple_bind with
    (Q := fun _ ctx =>
            exists b1, I2 b1
              /\ fst ctx = BattleState.setTurn (BattleState.turn b1 + 1) b1).
  { intros [b r] [Hs HU]. cbn. exists b. split; [ exact Hs | reflexivity ]. }
  intros _.
  apply triple_gets. intros [b r] [b1 [Hb1 E]]. exists b1. auto.
Qed.

End TurnFacts.

(* ================================================================== *)
(** ** Status upkeep *)
(* ================================================================== *)

Module UpkeepFacts.
Import Engine Props.

(** Upkeep assigns [currentHp] and [status] only. *)
Lemma statusUpkeep_frame (p : BattlePokemon.t) :
  let q := fst (statusUpkeep p) in
  BattlePokemon.stats q = BattlePokemon.stats p
  /\ BattlePokemon.moves q = BattlePokemon.moves p
  /\ BattlePokemon.level q = BattlePokemon.level p
  /\ BattlePokemon.types q = BattlePokemon.types p
  /\ BattlePokemon.name q = BattlePokemon.name p
  /\ BattlePokemon.items q = BattlePokemon.items p.
Proof.
  unfold statusUpkeep.
  destruct (PokemonStatus.type (BattlePokemon.status p));
    cbn [fst]; try (repeat split; reflexivity);
    match goal with
    | |- context [if ?c then _ else _] => destruct c
    end; cbn [fst]; repeat split; reflexivity.
Qed.


Lemma afterUpkeep_player (b : BattleState.t) :
  BattleState.playerPokemon (afterUpkeep b)
  = fst (statusUpkeep (BattleState.playerPokemon b)).
Proof.
  unfold afterUpkeep, applyStatusEffects, applyWeatherEffects.
  destruct (BattleWeather.type (BattleState.weather (BattleState.setBattleLog [] b)));
    cbn; destruct (statusUpkeep (BattleState.playerPokemon b)) as [p1 l1];
    cbn; destruct (statusUpkeep (BattleState.opponentPokemon b)) as [p2 l2];
    reflexivity.
Qed.

Lemma afterUpkeep_opponent (b : BattleState.t) :
  BattleState.opponentPokemon (afterUpkeep b)
  = fst (statusUpkeep (BattleState.opponentPokemon b)).
Proof.
  unfold afterUpkeep, applyStatusEffects, applyWeatherEffects.
  destruct (BattleWeather.type (BattleState.weather (BattleState.setBattleLog [] b)));
    cbn; destruct (statusUpkeep (BattleState.playerPokemon b)) as [p1 l1];
    cbn; destruct (statusUpkeep (BattleState.opponentPokemon b)) as [p2 l2];
    reflexivity.
Qed.

Lemma afterUpkeep_turn (b : BattleState.t) :
  BattleState.turn (afterUpkeep b) = BattleState.turn b.
Proof.
  unfold afterUpkeep, applyStatusEffects, applyWeatherEffects.
  destruct (BattleWeather.type (BattleState.weather (BattleState.setBattleLog [] b)));
    cbn; destruct (statusUpkeep (BattleState.playerPokemon b)) as [p1 l1];
    cbn; destruct (statusUpkeep (BattleState.opponentPokemon b)) as [p2 l2];
    reflexivity.
Qed.

End UpkeepFacts.

(* ================================================================== *)
(** ** Claims about turn resolution *)
(* ================================================================== *)

Module TurnClaims.
Import Engine Server Props JSFacts Hoare TurnFacts UpkeepFacts Fixtures.

(** What a turn does to the two combatants' hit points, in terms of the
    state [afterUpkeep b0] the attacks start from. *)
Lemma any_draws (random : list Q) : Forall (fun _ : Q => True) random.
Proof. apply Forall_forall. auto. Qed.


(** The counter after a turn: one more when the call returns, the same
    when it throws. *)
Lemma executeBattleTurn_turn (playerMoveIndex : number) (b0 : BattleState.t)
    (random : list Q) :
  match executeBattleTurn playerMoveIndex (b0, random) with
  | (Normal state, (after, _)) =>
      BattleState.turn after = BattleState.turn b0 + 1 /\ state = after
  | (Throw _, (after, _)) => BattleState.turn after = BattleState.turn b0
  end.
Proof.
  pose proof (executeBattleTurn_inv
    (fun b => BattleState.turn b = BattleState.turn b0)
    (fun b => BattleState.turn b = BattleState.turn b0)
    (fun _ => True) playerMoveIndex b0 I (afterUpkeep_turn b0)) as T.
  assert (H : triple (fun ctx : TurnCtx => fst ctx = b0)
                (executeBattleTurn playerMoveIndex)
                (fun state ctx =>
                   BattleState.turn (fst ctx) = BattleState.turn b0 + 1
                   /\ state = fst ctx)
                (fun ctx => BattleState.turn (fst ctx) = BattleState.turn b0)).
  { eapply triple_weaken; [ apply T | | | ]; clear T.
    - intros b line Hb. exact Hb.
    - intros b m u damage _ _ Hb _. exact Hb.
    - auto.
    - intros b line Hb. exact Hb.
    - intros b m u damage _ _ _ Hb _. exact Hb.
    - intros s Hs. split; [ exact Hs | apply any_draws ].
    - intros result ctx [b1 [Hb1 [E R]]]. split; [ | exact R ].
      rewrite E. cbn [BattleState.turn BattleState.setTurn]. rewrite Hb1.
      reflexivity.
    - auto. }
  specialize (H (b0, random) eq_refl).
  destruct (executeBattleTurn playerMoveIndex (b0, random)) as [[state|e] [after r]];
    exact H.
Qed.

Lemma startBattle_turn (playerPokemonId opponentPokemonId : number) (w w1 : World)
    (b : BattleState.t) :
  startBattle playerPokemonId opponentPokemonId w = (Normal b, w1) ->
  BattleState.turn b = 1 /\ BattleState.status b = "active".
Proof.
  unfold startBattle, bind.
  destruct (createBattlePokemon playerPokemonId defaultLevel w) as [[player|e] w2];
    [ | discriminate ].
  destruct (createBattlePokemon opponentPokemonId defaultLevel w2)
    as [[opponent|e] w3]; [ | discriminate ].
  destruct player as [player|], opponent as [opponent|];
    unfold ret, throw; intros H; inversion H; subst; cbn; auto.
Qed.

(** C9, as amended.  An Encounter is created with turn counter 1 (0 in
    the older server); a call to turn resolution that returns has increased
    the counter by exactly 1, and a call that throws (the player's move
    index names no move, or the surviving opponent has no move) has left it
    as it was. *)
Theorem turn_counter :
  (forall (playerPokemonId opponentPokemonId : number) (w w1 : World)
          (b : BattleState.t),
      startBattle playerPokemonId opponentPokemonId w = (Normal b, w1) ->
      BattleState.turn b = 1)
  /\ (forall (playerMoveIndex : number) (b0 : BattleState.t) (random : list Q),
        match executeBattleTurn playerMoveIndex (b0, random) with
        | (Normal state, (after, _)) =>
            BattleState.turn after = BattleState.turn b0 + 1 /\ state = after
        | (Throw _, (after, _)) => BattleState.turn after = BattleState.turn b0
        end)
  /\ (forall (playerPokemonId opponentPokemonId : number) (w w1 : Legacy.World)
             (b : Legacy.BattleState.t),
        Legacy.startBattle playerPokemonId opponentPokemonId w = (Normal b, w1) ->
        Legacy.BattleState.turn b = 0)
  /\ (forall (playerMoveIndex : number) (b0 : Legacy.BattleState.t)
             (random : list Q),
        match Legacy.executeBattleTurn playerMoveIndex (b0, random) with
        | (Normal state, (after, _)) =>
            Legacy.BattleState.turn after = Legacy.BattleState.turn b0 + 1
            /\ state = after
        | (Throw _, (after, _)) =>
            Legacy.BattleState.turn after = Legacy.BattleState.turn b0
        end).
Proof.
  split; [ | split; [ | split ] ].
  - intros p o w w1 b H. apply (startBattle_turn p o w w1 b H).
  - apply executeBattleTurn_turn.
  - intros p o w w1 b H. apply (LegacyFacts.legacy_startBattle_turn p o w w1 b H).
  - apply LegacyFacts.legacy_executeBattleTurn_turn.
Qed.

(** [start_battle(1, 4)] against a catalog that answers creates the
    encounter at turn 1, and [executeBattleTurn(state, 0)] returns it at
    turn 2. *)
Lemma turn_counter_witness :
  BattleState.turn (encounter bulbasaur50 charmander50) = 1
  /\ exists after random,
       executeBattleTurn 0 (encounter bulbasaur50 charmander50, [0; 0; 0; 0; 0]%Q)
       = (Normal after, (after, random))
       /\ BattleState.turn after = 2.
Proof.
  destruct turn_counter as [Hstart [Hturn _]]. split.
  - apply (Hstart 1 4 (fresh [] healthyCatalog)
             {| currentBattle := None; random := []; catalog := [] |}).
    reflexivity.
  - specialize (Hturn 0 (encounter bulbasaur50 charmander50) [0; 0; 0; 0; 0]%Q).
    destruct (executeBattleTurn 0
                (encounter bulbasaur50 charmander50, [0; 0; 0; 0; 0]%Q))
      as [[state|e] [after random]] eqn:E.
    + destruct Hturn as [Ht Hs]. subst state. exists after, random.
      split; [ reflexivity | exact Ht ].
    + vm_compute in E. discriminate E.
Defined.

(** C9 as stated fails: bulbasaur has two moves, [make_move(3)] passes the
    schema, and the turn resolution it calls throws with the counter still
    at 1.  In the older server, moreover, [startBattle] creates the
    Encounter with counter 0. *)
Lemma turn_counter_unchanged_by_throwing_turn :
  make_move_schema 3 = true
  /\ (exists e after,
        executeBattleTurn 3 (encounter bulbasaur50 charmander50, [0; 0]%Q)
        = (Throw e, after)
        /\ BattleState.turn (fst after) = 1
        /\ BattleState.turn (fst after)
           <> BattleState.turn (encounter bulbasaur50 charmander50) + 1)
  /\ (exists b w1,
        Legacy.startBattle 1 4
          {| Legacy.currentBattle := None; Legacy.random := [];
             Legacy.catalog := healthyCatalog |}
        = (Normal b, w1)
        /\ Legacy.BattleState.turn b = 0
        /\ Legacy.BattleState.turn b <> 1).
Proof.
  split; [ reflexivity | ]. split.
  - eexists. eexists. split; [ vm_compute; reflexivity | ].
    split; [ reflexivity | discriminate ].
  - eexists. eexists. split; [ vm_compute; reflexivity | ].
    split; [ reflexivity | discriminate ].
Qed.


(** Status upkeep comes before the attacks and is gated by nothing: on a
    state with two burned combatants of 3 hit points each, which no tool
    call produces since nothing ever sets a status condition, the burn
    damage (4 and 3) brings both to 0 before any attack. *)
Lemma burned_pair_both_reach_zero :
  alive (BattleState.playerPokemon scorchedEncounter) = true
  /\ alive (BattleState.opponentPokemon scorchedEncounter) = true
  /\ exists after random,
       executeBattleTurn 0 (scorchedEncounter, [0; 0; 0; 0; 0]%Q)
       = (Normal after, (after, random))
       /\ BattlePokemon.currentHp (BattleState.playerPokemon after) = 0
       /\ BattlePokemon.currentHp (BattleState.opponentPokemon after) = 0.
Proof.
  split; [ reflexivity | ]. split; [ reflexivity | ].
  eexists. eexists. split; [ vm_compute; reflexivity | ].
  split; reflexivity.
Qed.

End TurnClaims.

(* ================================================================== *)
(** ** Claims about the tools *)
(* ================================================================== *)

Module ServerClaims.
Import Engine Catalog Server Props Hoare TurnFacts UpkeepFacts Fixtures.

(** [createBattlePokemon] touches the catalog only, and never throws. *)
Lemma createBattlePokemon_frame (pokemonId level : number) (w : World) :
  exists result service,
    createBattlePokemon pokemonId level w = (Normal result, setCatalog service w).
Proof.
  unfold createBattlePokemon, getPokemonMoves, getPokemonStats, tryCatch, bind,
    onCatalog, fetchFromPokeAPI, lift, ret.
  destruct w as [cb rnd cat]. cbn [catalog setCatalog currentBattle random].
  repeat (match goal with
          | |- context [match ?l with [] => _ | _ :: _ => _ end] => destruct l
          | |- context [match ?o with Some _ => _ | None => _ end] => destruct o
          | |- context [match ?c with Normal _ => _ | Throw _ => _ end] => destruct c
          end;
          cbn [catalog setCatalog currentBattle random fst snd]);
    unfold setCatalog; cbn [catalog currentBattle random]; eauto.
Qed.

(** A failed creature lookup makes [createBattlePokemon] return [null]. *)
Lemma createBattlePokemon_unavailable (pokemonId level : number) (w : World) :
  lookupUnavailable w = true ->
  fst (createBattlePokemon pokemonId level w) = Normal None.
Proof.
  unfold lookupUnavailable, createBattlePokemon, tryCatch, bind, onCatalog,
    fetchFromPokeAPI, ret.
  destruct (catalog w) as [|[body|] cat]; [ reflexivity | discriminate | reflexivity ].
Qed.

(** *** Worlds of the examples are reachable *)

Lemma duel_reachable (random : list Q) : reachable (duel random).
Proof.
  apply (reach_call (fresh random healthyCatalog) (StartBattle 1 4));
    [ apply reach_start | reflexivity ].
Qed.

Lemma hollowDuel_reachable (random : list Q) : reachable (hollowDuel random).
Proof.
  apply (reach_call (fresh random failingStatsCatalog) (StartBattle 1 4));
    [ apply reach_start | reflexivity ].
Qed.

Lemma secondTurn_reachable : reachable secondTurn.
Proof.
  assert (E : secondTurn
              = snd (handler (MakeMove 0) (duel [0; 0; 1 # 2; 1 # 2; 0; 1 # 2]%Q)))
    by (vm_compute; reflexivity).
  rewrite E. exact (reach_call _ (MakeMove 0) (duel_reachable _) eq_refl).
Qed.

(** C5.  A creature lookup that returns the unavailable signal makes
    hydration of that combatant fail ([createBattlePokemon] returns
    [null]); and if hydration of either combatant fails, [start_battle]
    answers with the hydration-failure message, stores no new Encounter,
    and the stored Encounter, if any, is the one stored before. *)
Theorem start_battle_hydration_failure :
  (forall (pokemonId level : number) (w : World),
      lookupUnavailable w = true ->
      fst (createBattlePokemon pokemonId level w) = Normal None)
  /\ (forall (playerPokemonId opponentPokemonId : number) (w : World),
        hydrationFails playerPokemonId opponentPokemonId w ->
        exists w1,
          start_battle playerPokemonId opponentPokemonId w
          = (Normal "Failed to start battle: Failed to create battle Pokémon", w1)
          /\ currentBattle w1 = currentBattle w
          /\ random w1 = random w).
Proof.
  split; [ apply createBattlePokemon_unavailable | ].
  intros pid oid w H. unfold hydrationFails in H.
  destruct (createBattlePokemon_frame pid defaultLevel w) as [r1 [s1 E1]].
  destruct (createBattlePokemon_frame oid defaultLevel (setCatalog s1 w))
    as [r2 [s2 E2]].
  rewrite E1 in H. cbn [fst snd] in H. rewrite E2 in H. cbn [fst] in H.
  assert (Hnull : r1 = None \/ r2 = None).
  { destruct H as [H|H]; [ left | right ]; congruence. }
  unfold start_battle, startBattle, tryCatch, bind. rewrite E1, E2.
  exists (setCatalog s2 (setCatalog s1 w)).
  destruct Hnull as [-> | ->]; [ | destruct r1 ]; cbn; auto.
Qed.

(** The catalog is down: the stored duel survives the failed call. *)
Lemma start_battle_hydration_failure_witness :
  fst (createBattlePokemon 1 50 (duel [])) = Normal None
  /\ exists w1,
       start_battle 1 4 (duel [])
       = (Normal "Failed to start battle: Failed to create battle Pokémon", w1)
       /\ currentBattle w1 = Some (encounter bulbasaur50 charmander50)
       /\ random w1 = [].
Proof.
  destruct start_battle_hydration_failure as [Hnull Hfail].
  assert (H : fst (createBattlePokemon 1 50 (duel [])) = Normal None).
  { apply Hnull. reflexivity. }
  split; [ exact H | ].
  apply (Hfail 1 4 (duel [])). left. exact H.
Defined.

(** The opponent's creature lookup fails after the player was hydrated:
    same answer, and the stored Encounter is untouched. *)
Example start_battle_opponent_unavailable :
  exists w1,
    start_battle 1 4
      {| currentBattle := Some (encounter charmander50 bulbasaur50);
         random := [];
         catalog := [Some bulbasaur; Some bulbasaur; Some bulbasaur; None] |}
    = (Normal "Failed to start battle: Failed to create battle Pokémon", w1)
    /\ currentBattle w1 = Some (encounter charmander50 bulbasaur50).
Proof.
  eexists. split; [ vm_compute; reflexivity | reflexivity ].
Qed.

(** C7.  With no Encounter stored, [make_move] answers with the "no active
    battle" message and leaves the process as it was; so does the
    [make_move] of the older server, with its own wording. *)
Theorem make_move_without_battle :
  (forall (moveIndex : number) (w : World),
      currentBattle w = None ->
      make_move moveIndex w
      = (Normal
           "No active battle! Start a battle first using the start_battle command.",
         w))
  /\ (forall (moveIndex : number) (w : Legacy.World),
        Legacy.currentBattle w = None ->
        Legacy.make_move moveIndex w
        = (Normal
             "Aktif bir savaş yok! Önce start_battle komutu ile bir savaş başlatın.",
           w)).
Proof.
  split.
  - intros moveIndex w H. unfold make_move, bind, gets. rewrite H. reflexivity.
  - apply LegacyFacts.legacy_make_move_without_battle.
Qed.

Lemma make_move_without_battle_witness :
  make_move 0 (fresh [1 # 2]%Q healthyCatalog)
  = (Normal "No active battle! Start a battle first using the start_battle command.",
     fresh [1 # 2]%Q healthyCatalog).
Proof.
  apply (proj1 make_move_without_battle). reflexivity.
Defined.

(** *** A zero defense stat *)

Lemma not_finite_rounded (a : number) :
  isFinite a = false -> isFinite (JS.rounded a) = false.
Proof. destruct a; cbn; try discriminate; auto. Qed.

Lemma div_zero_not_finite (a : number) : isFinite (a /~ 0) = false.
Proof.
  apply not_finite_rounded.
  destruct a as [x|s|]; cbn; try reflexivity.
  destruct (JS.Qsign x); reflexivity.
Qed.

Lemma not_finite_div (a b : number) : isFinite a = false -> isFinite (a /~ b) = false.
Proof.
  intros H. apply not_finite_rounded.
  destruct a as [x|s|], b as [y|t|]; cbn in *; try discriminate; try reflexivity.
  destruct (JS.Qsign y); reflexivity.
Qed.

Lemma not_finite_add (a b : number) : isFinite a = false -> isFinite (a +~ b) = false.
Proof.
  intros H. apply not_finite_rounded.
  destruct a as [x|s|], b as [y|t|]; cbn in *; try discriminate; try reflexivity.
  destruct (Bool.eqb s t); reflexivity.
Qed.

Lemma not_finite_mul (a b : number) : isFinite a = false -> isFinite (a *~ b) = false.
Proof.
  intros H. apply not_finite_rounded.
  destruct a as [x|s|], b as [y|t|]; cbn in *; try discriminate; try reflexivity.
  destruct (JS.Qsign y); reflexivity.
Qed.

Lemma not_finite_floor (a : number) : isFinite a = false -> isFinite (JS.floor a) = false.
Proof. destruct a; cbn; auto. Qed.

(** Nothing guards the division: with a zero defense stat the damage is an
    infinity or [NaN], whatever the other inputs. *)
Lemma damageWith_zero_defense (attack : number) (attacker defender : BattlePokemon.t)
    (move : BattleMove.t) (u : Q) (damage : number) :
  damageWith attack 0 attacker defender move u = Normal damage ->
  isFinite damage = false.
Proof.
  unfold damageWith.
  destruct (calculateTypeEffectiveness (BattleMove.type move)
              (map PokemonType.type_name (BattlePokemon.types defender)))
    as [typeEffectiveness|e]; [ | discriminate ].
  intros H. inversion H. clear H.
  apply not_finite_floor, not_finite_mul.
  assert (H : isFinite
                (JS.floor
                   (((2 *~ BattlePokemon.level attacker /~ 5 +~ 2)
                     *~ BattleMove.power move *~ attack /~ 0) /~ 50 +~ 2)
                 *~ typeEffectiveness)
              = false).
  { apply not_finite_mul, not_finite_floor, not_finite_add, not_finite_div,
      div_zero_not_finite. }
  destruct (match PokemonStatus.type (BattlePokemon.status attacker) with
            | Burn => true
            | _ => false
            end && isPhysical move);
    [ apply not_finite_mul, H | exact H ].
Qed.

Lemma createBattlePokemon_zero_stats (pokemonId level : number) (w : World)
    (body : Api.pokemon) (movesAnswer : option Api.pokemon) (rest : Service) :
  catalog w = Some body :: movesAnswer :: None :: rest ->
  movesReadable movesAnswer = true ->
  exists p,
    createBattlePokemon pokemonId level w = (Normal (Some p), setCatalog rest w)
    /\ BattlePokemon.stats p = zeroStats
    /\ BattlePokemon.currentHp p = 0.
Proof.
  intros Hc Hm.
  unfold createBattlePokemon, getPokemonMoves, getPokemonStats, tryCatch, bind,
    onCatalog, fetchFromPokeAPI, lift, ret.
  rewrite Hc. cbn [catalog setCatalog fst snd].
  destruct movesAnswer as [mbody|]; cbn [catalog setCatalog fst snd].
  - unfold movesReadable in Hm.
    destruct (mapThrowing toBattleMove (firstn 4 (Api.moves mbody))) as [ms|e];
      [ | discriminate ].
    cbn [catalog setCatalog fst snd]. eexists.
    split; [ unfold setCatalog; cbn; reflexivity | split; reflexivity ].
  - eexists.
    split; [ unfold setCatalog; cbn; reflexivity | split; reflexivity ].
Qed.

(** C10.  When the creature lookup succeeds, the moves can be read and the
    stats lookup fails, [createBattlePokemon] returns a combatant whose
    stats and currentHp are all 0; against such a defender the divisor of
    the damage formula is 0: [calculateDamage] returns, unless a type
    lookup throws, what the formula gives on the quotient
    [(2*level/5 + 2) * power * attackStat / 0], which is an infinity or
    [NaN], and so is the damage; and a process reaches an
    active Encounter with such an opponent, in which the turn
    [make_move(0)] resolves computes the damage with divisor 0. *)
Theorem zero_defense_reachable :
  (forall (pokemonId level : number) (w : World) (body : Api.pokemon)
          (movesAnswer : option Api.pokemon) (rest : Service),
      catalog w = Some body :: movesAnswer :: None :: rest ->
      movesReadable movesAnswer = true ->
      exists p,
        createBattlePokemon pokemonId level w = (Normal (Some p), setCatalog rest w)
        /\ BattlePokemon.stats p = zeroStats
        /\ BattlePokemon.currentHp p = 0)
  /\ (forall (attacker defender : BattlePokemon.t) (move : BattleMove.t) (u : Q),
        BattlePokemon.stats defender = zeroStats ->
        defenseStat defender move = 0
        /\ (forall damage,
              calculateDamage attacker defender move u = Normal damage ->
              isFinite damage = false)
        /\ calculateDamage attacker defender move u
           = match calculateTypeEffectiveness (BattleMove.type move)
                     (map PokemonType.type_name (BattlePokemon.types defender)) with
             | Normal effectiveness =>
                 Normal
                   (Formula.damage (BattlePokemon.level attacker)
                      (BattleMove.power move) (attackStat attacker move) 0
                      effectiveness (Formula.burnFactor attacker move)
                      (randomFactor u))
             | Throw e => Throw e
             end
        /\ (plainTag (BattleMove.type move) = true ->
            exists damage, calculateDamage attacker defender move u = Normal damage)
        /\ Formula.quotient (BattlePokemon.level attacker) (BattleMove.power move)
             (attackStat attacker move) 0
           = (2 *~ BattlePokemon.level attacker /~ 5 +~ 2) *~ BattleMove.power move
             *~ attackStat attacker move /~ 0
        /\ isFinite
             (Formula.quotient (BattlePokemon.level attacker) (BattleMove.power move)
                (attackStat attacker move) 0) = false)
  /\ (exists (w : World) (b : BattleState.t),
        reachable w
        /\ currentBattle w = Some b
        /\ BattleState.status b = "active"
        /\ BattlePokemon.stats (BattleState.opponentPokemon b) = zeroStats
        /\ BattlePokemon.currentHp (BattleState.opponentPokemon b) = 0
        /\ accepted (MakeMove 0) = true
        /\ exists b1,
             fst (executeBattleTurn 0 (b, random w)) = Normal b1
             /\ BattleState.battleLog b1
                = ["bulbasaur used vine-whip!"; "charmander took Infinity damage!"]).
Proof.
  split; [ | split ].
  - intros pid level w body movesAnswer rest Hc Hm.
    apply (createBattlePokemon_zero_stats pid level w body movesAnswer rest Hc Hm).
  - intros attacker defender move u Hz.
    assert (Hd : defenseStat defender move = 0).
    { unfold defenseStat. rewrite Hz. destruct (isPhysical move); reflexivity. }
    split; [ exact Hd | ].
    split; [ unfold calculateDamage; rewrite Hd; apply damageWith_zero_defense | ].
    split; [ rewrite DamageFacts.calculateDamage_shape, Hd; reflexivity | ].
    split; [ apply DamageFacts.calculateDamage_returns | ].
    split; [ reflexivity | apply div_zero_not_finite ].
  - exists (hollowDuel [0; 0; 1 # 2; 0]%Q), (encounter bulbasaur50 hollowCharmander).
    split; [ apply hollowDuel_reachable | ].
    repeat (split; [ reflexivity | ]).
    eexists. split; vm_compute; reflexivity.
Qed.

(** The catalog answers the opponent's creature and moves requests and
    fails its stats request. *)
Lemma zero_defense_reachable_witness :
  (exists p,
     createBattlePokemon 4 50 (fresh [] [Some charmander; Some charmander; None])
     = (Normal (Some p), fresh [] [])
     /\ BattlePokemon.stats p = zeroStats
     /\ BattlePokemon.currentHp p = 0)
  /\ defenseStat hollowCharmander vineWhip = 0
  /\ calculateDamage bulbasaur50 hollowCharmander vineWhip (1 # 2)
     = Normal (Formula.damage 50 45 65 0 1 1 (randomFactor (1 # 2)))
  /\ isFinite (Formula.damage 50 45 65 0 1 1 (randomFactor (1 # 2))) = false
  /\ Formula.quotient 50 45 65 0 = JS.Infinity.
Proof.
  destruct zero_defense_reachable as [Hcreate [Hdiv _]]. split.
  - apply (Hcreate 4 50 (fresh [] [Some charmander; Some charmander; None])
             charmander (Some charmander) []); reflexivity.
  - assert (Hz : BattlePokemon.stats hollowCharmander = zeroStats) by reflexivity.
    destruct (Hdiv bulbasaur50 hollowCharmander vineWhip (1 # 2) Hz)
      as [H1 [H2 [H3 _]]].
    assert (H4 : calculateDamage bulbasaur50 hollowCharmander vineWhip (1 # 2)
                 = Normal (Formula.damage 50 45 65 0 1 1 (randomFactor (1 # 2)))).
    { rewrite H3. vm_compute. reflexivity. }
    split; [ exact H1 | ]. split; [ exact H4 | ].
    split; [ apply H2; exact H4 | vm_compute; reflexivity ].
Defined.

(** *** What [make_move] does with the index and what it answers *)

(** Whatever the battle, an index that names none of the player's moves
    makes the handler throw a [TypeError] out of [isMoveHit], after the log
    was cleared, upkeep applied and two draws made. *)
Lemma make_move_invalid_index (moveIndex : number) (w : World) (b : BattleState.t) :
  currentBattle w = Some b ->
  JS.subscript (BattlePokemon.moves (BattleState.playerPokemon b)) moveIndex = None ->
  make_move moveIndex w
  = (Throw (undefinedProperty "accuracy"),
     {| currentBattle := Some (afterUpkeep b);
        random := tl (tl (random w));
        catalog := catalog w |}).
Proof.
  intros Hb Hnone.
  assert (Hmove : JS.subscript
                    (BattlePokemon.moves (BattleState.playerPokemon (afterUpkeep b)))
                    moveIndex = None).
  { rewrite afterUpkeep_player.
    destruct (statusUpkeep_frame (BattleState.playerPokemon b)) as [_ [Hm _]].
    cbn zeta in Hm. rewrite Hm. exact Hnone. }
  unfold make_move, bind, gets, onCurrentBattle. rewrite Hb.
  unfold executeBattleTurn, bind, update, modify, read, gets.
  cbn [fst snd].
  change (applyStatusEffects (applyWeatherEffects (BattleState.setBattleLog [] b)))
    with (afterUpkeep b).
  rewrite Hmove.
  unfold playerTurn, isMoveHit, bind, turnRandom, mathRandom, throw.
  destruct (random w) as [|u1 [|u2 r]]; reflexivity.
Qed.

(** What [make_move] answers when it returns: the report names the
    player's move at the index and an opponent move drawn by the handler
    after the turn, carries both hp lines, and ends with the victory line
    exactly when a combatant is at [currentHp <= 0], in which case the
    Encounter is dropped.  The battle log is not part of it. *)
Lemma make_move_answer (moveIndex : number) (w w1 : World) (b : BattleState.t)
    (text : string) :
  currentBattle w = Some b ->
  make_move moveIndex w = (Normal text, w1) ->
  exists b1 random1 playerMove opponentMove,
    executeBattleTurn moveIndex (b, random w) = (Normal b1, (b1, random1))
    /\ JS.subscript (BattlePokemon.moves (BattleState.playerPokemon b1)) moveIndex
       = Some playerMove
    /\ randomMove (hd 0%Q random1)
         (BattlePokemon.moves (BattleState.opponentPokemon b1))
       = Some opponentMove
    /\ text = (if battleOver b1
               then turnReport b1 playerMove opponentMove
                      ++ victoryLine (winnerName b1)
               else turnReport b1 playerMove opponentMove)
    /\ currentBattle w1 = (if battleOver b1 then None else Some b1).
Proof.
  intros Hb. unfold make_move, bind, gets, onCurrentBattle. rewrite Hb.
  pose proof (TurnClaims.executeBattleTurn_turn moveIndex b (random w)) as Hturn.
  destruct (executeBattleTurn moveIndex (b, random w))
    as [[b1|e] [b1' random1]] eqn:Eturn; [ | discriminate ].
  destruct Hturn as [_ <-].
  unfold modify, worldRandom, mathRandom, propertyOfUndefined, ret, throw.
  cbn [fst snd random setCurrentBattle setRandom currentBattle catalog].
  intros H. exists b1, random1.
  destruct (JS.subscript (BattlePokemon.moves (BattleState.playerPokemon b1))
              moveIndex) as [pm|];
    [ | destruct random1; discriminate ].
  exists pm.
  assert (Hom : exists om,
            randomMove (hd 0%Q random1)
              (BattlePokemon.moves (BattleState.opponentPokemon b1)) = Some om).
  { destruct random1 as [|u rest]; cbn [hd fst snd] in *;
      match goal with
      | |- context [randomMove ?v ?l] => destruct (randomMove v l) as [om|]
      end; cbn [fst snd] in H; try discriminate; eauto. }
  destruct Hom as [om Hom]. exists om.
  split; [ reflexivity | ]. split; [ reflexivity | ]. split; [ exact Hom | ].
  unfold turnReport.
  destruct random1 as [|u rest]; cbn [hd fst snd] in *; rewrite Hom in H;
    cbn [fst snd] in H; destruct (battleOver b1);
    assert (Ht := f_equal fst H); assert (Hw := f_equal snd H);
    cbn [fst snd] in Ht, Hw; subst w1;
    (split; [ congruence | reflexivity ]).
Qed.

(** C6: the code against the claim.  Bulbasaur has two moves and the duel
    is one turn in; [make_move(3)] passes the schema, index 3 names no
    move, and the call throws a [TypeError] instead of answering with an
    error, having emptied the battle log. *)
Theorem make_move_unchecked_index :
  reachable secondTurn
  /\ make_move_schema 3 = true
  /\ (exists b,
        currentBattle secondTurn = Some b
        /\ List.length (BattlePokemon.moves (BattleState.playerPokemon b)) = 2%nat
        /\ JS.subscript (BattlePokemon.moves (BattleState.playerPokemon b)) 3 = None
        /\ BattleState.battleLog b
           = ["bulbasaur used vine-whip!"; "charmander took 12 damage!";
              "charmander used ember!"; "bulbasaur took 30 damage!"])
  /\ answer (make_move 3) secondTurn
     = Throw (JS.TypeError "Cannot read properties of undefined (reading 'accuracy')")
  /\ (exists b1,
        currentBattle (after (make_move 3) secondTurn) = Some b1
        /\ BattleState.battleLog b1 = []).
Proof.
  split; [ apply secondTurn_reachable | ].
  split; [ reflexivity | ]. split.
  { eexists. split; [ vm_compute; reflexivity | ]. repeat split; reflexivity. }
  split; [ vm_compute; reflexivity | ].
  eexists. split; [ vm_compute; reflexivity | reflexivity ].
Qed.

(** C8: the code against the claim.  In the first turn of the duel the
    opponent's move that was executed is ember, and the battle log of the
    turn says so; the text [make_move(0)] answers with is built from a
    second, independent draw and says scratch, and it carries neither the
    log's line about ember nor its damage lines. *)
Theorem make_move_text_is_not_the_turn_log :
  reachable (duel [0; 0; 1 # 2; 1 # 2; 0; 1 # 2]%Q)
  /\ accepted (MakeMove 0) = true
  /\ exists (text : string) (w1 : World) (b1 : BattleState.t),
    make_move 0 (duel [0; 0; 1 # 2; 1 # 2; 0; 1 # 2]%Q) = (Normal text, w1)
    /\ currentBattle w1 = Some b1
    /\ BattleState.battleLog b1
       = ["bulbasaur used vine-whip!"; "charmander took 12 damage!";
          "charmander used ember!"; "bulbasaur took 30 damage!"]
    /\ text = JS.join JS.newline
                ["Turn 2:"; "bulbasaur used vine-whip!"; "charmander used scratch!";
                 ""; "bulbasaur HP: 15/45"; "charmander HP: 27/39"; ""]
    /\ includes text "charmander used ember!" = false
    /\ includes text "charmander took 12 damage!" = false
    /\ includes text "bulbasaur took 30 damage!" = false
    /\ includes text "charmander used scratch!" = true.
Proof.
  split; [ apply duel_reachable | ].
  split; [ reflexivity | ].
  eexists. eexists. eexists.
  split; [ vm_compute; reflexivity | ].
  split; [ reflexivity | ].
  repeat split; vm_compute; reflexivity.
Qed.

(** C3: the code against the claim.  A process reaches the duel whose
    opponent has all stats 0; there [0 <= currentHp <= stats.hp] holds for
    both combatants.  [make_move(1)] plays growl, of power 0: the damage is
    [0 / 0], and the opponent's currentHp becomes [NaN], for which the
    invariant fails. *)
Theorem hp_invariant_broken_by_zero_defense :
  reachable (hollowDuel [0; 0; 1 # 2; 0]%Q)
  /\ accepted (MakeMove 1) = true
  /\ hpInvariant (encounter bulbasaur50 hollowCharmander) = true
  /\ exists (text : string) (w1 : World) (b1 : BattleState.t),
       make_move 1 (hollowDuel [0; 0; 1 # 2; 0]%Q) = (Normal text, w1)
       /\ currentBattle w1 = Some b1
       /\ BattlePokemon.currentHp (BattleState.opponentPokemon b1) = NaN
       /\ hpInvariant b1 = false
       /\ includes text "charmander HP: NaN/0" = true.
Proof.
  split; [ apply hollowDuel_reachable | ].
  split; [ reflexivity | ]. split; [ reflexivity | ].
  eexists. eexists. eexists.
  split; [ vm_compute; reflexivity | ].
  split; [ reflexivity | ].
  repeat split; vm_compute; reflexivity.
Qed.

End ServerClaims.


(* ================================================================== *)
(** ** The hit-point invariant on well-formed combatants *)
(* ================================================================== *)

Module HpFacts.
Import Engine Server Props JSFacts DoubleFacts DamageFacts DamageSign Hoare TurnFacts.
Import UpkeepFacts.

Lemma wellFormed_parts (p : BattlePokemon.t) :
  wellFormed p = true ->
  NN (BattleStats.hp (BattlePokemon.stats p))
  /\ NN (BattleStats.attack (BattlePokemon.stats p))
  /\ PP (BattleStats.defense (BattlePokemon.stats p))
  /\ NN (BattleStats.specialAttack (BattlePokemon.stats p))
  /\ PP (BattleStats.specialDefense (BattlePokemon.stats p))
  /\ NN (BattlePokemon.level p)
  /\ (forall m, In m (BattlePokemon.moves p) -> NN (BattleMove.power m))
  /\ (forall item, In item (BattlePokemon.items p) -> healsUp item = true).
Proof.
  unfold wellFormed, wellFormedStats. rewrite !andb_true_iff.
  intros [[[[[[[Hhp Ha] Hd] Hsa] Hsd] Hl] Hm] Hi].
  rewrite forallb_forall in Hm, Hi.
  repeat split; try (apply nonNegative_NN; assumption);
    try (apply positive_PP; assumption).
  - intros m Hin. apply nonNegative_NN, Hm, Hin.
  - exact Hi.
Qed.

(** Hit points in range under a finite maximum are a rational between 0
    and it. *)
Lemma hpInRange_value (p : BattlePokemon.t) :
  NN (BattleStats.hp (BattlePokemon.stats p)) ->
  hpInRange p = true ->
  exists c h,
    BattlePokemon.currentHp p = JS.Fin c
    /\ BattleStats.hp (BattlePokemon.stats p) = JS.Fin h
    /\ (0 <= c <= h)%Q.
Proof.
  intros [h [Eh Hh]]. unfold hpInRange. rewrite Eh, andb_true_iff.
  destruct (BattlePokemon.currentHp p) as [c|s|]; cbn.
  - rewrite !Qle_bool_iff. intros [H0 H1]. exists c, h. auto.
  - destruct s; intros [H0 H1]; discriminate.
  - intros [H0 _]. discriminate.
Qed.

(** [Math.max(0, currentHp - damage)] stays in range for a damage that is
    not below 0: an infinite damage leaves 0. *)
Lemma takeDamage_inRange (damage : number) (p : BattlePokemon.t) :
  NN (BattleStats.hp (BattlePokemon.stats p)) ->
  hpInRange p = true ->
  NNI damage ->
  hpInRange (takeDamage damage p) = true.
Proof.
  intros Hhp Hr Hd.
  destruct (hpInRange_value p Hhp Hr) as [c [h [Ec [Eh [H0 H1]]]]].
  unfold hpInRange, takeDamage. cbn [BattlePokemon.currentHp BattlePokemon.stats
    BattlePokemon.setCurrentHp].
  rewrite Ec, Eh.
  destruct Hd as [-> | [x [-> Hx]]].
  { cbn. apply Qle_bool_iff. lra. }
  unfold JS.sub, JS.neg, JS.add, JS.max. cbn [JS.isNaN orb JS.ltb].
  destruct (Qle_bool (Qred (c + Qred (- x))) 0) eqn:E; cbn [negb JS.leb].
  - apply andb_true_iff. split; apply Qle_bool_iff; [ lra | ].
    change (inject_Z 0) with 0%Q. lra.
  - apply andb_true_iff.
    assert (Hpos : ~ (Qred (c + Qred (- x)) <= 0)%Q).
    { intros Hle. apply Qle_bool_iff in Hle. congruence. }
    rewrite !Qred_correct in Hpos.
    split; apply Qle_bool_iff; rewrite !Qred_correct.
    + change (inject_Z 0) with 0%Q. lra.
    + lra.
Qed.

Lemma takeDamage_wellFormed (damage : number) (p : BattlePokemon.t) :
  wellFormed (takeDamage damage p) = wellFormed p.
Proof. reflexivity. Qed.

Lemma tameAgainst_parts (attacker defender : BattlePokemon.t) (move : BattleMove.t) :
  tameAgainst attacker defender = true ->
  In move (BattlePokemon.moves attacker) ->
  plainTag (BattleMove.type move) = true
  /\ forallb plainTag (map PokemonType.type_name (BattlePokemon.types defender)) = true
  /\ isFinite
       (Formula.quotient (BattlePokemon.level attacker) (BattleMove.power move)
          (attackStat attacker move) (defenseStat defender move)) = true.
Proof.
  unfold tameAgainst. rewrite andb_true_iff, forallb_forall. intros [Hm Ht] Hin.
  specialize (Hm move Hin). apply andb_true_iff in Hm. destruct Hm as [H1 H2].
  auto.
Qed.

(** What [tameAgainst] depends on. *)
Lemma tameAgainst_ext (attacker defender attacker1 defender1 : BattlePokemon.t) :
  BattlePokemon.level attacker1 = BattlePokemon.level attacker ->
  BattlePokemon.moves attacker1 = BattlePokemon.moves attacker ->
  BattlePokemon.stats attacker1 = BattlePokemon.stats attacker ->
  BattlePokemon.stats defender1 = BattlePokemon.stats defender ->
  BattlePokemon.types defender1 = BattlePokemon.types defender ->
  tameAgainst attacker1 defender1 = tameAgainst attacker defender.
Proof.
  intros Hl Hm Hs Hd Ht. unfold tameAgainst, attackStat, defenseStat.
  rewrite Hl, Hm, Hs, Hd, Ht. reflexivity.
Qed.

(** The damage one well-formed combatant deals to another with one of its
    moves, tags plain and quotient finite, is not below 0 and not [NaN]. *)
Lemma calculateDamage_NNI (attacker defender : BattlePokemon.t) (move : BattleMove.t)
    (u : Q) :
  wellFormed attacker = true -> wellFormed defender = true ->
  tameAgainst attacker defender = true ->
  In move (BattlePokemon.moves attacker) ->
  (0 <= u < 1)%Q ->
  exists damage,
    calculateDamage attacker defender move u = Normal damage /\ NNI damage.
Proof.
  intros Ha Hd Ht Hin Hu.
  destruct (wellFormed_parts attacker Ha) as [_ [Hatk [_ [Hsatk [_ [Hl [Hm _]]]]]]].
  destruct (wellFormed_parts defender Hd) as [_ [_ [Hdef [_ [Hsdef _]]]]].
  destruct (tameAgainst_parts _ _ _ Ht Hin) as [Pa [Pd Hf]].
  rewrite (calculateDamage_formula _ _ _ _ Pa Pd).
  eexists. split; [ reflexivity | ].
  apply NNI_damage; try assumption.
  - right. apply NN_NNI, Hl.
  - right. apply NN_NNI, Hm, Hin.
  - right. apply NN_NNI. unfold attackStat. destruct (isPhysical move); assumption.
  - right. apply NN_NNI, PP_NN. unfold defenseStat.
    destruct (isPhysical move); assumption.
  - apply NNI_effectiveness.
  - apply PP_burnFactor.
  - apply PP_randomFactor, Hu.
Qed.

Lemma calculateDamage_value_NNI (attacker defender : BattlePokemon.t)
    (move : BattleMove.t) (u : Q) (damage : number) :
  wellFormed attacker = true -> wellFormed defender = true ->
  tameAgainst attacker defender = true ->
  In move (BattlePokemon.moves attacker) ->
  (0 <= u < 1)%Q ->
  calculateDamage attacker defender move u = Normal damage ->
  NNI damage.
Proof.
  intros Ha Hd Ht Hin Hu E.
  destruct (calculateDamage_NNI attacker defender move u Ha Hd Ht Hin Hu)
    as [damage' [E' N]].
  rewrite E in E'. inversion E'. subst. exact N.
Qed.

Lemma NN_fraction (n : Z) (d : positive) : (0 <= n)%Z -> NN (JS.Fin (n # d)).
Proof.
  intros H. exists (n # d). split; [ reflexivity | ].
  unfold Qle. cbn. lia.
Qed.

(** Upkeep keeps a well-formed combatant well formed and in range. *)
Lemma statusUpkeep_sound (p : BattlePokemon.t) :
  wellFormed p = true -> hpInRange p = true ->
  wellFormed (fst (statusUpkeep p)) = true
  /\ hpInRange (fst (statusUpkeep p)) = true.
Proof.
  intros Hw Hr.
  destruct (wellFormed_parts p Hw) as [Hhp _].
  assert (Hburn : hpInRange
                    (takeDamage
                       (JS.floor (BattleStats.hp (BattlePokemon.stats p) * JS.Fin (1 # 10)))
                       p) = true).
  { apply takeDamage_inRange; auto. apply NN_NNI.
    apply NN_floor, NN_mul; [ exact Hhp | apply NN_fraction; lia ]. }
  assert (Hpoison : hpInRange
                      (takeDamage
                         (JS.floor (BattleStats.hp (BattlePokemon.stats p) * JS.Fin (2 # 25)))
                         p) = true).
  { apply takeDamage_inRange; auto. apply NN_NNI.
    apply NN_floor, NN_mul; [ exact Hhp | apply NN_fraction; lia ]. }
  unfold statusUpkeep.
  destruct (PokemonStatus.type (BattlePokemon.status p));
    cbn [fst]; auto;
    match goal with
    | |- context [if ?c then _ else _] => destruct c
    end; cbn [fst]; split; auto.
Qed.

Lemma afterUpkeep_sound (b : BattleState.t) : sound b -> sound (afterUpkeep b).
Proof.
  intros [Hwp [Hwo [Hrp Hro]]]. unfold sound.
  rewrite afterUpkeep_player, afterUpkeep_opponent.
  destruct (statusUpkeep_sound _ Hwp Hrp). destruct (statusUpkeep_sound _ Hwo Hro).
  auto.
Qed.

Lemma afterUpkeep_tame (b : BattleState.t) : tame b -> tame (afterUpkeep b).
Proof.
  intros [Hp Ho]. unfold tame.
  rewrite afterUpkeep_player, afterUpkeep_opponent.
  destruct (statusUpkeep_frame (BattleState.playerPokemon b))
    as [S1 [M1 [L1 [T1 _]]]].
  destruct (statusUpkeep_frame (BattleState.opponentPokemon b))
    as [S2 [M2 [L2 [T2 _]]]].
  cbn zeta in *.
  rewrite (tameAgainst_ext (BattleState.playerPokemon b) (BattleState.opponentPokemon b)
             (fst (statusUpkeep (BattleState.playerPokemon b)))
             (fst (statusUpkeep (BattleState.opponentPokemon b)))) by assumption.
  rewrite (tameAgainst_ext (BattleState.opponentPokemon b) (BattleState.playerPokemon b)
             (fst (statusUpkeep (BattleState.opponentPokemon b)))
             (fst (statusUpkeep (BattleState.playerPokemon b)))) by assumption.
  auto.
Qed.

Lemma afterUpkeep_moves (b : BattleState.t) :
  BattlePokemon.moves (BattleState.playerPokemon (afterUpkeep b))
  = BattlePokemon.moves (BattleState.playerPokemon b)
  /\ BattlePokemon.moves (BattleState.opponentPokemon (afterUpkeep b))
     = BattlePokemon.moves (BattleState.opponentPokemon b).
Proof.
  rewrite afterUpkeep_player, afterUpkeep_opponent.
  destruct (statusUpkeep_frame (BattleState.playerPokemon b)) as [_ [H1 _]].
  destruct (statusUpkeep_frame (BattleState.opponentPokemon b)) as [_ [H2 _]].
  auto.
Qed.

(** Through a whole turn, returning or throwing, on well-formed combatants
    with plain tags and finite quotients, and draws in [0, 1): the hit
    points stay in range. *)
Lemma executeBattleTurn_sound (playerMoveIndex : number) (b0 : BattleState.t)
    (random : list Q) :
  sound b0 -> tame b0 -> Forall unitInterval random ->
  sound (fst (snd (executeBattleTurn playerMoveIndex (b0, random)))).
Proof.
  intros Hs Ht Hu.
  set (I := fun b : BattleState.t =>
              (sound b /\ tame b)
              /\ BattlePokemon.moves (BattleState.playerPokemon b)
                 = BattlePokemon.moves (BattleState.playerPokemon b0)
              /\ BattlePokemon.moves (BattleState.opponentPokemon b)
                 = BattlePokemon.moves (BattleState.opponentPokemon b0)).
  assert (H0 : unitInterval 0%Q) by (unfold unitInterval; lra).
  destruct (afterUpkeep_moves b0) as [Hmp Hmo].
  pose proof (executeBattleTurn_inv I I unitInterval playerMoveIndex b0 H0) as T.
  assert (Hstart : I (afterUpkeep b0)).
  { split; [ split; [ apply afterUpkeep_sound, Hs | apply afterUpkeep_tame, Ht ] | auto ]. }
  specialize (T Hstart).
  assert (H : triple (fun ctx : TurnCtx => fst ctx = b0 /\ Forall unitInterval (snd ctx))
                (executeBattleTurn playerMoveIndex)
                (fun _ ctx => sound (fst ctx)) (fun ctx => sound (fst ctx))).
  { eapply triple_weaken; [ apply T | | | ]; clear T.
    - intros b line Hb. exact Hb.
    - intros b m u damage Hm Hu0 [[[Hwp [Hwo [Hrp Hro]]] [Tp To]] [Mp Mo]] Hcalc.
      split; [ | split; assumption ].
      split; [ | split; assumption ].
      unfold sound. cbn [BattleState.playerPokemon BattleState.opponentPokemon
        BattleState.setOpponentPokemon].
      rewrite takeDamage_wellFormed. repeat split; auto.
      destruct (wellFormed_parts _ Hwo) as [Hhp _].
      apply takeDamage_inRange; auto.
      apply (calculateDamage_value_NNI _ _ _ _ _ Hwp Hwo Tp) with (3 := Hcalc); auto.
      rewrite Mp, <- Hmp. eapply subscript_In. exact Hm.
    - auto.
    - intros b line Hb. exact Hb.
    - intros b m u damage Hin Hu0 _ [[[Hwp [Hwo [Hrp Hro]]] [Tp To]] [Mp Mo]] Hcalc.
      split; [ | split; assumption ].
      split; [ | split; assumption ].
      unfold sound. cbn [BattleState.playerPokemon BattleState.opponentPokemon
        BattleState.setPlayerPokemon].
      rewrite takeDamage_wellFormed. repeat split; auto.
      destruct (wellFormed_parts _ Hwp) as [Hhp _].
      apply takeDamage_inRange; auto.
      apply (calculateDamage_value_NNI _ _ _ _ _ Hwo Hwp To) with (3 := Hcalc); auto.
      rewrite Mo, <- Hmo. exact Hin.
    - auto.
    - intros result ctx [b1 [[[Hb1 _] _] [E _]]]. rewrite E. exact Hb1.
    - intros ctx [[Hb _] _]. exact Hb. }
  specialize (H (b0, random) (conj eq_refl Hu)).
  destruct (executeBattleTurn playerMoveIndex (b0, random)) as [[state|e] ctx];
    exact H.
Qed.

Lemma forallb_removeAt {A : Type} (f : A -> bool) (n : nat) (arr : list A) :
  forallb f arr = true -> forallb f (JS.removeAt n arr) = true.
Proof.
  revert n. induction arr as [|x rest IH]; intros n H.
  - destruct n; exact H.
  - cbn in H. apply andb_true_iff in H. destruct H as [Hx Hrest].
    destruct n as [|k]; cbn.
    + exact Hrest.
    + rewrite Hx. cbn. apply IH, Hrest.
Qed.

(** [Math.min(stats.hp, currentHp + heal)] stays in range for a finite
    non-negative heal. *)
Lemma heal_inRange (h : number) (p : BattlePokemon.t) :
  NN (BattleStats.hp (BattlePokemon.stats p)) ->
  hpInRange p = true ->
  NN h ->
  hpInRange
    (BattlePokemon.setCurrentHp
       (JS.min (BattleStats.hp (BattlePokemon.stats p)) (BattlePokemon.currentHp p + h))
       p) = true.
Proof.
  intros Hhp Hr [x [-> Hx]].
  destruct (hpInRange_value p Hhp Hr) as [c [m [Ec [Em [H0 H1]]]]].
  unfold hpInRange. cbn [BattlePokemon.currentHp BattlePokemon.stats
    BattlePokemon.setCurrentHp].
  rewrite Ec, Em. unfold JS.add, JS.min. cbn [JS.isNaN orb JS.ltb].
  destruct (Qle_bool m (Qred (c + x))) eqn:E; cbn [negb JS.leb].
  - apply andb_true_iff. split; apply Qle_bool_iff.
    + change (inject_Z 0) with 0%Q. lra.
    + lra.
  - apply andb_true_iff.
    assert (Hlt : ~ (m <= Qred (c + x))%Q).
    { intros Hle. apply Qle_bool_iff in Hle. congruence. }
    rewrite Qred_correct in Hlt.
    split; apply Qle_bool_iff; rewrite Qred_correct.
    + change (inject_Z 0) with 0%Q. lra.
    + lra.
Qed.

(** Item use on a well-formed battle keeps the hit points in range. *)
Lemma applyItem_sound (n : nat) (item : BattleItem.t) (b : BattleState.t) :
  nth_error (BattlePokemon.items (BattleState.playerPokemon b)) n = Some item ->
  sound b -> sound (applyItem n item b).
Proof.
  intros Hn [Hwp [Hwo [Hrp Hro]]].
  destruct (wellFormed_parts _ Hwp) as [Hhp [_ [_ [_ [_ [_ [_ Hitems]]]]]]].
  assert (Hheal : forall h, healAmount item = Some h -> NN h).
  { unfold healAmount. intros h Hh.
    pose proof (Hitems item (nth_error_In _ _ Hn)) as Hup. unfold healsUp in Hup.
    destruct (ItemEffect.heal (BattleItem.effect item)) as [v|]; [ | discriminate ].
    destruct (JS.truthy v); [ | discriminate ].
    inversion Hh; subst. apply nonNegative_NN, Hup. }
  assert (Hkeep : forall p : BattlePokemon.t,
            wellFormed p = true ->
            wellFormed (BattlePokemon.setItems (JS.removeAt n (BattlePokemon.items p)) p)
            = true).
  { intros p Hp. unfold wellFormed in *. cbn [BattlePokemon.stats BattlePokemon.level
      BattlePokemon.moves BattlePokemon.items BattlePokemon.setItems].
    rewrite !andb_true_iff in *. destruct Hp as [[[H1 H2] H3] H4].
    repeat split; auto. apply forallb_removeAt, H4. }
  unfold applyItem, sound.
  destruct (healAmount item) as [h|] eqn:Eh;
    cbn [BattleState.playerPokemon BattleState.opponentPokemon BattleState.push
      BattleState.setBattleLog BattleState.setPlayerPokemon].
  - split; [ | split; [ | split ] ].
    + apply (Hkeep (BattlePokemon.setCurrentHp _ (BattleState.playerPokemon b))).
      exact Hwp.
    + exact Hwo.
    + apply (heal_inRange h (BattleState.playerPokemon b)); auto.
    + exact Hro.
  - split; [ | split; [ | split ] ]; auto.
Qed.

(** The duel [start_battle(1, 4)] creates is well formed and in range. *)
Example duel_is_sound :
  sound (Fixtures.encounter Fixtures.bulbasaur50 Fixtures.charmander50)
  /\ Forall unitInterval [0; 0; 1 # 2; 1 # 2; 0; 1 # 2]%Q.
Proof.
  split; [ repeat split; reflexivity | ].
  repeat (apply Forall_cons; [ split; [ discriminate | reflexivity ] | ]).
  apply Forall_nil.
Qed.

(** The invariant of C3 where it does hold: on well-formed combatants (in
    particular with positive defense stats) whose tags name no member of
    [Object.prototype] and whose moves give a finite quotient in the damage
    formula, and draws in [0, 1), turn resolution, returning or throwing,
    and item use keep [0 <= currentHp <= stats.hp] for both combatants. *)
Theorem hp_invariant_on_well_formed :
  (forall (playerMoveIndex : number) (b : BattleState.t) (random : list Q),
      sound b -> tame b -> Forall unitInterval random ->
      let after := fst (snd (executeBattleTurn playerMoveIndex (b, random))) in
      sound after /\ hpInvariant after = true)
  /\ (forall (n : nat) (item : BattleItem.t) (b : BattleState.t),
        nth_error (BattlePokemon.items (BattleState.playerPokemon b)) n = Some item ->
        sound b ->
        sound (applyItem n item b) /\ hpInvariant (applyItem n item b) = true).
Proof.
  assert (Hinv : forall b, sound b -> hpInvariant b = true).
  { intros b [_ [_ [Hp Ho]]]. unfold hpInvariant. rewrite Hp, Ho. reflexivity. }
  split.
  - intros idx b random Hs Ht Hu after.
    pose proof (executeBattleTurn_sound idx b random Hs Ht Hu) as H.
    split; [ exact H | apply Hinv, H ].
  - intros n item b Hn Hs.
    pose proof (applyItem_sound n item b Hn Hs) as H.
    split; [ exact H | apply Hinv, H ].
Qed.

End HpFacts.

(* ================================================================== *)
(** ** What the server can reach *)
(* ================================================================== *)

Module ReachFacts.
Import Engine Catalog Server Props JSFacts Hoare TurnFacts UpkeepFacts.

Lemma statusUpkeep_none (p : BattlePokemon.t) :
  PokemonStatus.type (BattlePokemon.status p) = StNone ->
  fst (statusUpkeep p) = p.
Proof. intros H. unfold statusUpkeep. rewrite H. reflexivity. Qed.

Lemma afterUpkeep_noStatus (b : BattleState.t) : noStatus b -> noStatus (afterUpkeep b).
Proof.
  intros [Hp Ho]. unfold noStatus.
  rewrite afterUpkeep_player, afterUpkeep_opponent.
  rewrite (statusUpkeep_none _ Hp), (statusUpkeep_none _ Ho). auto.
Qed.

Lemma executeBattleTurn_noStatus (playerMoveIndex : number) (b : BattleState.t)
    (random : list Q) :
  noStatus b ->
  noStatus (fst (snd (executeBattleTurn playerMoveIndex (b, random)))).
Proof.
  intros Hb.
  pose proof (executeBattleTurn_inv noStatus noStatus (fun _ => True)
                playerMoveIndex b I (afterUpkeep_noStatus b Hb)) as T.
  assert (H : triple (fun ctx : TurnCtx => fst ctx = b)
                (executeBattleTurn playerMoveIndex)
                (fun _ ctx => noStatus (fst ctx)) (fun ctx => noStatus (fst ctx))).
  { eapply triple_weaken; [ apply T | | | ]; clear T.
    - intros b1 line H1. exact H1.
    - intros b1 m u damage _ _ H1 _. exact H1.
    - auto.
    - intros b1 line H1. exact H1.
    - intros b1 m u damage _ _ _ H1 _. exact H1.
    - intros s Hs. split; [ exact Hs | apply Forall_forall; auto ].
    - intros result ctx [b1 [H1 [E _]]]. rewrite E. exact H1.
    - auto. }
  specialize (H (b, random) eq_refl).
  destruct (executeBattleTurn playerMoveIndex (b, random)) as [[state|e] ctx];
    exact H.
Qed.

(** The Encounter [make_move] leaves behind is the one the turn resolution
    produced, unless it dropped it. *)
Lemma make_move_battle (moveIndex : number) (w : World) (b : BattleState.t) :
  currentBattle w = Some b ->
  currentBattle (snd (make_move moveIndex w)) = None
  \/ currentBattle (snd (make_move moveIndex w))
     = Some (fst (snd (executeBattleTurn moveIndex (b, random w)))).
Proof.
  intros Hb. unfold make_move, bind, gets, onCurrentBattle. rewrite Hb.
  pose proof (TurnClaims.executeBattleTurn_turn moveIndex b (random w)) as Hturn.
  destruct (executeBattleTurn moveIndex (b, random w))
    as [[b1|e] [b1' random1]]; cbn [fst snd]; [ | right; reflexivity ].
  destruct Hturn as [_ <-].
  unfold modify, worldRandom, mathRandom, propertyOfUndefined, ret, throw.
  cbn [fst snd random setCurrentBattle setRandom currentBattle catalog].
  destruct random1 as [|u rest];
    cbn [fst snd random setCurrentBattle setRandom currentBattle catalog];
    repeat match goal with
           | |- context [match ?o with Some _ => _ | None => _ end] =>
               destruct o; cbn [fst snd]
           | |- context [if ?c then _ else _] => destruct c; cbn [fst snd]
           end; auto.
Qed.





End ReachFacts.

(* ================================================================== *)
(** ** No simultaneous knockout *)
(* ================================================================== *)

Module KnockoutClaims.
Import Engine Server Props Fixtures TurnFacts UpkeepFacts.



End KnockoutClaims.


(* ================================================================== *)
(** ** Random selection and the accuracy check *)
(* ================================================================== *)

Module SelectionFacts.
Import Engine Catalog Server Props Pokedex Views JSFacts DoubleFacts.

(** [Math.floor(u * n)] for a draw in [0, 1) and a positive [n] is an
    integer from 0 to [n - 1]. *)
Lemma floor_draw (u : Q) (n : nat) :
  unitInterval u -> (0 < n)%nat ->
  (0 <= Qfloor (Qred (u * inject_Z (Z.of_nat n))) < Z.of_nat n)%Z.
Proof.
  intros [H0 H1] Hn.
  assert (Hpos : (0 < inject_Z (Z.of_nat n))%Q).
  { change 0%Q with (inject_Z 0). rewrite <- Zlt_Qlt. lia. }
  rewrite (Qfloor_comp _ _ (Qred_correct _)).
  split.
  - change 0%Z with (Qfloor 0). apply Qfloor_resp_le. nra.
  - rewrite Zlt_Qlt.
    apply Qle_lt_trans with (u * inject_Z (Z.of_nat n))%Q; [ apply Qfloor_le | nra ].
Qed.

Lemma Qfloor_between (x : Q) (z : Z) :
  (inject_Z z <= x)%Q -> (x < inject_Z (z + 1))%Q -> Qfloor x = z.
Proof.
  intros Hlo Hhi.
  assert (H1 : (z <= Qfloor x)%Z).
  { rewrite <- (Qfloor_Z z). apply Qfloor_resp_le, Hlo. }
  assert (H2 : (Qfloor x < z + 1)%Z).
  { rewrite Zlt_Qlt. eapply Qle_lt_trans; [ apply Qfloor_le | exact Hhi ]. }
  lia.
Qed.

(** The subscript an integer makes. *)
Lemma arrayIndex_ofZ (z : Z) :
  JS.arrayIndex (JS.ofZ z) = if (0 <=? z)%Z then Some (Z.to_nat z) else None.
Proof.
  unfold JS.arrayIndex, JS.ofZ. rewrite Qfloor_Z.
  assert (E : Qeq_bool (inject_Z z) (inject_Z z) = true) by (apply Qeq_bool_iff; reflexivity).
  rewrite E. reflexivity.
Qed.

(** The opponent's move, chosen with the product taken exactly: for a
    draw in [0, 1) and a non-empty list it is one of the moves. *)
Lemma randomMove_index (moves : list BattleMove.t) (u : Q) :
  unitInterval u -> moves <> [] ->
  exists n, (n < List.length moves)%nat
    /\ n = Z.to_nat (Qfloor (u * inject_Z (Z.of_nat (List.length moves))))
    /\ randomMove u moves = nth_error moves n.
Proof.
  intros Hu Hne.
  assert (Hlen : (0 < List.length moves)%nat).
  { destruct moves; [ contradiction | cbn; lia ]. }
  pose proof (floor_draw u (List.length moves) Hu Hlen) as [Hlo Hhi].
  exists (Z.to_nat (Qfloor (Qred (u * inject_Z (Z.of_nat (List.length moves)))))).
  split; [ lia | ]. split.
  - rewrite (Qfloor_comp _ _ (Qred_correct _)). reflexivity.
  - unfold randomMove, JS.subscript, JS.length, JS.mul, JS.floor.
    unfold JS.ofZ at 1.
    rewrite arrayIndex_ofZ.
    destruct (0 <=? Qfloor (Qred (u * inject_Z (Z.of_nat (List.length moves)))))%Z eqn:E;
      [ reflexivity | apply Z.leb_gt in E; lia ].
Qed.

Lemma randomMove_some (moves : list BattleMove.t) (u : Q) :
  unitInterval u -> moves <> [] ->
  exists move, randomMove u moves = Some move /\ In move moves.
Proof.
  intros Hu Hne.
  destruct (randomMove_index moves u Hu Hne) as [n [Hn [_ E]]].
  destruct (nth_error moves n) as [move|] eqn:En.
  - exists move. split; [ exact E | eapply nth_error_In; exact En ].
  - apply nth_error_None in En. lia.
Qed.

(** The expression of [getRandomItem] on a rounded product [q]. *)
Lemma getRandomItem_value {A : Type} (array : list A) (u q : Q) :
  JS.double (u * inject_Z (Z.of_nat (List.length array))) = JS.Fin q ->
  (0 <= q)%Q ->
  getRandomItem array u = nth_error array (Z.to_nat (Qfloor q)).
Proof.
  intros E Hq.
  unfold getRandomItem, JS.subscript, JS.length, JS.fmul, JS.mul, JS.ofZ at 1, JS.rounded.
  rewrite (double_comp _ _ (Qred_correct _)), E.
  cbn [JS.floor]. rewrite arrayIndex_ofZ.
  assert (H0 : (0 <= Qfloor q)%Z).
  { change 0%Z with (Qfloor 0). apply Qfloor_resp_le, Hq. }
  apply Z.leb_le in H0. rewrite H0. reflexivity.
Qed.

Lemma getRandomItem_index {A : Type} (array : list A) (u : Q) :
  unitInterval u -> representable u -> array <> [] ->
  (Z.of_nat (List.length array) < 2 ^ 53)%Z ->
  exists n, (n < List.length array)%nat /\ getRandomItem array u = nth_error array n.
Proof.
  intros Hu Ru Hne Hlen.
  assert (Hpos : (0 < Z.of_nat (List.length array))%Z).
  { destruct array; [ contradiction | cbn [List.length]; lia ]. }
  destruct (double_draw_below u (Z.of_nat (List.length array)) Ru Hu (conj Hpos Hlen))
    as [q [E [Hq0 Hq1]]].
  exists (Z.to_nat (Qfloor q)). split.
  - assert (H0 : (0 <= Qfloor q)%Z).
    { change 0%Z with (Qfloor 0). apply Qfloor_resp_le, Hq0. }
    assert (H1 : (Qfloor q < Z.of_nat (List.length array))%Z).
    { rewrite Zlt_Qlt. eapply Qle_lt_trans; [ apply Qfloor_le | exact Hq1 ]. }
    lia.
  - apply getRandomItem_value; assumption.
Qed.

Lemma getRandomItem_some {A : Type} (array : list A) (u : Q) :
  unitInterval u -> representable u -> array <> [] ->
  (Z.of_nat (List.length array) < 2 ^ 53)%Z ->
  exists item, getRandomItem array u = Some item /\ In item array.
Proof.
  intros Hu Ru Hne Hlen.
  destruct (getRandomItem_index array u Hu Ru Hne Hlen) as [n [Hn E]].
  destruct (nth_error array n) as [item|] eqn:En.
  - exists item. split; [ exact E | eapply nth_error_In; exact En ].
  - apply nth_error_None in En. lia.
Qed.

Lemma drawFor_spec (n len : Z) :
  (0 <= n < len)%Z -> (len < 2 ^ 32)%Z ->
  unitInterval (drawFor n len)
  /\ representable (drawFor n len)
  /\ (inject_Z n <= drawFor n len * inject_Z len)%Q
  /\ (drawFor n len * inject_Z len <= inject_Z n + (1 # 2))%Q.
Proof.
  intros [Hn0 Hn1] Hlen.
  unfold drawFor. set (c := ((n * 2 ^ 53 + len - 1) / len)%Z).
  assert (Hlen0 : (0 < len)%Z) by lia.
  assert (Hc1 : (len * c <= n * 2 ^ 53 + len - 1)%Z).
  { unfold c. apply Z.mul_div_le. exact Hlen0. }
  assert (Hc2 : (n * 2 ^ 53 + len - 1 < len * c + len)%Z).
  { unfold c. pose proof (Z.mul_succ_div_gt (n * 2 ^ 53 + len - 1) len Hlen0). lia. }
  assert (Hc0 : (0 <= c)%Z) by (unfold c; apply Z.div_pos; lia).
  assert (Hc53 : (c < 2 ^ 53)%Z) by nia.
  pose proof (pow2_pos (-53)) as P53.
  pose proof (pow2_inverse 53) as I53. cbn [Z.opp] in I53.
  assert (E53 : (JS.pow2 53 == inject_Z (2 ^ 53))%Q) by (apply pow2_Z; lia).
  assert (Qc0 : (0 <= inject_Z c)%Q).
  { change 0%Q with (inject_Z 0). rewrite <- Zle_Qle. exact Hc0. }
  assert (Qc1 : (inject_Z c < JS.pow2 53)%Q).
  { rewrite E53, <- Zlt_Qlt. exact Hc53. }
  assert (Hv1 : (inject_Z c * JS.pow2 (-53) < 1)%Q).
  { rewrite <- I53. apply Qmult_lt_compat_r; assumption. }
  assert (Hv0 : (0 <= inject_Z c * JS.pow2 (-53))%Q).
  { apply Qmult_le_0_compat; [ exact Qc0 | apply Qlt_le_weak, P53 ]. }
  split; [ split; assumption | ]. split.
  - exists c, (-53)%Z. split; [ reflexivity | ].
    split; [ rewrite Z.abs_eq by lia; exact Hc53 | ]. split; [ lia | ].
    rewrite Qabs_pos by exact Hv0.
    apply Qlt_trans with 1%Q; [ exact Hv1 | reflexivity ].
  - assert (Eprod : (inject_Z c * JS.pow2 (-53) * inject_Z len
                     == inject_Z (len * c) * JS.pow2 (-53))%Q).
    { rewrite inject_Z_mult. ring. }
    rewrite Eprod.
    assert (En : (inject_Z n == inject_Z (n * 2 ^ 53) * JS.pow2 (-53))%Q).
    { rewrite inject_Z_mult, <- E53. rewrite <- Qmult_assoc, I53. ring. }
    split.
    + rewrite En at 1. apply Qmult_le_compat_r; [ | apply Qlt_le_weak, P53 ].
      rewrite <- Zle_Qle. lia.
    + apply Qle_trans with (inject_Z (n * 2 ^ 53 + 2 ^ 52) * JS.pow2 (-53))%Q.
      * apply Qmult_le_compat_r; [ | apply Qlt_le_weak, P53 ].
        rewrite <- Zle_Qle. lia.
      * rewrite inject_Z_plus, Qmult_plus_distr_l, <- En.
        apply Qplus_le_r. apply Qle_bool_iff. reflexivity.
Qed.

Lemma getRandomItem_covers {A : Type} (array : list A) (n : nat) (item : A) :
  (Z.of_nat (List.length array) < 2 ^ 32)%Z ->
  nth_error array n = Some item ->
  getRandomItem array (drawFor (Z.of_nat n) (Z.of_nat (List.length array))) = Some item.
Proof.
  intros Hlen Hitem.
  assert (Hn : (n < List.length array)%nat).
  { apply nth_error_Some. congruence. }
  destruct (drawFor_spec (Z.of_nat n) (Z.of_nat (List.length array)))
    as [_ [_ [Hlo Hhi]]]; [ lia | exact Hlen | ].
  destruct (double_sandwich (inject_Z (Z.of_nat n))
              (drawFor (Z.of_nat n) (Z.of_nat (List.length array))
               * inject_Z (Z.of_nat (List.length array)))%Q
              (inject_Z (Z.of_nat n) + (1 # 2))%Q) as [q [E [Hq0 Hq1]]];
    [ | exact Hlo | exact Hhi | | | ].
  - change 0%Q with (inject_Z 0). rewrite <- Zle_Qle. lia.
  - apply representable_Z. lia.
  - exists (2 * Z.of_nat n + 1)%Z, (-1)%Z.
    split; [ | split; [ lia | split; [ lia | ] ] ].
    + rewrite inject_Z_plus, inject_Z_mult. change (JS.pow2 (-1)) with (1 # 2)%Q.
      change (inject_Z 1) with 1%Q. change (inject_Z 2) with 2%Q. ring.
    + assert (Hnn : (0 <= inject_Z (Z.of_nat n))%Q).
      { change 0%Q with (inject_Z 0). rewrite <- Zle_Qle. lia. }
      rewrite Qabs_pos by lra.
      apply Qlt_trans with (inject_Z (2 ^ 32) + (1 # 2))%Q.
      * apply Qplus_lt_l. rewrite <- Zlt_Qlt. lia.
      * reflexivity.
  - assert (Hnn : (0 <= inject_Z (Z.of_nat n))%Q).
    { change 0%Q with (inject_Z 0). rewrite <- Zle_Qle. lia. }
    rewrite (getRandomItem_value array _ q E) by lra.
    rewrite (Qfloor_between q (Z.of_nat n)); [ rewrite Nat2Z.id; exact Hitem | exact Hq0 | ].
    rewrite inject_Z_plus. change (inject_Z 1) with 1%Q. lra.
Qed.

(** X1.  [getRandomItem] floors the rounded product
    [Math.random() * array.length].  For a double [u] in [0, 1), as
    [Math.random()] returns, and an array of fewer than 2^32 elements, as
    every JavaScript array has: on a non-empty array the result is an
    element of the array, never [undefined]; every element is the result
    for some such draw; and on an empty array the result is [undefined]. *)
Theorem getRandomItem_in_bounds :
  forall (A : Type) (array : list A) (u : Q),
    unitInterval u -> representable u ->
    (Z.of_nat (List.length array) < 2 ^ 32)%Z ->
    (array <> [] ->
       exists n item,
         (n < List.length array)%nat
         /\ nth_error array n = Some item
         /\ getRandomItem array u = Some item
         /\ In item array)
    /\ (forall n item, nth_error array n = Some item ->
          exists v, unitInterval v /\ representable v
                    /\ getRandomItem array v = Some item)
    /\ (array = [] -> getRandomItem array u = None).
Proof.
  intros A array u Hu Ru Hlen. split; [ | split ].
  - intros Hne.
    destruct (getRandomItem_index array u Hu Ru Hne) as [n [Hn E]]; [ lia | ].
    destruct (nth_error array n) as [item|] eqn:Hitem.
    + exists n, item. repeat split; auto. eapply nth_error_In; exact Hitem.
    + apply nth_error_None in Hitem. lia.
  - intros n item Hitem.
    assert (Hn : (n < List.length array)%nat).
    { apply nth_error_Some. congruence. }
    exists (drawFor (Z.of_nat n) (Z.of_nat (List.length array))).
    destruct (drawFor_spec (Z.of_nat n) (Z.of_nat (List.length array)))
      as [Hv [Rv _]]; [ lia | exact Hlen | ].
    split; [ exact Hv | ]. split; [ exact Rv | ].
    apply getRandomItem_covers; assumption.
  - intros ->. unfold getRandomItem, JS.subscript.
    destruct (JS.arrayIndex _) as [n|]; [ destruct n | ]; reflexivity.
Qed.

(** A 50/50 draw between two moves picks the second. *)
Lemma getRandomItem_in_bounds_witness :
  exists n item,
    (n < List.length [Fixtures.ember; Fixtures.scratch])%nat
    /\ nth_error [Fixtures.ember; Fixtures.scratch] n = Some item
    /\ getRandomItem [Fixtures.ember; Fixtures.scratch] (1 # 2) = Some item
    /\ In item [Fixtures.ember; Fixtures.scratch].
Proof.
  assert (Hu : unitInterval (1 # 2)) by (split; [ discriminate | reflexivity ]).
  assert (Ru : representable (1 # 2)).
  { exists 1%Z, (-1)%Z. split; [ reflexivity | ]. split; [ reflexivity | ].
    split; [ discriminate | reflexivity ]. }
  assert (Hlen : (Z.of_nat (List.length [Fixtures.ember; Fixtures.scratch]) < 2 ^ 32)%Z)
    by reflexivity.
  apply (proj1 (getRandomItem_in_bounds BattleMove.t
                  [Fixtures.ember; Fixtures.scratch] (1 # 2) Hu Ru Hlen)).
  discriminate.
Defined.

(** The product is rounded before it is floored: with six elements and the
    draw 0.8333333333333333 the exact product is below 5 and the rounded
    one is 5. *)
Lemma getRandomItem_floors_the_rounded_product :
  getRandomItem ["a"; "b"; "c"; "d"; "e"; "f"]%string
    (3752999689475413 # 4503599627370496) = Some "f"%string
  /\ Qfloor ((3752999689475413 # 4503599627370496) * 6) = 4%Z.
Proof. split; vm_compute; reflexivity. Qed.

End SelectionFacts.

(* ================================================================== *)
(** ** Hydration: moves, stats, and the start of a battle *)
(* ================================================================== *)

Module HydrationFacts.
Import Engine Catalog Server Props JSFacts DoubleFacts SelectionFacts.

Lemma orDefault_truthy (x : option number) (d : number) :
  JS.truthy d = true -> JS.truthy (JS.orDefault x d) = true.
Proof.
  intros Hd. unfold JS.orDefault.
  destruct x as [v|]; [ destruct (JS.truthy v) eqn:Ev | ]; auto.
Qed.

Lemma orDefault_falsy (x : option number) (d : number) :
  match x with Some v => JS.truthy v = false | None => True end ->
  JS.orDefault x d = d.
Proof.
  unfold JS.orDefault. destruct x as [v|]; [ intros -> | ]; reflexivity.
Qed.

Lemma orDefault_not_NaN (x : option number) (d : number) :
  JS.isNaN d = false -> JS.isNaN (JS.orDefault x d) = false.
Proof.
  intros Hd. unfold JS.orDefault.
  destruct x as [[q|s|]|]; cbn; auto.
  destruct (JS.Qsign q); auto.
Qed.

(** [arr.map(f)] that returns has mapped every element, in order. *)
Lemma mapThrowing_Forall2 {A B : Type} (f : A -> completion B) (arr : list A)
    (result : list B) :
  mapThrowing f arr = Normal result ->
  Forall2 (fun x y => f x = Normal y) arr result.
Proof.
  revert result. induction arr as [|x rest IH]; intros result H; cbn in H.
  - inversion H. constructor.
  - destruct (f x) as [y|e] eqn:Ex; [ | discriminate ].
    destruct (mapThrowing f rest) as [ys|e]; [ | discriminate ].
    inversion H; subst. constructor; auto.
Qed.

(** [arr.map(f)] throws what the callback throws first. *)
Lemma mapThrowing_throws {A B : Type} (f : A -> completion B) (arr : list A) :
  existsb (fun x => match f x with Throw _ => true | Normal _ => false end) arr = true ->
  exists e, mapThrowing f arr = Throw e.
Proof.
  induction arr as [|x rest IH]; cbn; [ discriminate | ].
  destruct (f x) as [y|e]; cbn.
  - intros H. destruct (IH H) as [e E]. rewrite E. eauto.
  - eauto.
Qed.

Lemma toBattleMove_fields (move : Api.move) (m : BattleMove.t) :
  toBattleMove move = Normal m ->
  BattleMove.name m = Api.move_name move
  /\ BattleMove.power m = JS.orDefault (Api.move_power move) 0
  /\ BattleMove.accuracy m = JS.orDefault (Api.move_accuracy move) 100
  /\ Some (BattleMove.type m) = Api.move_type move
  /\ BattleMove.pp m = JS.orDefault (Api.move_pp move) 20.
Proof.
  unfold toBattleMove. destruct (Api.move_type move) as [ty|]; [ | discriminate ].
  intros H. inversion H. cbn. auto.
Qed.

Lemma make_move_schema_index (i : nat) :
  (i <= 3)%nat -> make_move_schema (JS.ofZ (Z.of_nat i)) = true.
Proof.
  intros Hi. unfold make_move_schema, JS.leb, JS.ofZ.
  apply andb_true_iff. split; apply Qle_bool_iff; unfold Qle; cbn; lia.
Qed.

Lemma subscript_ofZ {A : Type} (arr : list A) (i : nat) :
  JS.subscript arr (JS.ofZ (Z.of_nat i)) = nth_error arr i.
Proof.
  unfold JS.subscript. rewrite arrayIndex_ofZ.
  destruct (0 <=? Z.of_nat i)%Z eqn:E; [ | apply Z.leb_gt in E; lia ].
  rewrite Nat2Z.id. reflexivity.
Qed.

(** X2.  [getPokemonMoves] that returns has made one catalog request and
    gives at most four moves, named as the first four entries of the
    answer in their order (none when the request failed).  Every move has
    an accuracy and a pp that are neither 0 nor [NaN] (a missing or zero
    value became 100, resp. 20) and a power that is not [NaN]; and every
    move can be selected through [make_move]: its index passes the schema
    and the subscript finds the move. *)
Theorem getPokemonMoves_shape :
  forall (pokemonId : number) (answer : option Api.pokemon) (rest : Service)
         (moves : list BattleMove.t) (service1 : Service),
    getPokemonMoves pokemonId (answer :: rest) = (Normal moves, service1) ->
    service1 = rest
    /\ (List.length moves <= 4)%nat
    /\ map BattleMove.name moves
       = match answer with
         | Some body => map Api.move_name (firstn 4 (Api.moves body))
         | None => []
         end
    /\ (forall m, In m moves ->
          JS.truthy (BattleMove.accuracy m) = true
          /\ JS.truthy (BattleMove.pp m) = true
          /\ JS.isNaN (BattleMove.power m) = false)
    /\ (forall i m, nth_error moves i = Some m ->
          make_move_schema (JS.ofZ (Z.of_nat i)) = true
          /\ JS.subscript moves (JS.ofZ (Z.of_nat i)) = Some m).
Proof.
  intros pokemonId answer rest moves service1.
  unfold getPokemonMoves, bind, fetchFromPokeAPI, lift, ret.
  assert (Hshape : forall entries,
            (List.length entries <= 4)%nat ->
            Forall2 (fun x y => toBattleMove x = Normal y) entries moves ->
            (List.length moves <= 4)%nat
            /\ map BattleMove.name moves = map Api.move_name entries
            /\ (forall m, In m moves ->
                  JS.truthy (BattleMove.accuracy m) = true
                  /\ JS.truthy (BattleMove.pp m) = true
                  /\ JS.isNaN (BattleMove.power m) = false)).
  { intros entries Hlen HF. split; [ | split ].
    - rewrite <- (Forall2_length HF). exact Hlen.
    - clear Hlen. induction HF as [|x y l l' Hxy HF IH]; [ reflexivity | ].
      cbn. destruct (toBattleMove_fields x y Hxy) as [-> _]. rewrite IH. reflexivity.
    - clear Hlen. induction HF as [|x y l l' Hxy HF IH]; intros m Hin;
        [ contradiction | ].
      destruct Hin as [<- | Hin]; [ | apply IH, Hin ].
      destruct (toBattleMove_fields x y Hxy) as [_ [Hp [Ha [_ Hpp]]]].
      rewrite Ha, Hpp, Hp.
      repeat split;
        [ apply orDefault_truthy | apply orDefault_truthy | apply orDefault_not_NaN ];
        reflexivity. }
  assert (Hindex : (List.length moves <= 4)%nat ->
            forall i m, nth_error moves i = Some m ->
              make_move_schema (JS.ofZ (Z.of_nat i)) = true
              /\ JS.subscript moves (JS.ofZ (Z.of_nat i)) = Some m).
  { intros Hlen i m Hi.
    assert (Hlt : (i < List.length moves)%nat) by (apply nth_error_Some; congruence).
    split; [ apply make_move_schema_index; lia | rewrite subscript_ofZ; exact Hi ]. }
  destruct answer as [body|]; cbn [fst snd].
  - destruct (mapThrowing toBattleMove (firstn 4 (Api.moves body))) as [ms|e] eqn:Em;
      intros H; inversion H; subst.
    destruct (Hshape (firstn 4 (Api.moves body)) (firstn_le_length _ _)
                (mapThrowing_Forall2 _ _ _ Em)) as [Hlen [Hnames Hvals]].
    split; [ reflexivity | ]. split; [ exact Hlen | ]. split; [ exact Hnames | ].
    split; [ exact Hvals | exact (Hindex Hlen) ].
  - intros H. inversion H; subst.
    split; [ reflexivity | ]. split; [ cbn; lia | ]. split; [ reflexivity | ].
    split; [ intros m [] | intros i m Hi; destruct i; discriminate ].
Qed.

(** Bulbasaur's two catalog moves; growl comes without a power. *)
Lemma getPokemonMoves_shape_witness :
  getPokemonMoves 1 [Some Fixtures.bulbasaur]
  = (Normal [Fixtures.vineWhip; Fixtures.growl], [])
  /\ map BattleMove.name [Fixtures.vineWhip; Fixtures.growl]
     = map Api.move_name (firstn 4 (Api.moves Fixtures.bulbasaur))
  /\ make_move_schema (JS.ofZ (Z.of_nat 1)) = true
  /\ JS.subscript [Fixtures.vineWhip; Fixtures.growl] (JS.ofZ (Z.of_nat 1))
     = Some Fixtures.growl.
Proof.
  assert (E : getPokemonMoves 1 [Some Fixtures.bulbasaur]
              = (Normal [Fixtures.vineWhip; Fixtures.growl], []))
    by reflexivity.
  destruct (getPokemonMoves_shape 1 (Some Fixtures.bulbasaur) []
              [Fixtures.vineWhip; Fixtures.growl] [] E)
    as [_ [_ [Hnames [_ Hindex]]]].
  split; [ exact E | ]. split; [ exact Hnames | ].
  apply (Hindex 1%nat Fixtures.growl). reflexivity.
Defined.

(** What [isMoveHit] computes on a move that is there. *)
Lemma isMoveHit_value (m : BattleMove.t) (b : BattleState.t) (random : list Q) :
  isMoveHit (Some m) (b, random)
  = (Normal (JS.Fin (hd 0%Q random) *~ 100 <=? BattleMove.accuracy m),
     (b, tl random)).
Proof.
  unfold isMoveHit, bind, turnRandom, mathRandom, ret. cbn [fst snd].
  destruct random; reflexivity.
Qed.

Lemma hd_unitInterval (random : list Q) :
  Forall unitInterval random -> unitInterval (hd 0%Q random).
Proof.
  intros H. destruct random as [|u rest]; cbn.
  - split; [ apply Qle_refl | reflexivity ].
  - inversion H; assumption.
Qed.

(** The rounded product [Math.random() * 100] is from 0 to 100. *)
Lemma draw_percent (u : Q) :
  unitInterval u ->
  exists q, JS.Fin u *~ 100 = JS.Fin q /\ (0 <= q <= 100)%Q.
Proof.
  intros [H0 H1]. unfold JS.fmul, JS.mul, JS.rounded.
  destruct (double_sandwich 0 (Qred (u * (100 # 1))) 100) as [q [E [Hq0 Hq1]]].
  - apply Qle_refl.
  - rewrite Qred_correct. lra.
  - rewrite Qred_correct. lra.
  - apply representable_0.
  - apply (representable_Z 100). reflexivity.
  - exists q. split; [ exact E | split; assumption ].
Qed.

Lemma full_accuracy_hits (u : Q) (accuracy : number) :
  unitInterval u -> (100 <=? accuracy) = true ->
  (JS.Fin u *~ 100 <=? accuracy) = true.
Proof.
  intros Hu. destruct (draw_percent u Hu) as [q [-> [Hq0 Hq1]]].
  destruct accuracy as [a|s|]; cbn [JS.leb]; try discriminate.
  - intros H. apply Qle_bool_iff in H. apply Qle_bool_iff. lra.
  - auto.
Qed.

(** X3.  The accuracy check [Math.random() * 100 <= move.accuracy], for
    values of [Math.random()] in [0, 1): a move of accuracy 100 or more
    always hits; so does every move [getPokemonMoves] built from a catalog
    entry whose accuracy is missing, 0 or [NaN], since its accuracy became
    100; a move of negative or [NaN] accuracy never hits. *)
Theorem isMoveHit_by_accuracy :
  forall (m : BattleMove.t) (b : BattleState.t) (random : list Q),
    Forall unitInterval random ->
    ((100 <=? BattleMove.accuracy m) = true ->
       fst (isMoveHit (Some m) (b, random)) = Normal true)
    /\ (forall entry : Api.move,
          toBattleMove entry = Normal m ->
          match Api.move_accuracy entry with
          | Some a => JS.truthy a = false
          | None => True
          end ->
          BattleMove.accuracy m = 100
          /\ fst (isMoveHit (Some m) (b, random)) = Normal true)
    /\ ((BattleMove.accuracy m <? 0) = true \/ BattleMove.accuracy m = NaN ->
          fst (isMoveHit (Some m) (b, random)) = Normal false).
Proof.
  intros m b random Hr. rewrite isMoveHit_value. cbn [fst].
  pose proof (hd_unitInterval random Hr) as Hu.
  split; [ | split ].
  - intros H. rewrite (full_accuracy_hits _ _ Hu H). reflexivity.
  - intros entry He Ha.
    destruct (toBattleMove_fields entry m He) as [_ [_ [Hacc _]]].
    rewrite (orDefault_falsy _ _ Ha) in Hacc.
    split; [ exact Hacc | ].
    rewrite (full_accuracy_hits _ _ Hu); [ reflexivity | rewrite Hacc; reflexivity ].
  - destruct (draw_percent _ Hu) as [q [-> [Hq0 Hq1]]].
    intros [H | H]; [ | rewrite H; reflexivity ].
    destruct (BattleMove.accuracy m) as [a|s|]; cbn [JS.leb JS.ltb] in *;
      try discriminate.
    + apply negb_true_iff in H. f_equal.
      apply not_true_iff_false. intros Hle. apply Qle_bool_iff in Hle.
      assert (Hneg : ~ (0 <= a)%Q).
      { intros Hnn. apply Qle_bool_iff in Hnn. congruence. }
      apply Hneg. lra.
    + destruct s; [ reflexivity | discriminate ].
Qed.

(** Growl against the worst draw below 1; a catalog entry of accuracy 0. *)
Lemma isMoveHit_by_accuracy_witness :
  fst (isMoveHit (Some Fixtures.growl)
         (Fixtures.encounter Fixtures.bulbasaur50 Fixtures.charmander50,
          [999 # 1000]%Q))
  = Normal true
  /\ BattleMove.accuracy Fixtures.growl = 100.
Proof.
  assert (Hr : Forall unitInterval [999 # 1000]%Q).
  { apply Forall_cons; [ split; [ discriminate | reflexivity ] | apply Forall_nil ]. }
  destruct (isMoveHit_by_accuracy Fixtures.growl
              (Fixtures.encounter Fixtures.bulbasaur50 Fixtures.charmander50)
              [999 # 1000]%Q Hr) as [_ [H _]].
  destruct (H (Fixtures.apiMove "growl" None (Some 0) "normal") eq_refl eq_refl)
    as [Hacc Hhit].
  split; [ exact Hhit | exact Hacc ].
Defined.

End HydrationFacts.

(* ================================================================== *)
(** ** How a battle starts *)
(* ================================================================== *)

Module StartFacts.
Import Engine Catalog Server Props Views JSFacts SelectionFacts HydrationFacts.

Lemma getPokemonMoves_length (pokemonId : number) (service service1 : Service)
    (moves : list BattleMove.t) :
  getPokemonMoves pokemonId service = (Normal moves, service1) ->
  (List.length moves <= 4)%nat.
Proof.
  unfold getPokemonMoves, bind, fetchFromPokeAPI, lift, ret.
  destruct service as [|[body|] rest]; cbn [fst snd];
    try (intros H; inversion H; cbn; lia).
  destruct (mapThrowing toBattleMove (firstn 4 (Api.moves body))) as [ms|e] eqn:Em;
    intros H; inversion H; subst.
  rewrite <- (Forall2_length (mapThrowing_Forall2 _ _ _ Em)).
  apply firstn_le_length.
Qed.

(** How [createBattlePokemon] comes to return a combatant: the creature
    request succeeded, and the moves and the stats could be read. *)
Lemma createBattlePokemon_some (pokemonId level : number) (w w1 : World)
    (p : BattlePokemon.t) :
  createBattlePokemon pokemonId level w = (Normal (Some p), w1) ->
  exists body c1 moves c2 stats c3,
    fetchFromPokeAPI (pokemonEndpoint pokemonId) (catalog w) = (Normal (Some body), c1)
    /\ getPokemonMoves pokemonId c1 = (Normal moves, c2)
    /\ getPokemonStats pokemonId c2 = (Normal stats, c3)
    /\ w1 = setCatalog c3 w
    /\ p = {| BattlePokemon.id := Api.id body;
              BattlePokemon.name := Api.name body;
              BattlePokemon.level := level;
              BattlePokemon.types := Api.types body;
              BattlePokemon.stats := stats;
              BattlePokemon.moves := moves;
              BattlePokemon.currentHp := BattleStats.hp stats;
              BattlePokemon.status :=
                {| PokemonStatus.type := StNone; PokemonStatus.turnsLeft := 0 |};
              BattlePokemon.statModifiers :=
                {| StatModifiers.attack := 0; StatModifiers.defense := 0;
                   StatModifiers.specialAttack := 0;
                   StatModifiers.specialDefense := 0;
                   StatModifiers.speed := 0 |};
              BattlePokemon.experience := 0;
              BattlePokemon.items := [] |}.
Proof.
  unfold createBattlePokemon, tryCatch, bind, onCatalog, ret.
  destruct (fetchFromPokeAPI (pokemonEndpoint pokemonId) (catalog w))
    as [[[body|]|e] c1] eqn:E1; cbn [fst snd catalog setCatalog];
    try discriminate.
  destruct (getPokemonMoves pokemonId c1) as [[moves|e] c2] eqn:E2;
    cbn [fst snd catalog setCatalog]; try discriminate.
  destruct (getPokemonStats pokemonId c2) as [[stats|e] c3] eqn:E3;
    cbn [fst snd catalog setCatalog]; try discriminate.
  intros H. inversion H; subst.
  exists body, c1, moves, c2, stats, c3.
  repeat split; auto.
Qed.

Lemma createBattlePokemon_bare (pokemonId : number) (w w1 : World)
    (p : BattlePokemon.t) :
  createBattlePokemon pokemonId defaultLevel w = (Normal (Some p), w1) ->
  bare p
  /\ BattlePokemon.currentHp p = BattleStats.hp (BattlePokemon.stats p)
  /\ PokemonStatus.turnsLeft (BattlePokemon.status p) = 0
  /\ currentBattle w1 = currentBattle w
  /\ random w1 = random w.
Proof.
  intros H.
  destruct (createBattlePokemon_some _ _ _ _ _ H)
    as [body [c1 [moves [c2 [stats [c3 [_ [Em [_ [-> ->]]]]]]]]]].
  unfold bare. cbn. repeat split; auto.
  apply (getPokemonMoves_length _ _ _ _ Em).
Qed.

(** A combatant that could not be hydrated makes [start_battle] answer
    with the failure and keep the stored Encounter. *)
Lemma start_battle_null (playerPokemonId opponentPokemonId : number) (w : World) :
  fst (createBattlePokemon playerPokemonId defaultLevel w) = Normal None ->
  exists w1,
    start_battle playerPokemonId opponentPokemonId w
    = (Normal ("Failed to start battle: " ++ hydrationFailure), w1)
    /\ currentBattle w1 = currentBattle w
    /\ random w1 = random w.
Proof.
  intros H.
  destruct (ServerClaims.createBattlePokemon_frame playerPokemonId defaultLevel w)
    as [r1 [s1 E1]].
  destruct (ServerClaims.createBattlePokemon_frame opponentPokemonId defaultLevel
              (setCatalog s1 w)) as [r2 [s2 E2]].
  rewrite E1 in H. cbn [fst] in H. assert (r1 = None) by congruence. subst r1.
  unfold start_battle, startBattle, tryCatch, bind. rewrite E1, E2.
  exists (setCatalog s2 (setCatalog s1 w)). cbn. auto.
Qed.

Lemma existsb_typeless (entries : list Api.move) :
  existsb (fun entry => match Api.move_type entry with
                        | None => true
                        | Some _ => false
                        end) entries = true ->
  exists e, mapThrowing toBattleMove entries = Throw e.
Proof.
  intros H. apply mapThrowing_throws.
  induction entries as [|x rest IH]; [ discriminate | ].
  cbn in *. unfold toBattleMove at 1.
  destruct (Api.move_type x); cbn in *; [ apply IH, H | reflexivity ].
Qed.

(** X4.  Catalog answers that cannot be read make hydration fail, although
    the creature lookup succeeded.  When one of the first four move entries
    of the second answer carries no type, or when the third answer has
    fewer than six stat entries, [createBattlePokemon] returns [null]
    (the [TypeError] is caught), after two, resp. three requests; and
    [start_battle] for such a player answers with the hydration-failure
    message and keeps the stored Encounter.  Move entries past the fourth
    are never read. *)
Theorem unreadable_answers_fail_hydration :
  forall (pokemonId opponentPokemonId : number) (w : World) (body : Api.pokemon),
    (forall (movesBody : Api.pokemon) (rest : Service),
       catalog w = Some body :: Some movesBody :: rest ->
       existsb (fun entry => match Api.move_type entry with
                             | None => true
                             | Some _ => false
                             end)
               (firstn 4 (Api.moves movesBody)) = true ->
       createBattlePokemon pokemonId defaultLevel w = (Normal None, setCatalog rest w)
       /\ exists w1,
            start_battle pokemonId opponentPokemonId w
            = (Normal "Failed to start battle: Failed to create battle Pokémon", w1)
            /\ currentBattle w1 = currentBattle w)
    /\ (forall (movesAnswer : option Api.pokemon) (statsBody : Api.pokemon)
               (rest : Service),
          catalog w = Some body :: movesAnswer :: Some statsBody :: rest ->
          movesReadable movesAnswer = true ->
          (List.length (Api.base_stats statsBody) < 6)%nat ->
          createBattlePokemon pokemonId defaultLevel w = (Normal None, setCatalog rest w)
          /\ exists w1,
               start_battle pokemonId opponentPokemonId w
               = (Normal "Failed to start battle: Failed to create battle Pokémon", w1)
               /\ currentBattle w1 = currentBattle w).
Proof.
  intros pokemonId opponentPokemonId w body.
  assert (Hstart : forall service,
            createBattlePokemon pokemonId defaultLevel w = (Normal None, service) ->
            exists w1,
              start_battle pokemonId opponentPokemonId w
              = (Normal "Failed to start battle: Failed to create battle Pokémon", w1)
              /\ currentBattle w1 = currentBattle w).
  { intros service E.
    destruct (start_battle_null pokemonId opponentPokemonId w) as [w1 [H1 [H2 _]]].
    - rewrite E. reflexivity.
    - exists w1. split; [ exact H1 | exact H2 ]. }
  split.
  - intros movesBody rest Hc Hm.
    assert (E : createBattlePokemon pokemonId defaultLevel w
                = (Normal None, setCatalog rest w)).
    { destruct (existsb_typeless _ Hm) as [e He].
      unfold createBattlePokemon, getPokemonMoves, tryCatch, bind, onCatalog,
        fetchFromPokeAPI, lift, ret.
      rewrite Hc. cbn [catalog setCatalog fst snd]. rewrite He.
      cbn [catalog setCatalog fst snd]. reflexivity. }
    split; [ exact E | exact (Hstart _ E) ].
  - intros movesAnswer statsBody rest Hc Hm Hlen.
    assert (E : createBattlePokemon pokemonId defaultLevel w
                = (Normal None, setCatalog rest w)).
    { unfold createBattlePokemon, getPokemonMoves, getPokemonStats, tryCatch, bind,
        onCatalog, fetchFromPokeAPI, lift, ret, baseStat.
      rewrite Hc. cbn [catalog setCatalog fst snd].
      assert (Hstats : exists k, (k < 6)%nat
                /\ nth_error (Api.base_stats statsBody) k = None
                /\ forall j, (j < k)%nat ->
                     nth_error (Api.base_stats statsBody) j <> None).
      { exists (List.length (Api.base_stats statsBody)).
        split; [ exact Hlen | ]. split; [ apply nth_error_None; lia | ].
        intros j Hj. apply nth_error_Some. exact Hj. }
      destruct Hstats as [k [Hk [Hnone Hsome]]].
      unfold movesReadable in Hm.
      destruct movesAnswer as [mbody|]; cbn [catalog setCatalog fst snd];
        [ destruct (mapThrowing toBattleMove (firstn 4 (Api.moves mbody)));
          [ | discriminate ] | ];
        cbn [catalog setCatalog fst snd];
        destruct (Api.base_stats statsBody) as [|s0 [|s1 [|s2 [|s3 [|s4 [|s5 more]]]]]];
        cbn in Hlen; try lia; reflexivity. }
    split; [ exact E | exact (Hstart _ E) ].
Qed.

(** The creature request succeeds and the moves answer holds an entry
    without a type; the stats answer has no entries. *)
Lemma unreadable_answers_fail_hydration_witness :
  (createBattlePokemon 1 defaultLevel Samples.typelessWorld
   = (Normal None, setCatalog [Some Fixtures.bulbasaur] Samples.typelessWorld)
   /\ exists w1,
        start_battle 1 4 Samples.typelessWorld
        = (Normal "Failed to start battle: Failed to create battle Pokémon", w1)
        /\ currentBattle w1 = currentBattle Samples.typelessWorld)
  /\ (createBattlePokemon 1 defaultLevel Samples.scantStatsWorld
      = (Normal None, setCatalog [] Samples.scantStatsWorld)
      /\ exists w1,
           start_battle 1 4 Samples.scantStatsWorld
           = (Normal "Failed to start battle: Failed to create battle Pokémon", w1)
           /\ currentBattle w1 = currentBattle Samples.scantStatsWorld).
Proof.
  split.
  - apply (proj1 (unreadable_answers_fail_hydration 1 4 Samples.typelessWorld
                    Fixtures.bulbasaur)
             Samples.typelessMoves [Some Fixtures.bulbasaur]);
      reflexivity.
  - apply (proj2 (unreadable_answers_fail_hydration 1 4 Samples.scantStatsWorld
                    Fixtures.bulbasaur)
             (Some Fixtures.bulbasaur) Samples.typelessMoves []);
      [ reflexivity | reflexivity | cbn; lia ].
Defined.

(** X5.  When both combatants are hydrated, [start_battle] stores a new
    Encounter in place of whatever was stored, and answers with the
    battle-started text.  The Encounter has turn counter 1, no weather, the
    status tag "active" and an empty log; both combatants are at level 50
    and full hit points ([currentHp = stats.hp]), with no status, no items
    and at most four moves.  The random stream is not touched. *)
Theorem start_battle_replaces_encounter :
  forall (playerPokemonId opponentPokemonId : number) (w w1 w2 : World)
         (player opponent : BattlePokemon.t),
    createBattlePokemon playerPokemonId defaultLevel w = (Normal (Some player), w1) ->
    createBattlePokemon opponentPokemonId defaultLevel w1
    = (Normal (Some opponent), w2) ->
    let battle :=
      {| BattleState.playerPokemon := player;
         BattleState.opponentPokemon := opponent;
         BattleState.turn := 1;
         BattleState.weather :=
           {| BattleWeather.type := WNone; BattleWeather.turnsLeft := 0 |};
         BattleState.status := "active";
         BattleState.battleLog := [] |} in
    start_battle playerPokemonId opponentPokemonId w
    = (Normal (battleStartedText battle),
       {| currentBattle := Some battle; random := random w; catalog := catalog w2 |})
    /\ plain battle
    /\ BattlePokemon.currentHp player = BattleStats.hp (BattlePokemon.stats player)
    /\ BattlePokemon.currentHp opponent = BattleStats.hp (BattlePokemon.stats opponent).
Proof.
  intros pid oid w w1 w2 player opponent E1 E2 battle.
  destruct (createBattlePokemon_bare _ _ _ _ E1) as [Hp [Hhp [_ [Hb1 Hr1]]]].
  destruct (createBattlePokemon_bare _ _ _ _ E2) as [Ho [Hho [_ [Hb2 Hr2]]]].
  split; [ | split; [ | split; assumption ] ].
  - unfold start_battle, startBattle, tryCatch, bind. rewrite E1, E2.
    unfold ret, modify, setCurrentBattle. cbn [fst snd]. fold battle.
    rewrite Hr2, Hr1. reflexivity.
  - unfold plain. split; [ exact Hp | ]. split; [ exact Ho | ].
    split; [ reflexivity | ]. split; [ reflexivity | ].
    exists 1%Z. split; [ lia | reflexivity ].
Qed.

(** [start_battle(1, 4)] while another duel is stored. *)
Lemma start_battle_replaces_encounter_witness :
  start_battle 1 4 (Samples.rematch [1 # 2]%Q Fixtures.healthyCatalog)
  = (Normal (battleStartedText
               (Fixtures.encounter Fixtures.bulbasaur50 Fixtures.charmander50)),
     Fixtures.duel [1 # 2]%Q).
Proof.
  exact (proj1 (start_battle_replaces_encounter 1 4
                  (Samples.rematch [1 # 2]%Q Fixtures.healthyCatalog)
                  (Samples.rematch [1 # 2]%Q
                     [Some Fixtures.charmander; Some Fixtures.charmander;
                      Some Fixtures.charmander])
                  (Samples.rematch [1 # 2]%Q [])
                  Fixtures.bulbasaur50 Fixtures.charmander50 eq_refl eq_refl)).
Defined.

End StartFacts.

(* ================================================================== *)
(** ** What a turn leaves alone *)
(* ================================================================== *)

Module FrameFacts.
Import Engine Server Props Views JSFacts Hoare TurnFacts UpkeepFacts.

Lemma sameCard_refl (p : BattlePokemon.t) : sameCard p p.
Proof. unfold sameCard. repeat split; reflexivity. Qed.

Lemma sameCard_trans (p q r : BattlePokemon.t) :
  sameCard p q -> sameCard q r -> sameCard p r.
Proof.
  unfold sameCard.
  intros [A1 [A2 [A3 [A4 [A5 [A6 [A7 [A8 A9]]]]]]]]
         [B1 [B2 [B3 [B4 [B5 [B6 [B7 [B8 B9]]]]]]]].
  repeat split; congruence.
Qed.

(** Upkeep assigns [currentHp] and [status] only. *)
Lemma statusUpkeep_sameCard (p : BattlePokemon.t) :
  sameCard p (fst (statusUpkeep p)).
Proof.
  unfold statusUpkeep, sameCard.
  destruct (PokemonStatus.type (BattlePokemon.status p));
    cbn [fst]; try (repeat split; reflexivity);
    match goal with
    | |- context [if ?c then _ else _] => destruct c
    end; cbn [fst]; repeat split; reflexivity.
Qed.

Lemma afterUpkeep_setting (b : BattleState.t) :
  BattleState.weather (afterUpkeep b) = BattleState.weather b
  /\ BattleState.status (afterUpkeep b) = BattleState.status b.
Proof.
  unfold afterUpkeep, applyStatusEffects, applyWeatherEffects.
  destruct (BattleWeather.type (BattleState.weather (BattleState.setBattleLog [] b)));
    cbn; destruct (statusUpkeep (BattleState.playerPokemon b)) as [p1 l1];
    cbn; destruct (statusUpkeep (BattleState.opponentPokemon b)) as [p2 l2];
    split; reflexivity.
Qed.

Lemma afterUpkeep_sameSetting (b : BattleState.t) : sameSetting b (afterUpkeep b).
Proof.
  unfold sameSetting. rewrite afterUpkeep_player, afterUpkeep_opponent.
  destruct (afterUpkeep_setting b) as [Hw Hs].
  repeat split; try apply statusUpkeep_sameCard; assumption.
Qed.

Lemma executeBattleTurn_sameSetting (playerMoveIndex : number) (b : BattleState.t)
    (random : list Q) :
  sameSetting b (fst (snd (executeBattleTurn playerMoveIndex (b, random)))).
Proof.
  pose proof (executeBattleTurn_inv (sameSetting b) (sameSetting b) (fun _ => True)
                playerMoveIndex b I (afterUpkeep_sameSetting b)) as T.
  assert (H : triple (fun ctx : TurnCtx => fst ctx = b)
                (executeBattleTurn playerMoveIndex)
                (fun _ ctx => sameSetting b (fst ctx))
                (fun ctx => sameSetting b (fst ctx))).
  { eapply triple_weaken; [ apply T | | | ]; clear T.
    - intros b1 line H1. exact H1.
    - intros b1 m u damage _ _ H1 _. exact H1.
    - auto.
    - intros b1 line H1. exact H1.
    - intros b1 m u damage _ _ _ H1 _. exact H1.
    - intros s Hs. split; [ exact Hs | apply Forall_forall; auto ].
    - intros result ctx [b1 [H1 [E _]]]. rewrite E. exact H1.
    - auto. }
  specialize (H (b, random) eq_refl).
  destruct (executeBattleTurn playerMoveIndex (b, random)) as [[state|e] ctx];
    exact H.
Qed.

(** X6.  A turn, whether it returns or throws, assigns nothing but hit
    points, statuses, the turn counter and the log: id, name, level, types,
    stats, moves, stat modifiers, experience and items of both combatants,
    the weather and the status tag of the Encounter are after the turn what
    they were before.  And the log the battle held before the turn has no
    influence on the turn. *)
Theorem executeBattleTurn_frame :
  forall (playerMoveIndex : number) (b : BattleState.t) (random : list Q),
    sameSetting b (fst (snd (executeBattleTurn playerMoveIndex (b, random))))
    /\ forall log : list string,
         executeBattleTurn playerMoveIndex (BattleState.setBattleLog log b, random)
         = executeBattleTurn playerMoveIndex (b, random).
Proof.
  intros playerMoveIndex b random. split.
  - apply executeBattleTurn_sameSetting.
  - intros log. reflexivity.
Qed.

End FrameFacts.

(* ================================================================== *)
(** ** A turn on valid input: it returns, and what it draws *)
(* ================================================================== *)

Module OutcomeFacts.
Import Engine Server Props Views Pokedex JSFacts Hoare TurnFacts UpkeepFacts.
Import DamageFacts SelectionFacts HydrationFacts FrameFacts.

Lemma turnRandom_value (b : BattleState.t) (random : list Q) :
  turnRandom (b, random) = (Normal (hd 0%Q random), (b, tl random)).
Proof.
  unfold turnRandom, mathRandom. cbn [fst snd]. destruct random; reflexivity.
Qed.

Lemma drawn_tl (k : nat) (random : list Q) :
  drawn k (tl random) = drawn (S k) random.
Proof.
  unfold drawn. rewrite Nat.iter_swap. reflexivity.
Qed.

Lemma drawn_drawn (j k : nat) (random : list Q) :
  drawn k (drawn j random) = drawn (j + k) random.
Proof.
  revert random. induction j as [|j IH]; intros random; [ reflexivity | ].
  change (S j + k)%nat with (S (j + k)). rewrite <- !drawn_tl. apply IH.
Qed.

Lemma Forall_tl {A : Type} (P : A -> Prop) (l : list A) :
  Forall P l -> Forall P (tl l).
Proof. intros H. destruct l; [ exact H | inversion H; assumption ]. Qed.

Lemma Forall_drawn (P : Q -> Prop) (k : nat) (random : list Q) :
  Forall P random -> Forall P (drawn k random).
Proof.
  intros H. induction k as [|k IH]; [ exact H | ].
  change (drawn (S k) random) with (tl (drawn k random)). apply Forall_tl, IH.
Qed.

(** [calculateDamage] as the turn calls it, with a move of plain type. *)
Lemma callCalculateDamage_returns (attacker defender : BattlePokemon.t)
    (m : BattleMove.t) (b : BattleState.t) (random : list Q) :
  plainTag (BattleMove.type m) = true ->
  exists damage,
    calculateDamage attacker defender m (hd 0%Q random) = Normal damage
    /\ callCalculateDamage attacker defender (Some m) (b, random)
       = (Normal damage, (b, tl random)).
Proof.
  intros Hm.
  destruct (calculateDamage_returns attacker defender m (hd 0%Q random) Hm)
    as [damage E].
  exists damage. split; [ exact E | ].
  unfold callCalculateDamage. cbn [fst snd]. rewrite E. reflexivity.
Qed.

(** The player's block with a move of plain type returns, after one draw
    (a miss) or two (a hit). *)
Lemma playerTurn_returns (m : BattleMove.t) (b : BattleState.t) (random : list Q) :
  plainTag (BattleMove.type m) = true ->
  exists b1 k,
    (1 <= k <= 2)%nat
    /\ playerTurn (Some m) (b, random) = (Normal tt, (b1, drawn k random)).
Proof.
  intros Hplain. unfold playerTurn, bind. rewrite isMoveHit_value.
  destruct (JS.Fin (hd 0%Q random) *~ 100 <=? BattleMove.accuracy m).
  - unfold read, gets. cbn [fst snd].
    destruct (callCalculateDamage_returns (BattleState.playerPokemon b)
                (BattleState.opponentPokemon b) m b (tl random) Hplain)
      as [damage [_ E]].
    rewrite E. unfold bind, update, modify, moveName, ret. cbn [fst snd].
    eexists. exists 2%nat. split; [ lia | reflexivity ].
  - unfold update, modify. cbn [fst snd].
    eexists. exists 1%nat. split; [ lia | reflexivity ].
Qed.

(** The opponent's block with a move of plain type returns, after no draw
    (the opponent is down), one (a miss) or two (a hit). *)
Lemma opponentTurn_returns (m : BattleMove.t) (b : BattleState.t) (random : list Q) :
  plainTag (BattleMove.type m) = true ->
  exists b1 k,
    (k <= 2)%nat
    /\ opponentTurn (Some m) (b, random) = (Normal tt, (b1, drawn k random)).
Proof.
  intros Hplain.
  unfold opponentTurn, opponentAlive, read, gets, bind. cbn [fst snd].
  destruct (BattlePokemon.currentHp (BattleState.opponentPokemon b) >? 0) eqn:Halive.
  - rewrite isMoveHit_value.
    destruct (JS.Fin (hd 0%Q random) *~ 100 <=? BattleMove.accuracy m).
    + cbn [fst snd].
      destruct (callCalculateDamage_returns (BattleState.opponentPokemon b)
                  (BattleState.playerPokemon b) m b (tl random) Hplain)
        as [damage [_ E]].
      rewrite E. unfold update, modify, moveName, ret. cbn [fst snd].
      eexists. exists 2%nat. split; [ lia | reflexivity ].
    + cbn [fst snd]. rewrite Halive. unfold update, modify. cbn [fst snd].
      eexists. exists 1%nat. split; [ lia | reflexivity ].
  - unfold ret. cbn [fst snd]. rewrite Halive.
    eexists. exists 0%nat. split; [ lia | reflexivity ].
Qed.

(** A turn for an index that names a move of the player, against an
    opponent with a move, the types of the moves plain, on draws in
    [0, 1). *)
Lemma executeBattleTurn_returns (playerMoveIndex : number) (b : BattleState.t)
    (random : list Q) (m : BattleMove.t) :
  JS.subscript (BattlePokemon.moves (BattleState.playerPokemon b)) playerMoveIndex
  = Some m ->
  BattlePokemon.moves (BattleState.opponentPokemon b) <> [] ->
  plainTag (BattleMove.type m) = true ->
  plainMoves (BattleState.opponentPokemon b) = true ->
  Forall unitInterval random ->
  exists b1 k,
    (2 <= k <= 5)%nat
    /\ executeBattleTurn playerMoveIndex (b, random)
       = (Normal b1, (b1, drawn k random)).
Proof.
  intros Hm Hne Hpm Hpo Hr.
  destruct (HpFacts.afterUpkeep_moves b) as [Hmp Hmo].
  destruct (randomMove_some
              (BattlePokemon.moves (BattleState.opponentPokemon (afterUpkeep b)))
              (hd 0%Q random) (hd_unitInterval random Hr))
    as [om [Hom Hin]]; [ rewrite Hmo; exact Hne | ].
  assert (Hpom : plainTag (BattleMove.type om) = true).
  { unfold plainMoves in Hpo. rewrite forallb_forall in Hpo.
    apply Hpo. rewrite <- Hmo. exact Hin. }
  unfold executeBattleTurn, bind, update, modify, read, gets.
  cbn [fst snd].
  change (applyStatusEffects (applyWeatherEffects (BattleState.setBattleLog [] b)))
    with (afterUpkeep b).
  rewrite Hmp, Hm. rewrite turnRandom_value. cbn [fst snd].
  rewrite Hom.
  destruct (playerTurn_returns m (afterUpkeep b) (tl random) Hpm)
    as [b1 [k1 [Hk1 E1]]].
  rewrite E1.
  destruct (opponentTurn_returns om b1 (drawn k1 (tl random)) Hpom)
    as [b2 [k2 [Hk2 E2]]].
  rewrite E2. cbn [fst snd].
  eexists. exists (S (k1 + k2)). split; [ lia | ].
  rewrite drawn_drawn, drawn_tl. reflexivity.
Qed.

(** X7.  [executeBattleTurn] never throws on valid input: when the index
    names one of the player's moves, the opponent has at least one move, the
    type of the player's move and the types of the opponent's moves name no
    member of [Object.prototype], and the values of [Math.random()] are in
    [0, 1), the turn returns the battle it worked on, having called
    [Math.random()] at least twice and at most five times (once for the
    opponent's move, once or twice in each block). *)
Theorem executeBattleTurn_returns_on_valid_input :
  forall (playerMoveIndex : number) (b : BattleState.t) (random : list Q)
         (m : BattleMove.t),
    JS.subscript (BattlePokemon.moves (BattleState.playerPokemon b)) playerMoveIndex
    = Some m ->
    BattlePokemon.moves (BattleState.opponentPokemon b) <> [] ->
    plainTag (BattleMove.type m) = true ->
    plainMoves (BattleState.opponentPokemon b) = true ->
    Forall unitInterval random ->
    exists b1 k,
      (2 <= k <= 5)%nat
      /\ executeBattleTurn playerMoveIndex (b, random)
         = (Normal b1, (b1, drawn k random)).
Proof.
  intros playerMoveIndex b random m. apply executeBattleTurn_returns.
Qed.

(** Without the condition on the types the turn can throw: a move whose
    type names the built-in [Object], against an opponent tagged "caller",
    reads a property that throws, before the random factor is drawn. *)
Lemma executeBattleTurn_throws_on_restricted_lookup :
  JS.subscript (BattlePokemon.moves Fixtures.oddBulbasaur) 0 = Some Fixtures.oddPound
  /\ executeBattleTurn 0
       (Fixtures.encounter Fixtures.oddBulbasaur Fixtures.callerCharmander,
        Samples.sixDraws)
     = (Throw restrictedProperty,
        (Fixtures.encounter Fixtures.oddBulbasaur Fixtures.callerCharmander,
         drawn 2 Samples.sixDraws)).
Proof. split; vm_compute; reflexivity. Qed.

Lemma sixDraws_unitInterval : Forall unitInterval Samples.sixDraws.
Proof.
  repeat (apply Forall_cons; [ split; [ discriminate | reflexivity ] | ]).
  apply Forall_nil.
Qed.

(** The first turn of the duel takes five draws. *)
Lemma executeBattleTurn_returns_on_valid_input_witness :
  exists b1 k,
    (2 <= k <= 5)%nat
    /\ executeBattleTurn 0
         (Fixtures.encounter Fixtures.bulbasaur50 Fixtures.charmander50,
          Samples.sixDraws)
       = (Normal b1, (b1, drawn k Samples.sixDraws)).
Proof.
  apply (executeBattleTurn_returns_on_valid_input 0
           (Fixtures.encounter Fixtures.bulbasaur50 Fixtures.charmander50)
           Samples.sixDraws Fixtures.vineWhip).
  - reflexivity.
  - discriminate.
  - reflexivity.
  - reflexivity.
  - apply sixDraws_unitInterval.
Defined.

Lemma worldRandom_value (w : World) :
  worldRandom w = (Normal (hd 0%Q (random w)), setRandom (tl (random w)) w).
Proof.
  unfold worldRandom, mathRandom. destruct w as [cb r c]. cbn.
  destruct r; reflexivity.
Qed.

(** [make_move] for an index that names a move of the player, against an
    opponent with a move, on draws in [0, 1). *)
Lemma make_move_returns (moveIndex : number) (w : World) (b : BattleState.t)
    (m : BattleMove.t) :
  currentBattle w = Some b ->
  JS.subscript (BattlePokemon.moves (BattleState.playerPokemon b)) moveIndex
  = Some m ->
  BattlePokemon.moves (BattleState.opponentPokemon b) <> [] ->
  plainTag (BattleMove.type m) = true ->
  plainMoves (BattleState.opponentPokemon b) = true ->
  Forall unitInterval (random w) ->
  exists text b1 k,
    (3 <= k <= 6)%nat
    /\ fst (executeBattleTurn moveIndex (b, random w)) = Normal b1
    /\ make_move moveIndex w
       = (Normal text,
          {| currentBattle := if battleOver b1 then None else Some b1;
             random := drawn k (random w);
             catalog := catalog w |}).
Proof.
  intros Hb Hm Hne Hpm Hpo Hr.
  destruct (executeBattleTurn_returns moveIndex b (random w) m Hm Hne Hpm Hpo Hr)
    as [b1 [k [Hk E]]].
  pose proof (executeBattleTurn_sameSetting moveIndex b (random w)) as Hsame.
  rewrite E in Hsame. cbn [fst snd] in Hsame.
  destruct Hsame as [[_ [_ [_ [_ [_ [Hmp _]]]]]] [[_ [_ [_ [_ [_ [Hmo _]]]]]] _]].
  assert (Hu : unitInterval (hd 0%Q (drawn k (random w)))).
  { apply hd_unitInterval, Forall_drawn, Hr. }
  destruct (randomMove_some
              (BattlePokemon.moves (BattleState.opponentPokemon b1))
              (hd 0%Q (drawn k (random w))) Hu)
    as [om [Hom _]]; [ rewrite Hmo; exact Hne | ].
  unfold make_move, bind, gets, onCurrentBattle. rewrite Hb, E.
  unfold modify. cbn [fst snd]. rewrite worldRandom_value.
  cbn [fst snd random setCurrentBattle setRandom currentBattle catalog].
  rewrite Hmp, Hm, Hom.
  unfold propertyOfUndefined, ret. cbn [fst snd].
  exists (if battleOver b1
          then turnReport b1 m om ++ victoryLine (winnerName b1)
          else turnReport b1 m om), b1, (S k).
  split; [ lia | ]. split; [ reflexivity | ].
  rewrite <- drawn_tl.
  assert (Et : tl (drawn k (random w)) = drawn k (tl (random w))).
  { rewrite drawn_tl. reflexivity. }
  rewrite Et.
  destruct (battleOver b1); reflexivity.
Qed.


(** X8.  [make_move] never throws on valid input: with an Encounter
    stored, an index that names one of the player's moves, an opponent with
    at least one move, the type of the player's move and the types of the
    opponent's moves naming no member of [Object.prototype], and values of
    [Math.random()] in [0, 1), the handler answers with a text, having
    called [Math.random()] between three and six times and left the catalog
    alone; the Encounter it leaves is the battle after the turn, or none
    when a combatant is at [currentHp <= 0]. *)
Theorem make_move_returns_on_valid_input :
  forall (moveIndex : number) (w : World) (b : BattleState.t) (m : BattleMove.t),
    currentBattle w = Some b ->
    JS.subscript (BattlePokemon.moves (BattleState.playerPokemon b)) moveIndex
    = Some m ->
    BattlePokemon.moves (BattleState.opponentPokemon b) <> [] ->
    plainTag (BattleMove.type m) = true ->
    plainMoves (BattleState.opponentPokemon b) = true ->
    Forall unitInterval (random w) ->
    exists text b1 k,
      (3 <= k <= 6)%nat
      /\ fst (executeBattleTurn moveIndex (b, random w)) = Normal b1
      /\ make_move moveIndex w
         = (Normal text,
            {| currentBattle := if battleOver b1 then None else Some b1;
               random := drawn k (random w);
               catalog := catalog w |}).
Proof.
  intros moveIndex w b m. apply make_move_returns.
Qed.

(** The first [make_move(0)] of the duel. *)
Lemma make_move_returns_on_valid_input_witness :
  exists text b1 k,
    (3 <= k <= 6)%nat
    /\ fst (executeBattleTurn 0
              (Fixtures.encounter Fixtures.bulbasaur50 Fixtures.charmander50,
               Samples.sixDraws)) = Normal b1
    /\ make_move 0 (Fixtures.duel Samples.sixDraws)
       = (Normal text,
          {| currentBattle := if battleOver b1 then None else Some b1;
             random := drawn k Samples.sixDraws;
             catalog := [] |}).
Proof.
  apply (make_move_returns_on_valid_input 0 (Fixtures.duel Samples.sixDraws)
           (Fixtures.encounter Fixtures.bulbasaur50 Fixtures.charmander50)
           Fixtures.vineWhip).
  - reflexivity.
  - reflexivity.
  - discriminate.
  - reflexivity.
  - reflexivity.
  - apply sixDraws_unitInterval.
Defined.

End OutcomeFacts.

(* ================================================================== *)
(** ** Hit points through the tools *)
(* ================================================================== *)

Module HpThroughTools.
Import Engine Server Props Views JSFacts DoubleFacts DamageFacts DamageSign Hoare.
Import TurnFacts UpkeepFacts HpFacts.

Lemma leb_trans (a b c : number) :
  (a <=? b) = true -> (b <=? c) = true -> (a <=? c) = true.
Proof.
  destruct a as [x|s|], b as [y|t|], c as [z|r|]; cbn [JS.leb];
    try discriminate; try (rewrite !Qle_bool_iff; apply Qle_trans);
    repeat match goal with
           | v : bool |- _ => destruct v
           end; cbn; auto; try discriminate.
Qed.

Lemma leb_refl_finite (q : Q) : (JS.Fin q <=? JS.Fin q) = true.
Proof. cbn. apply Qle_bool_iff, Qle_refl. Qed.

(** [Math.max(0, currentHp - damage)] is not above [currentHp], for hit
    points in range and a damage that is not below 0. *)
Lemma takeDamage_le (damage : number) (p : BattlePokemon.t) :
  NN (BattleStats.hp (BattlePokemon.stats p)) ->
  hpInRange p = true ->
  NNI damage ->
  (BattlePokemon.currentHp (takeDamage damage p) <=? BattlePokemon.currentHp p) = true.
Proof.
  intros Hhp Hr Hd.
  destruct (hpInRange_value p Hhp Hr) as [c [h [Ec [Eh [H0 H1]]]]].
  unfold takeDamage. cbn [BattlePokemon.currentHp BattlePokemon.setCurrentHp].
  rewrite Ec.
  destruct Hd as [-> | [x [-> Hx]]].
  { cbn. apply Qle_bool_iff. exact H0. }
  unfold JS.sub, JS.neg, JS.add, JS.max. cbn [JS.isNaN orb JS.ltb].
  destruct (Qle_bool (Qred (c + Qred (- x))) 0) eqn:E; cbn [negb JS.leb];
    apply Qle_bool_iff.
  - exact H0.
  - rewrite !Qred_correct. lra.
Qed.

Lemma statusUpkeep_le (p : BattlePokemon.t) :
  wellFormed p = true -> hpInRange p = true ->
  (BattlePokemon.currentHp (fst (statusUpkeep p)) <=? BattlePokemon.currentHp p) = true.
Proof.
  intros Hw Hr.
  destruct (wellFormed_parts p Hw) as [Hhp _].
  assert (Hsame : (BattlePokemon.currentHp p <=? BattlePokemon.currentHp p) = true).
  { destruct (hpInRange_value p Hhp Hr) as [c [h [Ec _]]]. rewrite Ec.
    apply leb_refl_finite. }
  assert (Hburn : (BattlePokemon.currentHp
                     (takeDamage
                        (JS.floor (BattleStats.hp (BattlePokemon.stats p) * JS.Fin (1 # 10)))
                        p) <=? BattlePokemon.currentHp p) = true).
  { apply takeDamage_le; auto. apply NN_NNI.
    apply NN_floor, NN_mul; [ exact Hhp | apply NN_fraction; lia ]. }
  assert (Hpoison : (BattlePokemon.currentHp
                       (takeDamage
                          (JS.floor (BattleStats.hp (BattlePokemon.stats p) * JS.Fin (2 # 25)))
                          p) <=? BattlePokemon.currentHp p) = true).
  { apply takeDamage_le; auto. apply NN_NNI.
    apply NN_floor, NN_mul; [ exact Hhp | apply NN_fraction; lia ]. }
  unfold statusUpkeep.
  destruct (PokemonStatus.type (BattlePokemon.status p));
    cbn [fst]; auto;
    match goal with
    | |- context [if ?c then _ else _] => destruct c
    end; cbn [fst]; auto.
Qed.

(** Through a whole turn on well-formed combatants with plain tags and
    finite quotients, and draws in [0, 1): the hit points stay in range
    and never go up. *)
Lemma executeBattleTurn_never_heals (playerMoveIndex : number) (b0 : BattleState.t)
    (random : list Q) :
  sound b0 -> tame b0 -> Forall unitInterval random ->
  let after := fst (snd (executeBattleTurn playerMoveIndex (b0, random))) in
  sound after
  /\ (BattlePokemon.currentHp (BattleState.playerPokemon after)
      <=? BattlePokemon.currentHp (BattleState.playerPokemon b0)) = true
  /\ (BattlePokemon.currentHp (BattleState.opponentPokemon after)
      <=? BattlePokemon.currentHp (BattleState.opponentPokemon b0)) = true.
Proof.
  intros Hs Ht Hu.
  set (I := fun b : BattleState.t =>
              (sound b /\ tame b)
              /\ BattlePokemon.moves (BattleState.playerPokemon b)
                 = BattlePokemon.moves (BattleState.playerPokemon b0)
              /\ BattlePokemon.moves (BattleState.opponentPokemon b)
                 = BattlePokemon.moves (BattleState.opponentPokemon b0)
              /\ (BattlePokemon.currentHp (BattleState.playerPokemon b)
                  <=? BattlePokemon.currentHp (BattleState.playerPokemon b0)) = true
              /\ (BattlePokemon.currentHp (BattleState.opponentPokemon b)
                  <=? BattlePokemon.currentHp (BattleState.opponentPokemon b0)) = true).
  assert (H0 : unitInterval 0%Q) by (unfold unitInterval; lra).
  destruct (afterUpkeep_moves b0) as [Hmp Hmo].
  pose proof (executeBattleTurn_inv I I unitInterval playerMoveIndex b0 H0) as T.
  assert (Hstart : I (afterUpkeep b0)).
  { destruct Hs as [Hwp [Hwo [Hrp Hro]]].
    split; [ split; [ apply afterUpkeep_sound; repeat split; assumption
                    | apply afterUpkeep_tame, Ht ] | ].
    split; [ exact Hmp | ]. split; [ exact Hmo | ].
    rewrite afterUpkeep_player, afterUpkeep_opponent.
    split; apply statusUpkeep_le; assumption. }
  specialize (T Hstart).
  assert (H : triple (fun ctx : TurnCtx => fst ctx = b0 /\ Forall unitInterval (snd ctx))
                (executeBattleTurn playerMoveIndex)
                (fun _ ctx => I (fst ctx)) (fun ctx => I (fst ctx))).
  { eapply triple_weaken; [ apply T | | | ]; clear T.
    - intros b line Hb. exact Hb.
    - intros b m u damage Hm Hu0 [[[Hwp [Hwo [Hrp Hro]]] [Tp To]] [Mp [Mo [Lp Lo]]]]
        Hcalc.
      destruct (wellFormed_parts _ Hwo) as [Hhp _].
      assert (Hd : NNI damage).
      { apply (calculateDamage_value_NNI _ _ _ _ _ Hwp Hwo Tp) with (3 := Hcalc); auto.
        rewrite Mp, <- Hmp. eapply subscript_In. exact Hm. }
      split; [ | split; [ exact Mp | split; [ exact Mo | split; [ exact Lp | ] ] ] ].
      + split; [ | split; assumption ]. unfold sound. cbn [BattleState.playerPokemon BattleState.opponentPokemon
          BattleState.setOpponentPokemon].
        rewrite takeDamage_wellFormed. repeat split; auto.
        apply takeDamage_inRange; auto.
      + cbn [BattleState.opponentPokemon BattleState.setOpponentPokemon].
        eapply leb_trans; [ apply takeDamage_le; auto | exact Lo ].
    - auto.
    - intros b line Hb. exact Hb.
    - intros b m u damage Hin Hu0 _ [[[Hwp [Hwo [Hrp Hro]]] [Tp To]] [Mp [Mo [Lp Lo]]]]
        Hcalc.
      destruct (wellFormed_parts _ Hwp) as [Hhp _].
      assert (Hd : NNI damage).
      { apply (calculateDamage_value_NNI _ _ _ _ _ Hwo Hwp To) with (3 := Hcalc); auto.
        rewrite Mo, <- Hmo. exact Hin. }
      split; [ | split; [ exact Mp | split; [ exact Mo | split; [ | exact Lo ] ] ] ].
      + split; [ | split; assumption ]. unfold sound. cbn [BattleState.playerPokemon BattleState.opponentPokemon
          BattleState.setPlayerPokemon].
        rewrite takeDamage_wellFormed. repeat split; auto.
        apply takeDamage_inRange; auto.
      + cbn [BattleState.playerPokemon BattleState.setPlayerPokemon].
        eapply leb_trans; [ apply takeDamage_le; auto | exact Lp ].
    - auto.
    - intros result ctx [b1 [Hb1 [E _]]]. rewrite E. exact Hb1.
    - intros ctx Hb. exact Hb. }
  specialize (H (b0, random) (conj eq_refl Hu)).
  cbn zeta.
  destruct (executeBattleTurn playerMoveIndex (b0, random)) as [[state|e] ctx];
    cbn [fst snd]; destruct H as [[Hsound _] [_ [_ [Lp Lo]]]]; auto.
Qed.

(** X9.  On well-formed combatants (stats, level and move powers finite
    and non-negative, both defense stats positive, hit points in range)
    whose type tags name no member of [Object.prototype] and whose moves
    give a finite quotient in the damage formula, and values of
    [Math.random()] in [0, 1), [make_move] keeps
    [0 <= currentHp <= stats.hp] for both combatants and never raises the
    hit points of either, whether the turn returns or throws; the
    Encounter it leaves is the battle after the turn, or none. *)
Theorem make_move_keeps_hp_in_range :
  forall (moveIndex : number) (w : World) (b : BattleState.t),
    currentBattle w = Some b ->
    sound b ->
    tame b ->
    Forall unitInterval (random w) ->
    let after := fst (snd (executeBattleTurn moveIndex (b, random w))) in
    (currentBattle (snd (make_move moveIndex w)) = None
     \/ currentBattle (snd (make_move moveIndex w)) = Some after)
    /\ sound after
    /\ hpInvariant after = true
    /\ (BattlePokemon.currentHp (BattleState.playerPokemon after)
        <=? BattlePokemon.currentHp (BattleState.playerPokemon b)) = true
    /\ (BattlePokemon.currentHp (BattleState.opponentPokemon after)
        <=? BattlePokemon.currentHp (BattleState.opponentPokemon b)) = true.
Proof.
  intros moveIndex w b Hb Hs Ht Hr after.
  destruct (executeBattleTurn_never_heals moveIndex b (random w) Hs Ht Hr)
    as [Hsound [Lp Lo]].
  split; [ apply ReachFacts.make_move_battle, Hb | ].
  split; [ exact Hsound | ].
  split; [ | split; assumption ].
  destruct Hsound as [_ [_ [Hp Ho]]]. unfold hpInvariant.
  fold after in Hp, Ho. rewrite Hp, Ho. reflexivity.
Qed.

(** The first [make_move(0)] of the duel: 45 and 39 hit points become 15
    and 27. *)
Lemma make_move_keeps_hp_in_range_witness :
  let after :=
    fst (snd (executeBattleTurn 0
                (Fixtures.encounter Fixtures.bulbasaur50 Fixtures.charmander50,
                 Samples.sixDraws))) in
  (currentBattle (snd (make_move 0 (Fixtures.duel Samples.sixDraws))) = None
   \/ currentBattle (snd (make_move 0 (Fixtures.duel Samples.sixDraws))) = Some after)
  /\ sound after
  /\ hpInvariant after = true
  /\ (BattlePokemon.currentHp (BattleState.playerPokemon after) <=? 45) = true
  /\ (BattlePokemon.currentHp (BattleState.opponentPokemon after) <=? 39) = true.
Proof.
  assert (Ht : tame (Fixtures.encounter Fixtures.bulbasaur50 Fixtures.charmander50))
    by (split; vm_compute; reflexivity).
  apply (make_move_keeps_hp_in_range 0 (Fixtures.duel Samples.sixDraws)
           (Fixtures.encounter Fixtures.bulbasaur50 Fixtures.charmander50)).
  - reflexivity.
  - repeat split; reflexivity.
  - exact Ht.
  - apply OutcomeFacts.sixDraws_unitInterval.
Defined.

End HpThroughTools.

(* ================================================================== *)
(** ** How long a status lasts *)
(* ================================================================== *)

Module DurationFacts.
Import Engine Server Props Views JSFacts UpkeepFacts.

Lemma sub_ofZ (a b : Z) : JS.ofZ a - JS.ofZ b = JS.ofZ (a - b).
Proof.
  unfold JS.sub, JS.neg, JS.add, JS.ofZ. f_equal.
  transitivity (Qred (inject_Z (a - b))).
  - apply Qred_complete. rewrite Qred_correct.
    unfold Qeq, Qplus, Qopp, inject_Z. cbn. ring.
  - apply (canonical_ofZ (a - b)).
Qed.

Lemma leb_ofZ (a b : Z) : (JS.ofZ a <=? JS.ofZ b) = (a <=? b)%Z.
Proof.
  unfold JS.leb, JS.ofZ, Qle_bool, inject_Z. cbn. rewrite !Z.mul_1_r. reflexivity.
Qed.

Lemma max_ofZ (z : Z) : JS.max 0 (JS.ofZ z) = JS.ofZ (Z.max 0 z).
Proof.
  unfold JS.max. cbn [JS.isNaN JS.ofZ orb JS.ltb].
  change (JS.Fin (inject_Z z)) with (JS.ofZ z).
  change (Qle_bool (inject_Z z) 0) with (JS.ofZ z <=? JS.ofZ 0).
  rewrite leb_ofZ.
  destruct (z <=? 0)%Z eqn:E; cbn [negb].
  - apply Z.leb_le in E. rewrite Z.max_l by lia. reflexivity.
  - apply Z.leb_gt in E. rewrite Z.max_r by lia. reflexivity.
Qed.













End DurationFacts.

(* ================================================================== *)
(** ** Item use *)
(* ================================================================== *)

Module ItemFacts.
Import Engine Server Props Views JSFacts HpFacts.



(** X11.  [use_item] never throws and touches neither the random stream
    nor the catalog.  Without an Encounter it answers that there is no
    active battle, and when the index names no item of the player (beyond
    the inventory, or not an integer) it answers "Invalid item index!";
    in both cases nothing is changed. *)
Theorem use_item_rejects_without_change :
  forall (itemIndex : number) (w : World),
    (exists text w1,
       use_item itemIndex w = (Normal text, w1)
       /\ random w1 = random w /\ catalog w1 = catalog w)
    /\ (currentBattle w = None ->
        use_item itemIndex w
        = (Normal "No active battle! Start a battle first using the start_battle command.",
           w))
    /\ (forall b : BattleState.t,
          currentBattle w = Some b ->
          JS.subscript (BattlePokemon.items (BattleState.playerPokemon b)) itemIndex
          = None ->
          use_item itemIndex w = (Normal "Invalid item index!", w)).
Proof.
  intros itemIndex w. unfold use_item, bind, gets, JS.subscript.
  destruct (currentBattle w) as [b|] eqn:Eb.
  - split; [ | split; [ discriminate | ] ].
    + destruct (JS.arrayIndex itemIndex) as [n|];
        [ destruct (nth_error (BattlePokemon.items (BattleState.playerPokemon b)) n)
        | ];
        cbn; do 2 eexists; (split; [ reflexivity | split; reflexivity ]).
    + intros b' Hb' Hnone. inversion Hb'; subst b'.
      destruct (JS.arrayIndex itemIndex) as [n|]; [ | reflexivity ].
      rewrite Hnone. reflexivity.
  - split; [ | split; [ reflexivity | discriminate ] ].
    do 2 eexists. split; [ reflexivity | split; reflexivity ].
Qed.

(** Index 5 with two items in the inventory, and index 0.5. *)
Lemma use_item_rejects_without_change_witness :
  use_item 5 (Samples.suppliedDuel []) = (Normal "Invalid item index!", Samples.suppliedDuel [])
  /\ use_item (JS.Fin (1 # 2)) (Samples.suppliedDuel [])
     = (Normal "Invalid item index!", Samples.suppliedDuel []).
Proof.
  split.
  - apply (proj2 (proj2 (use_item_rejects_without_change 5 (Samples.suppliedDuel [])))
             (Fixtures.encounter Samples.woundedBulbasaur Fixtures.charmander50));
      reflexivity.
  - apply (proj2 (proj2 (use_item_rejects_without_change (JS.Fin (1 # 2))
                           (Samples.suppliedDuel [])))
             (Fixtures.encounter Samples.woundedBulbasaur Fixtures.charmander50));
      reflexivity.
Defined.



End ItemFacts.

(* ================================================================== *)
(** ** What every stored Encounter looks like *)
(* ================================================================== *)

Module KeptFacts.
Import Engine Catalog Server Props Views JSFacts Hoare TurnFacts UpkeepFacts.
Import FrameFacts StartFacts ItemFacts.

Lemma add_ofZ (a b : Z) : JS.ofZ a + JS.ofZ b = JS.ofZ (a + b).
Proof.
  unfold JS.add, JS.ofZ. f_equal.
  transitivity (Qred (inject_Z (a + b))).
  - apply Qred_complete. unfold Qeq, Qplus, inject_Z. cbn. ring.
  - apply (canonical_ofZ (a + b)).
Qed.

Lemma statusUpkeep_none_pair (p : BattlePokemon.t) :
  PokemonStatus.type (BattlePokemon.status p) = StNone ->
  statusUpkeep p = (p, []).
Proof. intros H. unfold statusUpkeep. rewrite H. reflexivity. Qed.

(** Without weather and without statuses the upkeep phase only clears the
    log. *)
Lemma afterUpkeep_plain (b : BattleState.t) :
  plain b -> afterUpkeep b = BattleState.setBattleLog [] b.
Proof.
  intros [[Hp _] [[Ho _] [Hw _]]].
  unfold afterUpkeep, applyWeatherEffects.
  cbn [BattleState.weather BattleState.setBattleLog]. rewrite Hw.
  unfold applyStatusEffects.
  cbn [BattleState.playerPokemon BattleState.setBattleLog].
  rewrite (statusUpkeep_none_pair _ Hp).
  cbn [BattleState.opponentPokemon BattleState.setPlayerPokemon pushAll
       BattleState.setBattleLog BattleState.battleLog List.app].
  rewrite (statusUpkeep_none_pair _ Ho).
  reflexivity.
Qed.

Lemma executeBattleTurn_plain (playerMoveIndex : number) (b : BattleState.t)
    (random : list Q) :
  plain b ->
  plain (fst (snd (executeBattleTurn playerMoveIndex (b, random)))).
Proof.
  intros [[Hps [Hpi [Hpm Hpl]]] [[Hos [Hoi [Hom Hol]]] [Hw [Hst [n [Hn Ht]]]]]].
  pose proof (executeBattleTurn_sameSetting playerMoveIndex b random) as Hsame.
  pose proof (ReachFacts.executeBattleTurn_noStatus playerMoveIndex b random
                (conj Hps Hos)) as [Hps1 Hos1].
  pose proof (TurnClaims.executeBattleTurn_turn playerMoveIndex b random) as Hturn.
  destruct (executeBattleTurn playerMoveIndex (b, random)) as [res [b1 r1]].
  cbn [fst snd] in *.
  destruct Hsame as [[_ [_ [Lp [_ [_ [Mp [_ [_ Ip]]]]]]]]
                       [[_ [_ [Lo [_ [_ [Mo [_ [_ Io]]]]]]]] [Hw1 Hst1]]].
  unfold plain, bare.
  rewrite Lp, Mp, Ip, Lo, Mo, Io, Hw1, Hst1.
  split; [ repeat split; assumption | ].
  split; [ repeat split; assumption | ].
  split; [ assumption | ]. split; [ assumption | ].
  destruct res as [state|e].
  - destruct Hturn as [Hturn _]. exists (n + 1)%Z. split; [ lia | ].
    rewrite Hturn, Ht. change 1 with (JS.ofZ 1). apply add_ofZ.
  - exists n. split; [ exact Hn | congruence ].
Qed.

Lemma start_battle_plain (playerPokemonId opponentPokemonId : number) (w : World) :
  match currentBattle w with Some b => plain b | None => True end ->
  match currentBattle (snd (start_battle playerPokemonId opponentPokemonId w)) with
  | Some b => plain b
  | None => True
  end.
Proof.
  intros Hw. unfold start_battle, startBattle, tryCatch, bind.
  destruct (createBattlePokemon playerPokemonId defaultLevel w)
    as [[[player|]|e] w1] eqn:E1.
  - destruct (createBattlePokemon opponentPokemonId defaultLevel w1)
      as [[[opponent|]|e] w2] eqn:E2.
    + destruct (createBattlePokemon_bare _ _ _ _ E1) as [Hp _].
      destruct (createBattlePokemon_bare _ _ _ _ E2) as [Ho _].
      cbn. unfold plain. split; [ exact Hp | ]. split; [ exact Ho | ].
      split; [ reflexivity | ]. split; [ reflexivity | ].
      exists 1%Z. split; [ lia | reflexivity ].
    + destruct (createBattlePokemon_bare _ _ _ _ E1) as [_ [_ [_ [Hb1 _]]]].
      destruct (ServerClaims.createBattlePokemon_frame opponentPokemonId
                  defaultLevel w1) as [r2 [s2 F2]].
      rewrite F2 in E2. inversion E2; subst. cbn. rewrite Hb1. exact Hw.
    + destruct (ServerClaims.createBattlePokemon_frame opponentPokemonId
                  defaultLevel w1) as [r2 [s2 F2]].
      rewrite F2 in E2. discriminate.
  - destruct (ServerClaims.createBattlePokemon_frame playerPokemonId
                defaultLevel w) as [r1 [s1 F1]].
    rewrite F1 in E1. inversion E1; subst.
    destruct (ServerClaims.createBattlePokemon_frame opponentPokemonId
                defaultLevel (setCatalog s1 w)) as [r2 [s2 F2]].
    rewrite F2. destruct r2; cbn; exact Hw.
  - destruct (ServerClaims.createBattlePokemon_frame playerPokemonId
                defaultLevel w) as [r1 [s1 F1]].
    rewrite F1 in E1. discriminate.
Qed.

(** With an empty inventory [use_item] changes nothing. *)
Lemma use_item_plain (itemIndex : number) (w : World) :
  match currentBattle w with Some b => plain b | None => True end ->
  snd (use_item itemIndex w) = w
  /\ (fst (use_item itemIndex w) = Normal noActiveBattle
      \/ fst (use_item itemIndex w) = Normal invalidItemIndex).
Proof.
  unfold use_item, bind, gets.
  destruct (currentBattle w) as [b|]; [ | intros _; split; [ reflexivity | left; reflexivity ] ].
  intros [[_ [Hi _]] _]. rewrite Hi.
  destruct (JS.arrayIndex itemIndex) as [n|];
    [ destruct n | ]; split; try reflexivity; right; reflexivity.
Qed.

(** In every world the server reaches, the stored Encounter is plain. *)
Lemma reachable_plain (w : World) :
  reachable w ->
  match currentBattle w with Some b => plain b | None => True end.
Proof.
  induction 1 as [random catalog | w call Hreach IH Hacc].
  - exact I.
  - destruct call as [p o | i | i]; cbn [handler].
    + apply start_battle_plain, IH.
    + destruct (currentBattle w) as [b|] eqn:Eb.
      * destruct (ReachFacts.make_move_battle i w b Eb) as [E|E]; rewrite E;
          [ exact I | ].
        apply executeBattleTurn_plain, IH.
      * unfold make_move, bind, gets. rewrite Eb. cbn. rewrite Eb. exact I.
    + destruct (use_item_plain i w IH) as [E _]. rewrite E. exact IH.
Qed.

(** X13.  What the tools keep true of the stored Encounter, in every world
    a process reaches from its start by accepted calls of [start_battle],
    [make_move] and [use_item], returning or throwing: neither combatant
    has a status condition or an item, each has at most four moves and is
    at level 50, the weather is 'none', the status tag is "active" (also
    after a victory), and the turn counter is an integer from 1.  So the
    weather and status phases of a turn do nothing there: the upkeep only
    clears the log. *)
Theorem stored_encounter_is_plain :
  forall (w : World) (b : BattleState.t),
    reachable w -> currentBattle w = Some b ->
    plain b
    /\ applyWeatherEffects b = b
    /\ applyStatusEffects b = b
    /\ afterUpkeep b = BattleState.setBattleLog [] b.
Proof.
  intros w b Hreach Hb.
  pose proof (reachable_plain w Hreach) as Hp. rewrite Hb in Hp.
  split; [ exact Hp | ].
  pose proof (afterUpkeep_plain b Hp) as Hupkeep.
  destruct Hp as [[Hps Hpr] [[Hos Hor] [Hw Hrest]]].
  split; [ unfold applyWeatherEffects; rewrite Hw; reflexivity | ].
  split.
  - unfold applyStatusEffects.
    rewrite (statusUpkeep_none_pair _ Hps).
    cbn [BattleState.opponentPokemon BattleState.setPlayerPokemon pushAll
         BattleState.setBattleLog BattleState.battleLog].
    rewrite (statusUpkeep_none_pair _ Hos).
    destruct b. unfold pushAll, BattleState.setOpponentPokemon,
      BattleState.setPlayerPokemon, BattleState.setBattleLog.
    cbn. rewrite !app_nil_r. reflexivity.
  - exact Hupkeep.
Qed.

(** The duel one turn in. *)
Lemma stored_encounter_is_plain_witness :
  exists b,
    currentBattle Fixtures.secondTurn = Some b
    /\ plain b
    /\ applyStatusEffects b = b.
Proof.
  assert (E : exists b, currentBattle Fixtures.secondTurn = Some b).
  { eexists. vm_compute. reflexivity. }
  destruct E as [b Hb]. exists b. split; [ exact Hb | ].
  destruct (stored_encounter_is_plain Fixtures.secondTurn b
              ServerClaims.secondTurn_reachable Hb) as [Hp [_ [Hs _]]].
  split; assumption.
Defined.

(** X14.  [use_item] is without effect in every world a process reaches:
    no tool ever gives a combatant an item, so the handler answers that
    there is no active battle or "Invalid item index!", whatever the
    index, and changes nothing. *)
Theorem use_item_never_applies :
  forall (w : World) (itemIndex : number),
    reachable w ->
    snd (use_item itemIndex w) = w
    /\ (fst (use_item itemIndex w)
        = Normal "No active battle! Start a battle first using the start_battle command."
        \/ fst (use_item itemIndex w) = Normal "Invalid item index!").
Proof.
  intros w itemIndex Hreach.
  apply use_item_plain, reachable_plain, Hreach.
Qed.

(** [use_item(0)] one turn into the duel. *)
Lemma use_item_never_applies_witness :
  snd (use_item 0 Fixtures.secondTurn) = Fixtures.secondTurn
  /\ (fst (use_item 0 Fixtures.secondTurn)
      = Normal "No active battle! Start a battle first using the start_battle command."
      \/ fst (use_item 0 Fixtures.secondTurn) = Normal "Invalid item index!").
Proof.
  apply (use_item_never_applies Fixtures.secondTurn 0
           ServerClaims.secondTurn_reachable).
Defined.

End KeptFacts.

(* ================================================================== *)
(** ** The end of a battle *)
(* ================================================================== *)

Module VictoryFacts.
Import Engine Server Props Views JSFacts.

(** X15.  A [make_move] that returns its text, on the battle [b1] the turn
    left: when a combatant is at [currentHp <= 0], the text is the report
    followed by the line "Battle ended! W won!", where W is the opponent's
    name if the player's currentHp is [<= 0] (also when both are), and the
    player's name otherwise; the Encounter is dropped, and every further
    [make_move] and [use_item] answers that there is no active battle and
    changes nothing.  Otherwise the text is the report and the Encounter
    stays. *)
Theorem make_move_ends_the_battle :
  forall (moveIndex : number) (w w1 : World) (b : BattleState.t) (text : string),
    currentBattle w = Some b ->
    make_move moveIndex w = (Normal text, w1) ->
    exists b1 playerMove opponentMove,
      fst (executeBattleTurn moveIndex (b, random w)) = Normal b1
      /\ (battleOver b1 = true ->
          text = turnReport b1 playerMove opponentMove ++ JS.newline
                   ++ "Battle ended! "
                   ++ (if BattlePokemon.currentHp (BattleState.playerPokemon b1) <=? 0
                       then BattlePokemon.name (BattleState.opponentPokemon b1)
                       else BattlePokemon.name (BattleState.playerPokemon b1))
                   ++ " won!"
          /\ currentBattle w1 = None
          /\ (forall index,
                make_move index w1
                = (Normal
                     "No active battle! Start a battle first using the start_battle command.",
                   w1)
                /\ use_item index w1
                   = (Normal
                        "No active battle! Start a battle first using the start_battle command.",
                      w1)))
      /\ (battleOver b1 = false ->
          text = turnReport b1 playerMove opponentMove
          /\ currentBattle w1 = Some b1).
Proof.
  intros moveIndex w w1 b text Hb Hcall.
  destruct (ServerClaims.make_move_answer moveIndex w w1 b text Hb Hcall)
    as [b1 [random1 [pm [om [Hturn [_ [_ [Htext Hcur]]]]]]]].
  exists b1, pm, om. split; [ rewrite Hturn; reflexivity | ].
  split; intros Hover; rewrite Hover in Htext, Hcur.
  - split; [ exact Htext | ]. split; [ exact Hcur | ].
    intros index. split.
    + unfold make_move, bind, gets. rewrite Hcur. reflexivity.
    + unfold use_item, bind, gets. rewrite Hcur. reflexivity.
  - split; assumption.
Qed.

(** Charmander has 1 hit point left and vine-whip hits: the battle ends
    and Bulbasaur is named the winner (the report still names a move for
    Charmander, which did not attack). *)
Lemma make_move_ends_the_battle_witness :
  exists b1 playerMove opponentMove,
    fst (executeBattleTurn 0 (Samples.lastStand, Samples.sixDraws)) = Normal b1
    /\ (battleOver b1 = true ->
        Samples.victoryText
        = turnReport b1 playerMove opponentMove ++ JS.newline
            ++ "Battle ended! "
            ++ (if BattlePokemon.currentHp (BattleState.playerPokemon b1) <=? 0
                then BattlePokemon.name (BattleState.opponentPokemon b1)
                else BattlePokemon.name (BattleState.playerPokemon b1))
            ++ " won!"
        /\ currentBattle Samples.afterVictory = None
        /\ (forall index,
              make_move index Samples.afterVictory
              = (Normal
                   "No active battle! Start a battle first using the start_battle command.",
                 Samples.afterVictory)
              /\ use_item index Samples.afterVictory
                 = (Normal
                      "No active battle! Start a battle first using the start_battle command.",
                    Samples.afterVictory)))
    /\ (battleOver b1 = false ->
        Samples.victoryText = turnReport b1 playerMove opponentMove
        /\ currentBattle Samples.afterVictory = Some b1).
Proof.
  apply (make_move_ends_the_battle 0 Samples.lastStandWorld Samples.afterVictory
           Samples.lastStand Samples.victoryText).
  - reflexivity.
  - vm_compute. reflexivity.
Defined.

End VictoryFacts.

(* ================================================================== *)
(** ** A hit takes at least one hit point *)
(* ================================================================== *)

Module DamageFloorFacts.
Import Engine Server Props Views JSFacts DoubleFacts DamageFacts DamageSign HpFacts.
Import SelectionFacts DurationFacts.

(** A move whose type is no row of the chart and no member of
    [Object.prototype] finds nothing in the chart, whatever the
    defender's tag. *)
Lemma rowless_lookup (move : BattleMove.t) (tag : string) :
  rowless move = true -> chartLookup (BattleMove.type move) tag = Undefined.
Proof.
  unfold rowless, chartLookup. intros H.
  destruct (property typeChart (BattleMove.type move)); [ discriminate | ].
  rewrite (String.eqb_sym (BattleMove.type move) "__proto__").
  rewrite (plainTag_differs _ "__proto__" H) by (simpl; auto 20).
  unfold builtinLength. cbn [property].
  repeat match goal with
         | |- context [String.eqb ?k (BattleMove.type move)] =>
             rewrite (plainTag_differs (BattleMove.type move) k H) by (simpl; auto 20)
         end.
  reflexivity.
Qed.

Lemma rowless_neutral (move : BattleMove.t) (tags : list string) :
  rowless move = true ->
  calculateTypeEffectiveness (BattleMove.type move) tags = Normal 1.
Proof.
  unfold calculateTypeEffectiveness. intros H.
  generalize (1 : number). induction tags as [|tag rest IH]; intros acc.
  - reflexivity.
  - cbn [effectivenessLoop]. rewrite (rowless_lookup move tag H). apply IH.
Qed.

(** With a power of 0 a finite quotient is 0. *)
Lemma zero_power_quotient (level attack defense : number) :
  NN level -> NN attack -> PP defense ->
  isFinite (Formula.quotient level 0 attack defense) = true ->
  Formula.quotient level 0 attack defense = 0.
Proof.
  intros Hl [k [-> Hk]] [y [-> Hy]]. unfold Formula.quotient.
  assert (HA : NNI (2 *~ level /~ 5 +~ 2)).
  { apply NNI_fadd; [ | right; exists 2%Q; split; [ reflexivity | lra ] ].
    unfold JS.fdiv. apply NNI_rounded.
    assert (H2 : NNI (2 *~ level)).
    { apply NNI_PP_fmul; [ exists 2%Q; split; [ reflexivity | lra ] | ].
      apply NN_NNI, Hl. }
    destruct H2 as [-> | [a [-> Ha]]]; [ left; reflexivity | right ].
    exists (Qred (a / 5)). split; [ reflexivity | ].
    rewrite Qred_correct. apply Qle_shift_div_l; lra. }
  destruct HA as [-> | [a [-> Ha]]]; [ intros H; discriminate H | intros _ ].
  assert (E0 : JS.Fin a *~ 0 = 0).
  { unfold JS.fmul. cbn [JS.mul JS.rounded].
    match goal with
    | |- context [JS.double ?x] =>
        rewrite (double_comp x 0) by (rewrite Qred_correct; ring)
    end.
    reflexivity. }
  rewrite E0.
  assert (E1 : 0 *~ JS.Fin k = 0).
  { unfold JS.fmul. cbn [JS.mul JS.rounded].
    match goal with
    | |- context [JS.double ?x] =>
        rewrite (double_comp x 0) by (rewrite Qred_correct; ring)
    end.
    reflexivity. }
  rewrite E1. unfold JS.fdiv. cbn [JS.div]. rewrite (Qsign_pos y Hy).
  cbn [JS.rounded].
  match goal with
  | |- context [JS.double ?x] =>
      rewrite (double_comp x 0) by (rewrite Qred_correct; field; lra)
  end.
  reflexivity.
Qed.

(** [Math.max(0, currentHp - d)] is below a positive integer [currentHp]
    when [d] is an integer from 1. *)
Lemma takeDamage_lowers (d c : Z) (target : BattlePokemon.t) :
  (1 <= d)%Z -> (0 < c)%Z ->
  BattlePokemon.currentHp target = JS.ofZ c ->
  (BattlePokemon.currentHp (takeDamage (JS.ofZ d) target)
   <? BattlePokemon.currentHp target) = true.
Proof.
  intros Hd Hc Ec. unfold takeDamage.
  cbn [BattlePokemon.currentHp BattlePokemon.setCurrentHp]. rewrite Ec.
  rewrite sub_ofZ, max_ofZ. unfold JS.ofZ. cbn [JS.ltb].
  apply negb_true_iff, not_true_iff_false. intros Hle. apply Qle_bool_iff in Hle.
  rewrite <- Zle_Qle in Hle. lia.
Qed.

(** An integer base damage from 2 times a random factor between 0.85 and
    1, rounded and floored, is an integer from 1 up to the base damage. *)
Lemma floor_of_scaled_base (n : Z) (r : Q) :
  (2 <= n)%Z -> isDouble (JS.ofZ n) ->
  (7656119366529843 # 9007199254740992 <= r <= 1)%Q ->
  exists d : Z, JS.floor (JS.ofZ n *~ JS.Fin r) = JS.ofZ d /\ (1 <= d <= n)%Z.
Proof.
  intros Hn Hd [Hr0 Hr1].
  destruct (isDouble_representable _ Hd) as [Rn _].
  assert (Hnq : (2 <= inject_Z n)%Q).
  { change 2%Q with (inject_Z 2). rewrite <- Zle_Qle. exact Hn. }
  unfold JS.fmul, JS.ofZ. cbn [JS.mul JS.rounded].
  destruct (double_sandwich 1 (Qred (inject_Z n * r)) (inject_Z n)) as [x [Ex [Hx0 Hx1]]];
    [ lra | rewrite Qred_correct; nra | rewrite Qred_correct; nra
    | apply (representable_Z 1); reflexivity | exact Rn | ].
  rewrite Ex. cbn [JS.floor]. exists (Qfloor x). split; [ reflexivity | ]. split.
  - rewrite <- (Qfloor_Z 1). apply Qfloor_resp_le. exact Hx0.
  - rewrite <- (Qfloor_Z n). apply Qfloor_resp_le. exact Hx1.
Qed.

(** The damage of a neutral hit is an integer from 1, and not above the
    base damage. *)
Lemma neutral_damage (attacker defender : BattlePokemon.t) (move : BattleMove.t)
    (u : Q) :
  wellFormed attacker = true ->
  wellFormed defender = true ->
  In move (BattlePokemon.moves attacker) ->
  rowless move = true ->
  isFinite
    (Formula.quotient (BattlePokemon.level attacker) (BattleMove.power move)
       (attackStat attacker move) (defenseStat defender move)) = true ->
  PokemonStatus.type (BattlePokemon.status attacker) <> Burn
  \/ isPhysical move = false ->
  unitInterval u ->
  exists d : Z,
    (1 <= d)%Z
    /\ calculateDamage attacker defender move u = Normal (JS.ofZ d)
    /\ (BattleMove.power move = 0 -> (d <= 2)%Z).
Proof.
  intros Ha Hd Hin Hrow Hfin Hburn Hu.
  destruct (wellFormed_parts attacker Ha) as [_ [Hatk [_ [Hsatk [_ [Hl [Hm _]]]]]]].
  destruct (wellFormed_parts defender Hd) as [_ [_ [Hdef [_ [Hsdef _]]]]].
  assert (Hattack : NN (attackStat attacker move)).
  { unfold attackStat. destruct (isPhysical move); assumption. }
  assert (Hdefense : PP (defenseStat defender move)).
  { unfold defenseStat. destruct (isPhysical move); assumption. }
  pose proof (notNegative_quotient (BattlePokemon.level attacker) (BattleMove.power move)
                (attackStat attacker move) (defenseStat defender move)
                (or_intror (NN_NNI _ Hl)) (or_intror (NN_NNI _ (Hm move Hin)))
                (or_intror (NN_NNI _ Hattack))
                (or_intror (NN_NNI _ (PP_NN _ Hdefense)))) as Hq.
  assert (Hzero : BattleMove.power move = 0 ->
                  Formula.quotient (BattlePokemon.level attacker) (BattleMove.power move)
                    (attackStat attacker move) (defenseStat defender move) = 0).
  { intros Hp. rewrite Hp in *. apply zero_power_quotient; assumption. }
  assert (Dq : isDouble
                 (Formula.quotient (BattlePokemon.level attacker) (BattleMove.power move)
                    (attackStat attacker move) (defenseStat defender move)))
    by apply isDouble_fdiv.
  assert (Hshape : calculateDamage attacker defender move u
                   = Normal
                       (JS.floor
                          (JS.floor
                             (Formula.quotient (BattlePokemon.level attacker)
                                (BattleMove.power move) (attackStat attacker move)
                                (defenseStat defender move) /~ 50 +~ 2)
                           *~ randomFactor u))).
  { assert (Hnoburn : (match PokemonStatus.type (BattlePokemon.status attacker) with
                       | Burn => true
                       | _ => false
                       end && isPhysical move) = false).
    { destruct Hburn as [Hb | Hb].
      - destruct (PokemonStatus.type (BattlePokemon.status attacker));
          try reflexivity; contradiction.
      - rewrite Hb. apply andb_false_r. }
    unfold calculateDamage, damageWith.
    rewrite (rowless_neutral move _ Hrow), Hnoburn.
    rewrite fmul_1_r by apply isDouble_floor, isDouble_fadd. reflexivity. }
  destruct (Formula.quotient (BattlePokemon.level attacker) (BattleMove.power move)
              (attackStat attacker move) (defenseStat defender move)) as [q|s|];
    [ | discriminate | discriminate ].
  assert (Hq0 : (0 <= q)%Q).
  { destruct Hq as [X | [X | [q' [E H]]]]; try discriminate.
    inversion E. subst. exact H. }
  pose proof (isDouble_floor _ (isDouble_fadd (JS.Fin q /~ 50) 2)) as Dbase.
  destruct (base_damage_PP q Dq Hq0) as [n [En Hn]]. rewrite En in *.
  destruct (randomFactor_range u Hu) as [r [Er Hr]].
  destruct (floor_of_scaled_base n r Hn Dbase Hr) as [d [Ed [Hd1 Hd2]]].
  exists d. split; [ exact Hd1 | ].
  split; [ rewrite Hshape, Er, Ed; reflexivity | ].
  intros Hp. specialize (Hzero Hp). inversion Hzero as [Hq1]. subst q.
  assert (E2 : JS.floor (JS.Fin 0 /~ 50 +~ 2) = JS.ofZ 2) by (vm_compute; reflexivity).
  rewrite E2 in En. inversion En. lia.
Qed.

(** X16.  A hit always costs hit points when the matchup is neutral: for
    well-formed combatants, a move of the attacker whose type is no row of
    the type chart and no member of [Object.prototype] and whose quotient
    in the damage formula is finite, no burn penalty (the attacker is not
    burned or the move is not physical) and a value of [Math.random()] in
    [0, 1), [calculateDamage] returns an integer of at least 1; it is at most 2
    for a move of power 0, so a move without power still damages; and a
    target with a positive integer currentHp has strictly less after the
    hit. *)
Theorem neutral_hit_takes_hit_points :
  forall (attacker defender : BattlePokemon.t) (move : BattleMove.t) (u : Q),
    wellFormed attacker = true ->
    wellFormed defender = true ->
    In move (BattlePokemon.moves attacker) ->
    rowless move = true ->
    isFinite
      (Formula.quotient (BattlePokemon.level attacker) (BattleMove.power move)
         (attackStat attacker move) (defenseStat defender move)) = true ->
    PokemonStatus.type (BattlePokemon.status attacker) <> Burn
    \/ isPhysical move = false ->
    unitInterval u ->
    exists d : Z,
      (1 <= d)%Z
      /\ calculateDamage attacker defender move u = Normal (JS.ofZ d)
      /\ (BattleMove.power move = 0 -> (d <= 2)%Z)
      /\ forall (target : BattlePokemon.t) (c : Z),
           (0 < c < 2 ^ 53)%Z ->
           BattlePokemon.currentHp target = JS.ofZ c ->
           (BattlePokemon.currentHp (takeDamage (JS.ofZ d) target)
            <? BattlePokemon.currentHp target) = true.
Proof.
  intros attacker defender move u Ha Hd Hin Hrow Hfin Hburn Hu.
  destruct (neutral_damage attacker defender move u Ha Hd Hin Hrow Hfin Hburn Hu)
    as [d [Hd1 [Hcalc Hzero]]].
  exists d. split; [ exact Hd1 | ]. split; [ exact Hcalc | ].
  split; [ exact Hzero | ].
  intros target c Hc Ec. apply (takeDamage_lowers d c); [ exact Hd1 | lia | exact Ec ].
Qed.

(** Growl, of power 0, from Bulbasaur on Charmander: 1 damage. *)
Lemma neutral_hit_takes_hit_points_witness :
  exists d : Z,
    (1 <= d)%Z
    /\ calculateDamage Fixtures.bulbasaur50 Fixtures.charmander50 Fixtures.growl (1 # 2)
       = Normal (JS.ofZ d)
    /\ (BattleMove.power Fixtures.growl = 0 -> (d <= 2)%Z).
Proof.
  assert (Hu : unitInterval (1 # 2)) by (split; [ discriminate | reflexivity ]).
  assert (Ha : wellFormed Fixtures.bulbasaur50 = true) by reflexivity.
  assert (Hd : wellFormed Fixtures.charmander50 = true) by reflexivity.
  assert (Hin : In Fixtures.growl (BattlePokemon.moves Fixtures.bulbasaur50)).
  { right. left. reflexivity. }
  assert (Hrow : rowless Fixtures.growl = true) by reflexivity.
  assert (Hfin : isFinite
                   (Formula.quotient (BattlePokemon.level Fixtures.bulbasaur50)
                      (BattleMove.power Fixtures.growl)
                      (attackStat Fixtures.bulbasaur50 Fixtures.growl)
                      (defenseStat Fixtures.charmander50 Fixtures.growl)) = true)
    by (vm_compute; reflexivity).
  assert (Hnb : PokemonStatus.type (BattlePokemon.status Fixtures.bulbasaur50) <> Burn
                \/ isPhysical Fixtures.growl = false).
  { right. reflexivity. }
  destruct (neutral_hit_takes_hit_points Fixtures.bulbasaur50 Fixtures.charmander50
              Fixtures.growl (1 # 2) Ha Hd Hin Hrow Hfin Hnb Hu)
    as [d [H1 [H2 [H3 _]]]].
  exists d. split; [ exact H1 | ]. split; [ exact H2 | exact H3 ].
Defined.

End DamageFloorFacts.

(* ================================================================== *)
(** ** The type chart as a product *)
(* ================================================================== *)

Module EffectivenessFacts.
Import Engine Props Views JSFacts DoubleFacts DamageFacts DamageSign.

Lemma power2_double (j : Z) (q : Q) :
  (-1074 <= j < 1024)%Z -> (q == JS.pow2 j)%Q -> JS.double q = power2 j.
Proof.
  intros Hj E. rewrite (double_comp q (JS.pow2 j) E).
  apply double_exact, representable_pow2, Hj.
Qed.

Lemma power2_twice (j : Z) :
  (-1074 <= j < 1023)%Z -> power2 j *~ 2 = power2 (j + 1).
Proof.
  intros Hj. unfold power2 at 1. unfold JS.fmul. cbn [JS.mul JS.rounded].
  apply power2_double; [ lia | ].
  rewrite !Qred_correct, pow2_add. change (JS.pow2 1) with 2%Q. reflexivity.
Qed.

Lemma power2_half (j : Z) :
  (-1074 < j < 1024)%Z -> power2 j *~ JS.Fin (1 # 2) = power2 (j - 1).
Proof.
  intros Hj. unfold power2 at 1. unfold JS.fmul. cbn [JS.mul JS.rounded].
  apply power2_double; [ lia | ].
  rewrite !Qred_correct. unfold Z.sub. rewrite pow2_add.
  change (JS.pow2 (-1)) with (1 # 2)%Q. reflexivity.
Qed.

Lemma power2_mul (j k : Z) :
  (-1074 <= j + k < 1024)%Z -> power2 j *~ power2 k = power2 (j + k).
Proof.
  intros H. unfold power2 at 1 2. unfold JS.fmul. cbn [JS.mul JS.rounded].
  apply power2_double; [ exact H | ].
  rewrite !Qred_correct, pow2_add. reflexivity.
Qed.

Lemma power2_PP (j : Z) : PP (power2 j).
Proof.
  exists (Qred (JS.pow2 j)). split; [ reflexivity | ].
  rewrite Qred_correct. apply pow2_pos.
Qed.

Lemma chartShift_bound (attackerType tag : string) :
  (-1 <= chartShift attackerType tag <= 1)%Z.
Proof.
  unfold chartShift. destruct (chartEntry attackerType tag) as [[q|s|]|]; try lia.
  destruct (Qle_bool 1 q); lia.
Qed.

(** One round of the loop on plain tags, from a power of two. *)
Lemma loop_step_power2 (attackerType tag : string) (rest : list string) (j : Z) :
  plainTag attackerType = true -> plainTag tag = true ->
  (-1074 < j < 1023)%Z ->
  effectivenessLoop attackerType (tag :: rest) (power2 j)
  = effectivenessLoop attackerType rest (power2 (j + chartShift attackerType tag)).
Proof.
  intros Ha Ht Hj. cbn [effectivenessLoop].
  rewrite (chartLookup_plain _ _ Ha Ht). unfold chartShift.
  destruct (chartEntry attackerType tag) as [entry|] eqn:E.
  - rewrite (chartEntry_truthy _ _ _ E).
    destruct (chartEntry_values _ _ _ E) as [-> | ->].
    + rewrite power2_twice by lia. reflexivity.
    + rewrite power2_half by lia. reflexivity.
  - rewrite Z.add_0_r. reflexivity.
Qed.

Lemma shiftSum_bound (attackerType : string) (tags : list string) :
  (Z.abs (shiftSum attackerType tags) <= Z.of_nat (List.length tags))%Z.
Proof.
  unfold shiftSum. induction tags as [|tag rest IH]; [ cbn; lia | ].
  cbn [map fold_right List.length]. pose proof (chartShift_bound attackerType tag). lia.
Qed.

(** The loop on plain tags adds up the exponents. *)
Lemma effectivenessLoop_power2 (attackerType : string) (tags : list string) :
  plainTag attackerType = true -> forallb plainTag tags = true ->
  forall j : Z,
    (Z.abs j + Z.of_nat (List.length tags) <= 1022)%Z ->
    effectivenessLoop attackerType tags (power2 j)
    = Normal (power2 (j + shiftSum attackerType tags)).
Proof.
  intros Ha. induction tags as [|tag rest IH]; intros Ht j Hj.
  - unfold shiftSum. cbn. rewrite Z.add_0_r. reflexivity.
  - cbn [forallb] in Ht. apply andb_true_iff in Ht. destruct Ht as [Ht Hrest].
    cbn [List.length] in Hj. pose proof (chartShift_bound attackerType tag) as Hb.
    rewrite (loop_step_power2 _ _ _ _ Ha Ht) by lia.
    rewrite (IH Hrest) by lia.
    unfold shiftSum. cbn [map fold_right]. do 2 f_equal. ring.
Qed.

Lemma calculateTypeEffectiveness_power2 (attackerType : string) (tags : list string) :
  plainTag attackerType = true -> forallb plainTag tags = true ->
  (List.length tags <= 1022)%nat ->
  calculateTypeEffectiveness attackerType tags
  = Normal (power2 (shiftSum attackerType tags)).
Proof.
  intros Ha Ht Hn. unfold calculateTypeEffectiveness.
  change (1 : number) with (power2 0).
  rewrite (effectivenessLoop_power2 _ _ Ha Ht) by (cbn; lia). reflexivity.
Qed.

Lemma shiftSum_permutation (attackerType : string) (tags tags' : list string) :
  Permutation tags tags' -> shiftSum attackerType tags = shiftSum attackerType tags'.
Proof.
  unfold shiftSum. induction 1; cbn [map fold_right]; lia.
Qed.

Lemma shiftSum_app (attackerType : string) (tags tags' : list string) :
  shiftSum attackerType (List.app tags tags')
  = (shiftSum attackerType tags + shiftSum attackerType tags')%Z.
Proof.
  unfold shiftSum. induction tags as [|tag rest IH]; cbn [List.app map fold_right]; lia.
Qed.

(** X17.  [calculateTypeEffectiveness] for an attacking type that names
    no member of [Object.prototype]: it returns, whatever the defender's
    tags.  On at most 1022 defender tags that name no such member either,
    the order of the defender's types does not matter, the effectiveness
    against the types of two lists put together is the product of the two
    effectivenesses, and the result is a finite positive number (a power of
    two, each chart entry being 2 or 0.5).  An attacking type that is no
    row of the chart is neutral (1) against every defender, whatever its
    tags. *)
Theorem calculateTypeEffectiveness_is_a_product :
  forall attackerType : string,
    plainTag attackerType = true ->
    (forall tags : list string,
        exists effectiveness,
          calculateTypeEffectiveness attackerType tags = Normal effectiveness)
    /\ (forall tags tags' : list string,
          forallb plainTag tags = true -> forallb plainTag tags' = true ->
          (List.length tags + List.length tags' <= 1022)%nat ->
          calculateTypeEffectiveness attackerType tags
          = Normal (power2 (shiftSum attackerType tags))
          /\ PP (power2 (shiftSum attackerType tags))
          /\ (Permutation tags tags' ->
              calculateTypeEffectiveness attackerType tags
              = calculateTypeEffectiveness attackerType tags')
          /\ calculateTypeEffectiveness attackerType (List.app tags tags')
             = Normal (power2 (shiftSum attackerType tags)
                       *~ power2 (shiftSum attackerType tags')))
    /\ (property typeChart attackerType = None ->
        forall tags : list string,
          calculateTypeEffectiveness attackerType tags = Normal 1).
Proof.
  intros attackerType Ha. split; [ | split ].
  - intros tags. apply (effectivenessLoop_returns _ _ Ha).
  - intros tags tags' Ht Ht' Hn.
    pose proof (shiftSum_bound attackerType tags) as B.
    pose proof (shiftSum_bound attackerType tags') as B'.
    assert (Happ : forallb plainTag (List.app tags tags') = true).
    { rewrite forallb_app, Ht, Ht'. reflexivity. }
    rewrite (calculateTypeEffectiveness_power2 _ tags Ha Ht) by lia.
    rewrite (calculateTypeEffectiveness_power2 _ tags' Ha Ht') by lia.
    rewrite (calculateTypeEffectiveness_power2 _ _ Ha Happ)
      by (rewrite length_app; lia).
    split; [ reflexivity | ]. split; [ apply power2_PP | ]. split.
    + intros Hperm. rewrite (shiftSum_permutation _ _ _ Hperm). reflexivity.
    + rewrite shiftSum_app. f_equal. symmetry. apply power2_mul. lia.
  - intros Hrow tags.
    apply (DamageFloorFacts.rowless_neutral
             {| BattleMove.name := ""; BattleMove.power := 0; BattleMove.accuracy := 0;
                BattleMove.type := attackerType; BattleMove.pp := 0 |}).
    unfold rowless. cbn [BattleMove.type]. rewrite Hrow. exact Ha.
Qed.

(** A fire move against a grass and ice defender, in either order: 4; a
    normal move against it: 1. *)
Lemma calculateTypeEffectiveness_is_a_product_witness :
  calculateTypeEffectiveness "fire" ["grass"; "ice"]
  = calculateTypeEffectiveness "fire" ["ice"; "grass"]
  /\ calculateTypeEffectiveness "fire" ["grass"; "ice"] = Normal 4
  /\ calculateTypeEffectiveness "normal" ["grass"; "ice"] = Normal 1.
Proof.
  assert (Hf : plainTag "fire" = true) by reflexivity.
  assert (Hn : plainTag "normal" = true) by reflexivity.
  assert (H1 : forallb plainTag ["grass"; "ice"] = true) by reflexivity.
  assert (H2 : forallb plainTag ["ice"; "grass"] = true) by reflexivity.
  assert (Hl : (List.length ["grass"; "ice"] + List.length ["ice"; "grass"] <= 1022)%nat)
    by (cbn; lia).
  destruct (proj1 (proj2 (calculateTypeEffectiveness_is_a_product "fire" Hf))
              ["grass"; "ice"] ["ice"; "grass"] H1 H2 Hl) as [Hpow [_ [Hperm _]]].
  split; [ apply Hperm, perm_swap | ].
  split; [ rewrite Hpow; reflexivity | ].
  apply (proj2 (proj2 (calculateTypeEffectiveness_is_a_product "normal" Hn))).
  reflexivity.
Defined.

End EffectivenessFacts.

(* ================================================================== *)
(** ** The description of a species *)
(* ================================================================== *)

Module FlavorTextFacts.
Import Pokedex.

Lemma replaceWithSpace_length (c : ascii) (text : string) :
  String.length (replaceWithSpace c text) = String.length text.
Proof.
  induction text as [|a rest IH]; [ reflexivity | ].
  cbn. rewrite IH. reflexivity.
Qed.

(** After the replacement the character occurs only if it is the space
    itself, and no other character appears that was not there. *)
Lemma replaceWithSpace_chars (c : ascii) (text : string) (a : ascii) :
  In a (list_ascii_of_string (replaceWithSpace c text)) ->
  (a = " "%char \/ In a (list_ascii_of_string text)) /\ (a = c -> c = " "%char).
Proof.
  induction text as [|x rest IH]; cbn; [ intros [] | ].
  intros [H | H].
  - destruct (Ascii.eqb x c) eqn:E.
    + subst a. split; [ left; reflexivity | intros <-; reflexivity ].
    + subst a. split; [ right; left; reflexivity | ].
      intros ->. rewrite Ascii.eqb_refl in E. discriminate.
  - destruct (IH H) as [[H1 | H1] H2]; split; auto.
Qed.

(** X18.  [getEnglishFlavorText] never returns the empty string and never
    a text with a line feed or a form feed in it.  It returns "No
    description available." when the species has no entry in language
    "en", and also when the first such entry has an empty text; otherwise
    it returns the text of the first "en" entry with every line feed and
    form feed replaced by one space, so with the same length. *)
Theorem getEnglishFlavorText_is_one_line :
  forall species : PokemonSpeciesDetails.t,
    getEnglishFlavorText species <> ""
    /\ (forall a, In a (list_ascii_of_string (getEnglishFlavorText species)) ->
          a <> lineFeed /\ a <> formFeed)
    /\ (forallb (fun entry => negb (String.eqb (FlavorTextEntry.language_name entry) "en"))
          (PokemonSpeciesDetails.flavor_text_entries species) = true ->
        getEnglishFlavorText species = "No description available.")
    /\ (forall before entry after,
          PokemonSpeciesDetails.flavor_text_entries species
          = List.app before (entry :: after) ->
          forallb (fun e => negb (String.eqb (FlavorTextEntry.language_name e) "en"))
            before = true ->
          FlavorTextEntry.language_name entry = "en" ->
          (FlavorTextEntry.flavor_text entry = "" ->
             getEnglishFlavorText species = "No description available.")
          /\ (FlavorTextEntry.flavor_text entry <> "" ->
                getEnglishFlavorText species
                = replaceWithSpace formFeed
                    (replaceWithSpace lineFeed (FlavorTextEntry.flavor_text entry))
                /\ String.length (getEnglishFlavorText species)
                   = String.length (FlavorTextEntry.flavor_text entry))).
Proof.
  intros species.
  assert (Hdefault : forall a, In a (list_ascii_of_string noDescription) ->
                       a <> lineFeed /\ a <> formFeed).
  { intros a Hin. cbn in Hin.
    repeat (destruct Hin as [<- | Hin]; [ split; discriminate | ]).
    contradiction. }
  assert (Hfind : forall before entry after,
            PokemonSpeciesDetails.flavor_text_entries species
            = List.app before (entry :: after) ->
            forallb (fun e => negb (String.eqb (FlavorTextEntry.language_name e) "en"))
              before = true ->
            FlavorTextEntry.language_name entry = "en" ->
            List.find
              (fun e => String.eqb (FlavorTextEntry.language_name e) "en")
              (PokemonSpeciesDetails.flavor_text_entries species) = Some entry).
  { intros before entry after -> Hb He.
    induction before as [|x rest IH]; cbn.
    - rewrite He. reflexivity.
    - cbn in Hb. apply andb_true_iff in Hb. destruct Hb as [Hx Hrest].
      apply negb_true_iff in Hx. rewrite Hx. apply IH, Hrest. }
  split; [ | split; [ | split ] ].
  - unfold getEnglishFlavorText.
    destruct (find _ _) as [entry|]; [ | discriminate ].
    destruct (replaceWithSpace formFeed _); discriminate.
  - unfold getEnglishFlavorText.
    destruct (find _ _) as [entry|]; [ | exact Hdefault ].
    destruct (replaceWithSpace formFeed
                (replaceWithSpace lineFeed (FlavorTextEntry.flavor_text entry)))
      as [|c rest] eqn:E; [ exact Hdefault | ].
    intros a Hin. rewrite <- E in Hin.
    destruct (replaceWithSpace_chars formFeed _ a Hin) as [[H1 | H1] H2].
    + subst a. split; discriminate.
    + destruct (replaceWithSpace_chars lineFeed _ a H1) as [_ H3].
      split; intros ->; [ specialize (H3 eq_refl) | specialize (H2 eq_refl) ];
        discriminate.
  - intros Hnone. unfold getEnglishFlavorText.
    destruct (find _ _) as [entry|] eqn:Ef; [ | reflexivity ].
    destruct (find_some _ _ Ef) as [Hin He].
    rewrite forallb_forall in Hnone. specialize (Hnone entry Hin).
    rewrite He in Hnone. discriminate.
  - intros before entry after Hl Hb He.
    unfold getEnglishFlavorText. rewrite (Hfind before entry after Hl Hb He).
    split.
    + intros ->. reflexivity.
    + intros Hne.
      destruct (replaceWithSpace formFeed
                  (replaceWithSpace lineFeed (FlavorTextEntry.flavor_text entry)))
        as [|c rest] eqn:E.
      * exfalso. apply Hne.
        assert (Hlen : String.length (FlavorTextEntry.flavor_text entry) = 0%nat).
        { rewrite <- (replaceWithSpace_length lineFeed),
            <- (replaceWithSpace_length formFeed), E. reflexivity. }
        destruct (FlavorTextEntry.flavor_text entry); [ reflexivity | discriminate ].
      * split; [ reflexivity | ].
        rewrite <- E, !replaceWithSpace_length. reflexivity.
Qed.

(** The first English entry of the species, on one line. *)
Lemma getEnglishFlavorText_is_one_line_witness :
  getEnglishFlavorText Samples.bulbasaurSpecies
  = "A strange seed was planted on its back at birth."
  /\ String.length (getEnglishFlavorText Samples.bulbasaurSpecies) = 48%nat.
Proof.
  destruct (getEnglishFlavorText_is_one_line Samples.bulbasaurSpecies)
    as [_ [_ [_ H]]].
  destruct (H [ {| FlavorTextEntry.flavor_text := "Une graine";
                   FlavorTextEntry.language_name := "fr" |} ]
              {| FlavorTextEntry.flavor_text :=
                   "A strange seed was" ++ String lineFeed "planted on its"
                     ++ String formFeed "back at birth.";
                 FlavorTextEntry.language_name := "en" |}
              [ {| FlavorTextEntry.flavor_text := "It can go for days";
                   FlavorTextEntry.language_name := "en" |} ]
              eq_refl eq_refl eq_refl) as [_ Htext].
  destruct (Htext ltac:(discriminate)) as [E L].
  split; [ exact E | exact L ].
Defined.

End FlavorTextFacts.

(* ================================================================== *)
(** ** The enhanced engine against the older one *)
(* ================================================================== *)

Module VersionFacts.
Import Engine Server Props Views JSFacts DoubleFacts DamageFacts TurnFacts UpkeepFacts.
Import HydrationFacts OutcomeFacts DamageFloorFacts KeptFacts.

(** Without a burn and with a move whose type is no row of the chart and
    no member of [Object.prototype], the two damage computations agree. *)
Lemma calculateDamage_older (attacker defender : BattlePokemon.t)
    (move : BattleMove.t) (u : Q) :
  PokemonStatus.type (BattlePokemon.status attacker) = StNone ->
  rowless move = true ->
  calculateDamage attacker defender move u
  = Normal (Legacy.calculateDamage (older attacker) (older defender) move u).
Proof.
  intros Hs Hrow.
  unfold calculateDamage, damageWith, Legacy.calculateDamage, attackStat, defenseStat.
  rewrite (rowless_neutral move _ Hrow), Hs.
  cbn [older Legacy.BattlePokemon.stats Legacy.BattlePokemon.level andb].
  rewrite fmul_1_r by apply isDouble_floor, isDouble_fadd. reflexivity.
Qed.

Lemma isMoveHit_any (move : option BattleMove.t) (b : BattleState.t) (random : list Q) :
  isMoveHit move (b, random)
  = (match move with
     | Some m => Normal (JS.Fin (hd 0%Q random) *~ 100 <=? BattleMove.accuracy m)
     | None => Throw (undefinedProperty "accuracy")
     end, (b, tl random)).
Proof.
  unfold isMoveHit, bind, turnRandom, mathRandom, ret, throw. cbn [fst snd].
  destruct random, move; reflexivity.
Qed.

Lemma legacy_isMoveHit_any (move : option BattleMove.t) (b : Legacy.BattleState.t)
    (random : list Q) :
  Legacy.isMoveHit move (b, random)
  = (match move with
     | Some m => Normal (JS.Fin (hd 0%Q random) *~ 100 <=? BattleMove.accuracy m)
     | None => Throw (undefinedProperty "accuracy")
     end, (b, tl random)).
Proof.
  unfold Legacy.isMoveHit, bind, Legacy.turnRandom, mathRandom, ret, throw.
  cbn [fst snd]. destruct random, move; reflexivity.
Qed.

Lemma legacy_turnRandom_value (b : Legacy.BattleState.t) (random : list Q) :
  Legacy.turnRandom (b, random) = (Normal (hd 0%Q random), (b, tl random)).
Proof.
  unfold Legacy.turnRandom, mathRandom. cbn [fst snd]. destruct random; reflexivity.
Qed.

(** The player's block of the two engines, step for step. *)
Lemma playerTurn_older (move : option BattleMove.t) (b : BattleState.t)
    (random : list Q) :
  noStatus b ->
  (forall m, move = Some m -> rowless m = true) ->
  Legacy.playerTurn move (olderState b, random)
  = (fst (playerTurn move (b, random)), olderCtx (snd (playerTurn move (b, random))))
  /\ noStatus (fst (snd (playerTurn move (b, random)))).
Proof.
  intros [Hp Ho] Hrow.
  unfold playerTurn, Legacy.playerTurn, bind.
  rewrite isMoveHit_any, legacy_isMoveHit_any.
  destruct move as [m|]; [ | split; [ reflexivity | split; assumption ] ].
  destruct (JS.Fin (hd 0%Q random) *~ 100 <=? BattleMove.accuracy m).
  - unfold read, Legacy.read, gets, callCalculateDamage, Legacy.callCalculateDamage,
      bind, update, Legacy.update, modify, moveName, ret.
    cbn [fst snd].
    rewrite (calculateDamage_older _ _ m _ Hp (Hrow m eq_refl)).
    unfold Legacy.turnRandom, mathRandom. cbn [fst snd].
    change (Legacy.BattleState.playerPokemon (olderState b))
      with (older (BattleState.playerPokemon b)).
    change (Legacy.BattleState.opponentPokemon (olderState b))
      with (older (BattleState.opponentPokemon b)).
    destruct (tl random) as [|v rest]; cbn [fst snd hd tl];
      (split; [ reflexivity | split; assumption ]).
  - unfold update, modify, ret. cbn [fst snd].
    split; [ reflexivity | split; assumption ].
Qed.

(** The opponent's block of the two engines, step for step. *)
Lemma opponentTurn_older (move : option BattleMove.t) (b : BattleState.t)
    (random : list Q) :
  noStatus b ->
  (forall m, move = Some m -> rowless m = true) ->
  Legacy.opponentTurn move (olderState b, random)
  = (fst (opponentTurn move (b, random)),
     olderCtx (snd (opponentTurn move (b, random)))).
Proof.
  intros [Hp Ho] Hrow.
  unfold opponentTurn, Legacy.opponentTurn, opponentAlive, read, Legacy.read, gets, bind.
  cbn [fst snd].
  change (Legacy.BattlePokemon.currentHp
            (Legacy.BattleState.opponentPokemon (olderState b)))
    with (BattlePokemon.currentHp (BattleState.opponentPokemon b)).
  destruct (BattlePokemon.currentHp (BattleState.opponentPokemon b) >? 0) eqn:Halive.
  - rewrite isMoveHit_any, legacy_isMoveHit_any.
    destruct move as [m|]; [ | reflexivity ].
    destruct (JS.Fin (hd 0%Q random) *~ 100 <=? BattleMove.accuracy m).
    + unfold callCalculateDamage, Legacy.callCalculateDamage,
        bind, update, Legacy.update, modify, moveName, ret.
      cbn [fst snd].
      rewrite (calculateDamage_older _ _ m _ Ho (Hrow m eq_refl)).
      unfold Legacy.turnRandom, mathRandom. cbn [fst snd].
      change (Legacy.BattleState.playerPokemon (olderState b))
        with (older (BattleState.playerPokemon b)).
      change (Legacy.BattleState.opponentPokemon (olderState b))
        with (older (BattleState.opponentPokemon b)).
      destruct (tl random) as [|v rest]; cbn [fst snd hd tl]; reflexivity.
    + cbn [fst snd]. rewrite Halive. unfold update, modify, ret. reflexivity.
  - unfold ret. cbn [fst snd]. rewrite Halive. reflexivity.
Qed.

Lemma olderState_afterUpkeep (b : BattleState.t) :
  noStatus b -> olderState (afterUpkeep b) = olderState b.
Proof.
  intros [Hp Ho]. unfold olderState.
  rewrite afterUpkeep_player, afterUpkeep_opponent, afterUpkeep_turn.
  rewrite (ReachFacts.statusUpkeep_none _ Hp), (ReachFacts.statusUpkeep_none _ Ho).
  destruct (FrameFacts.afterUpkeep_setting b) as [_ ->]. reflexivity.
Qed.

Lemma forallb_subscript {A : Type} (f : A -> bool) (arr : list A) (i : number) (x : A) :
  forallb f arr = true -> JS.subscript arr i = Some x -> f x = true.
Proof.
  intros Hall Hx. rewrite forallb_forall in Hall.
  apply Hall. eapply subscript_In. exact Hx.
Qed.

(** X19.  On a battle without status conditions in which no move's type
    is a row of the type chart or names a member of [Object.prototype],
    the enhanced [executeBattleTurn] does what the older one does: run on
    the same random values, the older engine completes the same way
    (returning, or throwing the same error), leaves the same random values,
    and its battle is the enhanced engine's battle with the log, statuses,
    modifiers, experience and items left out: same hit points of both
    combatants, same turn counter. *)
Theorem executeBattleTurn_refines_older_engine :
  forall (playerMoveIndex : number) (b : BattleState.t) (random : list Q),
    noStatus b ->
    forallb rowless (BattlePokemon.moves (BattleState.playerPokemon b)) = true ->
    forallb rowless (BattlePokemon.moves (BattleState.opponentPokemon b)) = true ->
    Legacy.executeBattleTurn playerMoveIndex (olderState b, random)
    = (match fst (executeBattleTurn playerMoveIndex (b, random)) with
       | Normal state => Normal (olderState state)
       | Throw e => Throw e
       end,
       olderCtx (snd (executeBattleTurn playerMoveIndex (b, random)))).
Proof.
  intros playerMoveIndex b random Hs Hpm Hom.
  destruct (HpFacts.afterUpkeep_moves b) as [Hmp Hmo].
  pose proof (ReachFacts.afterUpkeep_noStatus b Hs) as Hs1.
  unfold executeBattleTurn, Legacy.executeBattleTurn, bind, update, Legacy.update,
    modify, read, Legacy.read, gets.
  cbn [fst snd].
  change (applyStatusEffects (applyWeatherEffects (BattleState.setBattleLog [] b)))
    with (afterUpkeep b).
  rewrite turnRandom_value.
  rewrite legacy_turnRandom_value. cbn [fst snd].
  change (Legacy.BattlePokemon.moves (Legacy.BattleState.playerPokemon (olderState b)))
    with (BattlePokemon.moves (BattleState.playerPokemon b)).
  change (Legacy.BattlePokemon.moves (Legacy.BattleState.opponentPokemon (olderState b)))
    with (BattlePokemon.moves (BattleState.opponentPokemon b)).
  rewrite Hmp, Hmo.
  set (playerMove := JS.subscript (BattlePokemon.moves (BattleState.playerPokemon b))
                       playerMoveIndex).
  set (opponentMove := randomMove (hd 0%Q random)
                         (BattlePokemon.moves (BattleState.opponentPokemon b))).
  assert (Hrp : forall m, playerMove = Some m -> rowless m = true).
  { intros m Hm. eapply forallb_subscript; [ exact Hpm | exact Hm ]. }
  assert (Hro : forall m, opponentMove = Some m -> rowless m = true).
  { intros m Hm. eapply forallb_subscript; [ exact Hom | exact Hm ]. }
  rewrite <- (olderState_afterUpkeep b Hs).
  destruct (playerTurn_older playerMove (afterUpkeep b) (tl random) Hs1 Hrp)
    as [E1 Hs2].
  rewrite E1.
  destruct (playerTurn playerMove (afterUpkeep b, tl random)) as [[[]|e] [b1 r1]];
    cbn [fst snd olderCtx] in *; [ | reflexivity ].
  change (olderCtx (b1, r1)) with (olderState b1, r1).
  rewrite (opponentTurn_older opponentMove b1 r1 Hs2 Hro).
  destruct (opponentTurn opponentMove (b1, r1)) as [[[]|e] [b2 r2]];
    unfold olderCtx; cbn [fst snd]; reflexivity.
Qed.

(** The first turn of the duel with Charmander's ember replaced by
    scratch, so that no move's type is a row of the chart. *)
Lemma executeBattleTurn_refines_older_engine_witness :
  Legacy.executeBattleTurn 1 (olderState Samples.scuffle, Samples.sixDraws)
  = (match fst (executeBattleTurn 1 (Samples.scuffle, Samples.sixDraws)) with
     | Normal state => Normal (olderState state)
     | Throw e => Throw e
     end,
     olderCtx (snd (executeBattleTurn 1 (Samples.scuffle, Samples.sixDraws)))).
Proof.
  assert (Hs : noStatus Samples.scuffle) by (split; reflexivity).
  assert (Hp : forallb rowless
                 (BattlePokemon.moves (BattleState.playerPokemon Samples.scuffle))
               = true) by reflexivity.
  assert (Ho : forallb rowless
                 (BattlePokemon.moves (BattleState.opponentPokemon Samples.scuffle))
               = true) by reflexivity.
  exact (executeBattleTurn_refines_older_engine 1 Samples.scuffle Samples.sixDraws
           Hs Hp Ho).
Defined.

End VersionFacts.

(* ================================================================== *)
(** ** A dependable catalog keeps the hit points in range *)
(* ================================================================== *)

Module SteadyFacts.
Import Engine Catalog Server Props Views JSFacts DoubleFacts Hoare TurnFacts.
Import UpkeepFacts HpFacts HydrationFacts StartFacts OutcomeFacts HpThroughTools.

(** A turn, returning or throwing, leaves random values that were in the
    stream it started with. *)
Lemma executeBattleTurn_draws (U : Q -> Prop) (playerMoveIndex : number)
    (b : BattleState.t) (random : list Q) :
  U 0%Q -> Forall U random ->
  Forall U (snd (snd (executeBattleTurn playerMoveIndex (b, random)))).
Proof.
  intros H0 Hr.
  set (T := fun _ : BattleState.t => True).
  assert (Hupdate : forall f, triple (onTurn T U) (update f)
                                (fun _ => onTurn T U) (onTurn T U)).
  { intros f. apply triple_modify. intros [b1 r1] [_ H]. split; [ exact I | exact H ]. }
  assert (Hread : forall (A : Type) (f : BattleState.t -> A),
            triple (onTurn T U) (read f) (fun _ => onTurn T U) (onTurn T U)).
  { intros A f. apply triple_gets. intros s Hs. exact Hs. }
  assert (H : triple (onTurn T U) (executeBattleTurn playerMoveIndex)
                (fun _ => onTurn T U) (onTurn T U)).
  { unfold executeBattleTurn.
    eapply triple_bind; [ apply Hupdate | intros ? ].
    eapply triple_bind; [ apply Hupdate | intros ? ].
    eapply triple_bind; [ apply Hupdate | intros ? ].
    eapply triple_bind; [ apply Hread | intros playerMove ].
    eapply triple_bind with (Q := fun _ => onTurn T U).
    { eapply triple_weaken; [ apply (triple_turnRandom T U H0) | | | ]; auto.
      intros drawn' ctx' [Hs _]. exact Hs. }
    intros u.
    eapply triple_bind; [ apply Hread | intros opponentMove ].
    eapply triple_bind with (Q := fun _ => onTurn T U).
    { apply playerTurn_inv; auto; intros; exact I. }
    intros ?.
    eapply triple_bind with (Q := fun _ => onTurn T U).
    { apply opponentTurn_inv; auto; intros; exact I. }
    intros ?.
    eapply triple_bind; [ apply Hupdate | intros ? ].
    apply Hread. }
  specialize (H (b, random) (conj I Hr)).
  destruct (executeBattleTurn playerMoveIndex (b, random)) as [[state|e] ctx];
    destruct H as [_ H]; exact H.
Qed.

(** [make_move], returning or throwing, leaves random values that were in
    the stream, and leaves the catalog alone. *)
Lemma make_move_draws (U : Q -> Prop) (moveIndex : number) (w : World) :
  U 0%Q -> Forall U (random w) ->
  Forall U (random (snd (make_move moveIndex w)))
  /\ catalog (snd (make_move moveIndex w)) = catalog w.
Proof.
  intros H0 Hr. unfold make_move, bind, gets.
  destruct (currentBattle w) as [b|]; [ | split; [ exact Hr | reflexivity ] ].
  unfold onCurrentBattle.
  pose proof (executeBattleTurn_draws U moveIndex b (random w) H0 Hr) as Hd.
  destruct (executeBattleTurn moveIndex (b, random w)) as [[state|e] [b1 r1]];
    cbn [fst snd] in *; [ | split; [ exact Hd | reflexivity ] ].
  unfold modify. cbn [fst snd]. rewrite worldRandom_value.
  cbn [fst snd random setCurrentBattle setRandom currentBattle catalog].
  pose proof (Forall_tl U r1 Hd) as Ht.
  unfold propertyOfUndefined, ret, throw.
  repeat match goal with
         | |- context [match ?o with Some _ => _ | None => _ end] =>
             destruct o; cbn [fst snd]
         | |- context [if ?c then _ else _] => destruct c; cbn [fst snd]
         end; split; try exact Ht; reflexivity.
Qed.

Lemma dependable_cons3 (a1 a2 a3 : option Api.pokemon) (rest : Service) :
  dependable (a1 :: a2 :: a3 :: rest) ->
  usableAnswer a1 = true /\ usableAnswer a2 = true /\ usableAnswer a3 = true
  /\ dependable rest.
Proof.
  intros [Hall [n Hn]]. cbn in Hall. rewrite !andb_true_iff in Hall.
  destruct Hall as [H1 [H2 [H3 Hrest]]].
  repeat split; auto.
  destruct n as [|n]; [ cbn in Hn; discriminate | ].
  exists n. cbn in Hn. lia.
Qed.

Lemma dependable_shape (service : Service) :
  dependable service ->
  service = []
  \/ exists a1 a2 a3 rest, service = a1 :: a2 :: a3 :: rest.
Proof.
  intros [_ [n Hn]].
  destruct service as [|a1 [|a2 [|a3 rest]]]; [ left; reflexivity | | | ].
  - cbn in Hn. lia.
  - cbn in Hn. lia.
  - right. eauto.
Qed.

Lemma usableMoves_readable (entries : list Api.move) :
  forallb usableMove entries = true ->
  exists moves,
    mapThrowing toBattleMove entries = Normal moves
    /\ forallb (fun m => isNonNegative (BattleMove.power m)) moves = true
    /\ forallb plainMove moves = true.
Proof.
  induction entries as [|x rest IH]; intros H.
  - exists []. split; [ reflexivity | split; reflexivity ].
  - cbn in H. apply andb_true_iff in H. destruct H as [Hx Hrest].
    destruct (IH Hrest) as [moves [Em [Hm Hp]]].
    unfold usableMove in Hx. cbn [mapThrowing]. unfold toBattleMove at 1.
    destruct (Api.move_type x) as [ty|]; [ | discriminate ].
    apply andb_true_iff in Hx. destruct Hx as [Hty Hpow].
    rewrite Em. eexists. split; [ reflexivity | ].
    cbn [forallb BattleMove.power BattleMove.type]. unfold plainMove at 1.
    cbn [BattleMove.power BattleMove.type].
    rewrite Hty, Hpow, Hm, Hp.
    unfold moderateNumber in Hpow. apply andb_true_iff in Hpow.
    destruct Hpow as [Hnn _]. rewrite Hnn. split; reflexivity.
Qed.

(** On a dependable catalog that still answers, [createBattlePokemon]
    returns a well-formed combatant of ordinary size at full hit points,
    after three requests. *)
Lemma createBattlePokemon_dependable (pokemonId : number) (w : World)
    (a1 a2 a3 : option Api.pokemon) (rest : Service) :
  catalog w = a1 :: a2 :: a3 :: rest ->
  dependable (catalog w) ->
  exists p,
    createBattlePokemon pokemonId defaultLevel w = (Normal (Some p), setCatalog rest w)
    /\ wellFormed p = true
    /\ hpInRange p = true
    /\ moderate p = true.
Proof.
  intros Hc Hd. rewrite Hc in Hd.
  destruct (dependable_cons3 _ _ _ _ Hd) as [H1 [H2 [H3 _]]].
  destruct a1 as [body|]; [ | discriminate ].
  destruct a2 as [movesBody|]; [ | discriminate ].
  destruct a3 as [statsBody|]; [ | discriminate ].
  cbn [usableAnswer] in H1, H2, H3. unfold usableBody in H1, H2, H3.
  apply andb_true_iff in H1. destruct H1 as [H1 _].
  apply andb_true_iff in H1. destruct H1 as [_ Htypes].
  apply andb_true_iff in H2. destruct H2 as [H2 _].
  apply andb_true_iff in H2. destruct H2 as [Hmoves _].
  apply andb_true_iff in H3. destruct H3 as [_ Hstats].
  destruct (usableMoves_readable _ Hmoves) as [moves [Em [Hpower Hplain]]].
  destruct (Api.base_stats statsBody)
    as [|hp [|attack [|defense [|specialAttack [|specialDefense [|speed more]]]]]]
    eqn:Es; try discriminate.
  rewrite !andb_true_iff in Hstats.
  destruct Hstats as [[[[Hstats Hatk] Hsatk] Hdef] Hsdef].
  eexists. split; [ | split; [ | split ] ].
  - unfold createBattlePokemon, getPokemonMoves, getPokemonStats, tryCatch, bind,
      onCatalog, fetchFromPokeAPI, lift, ret, baseStat.
    rewrite Hc. cbn [catalog setCatalog fst snd]. rewrite Em.
    cbn [catalog setCatalog fst snd]. rewrite Es.
    cbn [nth_error catalog setCatalog fst snd].
    unfold setCatalog. cbn [catalog currentBattle random]. reflexivity.
  - unfold wellFormed.
    cbn [BattlePokemon.stats BattlePokemon.level BattlePokemon.moves BattlePokemon.items].
    rewrite Hstats, Hpower. reflexivity.
  - unfold hpInRange. cbn [BattlePokemon.currentHp BattlePokemon.stats BattleStats.hp].
    unfold wellFormedStats in Hstats. cbn [BattleStats.hp] in Hstats.
    rewrite !andb_true_iff in Hstats.
    destruct Hstats as [[[[Hhp _] _] _] _].
    apply nonNegative_NN in Hhp. destruct Hhp as [q [-> Hq]].
    cbn. apply andb_true_iff. split; apply Qle_bool_iff; [ exact Hq | apply Qle_refl ].
  - unfold moderate.
    cbn [BattlePokemon.stats BattlePokemon.level BattlePokemon.moves BattlePokemon.types
         BattleStats.attack BattleStats.specialAttack BattleStats.defense
         BattleStats.specialDefense].
    rewrite Hatk, Hsatk, Hdef, Hsdef, Hplain, Htypes. reflexivity.
Qed.

(** Once the catalog has stopped answering, hydration fails and nothing
    is consumed. *)
Lemma createBattlePokemon_exhausted (pokemonId : number) (w : World) :
  catalog w = [] ->
  createBattlePokemon pokemonId defaultLevel w = (Normal None, w).
Proof.
  intros Hc. unfold createBattlePokemon, tryCatch, bind, onCatalog, fetchFromPokeAPI, ret.
  rewrite Hc. cbn. destruct w as [cb r c]. cbn in Hc. subst c. reflexivity.
Qed.

Lemma moderateNumber_within (x : number) : moderateNumber x = true -> within 20 x.
Proof.
  unfold moderateNumber. rewrite andb_true_iff. intros [Hnn Hle].
  apply nonNegative_NN in Hnn. destruct Hnn as [q [-> Hq]].
  exists q. split; [ reflexivity | ]. split; [ exact Hq | ].
  cbn [JS.leb] in Hle. apply Qle_bool_iff in Hle.
  change (JS.pow2 20) with 1048576%Q. exact Hle.
Qed.

Lemma solidNumber_value (x : number) :
  solidNumber x = true -> exists y, x = JS.Fin y /\ (1 <= y)%Q.
Proof.
  unfold solidNumber. rewrite andb_true_iff. intros [Hf Hle].
  destruct x as [y|s|]; try discriminate.
  exists y. split; [ reflexivity | apply Qle_bool_iff, Hle ].
Qed.

(** Numbers of ordinary size give a finite quotient in the damage
    formula. *)
Lemma quotient_within (level power attack defense : number) :
  moderateNumber level = true -> moderateNumber power = true ->
  moderateNumber attack = true -> solidNumber defense = true ->
  within 62 (Formula.quotient level power attack defense).
Proof.
  intros Hl Hp Ha Hd.
  apply moderateNumber_within in Hl, Hp, Ha.
  destruct (solidNumber_value _ Hd) as [y [-> Hy]].
  assert (W2 : within 1 2).
  { exists 2%Q. split; [ reflexivity | ]. change (JS.pow2 1) with 2%Q. lra. }
  unfold Formula.quotient.
  apply within_fdiv; [ lia | | exact Hy ].
  apply (within_fmul 42 20); [ lia | | exact Ha ].
  apply (within_fmul 22 20); [ lia | | exact Hp ].
  apply (within_fadd 21); [ lia | | apply (within_weaken 1); [ lia | exact W2 ] ].
  apply (within_fdiv 21 _ 5); [ lia | | lra ].
  apply (within_fmul 1 20); [ lia | exact W2 | exact Hl ].
Qed.

(** Combatants of ordinary size are tame against each other. *)
Lemma moderate_tameAgainst (attacker defender : BattlePokemon.t) :
  moderate attacker = true -> moderate defender = true ->
  tameAgainst attacker defender = true.
Proof.
  unfold moderate. rewrite !andb_true_iff.
  intros [[[[[[Hl Ha] Hsa] _] _] Hm] _] [[[[[[_ _] _] Hd] Hsd] _] Ht].
  unfold tameAgainst. apply andb_true_iff. split; [ | exact Ht ].
  apply forallb_forall. intros move Hin.
  rewrite forallb_forall in Hm. specialize (Hm move Hin).
  unfold plainMove in Hm. apply andb_true_iff in Hm. destruct Hm as [Hty Hpow].
  rewrite Hty. cbn [andb].
  apply (within_isFinite 62). apply quotient_within; try assumption.
  - unfold attackStat. destruct (isPhysical move); assumption.
  - unfold defenseStat. destruct (isPhysical move); assumption.
Qed.

Lemma moderate_tame (b : BattleState.t) :
  moderate (BattleState.playerPokemon b) = true ->
  moderate (BattleState.opponentPokemon b) = true ->
  tame b.
Proof.
  intros Hp Ho. split; apply moderate_tameAgainst; assumption.
Qed.

(** What [moderate] depends on. *)
Lemma moderate_sameCard (p q : BattlePokemon.t) :
  sameCard p q -> moderate q = moderate p.
Proof.
  intros [_ [_ [Hl [Ht [Hs [Hm _]]]]]]. unfold moderate.
  rewrite Hl, Ht, Hs, Hm. reflexivity.
Qed.

Lemma start_battle_steady (playerPokemonId opponentPokemonId : number) (w : World) :
  steady w -> steady (snd (start_battle playerPokemonId opponentPokemonId w)).
Proof.
  intros [Hd [Hr Hb]].
  unfold start_battle, startBattle, tryCatch, bind.
  destruct (dependable_shape _ Hd) as [Hc | [a1 [a2 [a3 [rest Hc]]]]].
  - rewrite (createBattlePokemon_exhausted _ w Hc).
    rewrite (createBattlePokemon_exhausted _ w Hc). cbn.
    split; [ exact Hd | split; [ exact Hr | exact Hb ] ].
  - destruct (createBattlePokemon_dependable playerPokemonId w _ _ _ _ Hc Hd)
      as [player [E1 [Hw1 [Hr1 Hm1]]]].
    rewrite E1.
    assert (Hd1 : dependable (catalog (setCatalog rest w))).
    { rewrite Hc in Hd. apply (dependable_cons3 _ _ _ _ Hd). }
    destruct (dependable_shape _ Hd1) as [Hc1 | [b1 [b2 [b3 [rest1 Hc1]]]]].
    + rewrite (createBattlePokemon_exhausted _ _ Hc1). cbn.
      split; [ exact Hd1 | split; [ exact Hr | exact Hb ] ].
    + destruct (createBattlePokemon_dependable opponentPokemonId _ _ _ _ _ Hc1 Hd1)
        as [opponent [E2 [Hw2 [Hr2 Hm2]]]].
      rewrite E2. cbn.
      split; [ | split; [ exact Hr | ] ].
      * cbn in Hc1. rewrite Hc1 in Hd1. apply (dependable_cons3 _ _ _ _ Hd1).
      * split; [ | split; assumption ].
        split; [ exact Hw1 | split; [ exact Hw2 | split; [ exact Hr1 | exact Hr2 ] ] ].
Qed.

Lemma make_move_steady (moveIndex : number) (w : World) :
  steady w -> steady (snd (make_move moveIndex w)).
Proof.
  intros [Hd [Hr Hb]].
  assert (H0 : unitInterval 0%Q) by (unfold unitInterval; lra).
  destruct (make_move_draws unitInterval moveIndex w H0 Hr) as [Hr1 Hc1].
  unfold steady. rewrite Hc1. split; [ exact Hd | ]. split; [ exact Hr1 | ].
  destruct (currentBattle w) as [b|] eqn:Eb.
  - destruct (ReachFacts.make_move_battle moveIndex w b Eb) as [E | E]; rewrite E;
      [ exact I | ].
    destruct Hb as [Hs [Mp Mo]].
    destruct (FrameFacts.executeBattleTurn_sameSetting moveIndex b (random w))
      as [Cp [Co _]].
    split; [ apply executeBattleTurn_sound;
               [ exact Hs | apply moderate_tame; assumption | exact Hr ] | ].
    rewrite (moderate_sameCard _ _ Cp), (moderate_sameCard _ _ Co). auto.
  - unfold make_move, bind, gets. rewrite Eb. cbn. rewrite Eb. exact I.
Qed.

Lemma applyItem_moderate (n : nat) (item : BattleItem.t) (b : BattleState.t) :
  moderate (BattleState.playerPokemon (applyItem n item b))
  = moderate (BattleState.playerPokemon b)
  /\ BattleState.opponentPokemon (applyItem n item b) = BattleState.opponentPokemon b.
Proof.
  unfold applyItem. destruct (healAmount item); split; reflexivity.
Qed.

Lemma use_item_steady (itemIndex : number) (w : World) :
  steady w -> steady (snd (use_item itemIndex w)).
Proof.
  intros [Hd [Hr Hb]]. unfold use_item, bind, gets.
  destruct (currentBattle w) as [b|] eqn:Eb;
    [ | cbn; unfold steady; rewrite Eb; auto ].
  destruct (JS.arrayIndex itemIndex) as [n|];
    [ | cbn; unfold steady; rewrite Eb; auto ].
  destruct (nth_error (BattlePokemon.items (BattleState.playerPokemon b)) n)
    as [item|] eqn:En; [ | cbn; unfold steady; rewrite Eb; auto ].
  destruct Hb as [Hs [Mp Mo]]. destruct (applyItem_moderate n item b) as [E1 E2].
  pose proof (applyItem_sound n item b En Hs) as Hs1.
  rewrite <- E1 in Mp. rewrite <- E2 in Mo.
  remember (applyItem n item b) as b1 eqn:Eb1. clear Eb1.
  cbn. unfold steady. cbn. auto.
Qed.

Lemma handler_steady (call : toolCall) (w : World) :
  steady w -> steady (snd (handler call w)).
Proof.
  destruct call as [p o | i | i]; cbn [handler].
  - apply start_battle_steady.
  - apply make_move_steady.
  - apply use_item_steady.
Qed.

Lemma play_steady (calls : list toolCall) (w : World) :
  steady w -> steady (play calls w).
Proof.
  revert w. induction calls as [|call rest IH]; intros w Hw; [ exact Hw | ].
  cbn [play]. apply IH, handler_steady, Hw.
Qed.

(** X20.  With a dependable catalog the hit-point invariant holds for
    good.  Take a process without a battle whose catalog answers every
    request with a creature record whose type tags, and those of its first
    four moves, name no member of [Object.prototype], whose first four
    moves carry a type and a power from 0 to 2^20 and whose six stats are
    finite and non-negative, the attack stats at most 2^20 and the defense
    stats 1 at least (until it stops answering, between two creatures),
    and whose values of [Math.random()] are in [0, 1).  After
    any sequence of calls of [start_battle], [make_move] and [use_item],
    with any arguments, returning or throwing, the stored Encounter, if
    there is one, has well-formed combatants with
    [0 <= currentHp <= stats.hp]; in particular no hit point count is ever
    [NaN] or infinite. *)
Theorem dependable_catalog_keeps_hp_in_range :
  forall (calls : list toolCall) (random : list Q) (catalog : Service),
    dependable catalog ->
    Forall unitInterval random ->
    match currentBattle
            (play calls {| currentBattle := None; random := random;
                           catalog := catalog |}) with
    | Some b =>
        sound b
        /\ hpInvariant b = true
        /\ isFinite (BattlePokemon.currentHp (BattleState.playerPokemon b)) = true
        /\ isFinite (BattlePokemon.currentHp (BattleState.opponentPokemon b)) = true
    | None => True
    end.
Proof.
  intros calls random catalog Hd Hr.
  assert (Hw : steady {| currentBattle := None; random := random;
                         catalog := catalog |}).
  { split; [ exact Hd | split; [ exact Hr | exact I ] ]. }
  destruct (play_steady calls _ Hw) as [_ [_ Hb]].
  destruct (currentBattle (play calls _)) as [b|]; [ | exact I ].
  destruct Hb as [Hb _].
  split; [ exact Hb | ].
  destruct Hb as [Hwp [Hwo [Hrp Hro]]].
  split; [ unfold hpInvariant; rewrite Hrp, Hro; reflexivity | ].
  destruct (wellFormed_parts _ Hwp) as [Hhp _].
  destruct (wellFormed_parts _ Hwo) as [Hho _].
  destruct (hpInRange_value _ Hhp Hrp) as [c [h [-> _]]].
  destruct (hpInRange_value _ Hho Hro) as [c' [h' [-> _]]].
  split; reflexivity.
Qed.

Lemma healthyCatalog_dependable : dependable Fixtures.healthyCatalog.
Proof. split; [ reflexivity | exists 2%nat; reflexivity ]. Qed.

(** A battle against the healthy catalog: started, one turn, an item
    request, an index that names no move, a restart that finds the catalog
    used up. *)
Lemma dependable_catalog_keeps_hp_in_range_witness :
  match currentBattle
          (play [StartBattle 1 4; MakeMove 0; UseItem 0; MakeMove 3; StartBattle 4 1]
             {| currentBattle := None; random := Samples.sixDraws;
                catalog := Fixtures.healthyCatalog |}) with
  | Some b =>
      sound b
      /\ hpInvariant b = true
      /\ isFinite (BattlePokemon.currentHp (BattleState.playerPokemon b)) = true
      /\ isFinite (BattlePokemon.currentHp (BattleState.opponentPokemon b)) = true
  | None => True
  end.
Proof.
  exact (dependable_catalog_keeps_hp_in_range
           [StartBattle 1 4; MakeMove 0; UseItem 0; MakeMove 3; StartBattle 4 1]
           Samples.sixDraws Fixtures.healthyCatalog
           healthyCatalog_dependable sixDraws_unitInterval).
Defined.

End SteadyFacts.

(* ================================================================== *)
(** ** What [start_battle] answers, and combatants without moves *)
(* ================================================================== *)

Module AnswerFacts.
Import Engine Catalog Server Props Views JSFacts TurnFacts UpkeepFacts.
Import HydrationFacts StartFacts OutcomeFacts.

(** X21.  [start_battle] never throws and never touches the random
    stream.  It answers either with the battle-started text for the
    Encounter it has just stored, or with exactly "Failed to start battle:
    Failed to create battle Pokémon", in which case the stored Encounter is
    the one stored before; the fallback text 'Unknown error occurred' is
    never used, because nothing but the hydration failure reaches the
    handler's [catch]. *)
Theorem start_battle_answers :
  forall (playerPokemonId opponentPokemonId : number) (w : World),
    exists text w1,
      start_battle playerPokemonId opponentPokemonId w = (Normal text, w1)
      /\ random w1 = random w
      /\ ((exists battle,
             text = battleStartedText battle
             /\ currentBattle w1 = Some battle
             /\ BattleState.turn battle = 1
             /\ BattleState.battleLog battle = [])
          \/ (text = "Failed to start battle: Failed to create battle Pokémon"
              /\ currentBattle w1 = currentBattle w)).
Proof.
  intros pid oid w.
  destruct (ServerClaims.createBattlePokemon_frame pid defaultLevel w) as [r1 [s1 E1]].
  destruct (ServerClaims.createBattlePokemon_frame oid defaultLevel (setCatalog s1 w))
    as [r2 [s2 E2]].
  unfold start_battle, startBattle, tryCatch, bind. rewrite E1, E2.
  destruct r1 as [player|], r2 as [opponent|]; cbn;
    do 2 eexists; (split; [ reflexivity | ]); (split; [ reflexivity | ]);
    try (right; split; reflexivity).
  left. eexists. repeat split; reflexivity.
Qed.

(** A failed moves request does not fail hydration: the combatant comes
    without moves. *)
Lemma createBattlePokemon_without_moves (pokemonId level : number) (w : World)
    (body : Api.pokemon) (statsAnswer : option Api.pokemon) (rest : Service) :
  catalog w = Some body :: None :: statsAnswer :: rest ->
  match statsAnswer with
  | Some statsBody => (6 <= List.length (Api.base_stats statsBody))%nat
  | None => True
  end ->
  exists p,
    createBattlePokemon pokemonId level w = (Normal (Some p), setCatalog rest w)
    /\ BattlePokemon.moves p = [].
Proof.
  intros Hc Hs.
  unfold createBattlePokemon, getPokemonMoves, getPokemonStats, tryCatch, bind,
    onCatalog, fetchFromPokeAPI, lift, ret, baseStat.
  rewrite Hc. cbn [catalog setCatalog fst snd].
  destruct statsAnswer as [statsBody|]; cbn [catalog setCatalog fst snd].
  - destruct (Api.base_stats statsBody)
      as [|s0 [|s1 [|s2 [|s3 [|s4 [|s5 more]]]]]]; cbn in Hs; try lia.
    cbn [nth_error catalog setCatalog fst snd].
    eexists. split; [ unfold setCatalog; cbn; reflexivity | reflexivity ].
  - eexists. split; [ unfold setCatalog; cbn; reflexivity | reflexivity ].
Qed.

(** A turn in which the opponent's move is [undefined] and the player's
    move is of plain type: the player's block runs, and the opponent's
    block throws if the opponent is still up. *)
Lemma executeBattleTurn_opponent_without_moves (playerMoveIndex : number)
    (b : BattleState.t) (random : list Q) (m : BattleMove.t) :
  JS.subscript (BattlePokemon.moves (BattleState.playerPokemon b)) playerMoveIndex
  = Some m ->
  plainTag (BattleMove.type m) = true ->
  BattlePokemon.moves (BattleState.opponentPokemon b) = [] ->
  exists b1 random1,
    playerTurn (Some m) (afterUpkeep b, tl random) = (Normal tt, (b1, random1))
    /\ executeBattleTurn playerMoveIndex (b, random)
       = if alive (BattleState.opponentPokemon b1)
         then (Throw (undefinedProperty "accuracy"), (b1, tl random1))
         else (Normal (BattleState.setTurn (BattleState.turn b1 + 1) b1),
               (BattleState.setTurn (BattleState.turn b1 + 1) b1, random1)).
Proof.
  intros Hm Hplain Hnone.
  destruct (HpFacts.afterUpkeep_moves b) as [Hmp Hmo].
  destruct (playerTurn_returns m (afterUpkeep b) (tl random) Hplain)
    as [b1 [k [_ E1]]].
  exists b1, (drawn k (tl random)). split; [ exact E1 | ].
  unfold executeBattleTurn, bind, update, modify, read, gets.
  cbn [fst snd].
  change (applyStatusEffects (applyWeatherEffects (BattleState.setBattleLog [] b)))
    with (afterUpkeep b).
  rewrite Hmp, Hm, turnRandom_value. cbn [fst snd].
  rewrite Hmo, Hnone.
  assert (En : randomMove (hd 0%Q random) [] = None).
  { unfold randomMove, JS.subscript.
    destruct (JS.arrayIndex _) as [n|]; [ destruct n | ]; reflexivity. }
  rewrite En, E1.
  unfold opponentTurn, opponentAlive, read, gets, bind, alive. cbn [fst snd].
  destruct (BattlePokemon.currentHp (BattleState.opponentPokemon b1) >? 0) eqn:Halive.
  - unfold isMoveHit, bind. rewrite turnRandom_value. reflexivity.
  - unfold ret. cbn [fst snd]. rewrite Halive. reflexivity.
Qed.

(** X22.  A moves request that fails does not fail hydration:
    [getPokemonMoves] returns no moves and [createBattlePokemon] returns a
    combatant with an empty move list.  With such a player every
    [make_move], whatever the index, throws a [TypeError] out of the
    handler; with such an opponent a turn runs the player's block (for a
    move whose type names no member of [Object.prototype]) and then throws
    the same error if the opponent still has [currentHp > 0], and returns
    only if the player's attack has brought the opponent down. *)
Theorem combatant_without_moves :
  (forall (pokemonId level : number) (w : World) (body : Api.pokemon)
          (statsAnswer : option Api.pokemon) (rest : Service),
      catalog w = Some body :: None :: statsAnswer :: rest ->
      match statsAnswer with
      | Some statsBody => (6 <= List.length (Api.base_stats statsBody))%nat
      | None => True
      end ->
      exists p,
        createBattlePokemon pokemonId level w = (Normal (Some p), setCatalog rest w)
        /\ BattlePokemon.moves p = [])
  /\ (forall (moveIndex : number) (w : World) (b : BattleState.t),
        currentBattle w = Some b ->
        BattlePokemon.moves (BattleState.playerPokemon b) = [] ->
        fst (make_move moveIndex w)
        = Throw (JS.TypeError "Cannot read properties of undefined (reading 'accuracy')"))
  /\ (forall (playerMoveIndex : number) (b : BattleState.t) (random : list Q)
             (m : BattleMove.t),
        JS.subscript (BattlePokemon.moves (BattleState.playerPokemon b)) playerMoveIndex
        = Some m ->
        plainTag (BattleMove.type m) = true ->
        BattlePokemon.moves (BattleState.opponentPokemon b) = [] ->
        exists b1 random1,
          playerTurn (Some m) (afterUpkeep b, tl random) = (Normal tt, (b1, random1))
          /\ executeBattleTurn playerMoveIndex (b, random)
             = if alive (BattleState.opponentPokemon b1)
               then (Throw (undefinedProperty "accuracy"), (b1, tl random1))
               else (Normal (BattleState.setTurn (BattleState.turn b1 + 1) b1),
                     (BattleState.setTurn (BattleState.turn b1 + 1) b1, random1))).
Proof.
  split; [ | split ].
  - apply createBattlePokemon_without_moves.
  - intros moveIndex w b Hb Hnone.
    rewrite (ServerClaims.make_move_invalid_index moveIndex w b Hb); [ reflexivity | ].
    rewrite Hnone. unfold JS.subscript.
    destruct (JS.arrayIndex moveIndex) as [n|]; [ destruct n | ]; reflexivity.
  - apply executeBattleTurn_opponent_without_moves.
Qed.

(** Charmander's moves request fails: it is hydrated without moves.  As
    the player it makes [make_move(0)] throw; as the opponent it makes the
    first turn throw after Bulbasaur's vine-whip has hit. *)
Lemma combatant_without_moves_witness :
  (exists p,
     createBattlePokemon 4 50
       (Fixtures.fresh [] [Some Fixtures.charmander; None; Some Fixtures.charmander])
     = (Normal (Some p), Fixtures.fresh [] [])
     /\ BattlePokemon.moves p = [])
  /\ fst (make_move 0 (Samples.unarmedDuel Samples.sixDraws))
     = Throw (JS.TypeError "Cannot read properties of undefined (reading 'accuracy')")
  /\ exists b1 random1,
       playerTurn (Some Fixtures.vineWhip)
         (afterUpkeep Samples.walkover, tl Samples.sixDraws)
       = (Normal tt, (b1, random1))
       /\ executeBattleTurn 0 (Samples.walkover, Samples.sixDraws)
          = if alive (BattleState.opponentPokemon b1)
            then (Throw (undefinedProperty "accuracy"), (b1, tl random1))
            else (Normal (BattleState.setTurn (BattleState.turn b1 + 1) b1),
                  (BattleState.setTurn (BattleState.turn b1 + 1) b1, random1)).
Proof.
  destruct combatant_without_moves as [Hcreate [Hplayer Hopponent]].
  split; [ | split ].
  - apply (Hcreate 4 50
             (Fixtures.fresh [] [Some Fixtures.charmander; None; Some Fixtures.charmander])
             Fixtures.charmander (Some Fixtures.charmander) []).
    + reflexivity.
    + cbn. lia.
  - apply (Hplayer 0 (Samples.unarmedDuel Samples.sixDraws)
             (Fixtures.encounter Samples.unarmedCharmander Fixtures.bulbasaur50));
      reflexivity.
  - apply (Hopponent 0 Samples.walkover Samples.sixDraws Fixtures.vineWhip);
      reflexivity.
Defined.

End AnswerFacts.

(* ================================================================== *)
(** ** The older server's [start_battle] *)
(* ================================================================== *)

Module OlderStartFacts.
Import Catalog Props Views JSFacts HydrationFacts StartFacts.

(** X23.  The older server's [start_battle] has no [try]: what hydration
    throws leaves the handler.  When the player's creature request fails,
    the error "Pokemon not found" is thrown after that one request; when it
    succeeds and the stats answer that follows (the older server reads the
    stats before the moves) has fewer than six entries, or the moves answer
    after it has an entry without a type among its first four, a
    [TypeError] is thrown.  In each case the stored Encounter is the one
    stored before and the random stream is untouched. *)
Theorem legacy_start_battle_throws :
  forall (playerPokemonId opponentPokemonId : number) (w : Legacy.World),
    (forall rest,
       Legacy.catalog w = None :: rest ->
       Legacy.start_battle playerPokemonId opponentPokemonId w
       = (Throw (JS.Error "Pokemon not found"),
          {| Legacy.currentBattle := Legacy.currentBattle w;
             Legacy.random := Legacy.random w;
             Legacy.catalog := rest |}))
    /\ (forall body statsBody rest,
          Legacy.catalog w = Some body :: Some statsBody :: rest ->
          (List.length (Api.base_stats statsBody) < 6)%nat ->
          Legacy.start_battle playerPokemonId opponentPokemonId w
          = (Throw (JS.TypeError
                      "Cannot read properties of undefined (reading 'base_stat')"),
             {| Legacy.currentBattle := Legacy.currentBattle w;
                Legacy.random := Legacy.random w;
                Legacy.catalog := rest |}))
    /\ (forall body statsBody movesBody rest,
          Legacy.catalog w = Some body :: Some statsBody :: Some movesBody :: rest ->
          (6 <= List.length (Api.base_stats statsBody))%nat ->
          existsb (fun entry => match Api.move_type entry with
                                | None => true
                                | Some _ => false
                                end)
                  (firstn 4 (Api.moves movesBody)) = true ->
          Legacy.start_battle playerPokemonId opponentPokemonId w
          = (Throw (JS.TypeError
                      "Cannot read properties of undefined (reading 'name')"),
             {| Legacy.currentBattle := Legacy.currentBattle w;
                Legacy.random := Legacy.random w;
                Legacy.catalog := rest |})).
Proof.
  intros pid oid w. split; [ | split ].
  - intros rest Hc.
    apply (LegacyFacts.legacy_start_battle_unavailable pid oid w rest Hc).
  - intros body statsBody rest Hc Hlen.
    unfold Legacy.start_battle, Legacy.startBattle, Legacy.createBattlePokemon,
      getPokemonStats, bind, Legacy.onCatalog, fetchFromPokeAPI, lift, baseStat,
      throw, ret.
    rewrite Hc. cbn [fst snd Legacy.catalog Legacy.currentBattle Legacy.random].
    destruct (Api.base_stats statsBody) as [|s0 [|s1 [|s2 [|s3 [|s4 [|s5 more]]]]]];
      cbn in Hlen; try lia; reflexivity.
  - intros body statsBody movesBody rest Hc Hlen Hm.
    assert (He : exists e, mapThrowing toBattleMove (firstn 4 (Api.moves movesBody))
                           = Throw e /\ e = Engine.undefinedProperty "name").
    { clear Hc. induction (firstn 4 (Api.moves movesBody)) as [|x l IH];
        [ discriminate | ].
      cbn in Hm. cbn [mapThrowing]. unfold toBattleMove at 1.
      destruct (Api.move_type x) as [ty|]; cbn in Hm.
      - destruct (IH Hm) as [e [E ->]]. rewrite E. eauto.
      - eauto. }
    destruct He as [e [He ->]].
    unfold Legacy.start_battle, Legacy.startBattle, Legacy.createBattlePokemon,
      getPokemonStats, getPokemonMoves, bind, Legacy.onCatalog, fetchFromPokeAPI, lift,
      baseStat, throw, ret.
    rewrite Hc. cbn [fst snd Legacy.catalog Legacy.currentBattle Legacy.random].
    destruct (Api.base_stats statsBody) as [|s0 [|s1 [|s2 [|s3 [|s4 [|s5 more]]]]]];
      cbn in Hlen; try lia.
    cbn [nth_error fst snd Legacy.catalog Legacy.currentBattle Legacy.random].
    rewrite He. reflexivity.
Qed.

(** The older server with the catalog down. *)
Lemma legacy_start_battle_throws_witness :
  Legacy.start_battle 1 4
    {| Legacy.currentBattle := None; Legacy.random := []; Legacy.catalog := [None] |}
  = (Throw (JS.Error "Pokemon not found"),
     {| Legacy.currentBattle := None; Legacy.random := []; Legacy.catalog := [] |}).
Proof.
  apply (proj1 (legacy_start_battle_throws 1 4
                  {| Legacy.currentBattle := None; Legacy.random := [];
                     Legacy.catalog := [None] |})
           []).
  reflexivity.
Defined.

End OlderStartFacts.

(* ================================================================== *)
(** ** A battle comes to an end *)
(* ================================================================== *)

Module ProgressFacts.
Import Engine Server Props Views JSFacts Hoare TurnFacts UpkeepFacts HpFacts.
Import SelectionFacts HydrationFacts FrameFacts OutcomeFacts DurationFacts.
Import DamageFloorFacts.

(** The player's block with a move of plain type that cannot miss. *)
Lemma playerTurn_sure_hit (m : BattleMove.t) (b : BattleState.t) (random : list Q) :
  (100 <=? BattleMove.accuracy m) = true ->
  plainTag (BattleMove.type m) = true ->
  Forall unitInterval random ->
  exists b1 damage,
    playerTurn (Some m) (b, random) = (Normal tt, (b1, drawn 2 random))
    /\ calculateDamage (BattleState.playerPokemon b)
         (BattleState.opponentPokemon b) m (hd 0%Q (tl random)) = Normal damage
    /\ BattleState.opponentPokemon b1
       = takeDamage damage (BattleState.opponentPokemon b).
Proof.
  intros Hacc Hplain Hr.
  unfold playerTurn, bind. rewrite isMoveHit_value.
  rewrite (full_accuracy_hits _ _ (hd_unitInterval random Hr) Hacc).
  unfold read, gets. cbn [fst snd].
  destruct (callCalculateDamage_returns (BattleState.playerPokemon b)
              (BattleState.opponentPokemon b) m b (tl random) Hplain)
    as [damage [Ed E]].
  rewrite E. unfold bind, update, modify, moveName, ret. cbn [fst snd].
  eexists. exists damage. split; [ reflexivity | ]. split; [ exact Ed | reflexivity ].
Qed.

(** The opponent's block, returning or throwing, leaves the opponent as
    it is. *)
Lemma opponentTurn_opponent (move : option BattleMove.t) (b : BattleState.t)
    (random : list Q) :
  BattleState.opponentPokemon (fst (snd (opponentTurn move (b, random))))
  = BattleState.opponentPokemon b.
Proof.
  run_turn. destruct move as [m|]; run_cases; reflexivity.
Qed.

Lemma takeDamage_ofZ (d c : Z) (target : BattlePokemon.t) :
  BattlePokemon.currentHp target = JS.ofZ c ->
  BattlePokemon.currentHp (takeDamage (JS.ofZ d) target) = JS.ofZ (Z.max 0 (c - d)).
Proof.
  intros Hc. unfold takeDamage.
  cbn [BattlePokemon.currentHp BattlePokemon.setCurrentHp].
  rewrite Hc, sub_ofZ, max_ofZ. reflexivity.
Qed.

Lemma tameAgainst_plainMoves (attacker defender : BattlePokemon.t) :
  tameAgainst attacker defender = true -> plainMoves attacker = true.
Proof.
  intros Ht. unfold plainMoves. apply forallb_forall. intros move Hin.
  apply (tameAgainst_parts attacker defender move Ht Hin).
Qed.

(** What [tame] depends on is part of the setting. *)
Lemma tame_sameSetting (b b1 : BattleState.t) :
  sameSetting b b1 -> tame b -> tame b1.
Proof.
  intros [[_ [_ [Lp [Tp [Sp [Mp _]]]]]] [[_ [_ [Lo [To [So [Mo _]]]]]] _]] [Hp Ho].
  split.
  - rewrite (tameAgainst_ext (BattleState.playerPokemon b) (BattleState.opponentPokemon b)
               (BattleState.playerPokemon b1) (BattleState.opponentPokemon b1));
      assumption.
  - rewrite (tameAgainst_ext (BattleState.opponentPokemon b) (BattleState.playerPokemon b)
               (BattleState.opponentPokemon b1) (BattleState.playerPokemon b1));
      assumption.
Qed.

(** A turn with a neutral move that cannot miss takes at least one hit
    point from the opponent. *)
Lemma executeBattleTurn_lowers_opponent (playerMoveIndex : number) (b : BattleState.t)
    (random : list Q) (m : BattleMove.t) (c : Z) :
  sound b -> tame b -> noStatus b ->
  JS.subscript (BattlePokemon.moves (BattleState.playerPokemon b)) playerMoveIndex
  = Some m ->
  rowless m = true ->
  (100 <=? BattleMove.accuracy m) = true ->
  Forall unitInterval random ->
  BattlePokemon.currentHp (BattleState.opponentPokemon b) = JS.ofZ c ->
  exists d,
    (1 <= d)%Z
    /\ BattlePokemon.currentHp
         (BattleState.opponentPokemon
            (fst (snd (executeBattleTurn playerMoveIndex (b, random)))))
       = JS.ofZ (Z.max 0 (c - d)).
Proof.
  intros Hsound Htame Hs Hm Hrow Hacc Hr Hc.
  destruct (afterUpkeep_moves b) as [Hmp Hmo].
  pose proof (afterUpkeep_player b) as Hp. pose proof (afterUpkeep_opponent b) as Ho.
  destruct Hs as [Hsp Hso].
  rewrite (ReachFacts.statusUpkeep_none _ Hsp) in Hp.
  rewrite (ReachFacts.statusUpkeep_none _ Hso) in Ho.
  destruct Hsound as [Hwp [Hwo _]].
  assert (Hplain : plainTag (BattleMove.type m) = true).
  { unfold rowless in Hrow.
    destruct (property typeChart (BattleMove.type m)); [ discriminate | exact Hrow ]. }
  destruct (playerTurn_sure_hit m (afterUpkeep b) (tl random) Hacc Hplain
              (Forall_tl _ _ Hr))
    as [b1 [damage [E1 [Edamage Hopp]]]].
  rewrite Ho in Hopp. rewrite Hp, Ho in Edamage.
  assert (Hu : unitInterval (hd 0%Q (tl (tl random)))).
  { apply hd_unitInterval, Forall_tl, Forall_tl, Hr. }
  assert (Hburn : PokemonStatus.type (BattlePokemon.status (BattleState.playerPokemon b))
                  <> Burn \/ isPhysical m = false).
  { left. rewrite Hsp. discriminate. }
  destruct (tameAgainst_parts _ _ m (proj1 Htame) (subscript_In _ _ _ Hm))
    as [_ [_ Hfin]].
  destruct (neutral_damage (BattleState.playerPokemon b) (BattleState.opponentPokemon b)
              m (hd 0%Q (tl (tl random))) Hwp Hwo
              (subscript_In _ _ _ Hm) Hrow Hfin Hburn Hu)
    as [d [Hd [Hcalc _]]].
  exists d. split; [ exact Hd | ].
  rewrite Hcalc in Edamage. inversion Edamage. subst damage.
  unfold executeBattleTurn, bind, update, modify, read, gets.
  cbn [fst snd].
  change (applyStatusEffects (applyWeatherEffects (BattleState.setBattleLog [] b)))
    with (afterUpkeep b).
  rewrite Hmp, Hm, turnRandom_value. cbn [fst snd]. rewrite E1.
  match goal with
  | |- context [opponentTurn ?mv (b1, ?r)] =>
      pose proof (opponentTurn_opponent mv b1 r) as Hkeep;
      destruct (opponentTurn mv (b1, r)) as [[[]|e] [b2 r2]]
  end; cbn [fst snd] in *;
    cbn [BattleState.opponentPokemon BattleState.setTurn];
    rewrite Hkeep, Hopp; apply takeDamage_ofZ, Hc.
Qed.

(** Without an Encounter, [make_move] calls change nothing. *)
Lemma play_without_battle (moveIndex : number) (n : nat) (w : World) :
  currentBattle w = None ->
  play (repeat (MakeMove moveIndex) n) w = w.
Proof.
  intros Hb. induction n as [|n IH]; [ reflexivity | ].
  cbn [repeat play handler]. unfold make_move, bind, gets. rewrite Hb.
  cbn [snd ret]. exact IH.
Qed.

(** One [make_move] with a neutral move that cannot miss: the battle is
    over, or the opponent has lost at least one hit point and everything
    else is as before. *)
Lemma make_move_progress (moveIndex : number) (m : BattleMove.t) (c : Z)
    (w : World) (b : BattleState.t) :
  rowless m = true ->
  (100 <=? BattleMove.accuracy m) = true ->
  currentBattle w = Some b ->
  sound b -> tame b -> noStatus b ->
  JS.subscript (BattlePokemon.moves (BattleState.playerPokemon b)) moveIndex = Some m ->
  BattlePokemon.moves (BattleState.opponentPokemon b) <> [] ->
  Forall unitInterval (random w) ->
  BattlePokemon.currentHp (BattleState.opponentPokemon b) = JS.ofZ c ->
  currentBattle (snd (make_move moveIndex w)) = None
  \/ exists b1 c1,
       currentBattle (snd (make_move moveIndex w)) = Some b1
       /\ sound b1 /\ tame b1 /\ noStatus b1
       /\ JS.subscript (BattlePokemon.moves (BattleState.playerPokemon b1)) moveIndex
          = Some m
       /\ BattlePokemon.moves (BattleState.opponentPokemon b1) <> []
       /\ Forall unitInterval (random (snd (make_move moveIndex w)))
       /\ BattlePokemon.currentHp (BattleState.opponentPokemon b1) = JS.ofZ c1
       /\ (1 <= c1 <= c - 1)%Z.
Proof.
  intros Hrow Hacc Hb Hsound Htame Hs Hm Hne Hr Hc.
  assert (Hplain : plainTag (BattleMove.type m) = true).
  { apply (tameAgainst_parts _ _ m (proj1 Htame) (subscript_In _ _ _ Hm)). }
  destruct (make_move_returns moveIndex w b m Hb Hm Hne Hplain
              (tameAgainst_plainMoves _ _ (proj2 Htame)) Hr)
    as [text [b1 [k [Hk [Eturn Ecall]]]]].
  pose proof (TurnClaims.executeBattleTurn_turn moveIndex b (random w)) as Hstate.
  pose proof (executeBattleTurn_sound moveIndex b (random w) Hsound Htame Hr) as Hsound1.
  pose proof (ReachFacts.executeBattleTurn_noStatus moveIndex b (random w) Hs) as Hs1.
  pose proof (executeBattleTurn_sameSetting moveIndex b (random w)) as Hsame.
  destruct (executeBattleTurn_lowers_opponent moveIndex b (random w) m c
              Hsound Htame Hs Hm Hrow Hacc Hr Hc) as [d [Hd Hhp]].
  destruct (executeBattleTurn moveIndex (b, random w)) as [[state|e] [after r1]];
    cbn [fst snd] in *; [ | discriminate ].
  destruct Hstate as [_ Hstate]. inversion Eturn. subst state after. 
  rewrite Ecall. cbn [snd currentBattle random].
  destruct (battleOver b1) eqn:Hover; [ left; reflexivity | right ].
  exists b1, (Z.max 0 (c - d)).
  pose proof (tame_sameSetting b b1 Hsame Htame) as Htame1.
  destruct Hsame as [[_ [_ [_ [_ [_ [Mp _]]]]]] [[_ [_ [_ [_ [_ [Mo _]]]]]] _]].
  split; [ reflexivity | ]. split; [ exact Hsound1 | ]. split; [ exact Htame1 | ].
  split; [ exact Hs1 | ].
  split; [ rewrite Mp; exact Hm | ]. split; [ rewrite Mo; exact Hne | ].
  split; [ apply Forall_drawn, Hr | ]. split; [ exact Hhp | ].
  unfold battleOver in Hover. apply orb_false_iff in Hover. destruct Hover as [_ Hover].
  rewrite Hhp in Hover. change 0 with (JS.ofZ 0) in Hover. rewrite leb_ofZ in Hover.
  apply Z.leb_gt in Hover. lia.
Qed.

Lemma play_ends (n : nat) :
  forall (moveIndex : number) (m : BattleMove.t) (c : Z) (w : World)
         (b : BattleState.t),
    rowless m = true ->
    (100 <=? BattleMove.accuracy m) = true ->
    currentBattle w = Some b ->
    sound b -> tame b -> noStatus b ->
    JS.subscript (BattlePokemon.moves (BattleState.playerPokemon b)) moveIndex = Some m ->
    BattlePokemon.moves (BattleState.opponentPokemon b) <> [] ->
    Forall unitInterval (random w) ->
    BattlePokemon.currentHp (BattleState.opponentPokemon b) = JS.ofZ c ->
    (c <= Z.of_nat n)%Z -> (1 <= n)%nat ->
    currentBattle (play (repeat (MakeMove moveIndex) n) w) = None.
Proof.
  induction n as [|n IH];
    intros moveIndex m c w b Hrow Hacc Hb Hsound Htame Hs Hm Hne Hr Hc Hbound Hn;
    [ lia | ].
  cbn [repeat play handler].
  destruct (make_move_progress moveIndex m c w b Hrow Hacc Hb Hsound Htame Hs Hm Hne Hr Hc)
    as [Hnone | [b1 [c1 [Hb1 [Hsound1 [Htame1 [Hs1 [Hm1 [Hne1 [Hr1 [Hc1 Hc1b]]]]]]]]]]].
  - rewrite (play_without_battle moveIndex n _ Hnone). exact Hnone.
  - apply (IH moveIndex m c1 _ b1); auto; lia.
Qed.

(** X24.  A battle comes to an end.  On a well-formed battle without
    status conditions whose type tags name no member of
    [Object.prototype] and whose moves give a finite quotient in the damage
    formula, when the player keeps choosing a move that cannot miss
    (accuracy 100 or more) and whose type is no row of the type chart, the
    opponent has at least one move, its currentHp is the integer [c] below
    2^53 (where the subtraction of the damage is exact) and
    [Math.random()] returns values in [0, 1): every [make_move] takes at
    least one hit point from the opponent, and after at most [max(c, 1)]
    calls the battle has ended and the Encounter is dropped. *)
Theorem battle_ends_within_opponent_hp :
  forall (n : nat) (moveIndex : number) (m : BattleMove.t) (c : Z) (w : World)
         (b : BattleState.t),
    rowless m = true ->
    (100 <=? BattleMove.accuracy m) = true ->
    currentBattle w = Some b ->
    sound b -> tame b -> noStatus b ->
    JS.subscript (BattlePokemon.moves (BattleState.playerPokemon b)) moveIndex = Some m ->
    BattlePokemon.moves (BattleState.opponentPokemon b) <> [] ->
    Forall unitInterval (random w) ->
    BattlePokemon.currentHp (BattleState.opponentPokemon b) = JS.ofZ c ->
    (c < 2 ^ 53)%Z ->
    (c <= Z.of_nat n)%Z -> (1 <= n)%nat ->
    currentBattle (play (repeat (MakeMove moveIndex) n) w) = None
    /\ exists d,
         (1 <= d)%Z
         /\ BattlePokemon.currentHp
              (BattleState.opponentPokemon
                 (fst (snd (executeBattleTurn moveIndex (b, random w)))))
            = JS.ofZ (Z.max 0 (c - d)).
Proof.
  intros n moveIndex m c w b Hrow Hacc Hb Hsound Htame Hs Hm Hne Hr Hc _ Hbound Hn.
  split.
  - apply (play_ends n moveIndex m c w b); assumption.
  - apply (executeBattleTurn_lowers_opponent moveIndex b (random w) m c); assumption.
Qed.

(** Bulbasaur's growl (1 or 2 damage a hit) against the scratching
    Charmander of 39 hit points: over after 39 calls at the latest. *)
Lemma battle_ends_within_opponent_hp_witness :
  currentBattle
    (play (repeat (MakeMove 0) 39)
       {| currentBattle := Some Samples.scuffle; random := []; catalog := [] |})
  = None.
Proof.
  assert (Hs : sound Samples.scuffle) by (repeat split; reflexivity).
  assert (Ht : tame Samples.scuffle) by (split; vm_compute; reflexivity).
  assert (Hn : noStatus Samples.scuffle) by (split; reflexivity).
  assert (Hrow : rowless Fixtures.growl = true) by reflexivity.
  assert (Hacc : (100 <=? BattleMove.accuracy Fixtures.growl) = true) by reflexivity.
  assert (Hm : JS.subscript
                 (BattlePokemon.moves (BattleState.playerPokemon Samples.scuffle)) 0
               = Some Fixtures.growl) by reflexivity.
  assert (Hne : BattlePokemon.moves (BattleState.opponentPokemon Samples.scuffle) <> [])
    by discriminate.
  assert (Hc : BattlePokemon.currentHp (BattleState.opponentPokemon Samples.scuffle)
               = JS.ofZ 39) by reflexivity.
  assert (Hlt : (39 < 2 ^ 53)%Z) by reflexivity.
  assert (Hb : (39 <= Z.of_nat 39)%Z) by lia.
  assert (H1 : (1 <= 39)%nat) by lia.
  exact (proj1 (battle_ends_within_opponent_hp 39 0 Fixtures.growl 39
                  {| currentBattle := Some Samples.scuffle; random := [];
                     catalog := [] |}
                  Samples.scuffle Hrow Hacc eq_refl Hs Ht Hn Hm Hne
                  (Forall_nil _) Hc Hlt Hb H1)).
Defined.

End ProgressFacts.
